(** * Experimental Async I/O: the completion multiplexer, the operation
      contexts, the socket primitives and the resolve-and-connect operation.

    The development follows [src/http/io.hpp] and [src/http/io.cpp].
    Win32 and Winsock calls are the environment: every call the code makes
    is given its answer by an explicit value (what the call returned, what
    it stored through its out-pointers, what [WSAGetLastError] reports
    afterwards), and the code under verification is everything around it. *)

From Stdlib Require Import ZArith List Bool Lia.
Import ListNotations.
Local Open Scope Z_scope.

(** ** Win32 vocabulary *)

Module Win32.

Definition DWORD := Z.
Definition ULONG := Z.
Definition ULONG_PTR := Z.
Definition SOCKET := Z.

Definition ERROR_SUCCESS : DWORD := 0.
Definition ERROR_IO_PENDING : DWORD := 997.
Definition INVALID_SOCKET : SOCKET := 18446744073709551615.
Definition TF_REUSE_SOCKET : DWORD := 2.

(** An [int] stored in a [ULONG]: the value modulo 2^32. *)
Definition to_ULONG (x : Z) : ULONG := x mod 2 ^ 32.

(** The two completion keys of the anonymous namespace of io.cpp. *)
Definition KEY_RUN : ULONG_PTR := 0.
Definition KEY_SHUTDOWN : ULONG_PTR := 1.

(** [OVERLAPPED], the completion descriptor handed to the OS by address. *)
Record OVERLAPPED := mkOVERLAPPED {
  Internal : Z;
  InternalHigh : Z;
  Offset : Z;
  OffsetHigh : Z;
  hEvent : Z
}.

(** [OVERLAPPED()] : value initialisation. *)
Definition OVERLAPPED_zero : OVERLAPPED := mkOVERLAPPED 0 0 0 0 0.

(** Answer of [WSAIoctl(SIO_GET_EXTENSION_FUNCTION_POINTER)]: zero and a
    function pointer, or non-zero and a last-error code. *)
Inductive ioctl_answer :=
| IoctlFound
| IoctlFailed (last_error : DWORD).

(** Answer of one overlapped call ([AcceptEx], [ConnectEx], [WSASend],
    [WSARecv], [DisconnectEx]).  [call_done] is [TRUE] for the BOOL
    calls and [0] for [WSASend]/[WSARecv]; [bytes_stored] is what the call
    wrote through its byte-count pointer, if it wrote anything;
    [flags_stored] what [WSARecv] wrote through its flags pointer;
    [last_error] what [WSAGetLastError] returns after the call. *)
Record call_answer := mkCall {
  call_done : bool;
  bytes_stored : option DWORD;
  flags_stored : option DWORD;
  last_error : DWORD
}.

(** Answer of [WSAGetOverlappedResult] for a completed request. *)
Record overlapped_result := mkOvl {
  ovl_ok : bool;
  ovl_transferred : DWORD;
  ovl_flags : DWORD;
  ovl_last_error : DWORD
}.

End Win32.
Import Win32.

(** ** Operation contexts (io.hpp) *)

(** [socket_context : op_context : OVERLAPPED].  The class has no
    constructor: a context holds whatever it held before. *)
Record socket_context := mkSockCtx {
  overlapped : OVERLAPPED;
  m_error : DWORD;
  m_sock : SOCKET;
  m_transferred : DWORD;
  m_flags : DWORD
}.

Definition status (c : socket_context) : DWORD := m_error c.
Definition has_error (c : socket_context) : bool :=
  negb (status c =? ERROR_SUCCESS).
Definition transferred (c : socket_context) : DWORD := m_transferred c.
Definition flags (c : socket_context) : DWORD := m_flags c.

Definition set_error (e : DWORD) (c : socket_context) : socket_context :=
  mkSockCtx (overlapped c) e (m_sock c) (m_transferred c) (m_flags c).
Definition set_transferred (t : DWORD) (c : socket_context) : socket_context :=
  mkSockCtx (overlapped c) (m_error c) (m_sock c) t (m_flags c).
Definition set_flags (f : DWORD) (c : socket_context) : socket_context :=
  mkSockCtx (overlapped c) (m_error c) (m_sock c) (m_transferred c) f.

(** [socket_context::init(sock)]: remember the socket, clear the descriptor. *)
Definition init (sock : SOCKET) (c : socket_context) : socket_context :=
  mkSockCtx OVERLAPPED_zero (m_error c) sock (m_transferred c) (m_flags c).

(** The OS writing through [&ctx.m_transferred]. *)
Definition store_bytes (b : option DWORD) (c : socket_context) : socket_context :=
  match b with
  | Some n => set_transferred n c
  | None => c
  end.

(** [op_context::check_error]: [Some e] is [throw winsock_error(e)]. *)
Definition check_error (c : socket_context) : option DWORD :=
  if m_error c =? ERROR_SUCCESS then None else Some (m_error c).

(** [socket_context::completion_func]. *)
Definition socket_completion_func (r : overlapped_result) (c : socket_context)
  : socket_context :=
  set_error (if ovl_ok r then ERROR_SUCCESS else ovl_last_error r)
    (set_flags (ovl_flags r) (set_transferred (ovl_transferred r) c)).

(** [connect_context::completion_func]: the base bookkeeping, then the
    [SO_UPDATE_CONNECT_CONTEXT] fixup when the connect succeeded.
    [setsockopt_ret] is the value [setsockopt] returns and [wsa_err] the
    last error it leaves; [inr e] is [throw winsock_error()]. *)
Definition connect_completion_func (r : overlapped_result)
    (setsockopt_ret : Z) (wsa_err : DWORD) (c : socket_context)
  : socket_context + (DWORD * socket_context) :=
  let c1 := socket_completion_func r c in
  if negb (has_error c1) then
    if negb (setsockopt_ret =? 0) then inr (wsa_err, c1) else inl c1
  else inl c1.

(** ** The completion port as the OS keeps it *)

(** Address of a context object; [None] is [nullptr]. *)
Definition ptr := nat.

Record packet := mkPacket {
  lpCompletionKey : ULONG_PTR;
  lpOverlapped : option ptr
}.

(** [inflight]: overlapped requests the OS accepted and has not completed;
    [queue]: completion packets waiting to be dequeued. *)
Record port := mkPort {
  inflight : list ptr;
  queue : list packet
}.

Definition is_pending (a : call_answer) : bool :=
  negb (call_done a) && (last_error a =? ERROR_IO_PENDING).

(** What an overlapped call on a socket leaves in the port.  Every socket is
    associated with the port under [KEY_RUN] and put in
    [FILE_SKIP_COMPLETION_PORT_ON_SUCCESS] mode by [socket::socket]: a call
    that finishes at once queues nothing, a call answered
    [ERROR_IO_PENDING] stays with the OS, a call refused starts nothing. *)
Definition os_overlapped_call (p : ptr) (a : call_answer) (w : port) : port :=
  if is_pending a then mkPort (inflight w ++ [p]) (queue w) else w.

Fixpoint remove_first (p : ptr) (l : list ptr) : list ptr :=
  match l with
  | [] => []
  | q :: l' => if Nat.eqb p q then l' else q :: remove_first p l'
  end.

(** The OS finishing an accepted request: one packet, keyed as the socket
    was associated. *)
Definition os_complete (p : ptr) (w : port) : port :=
  if existsb (Nat.eqb p) (inflight w)
  then mkPort (remove_first p (inflight w))
              (queue w ++ [mkPacket KEY_RUN (Some p)])
  else w.

(** ** Socket primitives (io.cpp, [io::socket]) *)

(** [WSABUF]: [len] is a [ULONG], [buf] an address. *)
Record WSABUF := mkWSABUF { buf : Z; len : ULONG }.

(** The Winsock calls the primitives make, as functions of the arguments
    the code passes. Pointers are addresses, [0] is [nullptr]. *)
Record winsock := mkWinsock {
  WSAIoctl_AcceptEx : SOCKET -> ioctl_answer;
  WSAIoctl_ConnectEx : SOCKET -> ioctl_answer;
  WSAIoctl_DisconnectEx : SOCKET -> ioctl_answer;
  AcceptEx : SOCKET -> SOCKET -> Z -> Z -> Z -> Z -> call_answer;
  ConnectEx : SOCKET -> Z -> Z -> Z -> Z -> call_answer;
  WSASend : SOCKET -> list WSABUF -> Z -> DWORD -> call_answer;
  WSARecv : SOCKET -> list WSABUF -> Z -> DWORD -> call_answer;
  DisconnectEx : SOCKET -> DWORD -> Z -> call_answer
}.

(** What a primitive hands back: its boolean, the context, the port. *)
Record issued := mkIssued {
  returned : bool;
  ctx : socket_context;
  os : port
}.

Section Primitives.

Variable ws : winsock.
(** [this->m_sock] of the socket the primitive is called on. *)
Variable sock : SOCKET.
(** Address of the context passed by reference. *)
Variable p : ptr.

(** The tail shared by the five primitives, after the OS call [a] ran on
    the initialised context [c]: success, pending or failure.
    [flags_on_success] is what the success branch stores in [m_flags]. *)
Definition classify (a : call_answer) (flags_on_success : DWORD)
    (c : socket_context) (w : port) : issued :=
  if call_done a then
    mkIssued true (set_flags flags_on_success (set_error ERROR_SUCCESS c)) w
  else
    let err := last_error a in
    if err =? ERROR_IO_PENDING then mkIssued false c w
    else mkIssued true (set_flags 0 (set_error err c)) w.

(** The branch taken when the extension function cannot be looked up. *)
Definition ioctl_failed (e : DWORD) (c : socket_context) (w : port) : issued :=
  mkIssued true (set_flags 0 (set_transferred 0 (set_error e c))) w.

Definition accept_and_receive (accepted : SOCKET)
    (buffer receive_len local_len remote_len : Z)
    (c : socket_context) (w : port) : issued :=
  match WSAIoctl_AcceptEx ws sock with
  | IoctlFailed e => ioctl_failed e c w
  | IoctlFound =>
      let a := AcceptEx ws sock accepted buffer receive_len local_len remote_len in
      classify a 0 (store_bytes (bytes_stored a) (init sock c))
               (os_overlapped_call p a w)
  end.

Definition connect_and_send (name name_len buffer buffer_len : Z)
    (c : socket_context) (w : port) : issued :=
  match WSAIoctl_ConnectEx ws sock with
  | IoctlFailed e => ioctl_failed e c w
  | IoctlFound =>
      let a := ConnectEx ws sock name name_len buffer buffer_len in
      classify a 0 (store_bytes (bytes_stored a) (init sock c))
               (os_overlapped_call p a w)
  end.

Definition connect (name name_len : Z) (c : socket_context) (w : port)
  : issued :=
  connect_and_send name name_len 0 0 c w.

Definition send_bufs (buffers : list WSABUF) (buffer_count : Z)
    (fl : DWORD) (c : socket_context) (w : port) : issued :=
  let a := WSASend ws sock buffers buffer_count fl in
  classify a 0 (store_bytes (bytes_stored a) (init sock c))
           (os_overlapped_call p a w).

(** The single-buffer overload: [buf.len = buffer_len] stores the [int]
    in the [ULONG] field. *)
Definition send (buffer buffer_len : Z) (fl : DWORD)
    (c : socket_context) (w : port) : issued :=
  send_bufs [mkWSABUF buffer (to_ULONG buffer_len)] 1 fl c w.

(** [WSARecv] takes [&flags]: the local copy may be rewritten by the call
    and is what the success branch stores. *)
Definition receive_bufs (buffers : list WSABUF) (buffer_count : Z)
    (fl : DWORD) (c : socket_context) (w : port) : issued :=
  let a := WSARecv ws sock buffers buffer_count fl in
  let fl' := match flags_stored a with Some f => f | None => fl end in
  classify a fl' (store_bytes (bytes_stored a) (init sock c))
           (os_overlapped_call p a w).

(** The single-buffer overload, with the same store into [buf.len]. *)
Definition receive (buffer buffer_len : Z) (fl : DWORD)
    (c : socket_context) (w : port) : issued :=
  receive_bufs [mkWSABUF buffer (to_ULONG buffer_len)] 1 fl c w.

(** [DisconnectEx] has no byte-count parameter. *)
Definition disconnect (reuse : bool) (c : socket_context) (w : port)
  : issued :=
  match WSAIoctl_DisconnectEx ws sock with
  | IoctlFailed e => ioctl_failed e c w
  | IoctlFound =>
      let a := DisconnectEx ws sock (if reuse then TF_REUSE_SOCKET else 0) 0 in
      classify a 0 (init sock c) (os_overlapped_call p a w)
  end.

End Primitives.

(** ** Control outcomes *)

(** A C++ call on state [S] returns a value, throws
    [win32_error]/[winsock_error] carrying a code, or dereferences a null
    pointer.  A throw keeps the state the callee had reached: the objects
    are the caller's. *)
Inductive outcome (R S : Type) :=
| Returns (r : R) (s : S)
| Throws (err : DWORD) (s : S)
| NullDeref.
Arguments Returns {R S} r s.
Arguments Throws {R S} err s.
Arguments NullDeref {R S}.

Definition bind {R R' S} (m : outcome R S) (k : R -> S -> outcome R' S)
  : outcome R' S :=
  match m with
  | Returns r s => k r s
  | Throws e s => Throws e s
  | NullDeref => NullDeref
  end.

(** ** Name resolution ([io::resolve], [resolve_context]) *)

(** One node of the [ADDRINFOEXW] list; the list itself is a Rocq list,
    the null pointer is [[]]. *)
Record addrinfo := mkAddrinfo {
  ai_family : Z;
  ai_socktype : Z;
  ai_protocol : Z;
  ai_addrlen : Z;
  ai_addr : Z
}.

Record resolve_context := mkResolveCtx {
  r_overlapped : OVERLAPPED;
  r_error : DWORD;
  m_iocp : Z;
  m_rawres : list addrinfo;
  m_result : list addrinfo
}.

Definition r_has_error (c : resolve_context) : bool :=
  negb (r_error c =? ERROR_SUCCESS).

Definition r_set_error (e : DWORD) (c : resolve_context) : resolve_context :=
  mkResolveCtx (r_overlapped c) e (m_iocp c) (m_rawres c) (m_result c).

(** Answer of [GetAddrInfoExW]: its return value and what it stored through
    [&ctx.m_rawres] before returning, if anything. *)
Record gai_answer := mkGai {
  gai_ret : DWORD;
  gai_stored : option (list addrinfo)
}.

(** What the resolver hands to [lookup_completion] when a pending lookup
    ends: the error argument, and the list it stored in [m_rawres]. *)
Record lookup_answer := mkLookup {
  lk_error : DWORD;
  lk_stored : list addrinfo
}.

Record resolved := mkResolved {
  r_returned : bool;
  r_ctx : resolve_context;
  r_os : port
}.

(** [resolve_helpers::resolve].  A lookup answered [ERROR_IO_PENDING] stays
    with the resolver. *)
Definition resolve (iocp : Z) (a : gai_answer) (p : ptr)
    (c : resolve_context) (w : port) : resolved :=
  let c := mkResolveCtx OVERLAPPED_zero (r_error c) iocp
             (match gai_stored a with Some l => l | None => m_rawres c end)
             (m_result c) in
  let err := gai_ret a in
  if err =? 0 then mkResolved true (r_set_error ERROR_SUCCESS c) w
  else if err =? ERROR_IO_PENDING
       then mkResolved false c (mkPort (inflight w ++ [p]) (queue w))
       else mkResolved true (r_set_error err c) w.

(** [resolve_context::lookup_completion], entered by the resolver with the
    context it was given; it posts the packet itself and does not look at
    the result of the post, which is taken to succeed. *)
Definition lookup_completion (error : DWORD) (p : ptr)
    (c : resolve_context) (w : port) : resolve_context * port :=
  let c :=
    if (error =? ERROR_SUCCESS) && negb (match m_rawres c with [] => true | _ => false end)
    then mkResolveCtx (r_overlapped c) (r_error c) (m_iocp c) [] (m_rawres c)
    else c in
  (r_set_error error c,
   mkPort (inflight w) (queue w ++ [mkPacket KEY_RUN (Some p)])).

(** The resolver finishing a pending lookup: it fills [m_rawres], then
    calls [lookup_completion]. *)
Definition os_lookup_done (a : lookup_answer) (p : ptr)
    (c : resolve_context) (w : port) : resolve_context * port :=
  if existsb (Nat.eqb p) (inflight w) then
    lookup_completion (lk_error a) p
      (mkResolveCtx (r_overlapped c) (r_error c) (m_iocp c) (lk_stored a) (m_result c))
      (mkPort (remove_first p (inflight w)) (queue w))
  else (c, w).

(** ** The completion multiplexer ([io::service]) *)

(** What [GetQueuedCompletionStatus] hands back: its BOOL, the key and the
    descriptor pointer it stored, and the last error. *)
Record gqcs_answer := mkGqcs {
  gq_ret : bool;
  gq_key : ULONG_PTR;
  gq_overlapped : option ptr;
  gq_error : DWORD
}.

(** What [GetQueuedCompletionStatusEx] hands back: its BOOL, the entries it
    filled ([removed] is their number) and the last error. *)
Record gqcs_ex_answer := mkGqcsEx {
  gqx_ret : bool;
  gqx_entries : list packet;
  gqx_error : DWORD
}.

(** The blocking waits as the OS serves them from the queue: [None] while
    nothing is queued (the timeout is [INFINITE]); a posted or completed
    packet otherwise; [wait_failure] is a wait that fails outright.  A
    packet of a failed I/O is dequeued with [FALSE] and its descriptor. *)
Definition GetQueuedCompletionStatus (wait_failure : option DWORD)
    (io_ok : bool) (w : port) : option (gqcs_answer * port) :=
  match wait_failure with
  | Some e => Some (mkGqcs false 0 None e, w)
  | None =>
      match queue w with
      | [] => None
      | pk :: rest =>
          Some (mkGqcs (match lpOverlapped pk with None => true | Some _ => io_ok end)
                       (lpCompletionKey pk) (lpOverlapped pk) 0,
                mkPort (inflight w) rest)
      end
  end.

Definition GetQueuedCompletionStatusEx (wait_failure : option DWORD)
    (count : nat) (w : port) : option (gqcs_ex_answer * port) :=
  match wait_failure with
  | Some e => Some (mkGqcsEx false [] e, w)
  | None =>
      match queue w with
      | [] => None
      | _ => Some (mkGqcsEx true (firstn count (queue w)) 0,
                   mkPort (inflight w) (skipn count (queue w)))
      end
  end.

(** [PostQueuedCompletionStatus(m_iocp, 0, key, overlapped)]. *)
Definition PostQueuedCompletionStatus (key : ULONG_PTR) (o : option ptr)
    (w : port) : port :=
  mkPort (inflight w) (queue w ++ [mkPacket key o]).

Section Service.

(** The objects of the program, and the virtual call
    [static_cast<op_context*>(overlapped)->completion_func()] on the
    object at an address. *)
Variable St : Type.
Variable completion_func : ptr -> St -> outcome unit St.

(** The program state together with the list of hooks the multiplexer
    has invoked, oldest first. *)
Record driven := mkDriven {
  prog : St;
  dispatched : list ptr
}.

Definition dispatch (o : option ptr) (d : driven) : outcome unit driven :=
  match o with
  | None => NullDeref
  | Some p =>
      match completion_func p (prog d) with
      | Returns _ s => Returns tt (mkDriven s (dispatched d ++ [p]))
      | Throws e s => Throws e (mkDriven s (dispatched d ++ [p]))
      | NullDeref => NullDeref
      end
  end.

(** [service::run], after the wait returned [a]. *)
Definition run (a : gqcs_answer) (d : driven) : outcome bool driven :=
  if negb (gq_ret a) && (match gq_overlapped a with None => true | Some _ => false end)
  then Throws (gq_error a) d
  else if gq_key a =? KEY_SHUTDOWN then Returns false d
  else bind (dispatch (gq_overlapped a) d) (fun _ d' => Returns true d').

(** The [for] loop of [service::run_many] over the filled entries. *)
Fixpoint run_entries (entries : list packet) (keep_running : bool)
    (d : driven) : outcome bool driven :=
  match entries with
  | [] => Returns keep_running d
  | e :: rest =>
      if lpCompletionKey e =? KEY_RUN
      then bind (dispatch (lpOverlapped e) d)
                (fun _ d' => run_entries rest keep_running d')
      else run_entries rest false d
  end.

(** [service::run_many], after the wait returned [a]. *)
Definition run_many (a : gqcs_ex_answer) (d : driven) : outcome bool driven :=
  if negb (gqx_ret a) then Throws (gqx_error a) d
  else run_entries (gqx_entries a) true d.

End Service.

Arguments mkDriven {St} prog dispatched.
Arguments prog {St} d.
Arguments dispatched {St} d.

(** [service::shutdown]; [post_ok] is the BOOL of the post, [err] the last
    error when it fails. *)
Definition shutdown (post_ok : bool) (err : DWORD) (w : port)
  : outcome unit port :=
  if negb post_ok then Throws err w
  else Returns tt (PostQueuedCompletionStatus KEY_SHUTDOWN None w).

(** ** Bound contexts ([async_context<BaseContext>]) *)

(** The base context and the back-reference [m_op], set by the constructor
    and private to the class. *)
Record async_context (B : Type) := mkAsync {
  base : B;
  m_op : ptr
}.
Arguments mkAsync {B} base m_op.
Arguments base {B} a.
Arguments m_op {B} a.

(** [async_context(async_op *op)]. *)
Definition async_context_ctor {B} (b : B) (op : ptr) : async_context B :=
  mkAsync b op.

(** [async_context<BaseContext>::completion_func], on a program state [S]:
    [base_completion_func] is [BaseContext::completion_func()] on this
    context, [step_at] the virtual call [m_op->step()]. *)
Definition async_completion_func {B S}
    (base_completion_func : S -> outcome unit S)
    (step_at : ptr -> S -> outcome unit S)
    (c : async_context B) (s : S) : outcome unit S :=
  bind (base_completion_func s) (fun _ s' => step_at (m_op c) s').

(** ** Resolve-and-connect ([resolve_and_connect_context]) *)

Inductive resume_point := on_start | on_resolve | on_connect.

(** What the operation does to the outside, in order.  [EvStep] marks an
    entry into [step()] with the tag the [switch] reads; [EvCompleted] is
    the call [this->completion_func()]. *)
Inductive event :=
| EvStep (tag : resume_point)
| EvResolve (hostname servicename : Z)
| EvSocket (a : addrinfo) (h : SOCKET)
| EvBind (h : SOCKET) (family addrlen : Z)
| EvConnect (a : addrinfo) (h : SOCKET)
| EvSetsockopt (h : SOCKET)
| EvClosesocket (h : SOCKET)
| EvCompleted.

(** The answers the OS gives while one candidate is tried. *)
Record attempt := mkAttempt {
  at_socket : SOCKET;               (* WSASocket *)
  at_socket_error : DWORD;          (* last error when it is INVALID_SOCKET *)
  at_associate : option DWORD;      (* [Some e]: association with the port failed *)
  at_bind : Z;                      (* ::bind *)
  at_bind_error : DWORD;
  at_ioctl : ioctl_answer;          (* WSAIoctl for ConnectEx *)
  at_connect : call_answer;         (* ConnectEx *)
  at_result : overlapped_result;    (* WSAGetOverlappedResult, if it was pending *)
  at_setsockopt : Z;                (* setsockopt(SO_UPDATE_CONNECT_CONTEXT) *)
  at_setsockopt_error : DWORD
}.

Record environment := mkEnv {
  env_gai : gai_answer;
  env_lookup : lookup_answer;
  env_attempt : addrinfo -> attempt
}.

Definition winsock_of (t : attempt) : winsock :=
  mkWinsock (fun _ => IoctlFailed 0) (fun _ => at_ioctl t) (fun _ => IoctlFailed 0)
    (fun _ _ _ _ _ _ => mkCall false None None 0)
    (fun _ _ _ _ _ => at_connect t)
    (fun _ _ _ _ => mkCall false None None 0)
    (fun _ _ _ _ => mkCall false None None 0)
    (fun _ _ _ => mkCall false None None 0).

(** The object: the [socket_context] it derives from ([rc_base]), its
    private members, the caller's socket object [*sock] (its [m_sock]),
    and, beside it, the port of [*svc] and the trace. *)
Record resolve_and_connect_context := mkRcc {
  rc_base : socket_context;
  state : resume_point;
  resolve_ctx : async_context resolve_context;
  connect_ctx : async_context socket_context;
  sync : bool;
  iter : list addrinfo;
  svc : Z;
  sock : SOCKET;
  hostname : Z;
  servicename : Z;
  buffer : Z;
  buffer_len : Z;
  the_port : port;
  trace : list event
}.

Definition p_this : ptr := 0%nat.
Definition p_resolve_ctx : ptr := 1%nat.
Definition p_connect_ctx : ptr := 2%nat.

(** Field updates. *)
Definition set_rc_base (v : socket_context) (s : resolve_and_connect_context)
  : resolve_and_connect_context :=
  mkRcc v (state s) (resolve_ctx s) (connect_ctx s) (sync s) (iter s) (svc s) (sock s) (hostname s) (servicename s) (buffer s) (buffer_len s) (the_port s) (trace s).
Definition set_state (v : resume_point) (s : resolve_and_connect_context)
  : resolve_and_connect_context :=
  mkRcc (rc_base s) v (resolve_ctx s) (connect_ctx s) (sync s) (iter s) (svc s) (sock s) (hostname s) (servicename s) (buffer s) (buffer_len s) (the_port s) (trace s).
Definition set_resolve_ctx (v : async_context resolve_context) (s : resolve_and_connect_context)
  : resolve_and_connect_context :=
  mkRcc (rc_base s) (state s) v (connect_ctx s) (sync s) (iter s) (svc s) (sock s) (hostname s) (servicename s) (buffer s) (buffer_len s) (the_port s) (trace s).
Definition set_connect_ctx (v : async_context socket_context) (s : resolve_and_connect_context)
  : resolve_and_connect_context :=
  mkRcc (rc_base s) (state s) (resolve_ctx s) v (sync s) (iter s) (svc s) (sock s) (hostname s) (servicename s) (buffer s) (buffer_len s) (the_port s) (trace s).
Definition set_sync (v : bool) (s : resolve_and_connect_context)
  : resolve_and_connect_context :=
  mkRcc (rc_base s) (state s) (resolve_ctx s) (connect_ctx s) v (iter s) (svc s) (sock s) (hostname s) (servicename s) (buffer s) (buffer_len s) (the_port s) (trace s).
Definition set_iter (v : list addrinfo) (s : resolve_and_connect_context)
  : resolve_and_connect_context :=
  mkRcc (rc_base s) (state s) (resolve_ctx s) (connect_ctx s) (sync s) v (svc s) (sock s) (hostname s) (servicename s) (buffer s) (buffer_len s) (the_port s) (trace s).
Definition set_svc (v : Z) (s : resolve_and_connect_context)
  : resolve_and_connect_context :=
  mkRcc (rc_base s) (state s) (resolve_ctx s) (connect_ctx s) (sync s) (iter s) v (sock s) (hostname s) (servicename s) (buffer s) (buffer_len s) (the_port s) (trace s).
Definition set_sock (v : SOCKET) (s : resolve_and_connect_context)
  : resolve_and_connect_context :=
  mkRcc (rc_base s) (state s) (resolve_ctx s) (connect_ctx s) (sync s) (iter s) (svc s) v (hostname s) (servicename s) (buffer s) (buffer_len s) (the_port s) (trace s).
Definition set_hostname (v : Z) (s : resolve_and_connect_context)
  : resolve_and_connect_context :=
  mkRcc (rc_base s) (state s) (resolve_ctx s) (connect_ctx s) (sync s) (iter s) (svc s) (sock s) v (servicename s) (buffer s) (buffer_len s) (the_port s) (trace s).
Definition set_servicename (v : Z) (s : resolve_and_connect_context)
  : resolve_and_connect_context :=
  mkRcc (rc_base s) (state s) (resolve_ctx s) (connect_ctx s) (sync s) (iter s) (svc s) (sock s) (hostname s) v (buffer s) (buffer_len s) (the_port s) (trace s).
Definition set_buffer (v : Z) (s : resolve_and_connect_context)
  : resolve_and_connect_context :=
  mkRcc (rc_base s) (state s) (resolve_ctx s) (connect_ctx s) (sync s) (iter s) (svc s) (sock s) (hostname s) (servicename s) v (buffer_len s) (the_port s) (trace s).
Definition set_buffer_len (v : Z) (s : resolve_and_connect_context)
  : resolve_and_connect_context :=
  mkRcc (rc_base s) (state s) (resolve_ctx s) (connect_ctx s) (sync s) (iter s) (svc s) (sock s) (hostname s) (servicename s) (buffer s) v (the_port s) (trace s).
Definition set_the_port (v : port) (s : resolve_and_connect_context)
  : resolve_and_connect_context :=
  mkRcc (rc_base s) (state s) (resolve_ctx s) (connect_ctx s) (sync s) (iter s) (svc s) (sock s) (hostname s) (servicename s) (buffer s) (buffer_len s) v (trace s).
Definition set_trace (v : list event) (s : resolve_and_connect_context)
  : resolve_and_connect_context :=
  mkRcc (rc_base s) (state s) (resolve_ctx s) (connect_ctx s) (sync s) (iter s) (svc s) (sock s) (hostname s) (servicename s) (buffer s) (buffer_len s) (the_port s) v.

Definition log (e : event) (s : resolve_and_connect_context)
  : resolve_and_connect_context :=
  set_trace (trace s ++ [e]) s.

(** [resolve_and_connect_context()] over the memory [mem] it is built in:
    both contexts are bound to [this], the shared pointer starts null, the
    other members keep what the memory held. *)
Definition rcc_ctor (mem : resolve_and_connect_context)
  : resolve_and_connect_context :=
  let r := base (resolve_ctx mem) in
  set_connect_ctx (async_context_ctor (base (connect_ctx mem)) p_this)
    (set_resolve_ctx
       (async_context_ctor
          (mkResolveCtx (r_overlapped r) (r_error r) (m_iocp r) (m_rawres r) [])
          p_this) mem).

(** [socket::close] on [*sock]. *)
Definition socket_close (s : resolve_and_connect_context)
  : resolve_and_connect_context :=
  let s := if negb (sock s =? INVALID_SOCKET)
           then log (EvClosesocket (sock s)) s else s in
  set_sock INVALID_SOCKET s.

(** [socket::socket(svc, family, type, protocol)] for candidate [a]: the
    handle of the temporary. *)
Definition socket_ctor (t : attempt) (a : addrinfo)
    (s : resolve_and_connect_context)
  : outcome SOCKET resolve_and_connect_context :=
  let h := at_socket t in
  let s := log (EvSocket a h) s in
  if h =? INVALID_SOCKET then Throws (at_socket_error t) s
  else match at_associate t with
       | Some e => Throws e (log (EvClosesocket h) s)
       | None => Returns h s
       end.

(** [*sock = socket{...}]: move assignment closes the old socket and takes
    the handle; the emptied temporary closes nothing. *)
Definition socket_move_assign (h : SOCKET) (s : resolve_and_connect_context)
  : resolve_and_connect_context :=
  set_sock h (socket_close s).

(** [socket::bind] on [*sock]. *)
Definition socket_bind (t : attempt) (a : addrinfo)
    (s : resolve_and_connect_context)
  : outcome unit resolve_and_connect_context :=
  let s := log (EvBind (sock s) (ai_family a) (ai_addrlen a)) s in
  if negb (at_bind t =? 0) then Throws (at_bind_error t) s
  else Returns tt s.

(** The three places that record the final outcome:
    [m_error], [m_transferred], [m_flags], then
    [if (!sync) this->completion_func()], then [return]. *)
Definition finish (e t f : DWORD) (s : resolve_and_connect_context)
  : outcome unit resolve_and_connect_context :=
  let s := set_rc_base
             (set_flags f (set_transferred t (set_error e (rc_base s)))) s in
  Returns tt (if negb (sync s) then log EvCompleted s else s).

Section ResolveAndConnect.

Variable env : environment.

(** From [case on_connect:] to the end of the loop body, for the current
    candidate with [rest] after it; [next] is the loop taken up again at
    [iter->ai_next] by [continue]. *)
Definition on_connect_label
    (next : resolve_and_connect_context ->
            outcome unit resolve_and_connect_context)
    (rest : list addrinfo) (s : resolve_and_connect_context)
  : outcome unit resolve_and_connect_context :=
  let c := base (connect_ctx s) in
  if has_error c then
    let s := socket_close s in
    match rest with
    | [] => finish (status c) (transferred c) (flags c) s
    | _ :: _ => next s
    end
  else finish ERROR_SUCCESS (transferred c) (flags c) s.

(** The [for] loop entered with [iter = it]. *)
Fixpoint connect_loop (it : list addrinfo)
    (s : resolve_and_connect_context)
  : outcome unit resolve_and_connect_context :=
  let s := set_iter it s in
  match it with
  | [] => Returns tt s
  | a :: rest =>
      let t := env_attempt env a in
      bind (socket_ctor t a s) (fun h s =>
      let s := socket_move_assign h s in
      bind (socket_bind t a s) (fun _ s =>
      let s := set_state on_connect s in
      let r := connect_and_send (winsock_of t) (sock s) p_connect_ctx
                 (ai_addr a) (ai_addrlen a) (buffer s) (buffer_len s)
                 (base (connect_ctx s)) (the_port s) in
      let s := log (EvConnect a (sock s))
                 (set_the_port (os r)
                    (set_connect_ctx (mkAsync (ctx r) (m_op (connect_ctx s))) s)) in
      if negb (returned r) then Returns tt (set_sync false s)
      else on_connect_label (connect_loop rest) rest s))
  end.

(** From [case on_resolve:] on. *)
Definition on_resolve_label (s : resolve_and_connect_context)
  : outcome unit resolve_and_connect_context :=
  let r := base (resolve_ctx s) in
  if r_has_error r then finish (r_error r) 0 0 s
  else connect_loop (m_result r) s.

(** [resolve_and_connect_context::step]. *)
Definition step (s : resolve_and_connect_context)
  : outcome unit resolve_and_connect_context :=
  let s := log (EvStep (state s)) s in
  match state s with
  | on_start =>
      let s := set_state on_resolve s in
      let r := resolve (svc s) (env_gai env) p_resolve_ctx
                 (base (resolve_ctx s)) (the_port s) in
      let s := log (EvResolve (hostname s) (servicename s))
                 (set_the_port (r_os r)
                    (set_resolve_ctx (mkAsync (r_ctx r) (m_op (resolve_ctx s))) s)) in
      if negb (r_returned r) then Returns tt (set_sync false s)
      else on_resolve_label s
  | on_resolve => on_resolve_label s
  | on_connect =>
      match iter s with
      | [] =>
          let c := base (connect_ctx s) in
          if has_error c then NullDeref
          else finish ERROR_SUCCESS (transferred c) (flags c) s
      | _ :: rest => on_connect_label (connect_loop rest) rest s
      end
  end.

(** [connect_and_send_helpers::connect_and_send]: the boolean is
    [ctx.sync] after the first [step()]. *)
Definition rcc_connect_and_send (svc_handle : Z) (hostname' servicename' : Z)
    (buffer' buffer_len' : Z) (s : resolve_and_connect_context)
  : outcome bool resolve_and_connect_context :=
  let s := set_svc svc_handle s in
  let s := set_hostname hostname' s in
  let s := set_servicename servicename' s in
  let s := set_buffer buffer' s in
  let s := set_buffer_len buffer_len' s in
  let s := set_state on_start s in
  let s := set_sync true s in
  bind (step s) (fun _ s' => Returns (sync s') s').

End ResolveAndConnect.

(** ** The operation under the multiplexer *)

Section Driving.

Variable env : environment.

(** [m_op->step()]: the only [async_op] here is the operation itself. *)
Definition step_at (q : ptr) (s : resolve_and_connect_context)
  : outcome unit resolve_and_connect_context :=
  if Nat.eqb q p_this then step env s else NullDeref.

(** [resolve_context] inherits [op_context::completion_func() { }]. *)
Definition resolve_base_completion_func (s : resolve_and_connect_context)
  : outcome unit resolve_and_connect_context :=
  Returns tt s.

(** [connect_context::completion_func] on [connect_ctx]; the request that
    completed is the one issued for the candidate [iter] points at. *)
Definition connect_base_completion_func (s : resolve_and_connect_context)
  : outcome unit resolve_and_connect_context :=
  match iter s with
  | [] => NullDeref
  | a :: _ =>
      let t := env_attempt env a in
      let c := base (connect_ctx s) in
      let put c1 := set_connect_ctx (mkAsync c1 (m_op (connect_ctx s))) s in
      match connect_completion_func (at_result t) (at_setsockopt t)
              (at_setsockopt_error t) c with
      | inl c1 =>
          Returns tt (if has_error c1 then put c1
                      else log (EvSetsockopt (m_sock c1)) (put c1))
      | inr (e, c1) => Throws e (log (EvSetsockopt (m_sock c1)) (put c1))
      end
  end.

(** The virtual [completion_func] of the object at address [q];
    [resolve_and_connect_context::completion_func] has an empty body. *)
Definition completion_func (q : ptr) (s : resolve_and_connect_context)
  : outcome unit resolve_and_connect_context :=
  if Nat.eqb q p_resolve_ctx then
    async_completion_func resolve_base_completion_func step_at (resolve_ctx s) s
  else if Nat.eqb q p_connect_ctx then
    async_completion_func connect_base_completion_func step_at (connect_ctx s) s
  else if Nat.eqb q p_this then Returns tt s
  else NullDeref.

(** The OS finishing the oldest request it holds. *)
Definition os_finish (s : resolve_and_connect_context)
  : resolve_and_connect_context :=
  match inflight (the_port s) with
  | [] => s
  | q :: _ =>
      if Nat.eqb q p_resolve_ctx then
        let (c, w) := os_lookup_done (env_lookup env) q
                        (base (resolve_ctx s)) (the_port s) in
        set_the_port w (set_resolve_ctx (mkAsync c (m_op (resolve_ctx s))) s)
      else set_the_port (os_complete q (the_port s)) s
  end.

(** One turn of the driving loop: let the OS finish a request when the
    queue is empty, then [service::run]. [None]: nothing left to wait
    for.  The BOOL of the wait is not looked at by [run] once a
    descriptor is attached. *)
Definition turn (d : driven resolve_and_connect_context)
  : option (outcome bool (driven resolve_and_connect_context)) :=
  let s := match queue (the_port (prog d)) with
           | [] => os_finish (prog d)
           | _ => prog d
           end in
  match GetQueuedCompletionStatus None true (the_port s) with
  | None => None
  | Some (a, w) =>
      Some (run _ completion_func a (mkDriven (set_the_port w s) (dispatched d)))
  end.

Fixpoint drive (fuel : nat) (d : driven resolve_and_connect_context)
  : outcome unit (driven resolve_and_connect_context) :=
  match fuel with
  | O => Returns tt d
  | S n =>
      match turn d with
      | None => Returns tt d
      | Some o => bind o (fun _ d' => drive n d')
      end
  end.

(** The whole operation: the call, then the multiplexer until nothing is
    outstanding.  The boolean is what the call returned. *)
Definition operation (fuel : nat) (svc_handle hostname' servicename' : Z)
    (buffer' buffer_len' : Z) (s : resolve_and_connect_context)
  : outcome bool (driven resolve_and_connect_context) :=
  match rcc_connect_and_send env svc_handle hostname' servicename'
          buffer' buffer_len' s with
  | Returns b s' =>
      bind (drive fuel (mkDriven s' [])) (fun _ d => Returns b d)
  | Throws e s' => Throws e (mkDriven s' [])
  | NullDeref => NullDeref
  end.

(** Whether anything is still outstanding for the operation. *)
Definition quiescent (s : resolve_and_connect_context) : bool :=
  match inflight (the_port s), queue (the_port s) with
  | [], [] => true
  | _, _ => false
  end.

End Driving.

(** ** Vocabulary of the statements *)

(** A call that neither finished nor was accepted. *)
Definition fails_immediately (a : call_answer) : bool :=
  negb (call_done a) && negb (last_error a =? ERROR_IO_PENDING).

(** Synchronous completion with error [e]: [true], the code in [m_error],
    [m_flags] cleared, nothing handed to the OS. *)
Definition completed_with_error (e : DWORD) (w : port) (r : issued) : Prop :=
  returned r = true /\ m_error (ctx r) = e /\ m_flags (ctx r) = 0 /\ os r = w.

(** The keys this program ever puts on a port. *)
Definition known_key (pk : packet) : bool :=
  (lpCompletionKey pk =? KEY_RUN) || (lpCompletionKey pk =? KEY_SHUTDOWN).

Definition is_shutdown_entry (pk : packet) : bool :=
  lpCompletionKey pk =? KEY_SHUTDOWN.

(** The descriptors of the entries that are not shutdown entries. *)
Fixpoint hooks_due (entries : list packet) : list ptr :=
  match entries with
  | [] => []
  | pk :: rest =>
      if is_shutdown_entry pk then hooks_due rest
      else match lpOverlapped pk with
           | Some q => q :: hooks_due rest
           | None => hooks_due rest
           end
  end.

(** Every entry that is not a shutdown entry carries a descriptor. *)
Definition carries_context (pk : packet) : bool :=
  is_shutdown_entry pk ||
  match lpOverlapped pk with Some _ => true | None => false end.

(** The program state after the hooks of [qs] ran in order, when each of
    them returns. *)
Fixpoint after_hooks {St} (cf : ptr -> St -> outcome unit St)
    (qs : list ptr) (s : St) : option St :=
  match qs with
  | [] => Some s
  | q :: rest =>
      match cf q s with
      | Returns _ s' => after_hooks cf rest s'
      | _ => None
      end
  end.

(** ** Sample worlds *)

Module Sample.

Definition ctx0 : socket_context := mkSockCtx OVERLAPPED_zero 11 12 13 14.
Definition ctx1 : socket_context := mkSockCtx OVERLAPPED_zero 11 12 99 14.
Definition port0 : port := mkPort [] [].

Definition refused : call_answer := mkCall false None None 10061.
Definition accepted : call_answer := mkCall false None None ERROR_IO_PENDING.
Definition done_plain : call_answer := mkCall true None None 0.

(** A Winsock whose every overlapped call answers [a], the extension
    lookups answering [io]. *)
Definition winsock_answering (io : ioctl_answer) (a : call_answer) : winsock :=
  mkWinsock (fun _ => io) (fun _ => io) (fun _ => io)
    (fun _ _ _ _ _ _ => a) (fun _ _ _ _ _ => a)
    (fun _ _ _ _ => a) (fun _ _ _ _ => a) (fun _ _ _ => a).

Definition ws_no_extension : winsock :=
  winsock_answering (IoctlFailed 10045) refused.
Definition ws_refusing : winsock := winsock_answering IoctlFound refused.
Definition ws_accepting : winsock := winsock_answering IoctlFound accepted.
Definition ws_done : winsock := winsock_answering IoctlFound done_plain.

End Sample.

Module SampleBatch.

(** A program that only counts hook invocations. *)
Definition counting (q : ptr) (n : nat) : outcome unit nat := Returns tt (S n).

(** A real completion, the shutdown sentinel, another real completion. *)
Definition port3 : port :=
  mkPort [] [mkPacket KEY_RUN (Some 4%nat); mkPacket KEY_SHUTDOWN None;
             mkPacket KEY_RUN (Some 7%nat)].

(** A program whose hook on descriptor 7 throws. *)
Definition fragile (q : ptr) (n : nat) : outcome unit nat :=
  if Nat.eqb q 7 then Throws 5 n else Returns tt (S n).

(** A real completion, the one whose hook throws, the shutdown sentinel,
    another real completion. *)
Definition port4 : port :=
  mkPort [] [mkPacket KEY_RUN (Some 4%nat); mkPacket KEY_RUN (Some 7%nat);
             mkPacket KEY_SHUTDOWN None; mkPacket KEY_RUN (Some 9%nat)].

End SampleBatch.

(** ** Vocabulary for the resolve-and-connect statements *)

Definition is_step (e : event) : bool :=
  match e with EvStep _ => true | _ => false end.

(** How many times [step()] was entered along a trace. *)
Definition steps_entered (tr : list event) : nat :=
  length (filter is_step tr).

(** The contexts of the operation are bound to the operation. *)
Definition bound_to_this (s : resolve_and_connect_context) : Prop :=
  m_op (resolve_ctx s) = p_this /\ m_op (connect_ctx s) = p_this.

(** Nothing is in flight and nothing is queued. *)
Definition idle (w : port) : Prop := w = mkPort [] [].

(** The socket for the candidate can be created, associated and bound. *)
Definition attempt_ready (t : attempt) : bool :=
  negb (at_socket t =? INVALID_SOCKET) &&
  match at_associate t with None => true | Some _ => false end &&
  (at_bind t =? 0).

(** The connect of the candidate was accepted by the OS and finishes
    later. *)
Definition connect_suspends (t : attempt) : bool :=
  match at_ioctl t with
  | IoctlFailed _ => false
  | IoctlFound => is_pending (at_connect t)
  end.

(** The code the candidate's connect ends with: the lookup's error, the
    error of the call, or the error of the completed request. *)
Definition connect_code (t : attempt) : DWORD :=
  match at_ioctl t with
  | IoctlFailed e => e
  | IoctlFound =>
      if call_done (at_connect t) then ERROR_SUCCESS
      else if last_error (at_connect t) =? ERROR_IO_PENDING
           then (if ovl_ok (at_result t) then ERROR_SUCCESS
                 else ovl_last_error (at_result t))
           else last_error (at_connect t)
  end.

Definition connect_fails (t : attempt) : bool :=
  negb (connect_code t =? ERROR_SUCCESS).

(** The connect succeeds, and the fixup of a connect completed by the
    multiplexer does not throw. *)
Definition connect_succeeds (t : attempt) : bool :=
  (connect_code t =? ERROR_SUCCESS) &&
  (negb (connect_suspends t) || (at_setsockopt t =? 0)).

Definition close_events (h : SOCKET) : list event :=
  if h =? INVALID_SOCKET then [] else [EvClosesocket h].

(** What trying candidate [a] shows, [old] being the handle [*sock] held
    before: one socket, the old one closed by the move assignment, one
    bind, one connect, and for a connect that was pending the hook's
    fixup and the re-entry into [step()]. *)
Definition attempt_events (t : attempt) (a : addrinfo) (old : SOCKET)
  : list event :=
  [EvSocket a (at_socket t)] ++ close_events old ++
  [EvBind (at_socket t) (ai_family a) (ai_addrlen a);
   EvConnect a (at_socket t)] ++
  (if connect_suspends t
   then (if connect_fails t then [] else [EvSetsockopt (at_socket t)])
        ++ [EvStep on_connect]
   else []).

(** The trace of a fallback over candidates that all fail: each in list
    order, once, its socket closed before the next one is created. *)
Fixpoint failing_trace (env : environment) (cands : list addrinfo)
    (old : SOCKET) : list event :=
  match cands with
  | [] => []
  | a :: rest =>
      attempt_events (env_attempt env a) a old ++
      [EvClosesocket (at_socket (env_attempt env a))] ++
      failing_trace env rest INVALID_SOCKET
  end.

(** Whether every connect of the list finished inside its call. *)
Definition all_inline (env : environment) (cands : list addrinfo) : bool :=
  forallb (fun a => negb (connect_suspends (env_attempt env a))) cands.

(** The candidates that are connected. *)
Fixpoint attempted (tr : list event) : list addrinfo :=
  match tr with
  | [] => []
  | EvConnect a _ :: rest => a :: attempted rest
  | _ :: rest => attempted rest
  end.

(** The events of the resolution phase. *)
Definition resolution_events (env : environment) (hn sn : Z) : list event :=
  [EvStep on_start; EvResolve hn sn] ++
  (if gai_ret (env_gai env) =? ERROR_IO_PENDING then [EvStep on_resolve] else []).

(** Resolution succeeds and leaves [cands] behind [resolve_ctx.result()]:
    through [lookup_completion] when the lookup was pending; a lookup that
    finishes inside the call leaves [m_result] as it was. *)
Definition resolution_delivers (env : environment)
    (s : resolve_and_connect_context) (cands : list addrinfo) : Prop :=
  (gai_ret (env_gai env) = ERROR_IO_PENDING /\
   lk_error (env_lookup env) = ERROR_SUCCESS /\
   lk_stored (env_lookup env) = cands /\ cands <> []) \/
  (gai_ret (env_gai env) = 0 /\ m_result (base (resolve_ctx s)) = cands).

(** The code resolution fails with, if it fails. *)
Definition resolution_fails (env : environment) (e : DWORD) : Prop :=
  e <> ERROR_SUCCESS /\
  ((gai_ret (env_gai env) = e /\ e <> ERROR_IO_PENDING) \/
   (gai_ret (env_gai env) = ERROR_IO_PENDING /\ lk_error (env_lookup env) = e)).

(** [drive] after a call of [step()] or of a part of it. *)
Definition then_drive (env : environment) (fuel : nat) (disp : list ptr)
    (o : outcome unit resolve_and_connect_context)
  : outcome unit (driven resolve_and_connect_context) :=
  match o with
  | Returns _ s => drive env fuel (mkDriven s disp)
  | Throws e s => Throws e (mkDriven s disp)
  | NullDeref => NullDeref
  end.


(** The operation right after the connect call for candidate [a], when its
    socket could be created and bound. *)
Definition connect_issued (env : environment) (a : addrinfo)
    (rest : list addrinfo) (s : resolve_and_connect_context)
  : resolve_and_connect_context :=
  let t := env_attempt env a in
  let s := log (EvSocket a (at_socket t)) (set_iter (a :: rest) s) in
  let s := socket_move_assign (at_socket t) s in
  let s := log (EvBind (sock s) (ai_family a) (ai_addrlen a)) s in
  let s := set_state on_connect s in
  let r := connect_and_send (winsock_of t) (sock s) p_connect_ctx
             (ai_addr a) (ai_addrlen a) (buffer s) (buffer_len s)
             (base (connect_ctx s)) (the_port s) in
  log (EvConnect a (sock s))
    (set_the_port (os r)
       (set_connect_ctx (mkAsync (ctx r) (m_op (connect_ctx s))) s)).

(** [s2] is the operation at [case on_connect:] for candidate [a], having
    started the attempt in [s]: the connect has finished, inside its call
    or through the hook. *)
Definition landed (env : environment) (a : addrinfo) (rest : list addrinfo)
    (s s2 : resolve_and_connect_context) : Prop :=
  let t := env_attempt env a in
  trace s2 = trace s ++ attempt_events t a (sock s) /\
  sock s2 = at_socket t /\
  iter s2 = a :: rest /\
  rc_base s2 = rc_base s /\
  sync s2 = sync s && negb (connect_suspends t) /\
  the_port s2 = the_port s /\
  bound_to_this s2 /\
  m_result (base (resolve_ctx s2)) = m_result (base (resolve_ctx s)) /\
  m_error (base (connect_ctx s2)) = connect_code t /\
  (connect_suspends t = true ->
   m_transferred (base (connect_ctx s2)) = ovl_transferred (at_result t) /\
   m_flags (base (connect_ctx s2)) = ovl_flags (at_result t)) /\
  (connect_suspends t = false ->
   m_flags (base (connect_ctx s2)) = 0 /\
   forall n, at_ioctl t = IoctlFound ->
             bytes_stored (at_connect t) = Some n ->
             m_transferred (base (connect_ctx s2)) = n).


(** The operation re-entering [step()] from the hook of its pending
    connect for candidate [a]: the completed request recorded in
    [connect_ctx], the fixup made when the connect succeeded. *)
Definition resumed (env : environment) (a : addrinfo)
    (s : resolve_and_connect_context) : resolve_and_connect_context :=
  let t := env_attempt env a in
  let s0 := set_the_port (mkPort [] []) (set_sync false s) in
  let c1 := socket_completion_func (at_result t) (base (connect_ctx s0)) in
  let s1 := set_connect_ctx (mkAsync c1 (m_op (connect_ctx s0))) s0 in
  log (EvStep on_connect)
    (if connect_fails t then s1
     else log (EvSetsockopt (m_sock (base (connect_ctx s0)))) s1).


(** [s'] is the operation about to try what follows the candidates [pre],
    all of which failed, having started on them in [s]. *)
Definition skipped (env : environment) (pre : list addrinfo)
    (s s' : resolve_and_connect_context) : Prop :=
  trace s' = trace s ++ failing_trace env pre (sock s) /\
  sock s' = match pre with [] => sock s | _ :: _ => INVALID_SOCKET end /\
  rc_base s' = rc_base s /\
  sync s' = sync s && all_inline env pre /\
  idle (the_port s') /\
  bound_to_this s' /\
  m_result (base (resolve_ctx s')) = m_result (base (resolve_ctx s)).

(** The candidate is ready and its connect fails. *)
Definition fails (env : environment) (a : addrinfo) : bool :=
  attempt_ready (env_attempt env a) && connect_fails (env_attempt env a).

(** The candidate is ready and its connect succeeds. *)
Definition succeeds (env : environment) (a : addrinfo) : bool :=
  attempt_ready (env_attempt env a) && connect_succeeds (env_attempt env a).

(** The result of the operation without the boolean of the call. *)
Definition forget {S : Type} (o : outcome bool S) : outcome unit S :=
  match o with
  | Returns _ s => Returns tt s
  | Throws e s => Throws e s
  | NullDeref => NullDeref
  end.

(** The operation as [connect_and_send_helpers::connect_and_send] leaves it
    just before the first [step()]. *)
Definition started (svc_handle hostname' servicename' buffer' buffer_len' : Z)
    (s : resolve_and_connect_context) : resolve_and_connect_context :=
  set_sync true
    (set_state on_start
       (set_buffer_len buffer_len'
          (set_buffer buffer'
             (set_servicename servicename'
                (set_hostname hostname' (set_svc svc_handle s)))))).


(** [sF] is the operation after the attempt on [a], the last candidate
    tried, started in [s]: the outcome is recorded from [connect_ctx], the
    socket is closed if the connect failed, nothing is outstanding. *)
Definition settled (env : environment) (a : addrinfo)
    (s sF : resolve_and_connect_context) : Prop :=
  let t := env_attempt env a in
  trace sF = trace s ++ attempt_events t a (sock s) ++
             (if connect_fails t then [EvClosesocket (at_socket t)] else []) ++
             (if sync sF then [] else [EvCompleted]) /\
  sync sF = sync s && negb (connect_suspends t) /\
  m_error (rc_base sF) = connect_code t /\
  m_transferred (rc_base sF) = transferred (base (connect_ctx sF)) /\
  m_flags (rc_base sF) = flags (base (connect_ctx sF)) /\
  sock sF = (if connect_fails t then INVALID_SOCKET else at_socket t) /\
  idle (the_port sF) /\
  (connect_suspends t = true ->
   m_transferred (base (connect_ctx sF)) = ovl_transferred (at_result t) /\
   m_flags (base (connect_ctx sF)) = ovl_flags (at_result t)) /\
  (connect_suspends t = false ->
   m_flags (base (connect_ctx sF)) = 0 /\
   forall n, at_ioctl t = IoctlFound ->
             bytes_stored (at_connect t) = Some n ->
             m_transferred (base (connect_ctx sF)) = n).


(** [s1] is the operation at [case on_resolve:], having been started in
    [s0] for host [hn] and service [sn]: resolution has finished, inside
    its call or through [lookup_completion] and the hook. *)
Definition at_on_resolve (env : environment) (hn sn : Z)
    (s0 s1 : resolve_and_connect_context) : Prop :=
  let pending := gai_ret (env_gai env) =? ERROR_IO_PENDING in
  trace s1 = trace s0 ++ resolution_events env hn sn /\
  sock s1 = sock s0 /\
  rc_base s1 = rc_base s0 /\
  sync s1 = negb pending /\
  idle (the_port s1) /\
  bound_to_this s1 /\
  r_error (base (resolve_ctx s1))
  = (if pending then lk_error (env_lookup env) else gai_ret (env_gai env)) /\
  m_result (base (resolve_ctx s1))
  = (if pending && (lk_error (env_lookup env) =? ERROR_SUCCESS)
     then match lk_stored (env_lookup env) with
          | [] => m_result (base (resolve_ctx s0))
          | l => l
          end
     else m_result (base (resolve_ctx s0))).


(** The operation right after the call of [resolve] in [case on_start:]. *)
Definition resolve_issued (env : environment)
    (s : resolve_and_connect_context) : resolve_and_connect_context :=
  let s := set_state on_resolve (log (EvStep on_start) s) in
  let r := resolve (svc s) (env_gai env) p_resolve_ctx
             (base (resolve_ctx s)) (the_port s) in
  log (EvResolve (hostname s) (servicename s))
    (set_the_port (r_os r)
       (set_resolve_ctx (mkAsync (r_ctx r) (m_op (resolve_ctx s))) s)).

(** The context of a pending lookup once the resolver has stored its
    answer and run [lookup_completion]. *)
Definition looked_up (env : environment) (c : resolve_context)
  : resolve_context :=
  fst (lookup_completion (lk_error (env_lookup env)) p_resolve_ctx
         (mkResolveCtx (r_overlapped c) (r_error c) (m_iocp c)
            (lk_stored (env_lookup env)) (m_result c))
         (mkPort [] [])).

(** The operation re-entering [step()] from the hook of its pending
    lookup. *)
Definition resolve_resumed (env : environment)
    (s : resolve_and_connect_context) : resolve_and_connect_context :=
  log (EvStep on_resolve)
    (set_the_port (mkPort [] [])
       (set_resolve_ctx
          (mkAsync (looked_up env (base (resolve_ctx s))) p_this) s)).


(** Resolution ends without error and leaves no candidate behind
    [resolve_ctx.result()]: the lookup finished inside its call, which
    never fills [m_result], or a pending lookup completed with a null
    list. *)
Definition resolution_yields_nothing (env : environment)
    (s : resolve_and_connect_context) : Prop :=
  m_result (base (resolve_ctx s)) = [] /\
  (gai_ret (env_gai env) = 0 \/
   (gai_ret (env_gai env) = ERROR_IO_PENDING /\
    lk_error (env_lookup env) = ERROR_SUCCESS /\
    lk_stored (env_lookup env) = [])).

(** The events that create or bind a socket. *)
Definition is_socket_event (e : event) : bool :=
  match e with
  | EvSocket _ _ | EvBind _ _ _ => true
  | _ => false
  end.

Definition is_completed (e : event) : bool :=
  match e with EvCompleted => true | _ => false end.


Module SampleRun.

Definition ctx0 : socket_context := mkSockCtx OVERLAPPED_zero 11 12 13 14.
Definition rctx0 : resolve_context := mkResolveCtx OVERLAPPED_zero 21 22 [] [].

(** Memory the operation is built in, and the operation built in it. *)
Definition memory : resolve_and_connect_context :=
  mkRcc ctx0 on_connect (mkAsync rctx0 7%nat) (mkAsync ctx0 7%nat) false []
        0 INVALID_SOCKET 0 0 0 0 (mkPort [] []) [].
Definition fresh : resolve_and_connect_context := rcc_ctor memory.

Definition a1 : addrinfo := mkAddrinfo 2 1 6 16 1001.
Definition a2 : addrinfo := mkAddrinfo 23 1 6 28 1002.
Definition a3 : addrinfo := mkAddrinfo 2 1 6 16 1003.

(** A connect refused inside the call, one that times out after being
    accepted, one that completes later with 37 bytes sent, and one whose
    post-connect fixup fails. *)
Definition refused_inline : attempt :=
  mkAttempt 100 0 None 0 0 IoctlFound (mkCall false None None 10061)
            (mkOvl true 0 0 0) 0 0.
Definition timed_out : attempt :=
  mkAttempt 101 0 None 0 0 IoctlFound (mkCall false None None ERROR_IO_PENDING)
            (mkOvl false 3 0 10060) 0 0.
Definition connected_late : attempt :=
  mkAttempt 102 0 None 0 0 IoctlFound (mkCall false None None ERROR_IO_PENDING)
            (mkOvl true 37 0 0) 0 0.
Definition fixup_fails : attempt :=
  mkAttempt 103 0 None 0 0 IoctlFound (mkCall false None None ERROR_IO_PENDING)
            (mkOvl true 37 0 0) (-1) 10038.

Definition by_address (t1 t2 t3 : attempt) (a : addrinfo) : attempt :=
  if ai_addr a =? 1001 then t1 else if ai_addr a =? 1002 then t2 else t3.

(** The lookup is pending and delivers three candidates. *)
Definition env_fallback : environment :=
  mkEnv (mkGai ERROR_IO_PENDING None) (mkLookup 0 [a1; a2; a3])
        (by_address refused_inline timed_out connected_late).
Definition env_exhausted : environment :=
  mkEnv (mkGai ERROR_IO_PENDING None) (mkLookup 0 [a1; a2; a3])
        (by_address refused_inline refused_inline timed_out).
Definition env_fixup : environment :=
  mkEnv (mkGai ERROR_IO_PENDING None) (mkLookup 0 [a3])
        (by_address refused_inline timed_out fixup_fails).

(** The host is unknown, at once or after a pending lookup. *)
Definition env_no_host : environment :=
  mkEnv (mkGai 11001 None) (mkLookup 0 []) (fun _ => refused_inline).
Definition env_no_host_late : environment :=
  mkEnv (mkGai ERROR_IO_PENDING None) (mkLookup 11001 []) (fun _ => refused_inline).

(** The lookup finishes inside its call and hands over three candidates. *)
Definition env_inline_lookup : environment :=
  mkEnv (mkGai 0 (Some [a1; a2; a3])) (mkLookup 0 [])
        (by_address refused_inline timed_out connected_late).

(** No socket can be made, and [bind] fails. *)
Definition no_socket : attempt :=
  mkAttempt INVALID_SOCKET 10024 None 0 0 IoctlFound
            (mkCall false None None 10061) (mkOvl true 0 0 0) 0 0.
Definition bind_fails : attempt :=
  mkAttempt 104 0 None (-1) 10049 IoctlFound
            (mkCall false None None 10061) (mkOvl true 0 0 0) 0 0.

(** The second of three candidates connects. *)
Definition env_second_wins : environment :=
  mkEnv (mkGai ERROR_IO_PENDING None) (mkLookup 0 [a1; a2; a3])
        (by_address refused_inline connected_late refused_inline).

(** Two candidates: the connect to the first is accepted and times out
    after 3 bytes, the connect to the second is refused inside the call,
    which stores no byte count.  And the second candidate alone. *)
Definition env_stale : environment :=
  mkEnv (mkGai ERROR_IO_PENDING None) (mkLookup 0 [a1; a2])
        (by_address timed_out refused_inline refused_inline).
Definition env_refused_alone : environment :=
  mkEnv (mkGai ERROR_IO_PENDING None) (mkLookup 0 [a2])
        (by_address timed_out refused_inline refused_inline).

(** The second candidate's socket cannot be bound. *)
Definition env_bind_fails : environment :=
  mkEnv (mkGai ERROR_IO_PENDING None) (mkLookup 0 [a1; a2; a3])
        (by_address refused_inline bind_fails connected_late).

End SampleRun.


(** ** Vocabulary for the bound-context statements *)

(** The entries into [step()] along a trace, oldest first. *)
Definition steps (tr : list event) : list event := filter is_step tr.

(** [sF] is the state a call ends in, by returning or by throwing. *)
Definition ends {R S : Type} (o : outcome R S) (sF : S) : Prop :=
  (exists r, o = Returns r sF) \/ (exists e, o = Throws e sF).

(** From [s] to [s1] the back-references are kept, [step()] is not
    entered and the port is untouched. *)
Definition calm (s s1 : resolve_and_connect_context) : Prop :=
  m_op (resolve_ctx s1) = m_op (resolve_ctx s) /\
  m_op (connect_ctx s1) = m_op (connect_ctx s) /\
  steps (trace s1) = steps (trace s) /\
  the_port s1 = the_port s.

(** The port after one more request on context [q] was left with the
    OS. *)
Definition handed_over (q : ptr) (w : port) : port :=
  mkPort (inflight w ++ [q]) (queue w).

(** From [s] to [sF] the back-references are kept, [step()] is not
    entered, and either the port is untouched or the connect was handed
    to the OS with the resume point at [on_connect]. *)
Definition effect (s sF : resolve_and_connect_context) : Prop :=
  m_op (resolve_ctx sF) = m_op (resolve_ctx s) /\
  m_op (connect_ctx sF) = m_op (connect_ctx s) /\
  steps (trace sF) = steps (trace s) /\
  (the_port sF = the_port s \/
   (the_port sF = handed_over p_connect_ctx (the_port s) /\
    state sF = on_connect)).


Module SampleHook.

(** The operation of [SampleRun.env_fixup] suspended on its connect: the
    lookup has completed, the connect for the only candidate is with the
    OS. *)
Definition waiting : resolve_and_connect_context :=
  match operation SampleRun.env_fixup 1 55 1 2 3 4 SampleRun.fresh with
  | Returns _ d => prog d
  | _ => SampleRun.fresh
  end.

End SampleHook.


(** ** Vocabulary for the result contract *)

(** The shape the five socket primitives share: the lookup of the
    extension function ([IoctlFound] where there is none to look up), the
    overlapped call, the byte count the call stored, the flags a success
    leaves. *)
Definition overlapped_primitive (io : ioctl_answer) (a : call_answer)
    (stored : option DWORD) (flags_on_success : DWORD)
    (sock : SOCKET) (p : ptr) (c : socket_context) (w : port) : issued :=
  match io with
  | IoctlFailed e => ioctl_failed e c w
  | IoctlFound =>
      classify a flags_on_success (store_bytes stored (init sock c))
               (os_overlapped_call p a w)
  end.

(** The result contract of a primitive called on context [p] with the port
    at [w]; [r] and [r'] are the results of the same call on two contexts
    [c] and [c'] that may hold anything.  Either the call returns [true],
    leaves nothing with the OS, and has written the error and flags
    fields (what they hold does not depend on the context before); or it
    returns [false], has left exactly one request with the OS and has
    not written the error and flags fields. *)
Definition result_contract (p : ptr) (w : port) (c c' : socket_context)
    (r r' : issued) : Prop :=
  returned r = returned r' /\
  ((returned r = true /\ os r = w /\
    m_error (ctx r) = m_error (ctx r') /\ m_flags (ctx r) = m_flags (ctx r')) \/
   (returned r = false /\ os r = handed_over p w /\
    m_error (ctx r) = m_error c /\ m_flags (ctx r) = m_flags c)).

(** A call that returns [true] has written the three outcome fields,
    whatever the context held before: what the first half of the result
    contract asks of the outcome. *)
Definition outcome_populated (f : socket_context -> issued) : Prop :=
  forall c c',
    returned (f c) = true -> returned (f c') = true ->
    m_error (ctx (f c)) = m_error (ctx (f c')) /\
    m_transferred (ctx (f c)) = m_transferred (ctx (f c')) /\
    m_flags (ctx (f c)) = m_flags (ctx (f c')).

(** Where the byte count of a context comes from after a call that
    stored [stored] through [&ctx.m_transferred]: the stored count, or,
    when the call stored none, the count of whatever request the context
    served before. *)
Definition bytes_after (stored : option DWORD) (c : socket_context) : DWORD :=
  match stored with Some n => n | None => m_transferred c end.


(** ** Vocabulary for further statements *)

(** The code the preparation of a candidate's socket throws, if it throws:
    [WSASocket] gave no socket, the association with the port failed, or
    [bind] failed. *)
Definition setup_error (t : attempt) : option DWORD :=
  if at_socket t =? INVALID_SOCKET then Some (at_socket_error t)
  else match at_associate t with
       | Some e => Some e
       | None => if negb (at_bind t =? 0) then Some (at_bind_error t) else None
       end.

(** What a failed preparation shows, [old] being the handle [*sock] held:
    the association failing closes the new socket; a failing [bind]
    comes after the move assignment. *)
Definition setup_events (t : attempt) (a : addrinfo) (old : SOCKET)
  : list event :=
  if at_socket t =? INVALID_SOCKET then [EvSocket a (at_socket t)]
  else match at_associate t with
       | Some _ => [EvSocket a (at_socket t); EvClosesocket (at_socket t)]
       | None =>
           [EvSocket a (at_socket t)] ++ close_events old ++
           [EvBind (at_socket t) (ai_family a) (ai_addrlen a)]
       end.

(** The handle [*sock] holds after a failed preparation. *)
Definition setup_sock (t : attempt) (old : SOCKET) : SOCKET :=
  if at_socket t =? INVALID_SOCKET then old
  else match at_associate t with
       | Some _ => old
       | None => at_socket t
       end.

(** Sockets made minus sockets closed along a trace. *)
Fixpoint handle_balance (tr : list event) : Z :=
  match tr with
  | [] => 0
  | EvSocket _ h :: rest =>
      (if h =? INVALID_SOCKET then 0 else 1) + handle_balance rest
  | EvClosesocket _ :: rest => handle_balance rest - 1
  | _ :: rest => handle_balance rest
  end.

(** Whether [*sock] holds a socket. *)
Definition held (s : resolve_and_connect_context) : Z :=
  if sock s =? INVALID_SOCKET then 0 else 1.

(** Sockets the operation made and has neither closed nor kept in
    [*sock]. *)
Definition leaked (s : resolve_and_connect_context) : Z :=
  handle_balance (trace s) - held s.

(** The calls [this->completion_func()] along a trace. *)
Definition completions (tr : list event) : list event :=
  filter is_completed tr.

(** From [s] to [s1] nothing was left with the OS, [sync] is as it was
    and [this->completion_func()] was not called. *)
Definition undisturbed (s s1 : resolve_and_connect_context) : Prop :=
  sync s1 = sync s /\ the_port s1 = the_port s /\
  completions (trace s1) = completions (trace s).

(** What a run of the operation's code that starts at [s] may end in
    while the caller of the compound call is still on the stack: it
    returns with [sync] kept and the port untouched, or with [sync]
    cleared, one request on the lookup or the connect context left with
    the OS and the resume point behind that call; it throws with the port
    untouched; in no case is [this->completion_func()] called. *)
Definition inline_contract (s : resolve_and_connect_context)
    (o : outcome unit resolve_and_connect_context) : Prop :=
  match o with
  | Returns _ sF =>
      completions (trace sF) = completions (trace s) /\
      ((sync sF = true /\ the_port sF = the_port s) \/
       (sync sF = false /\
        ((the_port sF = handed_over p_resolve_ctx (the_port s) /\
          state sF = on_resolve) \/
         (the_port sF = handed_over p_connect_ctx (the_port s) /\
          state sF = on_connect))))
  | Throws _ sF =>
      completions (trace sF) = completions (trace s) /\
      the_port sF = the_port s
  | NullDeref => False
  end.

(** * The sample program (main.cpp) *)

Module Http.

(** [enum { on_start, on_connect, on_send, on_receive, on_disconnect }]. *)
Inductive resume := on_start | on_connect | on_send | on_receive | on_disconnect.

Definition RECVBUF_LEN : Z := 128.
Definition SD_RECEIVE : Z := 0.
Definition SD_SEND : Z := 1.

(** Addresses of the objects a packet can name besides the three of the
    compound operation ([p_this] is [m_connect_ctx]): [m_ctx], and the
    program's operation as [async_op]. *)
Definition p_ctx : ptr := 3%nat.
Definition p_op : ptr := 4%nat.

(** [int]: 32 bits, two's complement. *)
Definition to_int (z : Z) : Z := (z + 2 ^ 31) mod 2 ^ 32 - 2 ^ 31.

(** What the program writes to [std::cout] and [std::cerr], and the calls
    it makes on [m_sock] and [m_svc], in order. *)
Inductive line :=
| Said_connecting
| Said_connected (n : DWORD)
| Said_sending (n : Z)
| Said_sent (n : DWORD)
| Said_receiving (n : Z)
| Said_received (n : DWORD)
| Said_disconnecting
| Said_disconnected
| Said_completed
| Said_win32_error (e : DWORD)
| Said_closing
| Called_send (h : SOCKET) (buffer buffer_len : Z)
| Called_receive (h : SOCKET) (buffer buffer_len : Z)
| Called_shutdown (h : SOCKET) (how : Z)
| Called_disconnect (h : SOCKET)
| Called_post_shutdown.

(** Answer to one overlapped call and, for a call left pending, what
    [WSAGetOverlappedResult] gives once it has completed. *)
Record io_answer := mkIo {
  io_call : call_answer;
  io_result : overlapped_result
}.

(** Everything outside the program: the resolver and the connect attempts,
    the answers to the n-th [WSASend] and the n-th [WSARecv], to
    [::shutdown], to [DisconnectEx] and to the post of the sentinel, and
    the addresses the program is given. *)
Record world := mkWorld {
  net : environment;
  svc_handle : Z;
  L_google_com : Z;
  L_http : Z;
  on_send_call : nat -> io_answer;
  on_recv_call : nat -> io_answer;
  on_shutdown : Z -> Z;
  shutdown_error : Z -> DWORD;
  disconnect_ioctl : ioctl_answer;
  on_disconnect_call : io_answer;
  new_recvbuf : Z;
  post_ok : bool;
  post_error : DWORD
}.

(** [http_op].  [m_sock] is the object [m_connect_ctx.sock] points at and
    [m_svc] the service [m_connect_ctx.svc] points at: the handle and the
    port are kept once, in the state of the compound operation.  [sends]
    and [recvs] count the [WSASend] and [WSARecv] calls made so far. *)
Record http_op := mkHttp {
  m_state : resume;
  m_sendbuf : Z;
  m_sendleft : Z;
  m_recvbuf : option Z;
  m_connect_ctx : async_context resolve_and_connect_context;
  m_ctx : async_context socket_context;
  sends : nat;
  recvs : nat;
  out : list line
}.

Definition set_m_state (v : resume) (s : http_op) : http_op :=
  mkHttp v (m_sendbuf s) (m_sendleft s) (m_recvbuf s) (m_connect_ctx s) (m_ctx s) (sends s) (recvs s) (out s).
Definition set_m_sendbuf (v : Z) (s : http_op) : http_op :=
  mkHttp (m_state s) v (m_sendleft s) (m_recvbuf s) (m_connect_ctx s) (m_ctx s) (sends s) (recvs s) (out s).
Definition set_m_sendleft (v : Z) (s : http_op) : http_op :=
  mkHttp (m_state s) (m_sendbuf s) v (m_recvbuf s) (m_connect_ctx s) (m_ctx s) (sends s) (recvs s) (out s).
Definition set_m_recvbuf (v : option Z) (s : http_op) : http_op :=
  mkHttp (m_state s) (m_sendbuf s) (m_sendleft s) v (m_connect_ctx s) (m_ctx s) (sends s) (recvs s) (out s).
Definition set_m_connect_ctx (v : async_context resolve_and_connect_context) (s : http_op) : http_op :=
  mkHttp (m_state s) (m_sendbuf s) (m_sendleft s) (m_recvbuf s) v (m_ctx s) (sends s) (recvs s) (out s).
Definition set_m_ctx (v : async_context socket_context) (s : http_op) : http_op :=
  mkHttp (m_state s) (m_sendbuf s) (m_sendleft s) (m_recvbuf s) (m_connect_ctx s) v (sends s) (recvs s) (out s).
Definition set_sends (v : nat) (s : http_op) : http_op :=
  mkHttp (m_state s) (m_sendbuf s) (m_sendleft s) (m_recvbuf s) (m_connect_ctx s) (m_ctx s) v (recvs s) (out s).
Definition set_recvs (v : nat) (s : http_op) : http_op :=
  mkHttp (m_state s) (m_sendbuf s) (m_sendleft s) (m_recvbuf s) (m_connect_ctx s) (m_ctx s) (sends s) v (out s).
Definition set_out (v : list line) (s : http_op) : http_op :=
  mkHttp (m_state s) (m_sendbuf s) (m_sendleft s) (m_recvbuf s) (m_connect_ctx s) (m_ctx s) (sends s) (recvs s) v.

Definition say (l : line) (s : http_op) : http_op := set_out (out s ++ [l]) s.

(** The compound operation's state, with [m_sock] and the port in it. *)
Definition conn (s : http_op) : resolve_and_connect_context :=
  base (m_connect_ctx s).
Definition set_conn (c : resolve_and_connect_context) (s : http_op) : http_op :=
  set_m_connect_ctx (mkAsync c (m_op (m_connect_ctx s))) s.
Definition m_sock (s : http_op) : SOCKET := sock (conn s).
Definition m_svc (s : http_op) : port := the_port (conn s).
Definition set_m_svc (w : port) (s : http_op) : http_op :=
  set_conn (set_the_port w (conn s)) s.

(** What a primitive on [m_sock] with context [m_ctx] leaves. *)
Definition put (r : issued) (s : http_op) : http_op :=
  set_m_svc (os r) (set_m_ctx (mkAsync (ctx r) (m_op (m_ctx s))) s).

(** [http_op(svc, sendbuf, sendbuf_len)] over the memory it is built in:
    both contexts bound to the operation, [m_sock] default-constructed. *)
Definition ctor (mem : http_op) (sendbuf sendbuf_len : Z) : http_op :=
  mkHttp on_start sendbuf sendbuf_len None
    (async_context_ctor (set_sock INVALID_SOCKET (rcc_ctor (conn mem))) p_op)
    (async_context_ctor (base (m_ctx mem)) p_op)
    (sends mem) (recvs mem) (out mem).

(** [~http_op]: the only member with work to do is [m_sock]. *)
Definition dtor (s : http_op) : http_op := set_conn (socket_close (conn s)) s.

Section Program.

Variable e : world.

(** Winsock as the program meets it in state [s]. *)
Definition winsock_at (s : http_op) : winsock :=
  mkWinsock (fun _ => IoctlFailed 0) (fun _ => IoctlFailed 0)
    (fun _ => disconnect_ioctl e)
    (fun _ _ _ _ _ _ => mkCall false None None 0)
    (fun _ _ _ _ _ => mkCall false None None 0)
    (fun _ _ _ _ => io_call (on_send_call e (sends s)))
    (fun _ _ _ _ => io_call (on_recv_call e (recvs s)))
    (fun _ _ _ => io_call (on_disconnect_call e)).

(** [check_error()] on a context. *)
Definition check (c : socket_context) (s : http_op) : outcome unit http_op :=
  match check_error c with
  | Some err => Throws err s
  | None => Returns tt s
  end.

(** [socket::shutdown] on [m_sock]. *)
Definition socket_shutdown (how : Z) (s : http_op) : outcome unit http_op :=
  let s := say (Called_shutdown (m_sock s) how) s in
  if negb (on_shutdown e how =? 0) then Throws (shutdown_error e how) s
  else Returns tt s.

(** [m_svc.shutdown()]. *)
Definition svc_shutdown (s : http_op) : outcome unit http_op :=
  let s := say Called_post_shutdown s in
  match shutdown (post_ok e) (post_error e) (m_svc s) with
  | Returns _ w => Returns tt (set_m_svc w s)
  | Throws err _ => Throws err s
  | NullDeref => NullDeref
  end.

(** A loop of [step()] that has not left within the iterations allowed is
    [None]. *)
Definition obind {R R'} (m : outcome R http_op)
    (k : R -> http_op -> option (outcome R' http_op))
  : option (outcome R' http_op) :=
  match m with
  | Returns r s => k r s
  | Throws err s => Some (Throws err s)
  | NullDeref => Some NullDeref
  end.

(** From [case on_disconnect:] to the end. *)
Definition on_disconnect_label (s : http_op) : outcome unit http_op :=
  bind (check (base (m_ctx s)) s) (fun _ s =>
  let s := say Said_disconnected s in
  let s := set_conn (socket_close (conn s)) s in
  svc_shutdown s).

(** From the end of the receive loop on. *)
Definition after_receive_loop (s : http_op) : outcome unit http_op :=
  bind (socket_shutdown SD_RECEIVE s) (fun _ s =>
  let s := say Said_disconnecting s in
  let s := set_m_state on_disconnect s in
  let r := disconnect (winsock_at s) (m_sock s) p_ctx false
             (base (m_ctx s)) (m_svc s) in
  let s := put r (say (Called_disconnect (m_sock s)) s) in
  if negb (returned r) then Returns tt s
  else on_disconnect_label s).

(** From [case on_receive:] to the loop condition; the boolean is
    [m_ctx.transferred()] read as a condition. *)
Definition received (s : http_op) : outcome bool http_op :=
  bind (check (base (m_ctx s)) s) (fun _ s =>
  let s := say (Said_received (transferred (base (m_ctx s)))) s in
  Returns (negb (transferred (base (m_ctx s)) =? 0)) s).

(** The [do ... while] loop entered at its top. *)
Fixpoint receive_loop (gas : nat) (s : http_op)
  : option (outcome unit http_op) :=
  match gas with
  | O => None
  | S gas' =>
      let s := say (Said_receiving RECVBUF_LEN) s in
      let s := set_m_state on_receive s in
      let b := match m_recvbuf s with Some a => a | None => 0 end in
      let r := receive (winsock_at s) (m_sock s) p_ctx b RECVBUF_LEN 0
                 (base (m_ctx s)) (m_svc s) in
      let s := put r (set_recvs (S (recvs s))
                        (say (Called_receive (m_sock s) b RECVBUF_LEN) s)) in
      if negb (returned r) then Some (Returns tt s)
      else obind (received s) (fun again s =>
             if again then receive_loop gas' s
             else Some (after_receive_loop s))
  end.

Definition on_receive_label (gas : nat) (s : http_op)
  : option (outcome unit http_op) :=
  obind (received s) (fun again s =>
    if again then receive_loop gas s else Some (after_receive_loop s)).

(** From the end of the send loop on. *)
Definition after_send_loop (gas : nat) (s : http_op)
  : option (outcome unit http_op) :=
  obind (socket_shutdown SD_SEND s) (fun _ s =>
  let s := set_m_recvbuf (Some (new_recvbuf e)) s in
  receive_loop gas s).

(** [m_sendbuf += n; m_sendleft -= n] for a [DWORD] [n]. *)
Definition advance (n : DWORD) (s : http_op) : http_op :=
  set_m_sendleft (to_int (m_sendleft s - n)) (set_m_sendbuf (m_sendbuf s + n) s).

(** From [case on_send:] to the end of the loop body. *)
Definition sent (s : http_op) : outcome unit http_op :=
  bind (check (base (m_ctx s)) s) (fun _ s =>
  let s := say (Said_sent (transferred (base (m_ctx s)))) s in
  Returns tt (advance (transferred (base (m_ctx s))) s)).

(** The [while (m_sendleft)] loop entered at its test. *)
Fixpoint send_loop (gas : nat) (s : http_op)
  : option (outcome unit http_op) :=
  match gas with
  | O => None
  | S gas' =>
      if m_sendleft s =? 0 then after_send_loop gas' s
      else
        let s := say (Said_sending (m_sendleft s)) s in
        let s := set_m_state on_send s in
        let r := send (winsock_at s) (m_sock s) p_ctx (m_sendbuf s)
                   (m_sendleft s) 0 (base (m_ctx s)) (m_svc s) in
        let s := put r (set_sends (S (sends s))
                          (say (Called_send (m_sock s) (m_sendbuf s)
                                  (m_sendleft s)) s)) in
        if negb (returned r) then Some (Returns tt s)
        else obind (sent s) (fun _ s => send_loop gas' s)
  end.

Definition on_send_label (gas : nat) (s : http_op)
  : option (outcome unit http_op) :=
  obind (sent s) (fun _ s => send_loop gas s).

(** From [case on_connect:] on; [m_connect_ctx] is a [socket_context]
    through the compound operation it derives from. *)
Definition on_connect_label (gas : nat) (s : http_op)
  : option (outcome unit http_op) :=
  obind (check (rc_base (conn s)) s) (fun _ s =>
  let s := say (Said_connected (transferred (rc_base (conn s)))) s in
  send_loop gas (advance (transferred (rc_base (conn s))) s)).

(** [http_op::step]. *)
Definition step (gas : nat) (s : http_op) : option (outcome unit http_op) :=
  match m_state s with
  | on_start =>
      let s := say Said_connecting s in
      let s := set_m_state on_connect s in
      match rcc_connect_and_send (net e) (svc_handle e) (L_google_com e)
              (L_http e) (m_sendbuf s) (m_sendleft s) (conn s) with
      | Returns b c =>
          if negb b then Some (Returns tt (set_conn c s))
          else on_connect_label gas (set_conn c s)
      | Throws err c => Some (Throws err (set_conn c s))
      | NullDeref => Some NullDeref
      end
  | on_connect => on_connect_label gas s
  | on_send => on_send_label gas s
  | on_receive => on_receive_label gas s
  | on_disconnect => Some (on_disconnect_label s)
  end.

(** [m_op->step()]: the only [async_op] a context of the program is bound
    to is the program's operation. *)
Definition step_at (gas : nat) (q : ptr) (s : http_op)
  : option (outcome unit http_op) :=
  if Nat.eqb q p_op then step gas s else Some NullDeref.

(** [async_context<socket_context>::completion_func] on [m_ctx]: the
    request that completed is the last one issued on it, which is the one
    the resume point names.  Before the first send no request has been
    issued on [m_ctx] and the port holds no packet for it; the branch for
    [on_start] and [on_connect] only makes the function total. *)
Definition ctx_completion_func (gas : nat) (s : http_op)
  : option (outcome unit http_op) :=
  let r := match m_state s with
           | on_send => io_result (on_send_call e (pred (sends s)))
           | on_receive => io_result (on_recv_call e (pred (recvs s)))
           | on_disconnect | on_start | on_connect =>
               io_result (on_disconnect_call e)
           end in
  let c := socket_completion_func r (base (m_ctx s)) in
  step_at gas (m_op (m_ctx s)) (set_m_ctx (mkAsync c (m_op (m_ctx s))) s).

(** The hooks of the two contexts inside the compound operation.  They
    re-enter its [step()]; where that reaches
    [if (!sync) this->completion_func()], its last statement before
    [return], the call is the hook of [m_connect_ctx]:
    [async_context<resolve_and_connect_context>::completion_func], an
    empty base hook and then [m_op->step()]. *)
Definition inner_completion_func (gas : nat) (q : ptr) (s : http_op)
  : option (outcome unit http_op) :=
  match completion_func (net e) q (conn s) with
  | Returns _ c =>
      if (length (completions (trace (conn s)))
          <? length (completions (trace c)))%nat
      then step_at gas (m_op (m_connect_ctx s)) (set_conn c s)
      else Some (Returns tt (set_conn c s))
  | Throws err c => Some (Throws err (set_conn c s))
  | NullDeref => Some NullDeref
  end.

(** The virtual [completion_func] of the object at address [q]. *)
Definition hook_at (gas : nat) (q : ptr) (s : http_op)
  : option (outcome unit http_op) :=
  if Nat.eqb q p_ctx then ctx_completion_func gas s
  else if Nat.eqb q p_this then step_at gas (m_op (m_connect_ctx s)) s
  else inner_completion_func gas q s.

(** The same on a program that may already be inside a loop it has not
    left: such a program stays there. *)
Definition hook (gas : nat) (q : ptr) (st : option http_op)
  : outcome unit (option http_op) :=
  match st with
  | None => Returns tt None
  | Some s =>
      match hook_at gas q s with
      | None => Returns tt None
      | Some (Returns u s') => Returns u (Some s')
      | Some (Throws err s') => Throws err (Some s')
      | Some NullDeref => NullDeref
      end
  end.

(** The OS finishing the oldest request it holds, when the program waits
    on an empty queue. *)
Definition os_turn (s : http_op) : http_op :=
  match queue (m_svc s) with
  | [] => set_conn (os_finish (net e) (conn s)) s
  | _ :: _ => s
  end.

(** How the [try] block of [main] is left. *)
Inductive ending :=
| Stopped (s : http_op)                 (* [run_many] returned [false] *)
| Thrown (err : DWORD) (s : http_op)    (* a [win32_error] reached [catch] *)
| Blocked (s : http_op)                 (* waiting, nothing outstanding *)
| Undefined.                            (* a null pointer was followed *)

(** [while (svc.run_many()) { ... }]: [fuel] bounds the iterations, [gas]
    the loop iterations inside each [step()]. *)
Fixpoint run_loop (fuel gas : nat) (d : driven (option http_op))
  : option (ending * list ptr) :=
  match fuel with
  | O => None
  | S fuel' =>
      match prog d with
      | None => None
      | Some s =>
          let s := os_turn s in
          match GetQueuedCompletionStatusEx None 16 (m_svc s) with
          | None => Some (Blocked s, dispatched d)
          | Some (a, w) =>
              match run_many _ (hook gas) a
                      (mkDriven (Some (set_m_svc w s)) (dispatched d)) with
              | Returns keep d' =>
                  match prog d' with
                  | None => None
                  | Some s' =>
                      if keep
                      then run_loop fuel' gas
                             (mkDriven (Some (say Said_completed s'))
                                (dispatched d'))
                      else Some (Stopped s', dispatched d')
                  end
              | Throws err d' =>
                  match prog d' with
                  | None => None
                  | Some s' => Some (Thrown err s', dispatched d')
                  end
              | NullDeref => Some (Undefined, dispatched d)
              end
          end
      end
  end.

(** The [try] block: the operation is built, started, and the service is
    run until it says stop. *)
Definition try_block (fuel gas : nat) (mem : http_op)
    (buffer buffer_len : Z) : option (ending * list ptr) :=
  match step gas (ctor mem buffer buffer_len) with
  | None => None
  | Some (Returns _ s) => run_loop fuel gas (mkDriven (Some s) [])
  | Some (Throws err s) => Some (Thrown err s, [])
  | Some NullDeref => Some (Undefined, [])
  end.

(** How [main] ends: [return 0] with the program's objects as the
    destructors left them, a wait that never returns, or undefined
    behaviour. *)
Inductive verdict :=
| Returned (code : Z) (s : http_op)
| Waits_forever
| Undefined_behaviour.

(** [main] from after [io::service svc;].  Leaving the [try] block, also
    by an exception, destroys the operation. *)
Definition main (fuel gas : nat) (mem : http_op) (buffer buffer_len : Z)
  : option verdict :=
  match try_block fuel gas mem buffer buffer_len with
  | None => None
  | Some (Stopped s, _) => Some (Returned 0 (say Said_closing (dtor s)))
  | Some (Thrown err s, _) =>
      Some (Returned 0
              (say Said_closing (say (Said_win32_error err) (dtor s))))
  | Some (Blocked _, _) => Some Waits_forever
  | Some (Undefined, _) => Some Undefined_behaviour
  end.

End Program.

End Http.

Module SampleHttp.

(** A call answered at once with [n] bytes, one left pending that
    completes with [n] bytes, and one refused with [err]. *)
Definition inline (n : DWORD) : Http.io_answer :=
  Http.mkIo (mkCall true (Some n) (Some 0) 0) (mkOvl true 0 0 0).
Definition later (n : DWORD) : Http.io_answer :=
  Http.mkIo (mkCall false None None ERROR_IO_PENDING) (mkOvl true n 0 0).
Definition broken (err : DWORD) : Http.io_answer :=
  Http.mkIo (mkCall false None None err) (mkOvl true 0 0 0).

(** A connect that completes later with the first 10 bytes sent. *)
Definition connected_10 : attempt :=
  mkAttempt 102 0 None 0 0 IoctlFound (mkCall false None None ERROR_IO_PENDING)
            (mkOvl true 10 0 0) 0 0.

Definition net : environment :=
  mkEnv (mkGai ERROR_IO_PENDING None)
        (mkLookup 0 [SampleRun.a1; SampleRun.a2; SampleRun.a3])
        (SampleRun.by_address SampleRun.refused_inline SampleRun.timed_out
           connected_10).

(** The first send is left pending and takes 20 bytes, the next ones take
    6 at once; 128 bytes are received at once, 50 later, then none. *)
Definition sends (n : nat) : Http.io_answer :=
  match n with
  | O => later 20
  | _ => inline 6
  end.
Definition recvs (n : nat) : Http.io_answer :=
  match n with
  | O => inline 128
  | S O => later 50
  | _ => inline 0
  end.

Definition good : Http.world :=
  Http.mkWorld net 55 7001 7002 sends recvs (fun _ => 0) (fun _ => 0)
    IoctlFound (later 0) 9000 true 0.

(** The same with a second send that is refused. *)
Definition bad_send : Http.world :=
  Http.mkWorld net 55 7001 7002
    (fun n => match n with O => later 20 | _ => broken 10054 end)
    recvs (fun _ => 0) (fun _ => 0) IoctlFound (later 0) 9000 true 0.

(** The memory the operation is built in. *)
Definition memory : Http.http_op :=
  Http.mkHttp Http.on_receive 0 0 None
    (mkAsync SampleRun.memory 9%nat) (mkAsync SampleRun.ctx0 9%nat) 0 0 [].

(** A world in which the only address delivered connects. *)
Definition direct : Http.world :=
  Http.mkWorld
    (mkEnv (mkGai ERROR_IO_PENDING None) (mkLookup 0 [SampleRun.a3])
       (fun _ => connected_10))
    55 7001 7002 sends recvs (fun _ => 0) (fun _ => 0)
    IoctlFound (later 0) 9000 true 0.

(** A peer whose data is always there: every receive finishes at once
    with a full buffer. *)
Definition flood : Http.world :=
  Http.mkWorld net 55 7001 7002 sends
    (fun _ => inline 128) (fun _ => 0) (fun _ => 0)
    IoctlFound (later 0) 9000 true 0.

(** The program as the hook of [m_connect_ctx] finds it when the connect
    has completed with the first 10 bytes sent. *)
Definition connected : Http.http_op :=
  Http.mkHttp Http.on_connect 5000 36 None
    (mkAsync (set_rc_base (mkSockCtx OVERLAPPED_zero 0 102 10 0)
                (set_sock 102 SampleRun.fresh)) Http.p_op)
    (mkAsync SampleRun.ctx0 Http.p_op) 0 0 [Http.Said_connecting].

End SampleHttp.

(** ** Vocabulary for the statements on the program *)

(** The bytes the program reports as sent, by the connect or by a send. *)
Fixpoint reported (l : list Http.line) : Z :=
  match l with
  | [] => 0
  | Http.Said_connected n :: rest => n + reported rest
  | Http.Said_sent n :: rest => n + reported rest
  | _ :: rest => reported rest
  end.

(** The state the [try] block is left in. *)
Definition state_of (x : Http.ending) : option Http.http_op :=
  match x with
  | Http.Stopped s => Some s
  | Http.Thrown _ s => Some s
  | Http.Blocked s => Some s
  | Http.Undefined => None
  end.

(** From [s] to [s'] no socket was lost and the send window moved by what
    was reported. *)
Definition kept (s s' : Http.http_op) : Prop :=
  leaked (Http.conn s') = leaked (Http.conn s) /\
  Http.m_sendbuf s' - reported (Http.out s')
  = Http.m_sendbuf s - reported (Http.out s) /\
  Http.to_int (Http.m_sendleft s' + reported (Http.out s'))
  = Http.to_int (Http.m_sendleft s + reported (Http.out s)).

(** The same for a program that may be inside a loop it has not left. *)
Definition kept_so_far (st st' : option Http.http_op) : Prop :=
  match st, st' with
  | Some s, Some s' => kept s s'
  | _, None => True
  | None, Some _ => False
  end.

(** What a run of the compound operation's code from [s] leaves, in a
    hook as well as in the first call: the port untouched, or one request
    left with the OS and [this->completion_func()] not called. *)
Definition contract (s sF : resolve_and_connect_context) : Prop :=
  the_port sF = the_port s \/
  (completions (trace sF) = completions (trace s) /\
   exists q, the_port sF = handed_over q (the_port s)).

(** The exchange is over: the program is past its disconnect with nothing
    left to send and its socket closed. *)
Definition finished (s : Http.http_op) : Prop :=
  Http.m_state s = Http.on_disconnect /\ Http.m_sendleft s = 0 /\
  Http.m_sock s = INVALID_SOCKET.

(** What the port may hold between two waits of [main]: nothing, one
    request the OS has not completed, or the sentinel, posted when the
    exchange was over. *)
Definition outstanding_ok (s : Http.http_op) : Prop :=
  Http.m_svc s = mkPort [] [] \/
  (exists q, Http.m_svc s = mkPort [q] []) \/
  (Http.m_svc s = mkPort [] [mkPacket KEY_SHUTDOWN None] /\ finished s).

(** The resume points behind the send loop are reached with nothing left
    to send. *)
Definition past_sending (s : Http.http_op) : Prop :=
  Http.m_state s = Http.on_receive \/ Http.m_state s = Http.on_disconnect ->
  Http.m_sendleft s = 0.

(** What the program's own bookkeeping leaves alone. *)
Definition same_phase (s s' : Http.http_op) : Prop :=
  Http.m_state s' = Http.m_state s /\
  Http.m_sendleft s' = Http.m_sendleft s /\
  Http.m_sock s' = Http.m_sock s /\
  Http.m_svc s' = Http.m_svc s.

(** The invariant of the loop of [main], on a program that may be inside
    a loop it has not left. *)
Definition between_waits (st : option Http.http_op) : Prop :=
  match st with
  | Some s => outstanding_ok s /\ past_sending s
  | None => True
  end.

(** The program right after [m_state = on_connect] in its first call. *)
Definition connecting (mem : Http.http_op) (buffer buffer_len : Z)
  : Http.http_op :=
  Http.set_m_state Http.on_connect
    (Http.say Http.Said_connecting (Http.ctor mem buffer buffer_len)).

(** ** Vocabulary for runs of the program *)

(** The byte count a call reports when it succeeds, inside the call or
    through its completion; [None] when it fails or stores no count. *)
Definition moved (a : Http.io_answer) : option DWORD :=
  if call_done (Http.io_call a) then bytes_stored (Http.io_call a)
  else if last_error (Http.io_call a) =? ERROR_IO_PENDING
       then if ovl_ok (Http.io_result a)
            then Some (ovl_transferred (Http.io_result a))
            else None
       else None.

(** The call succeeds, inside the call or through its completion. *)
Definition completes (a : Http.io_answer) : bool :=
  call_done (Http.io_call a) ||
  ((last_error (Http.io_call a) =? ERROR_IO_PENDING) &&
   ovl_ok (Http.io_result a)).

(** From call number [i] on, the calls answered by [f] move the byte
    counts [ns], one call each. *)
Fixpoint serves (f : nat -> Http.io_answer) (i : nat) (ns : list DWORD)
  : bool :=
  match ns with
  | [] => true
  | n :: rest =>
      match moved (f i) with
      | Some m => (m =? n) && serves f (S i) rest
      | None => false
      end
  end.

Fixpoint sum (ns : list Z) : Z :=
  match ns with
  | [] => 0
  | n :: rest => n + sum rest
  end.

(** A world that lets the exchange through: the sends from number [i] on
    take [ns] bytes, at least one each and fewer than 2^31 together; the
    receives from number [j] on bring [rs] bytes, not zero, and then zero;
    both [::shutdown] calls, the disconnect and the post of the sentinel
    succeed. *)
Definition cooperative (e : Http.world) (i : nat) (ns : list DWORD)
    (j : nat) (rs : list DWORD) : Prop :=
  serves (Http.on_send_call e) i ns = true /\
  forallb (fun n => 0 <? n) ns = true /\
  sum ns < 2 ^ 31 /\
  serves (Http.on_recv_call e) j (rs ++ [0]) = true /\
  forallb (fun n => negb (n =? 0)) rs = true /\
  Http.on_shutdown e Http.SD_SEND = 0 /\
  Http.on_shutdown e Http.SD_RECEIVE = 0 /\
  Http.disconnect_ioctl e = IoctlFound /\
  completes (Http.on_disconnect_call e) = true /\
  Http.post_ok e = true.

(** The loop of [main] taken up when the hook of the object at [q],
    which called [step()], has ended as [o]; [disp] are the hooks
    dispatched before it. *)
Definition after_hook (e : Http.world) (fuel gas : nat) (disp : list ptr)
    (q : ptr) (o : option (outcome unit Http.http_op))
  : option (Http.ending * list ptr) :=
  match o with
  | None => None
  | Some (Returns _ s) =>
      Http.run_loop e fuel gas
        (mkDriven (Some (Http.say Http.Said_completed s)) (disp ++ [q]))
  | Some (Throws err s) => Some (Http.Thrown err s, disp ++ [q])
  | Some NullDeref => Some (Http.Undefined, disp)
  end.

(** The run stops cleanly after [k] sends and [m] receives in all. *)
Definition stops_after (k m : nat) (x : option (Http.ending * list ptr))
  : Prop :=
  exists s disp,
    x = Some (Http.Stopped s, disp) /\ Http.sends s = k /\ Http.recvs s = m.

(** ** Vocabulary for failing and unending runs *)

(** The code a call fails with, inside the call or through its
    completion; [None] when it succeeds. *)
Definition breaks (a : Http.io_answer) : option DWORD :=
  if call_done (Http.io_call a) then None
  else if last_error (Http.io_call a) =? ERROR_IO_PENDING
       then if ovl_ok (Http.io_result a) then None
            else Some (ovl_last_error (Http.io_result a))
       else Some (last_error (Http.io_call a)).

(** The [try] block is left by an exception carrying [err], after [k]
    sends and [m] receives in all, thrown at the resume point [at_]. *)
Definition throws_after (err : DWORD) (k m : nat) (at_ : Http.resume)
    (x : option (Http.ending * list ptr)) : Prop :=
  exists s disp,
    x = Some (Http.Thrown err s, disp) /\
    Http.sends s = k /\ Http.recvs s = m /\ Http.m_state s = at_.

(** The call finishes at once and stores a byte count that is not
    zero. *)
Definition ready_with_data (a : Http.io_answer) : bool :=
  call_done (Http.io_call a) &&
  match bytes_stored (Http.io_call a) with
  | Some n => negb (n =? 0)
  | None => false
  end.

(** * Theorems *)

(** ** Overloads *)

(** What a [ULONG] holds after an [int] was stored in it. *)
Lemma to_ULONG_of_int :
  forall n,
    (0 <= n < 2 ^ 31 -> to_ULONG n = n) /\
    (- 2 ^ 31 <= n < 0 -> to_ULONG n = n + 2 ^ 32).
Proof.
  intros n. unfold to_ULONG. split; intros H.
  - apply Z.mod_small. lia.
  - symmetry. apply (Z.mod_unique n (2 ^ 32) (-1) (n + 2 ^ 32)); lia.
Qed.

(** C9: [connect] is [connect_and_send] with a null buffer of length 0, and
    the single-buffer [send] and [receive] are the multi-buffer overloads
    on one [WSABUF] whose [buf] is that buffer and whose [len] is that
    length as the [ULONG] field holds it: the length itself when it is
    not negative, 2^32 more when it is negative.  Same boolean, same
    context, same port. *)
Theorem overloads_delegate :
  forall ws sock p (c : socket_context) (w : port),
    (forall name name_len,
        connect ws sock p name name_len c w
        = connect_and_send ws sock p name name_len 0 0 c w) /\
    (forall buffer buffer_len fl,
        send ws sock p buffer buffer_len fl c w
        = send_bufs ws sock p [mkWSABUF buffer (to_ULONG buffer_len)] 1 fl c w /\
        (0 <= buffer_len < 2 ^ 31 ->
         send ws sock p buffer buffer_len fl c w
         = send_bufs ws sock p [mkWSABUF buffer buffer_len] 1 fl c w) /\
        (- 2 ^ 31 <= buffer_len < 0 ->
         send ws sock p buffer buffer_len fl c w
         = send_bufs ws sock p [mkWSABUF buffer (buffer_len + 2 ^ 32)] 1 fl c w)) /\
    (forall buffer buffer_len fl,
        receive ws sock p buffer buffer_len fl c w
        = receive_bufs ws sock p [mkWSABUF buffer (to_ULONG buffer_len)] 1 fl c w /\
        (0 <= buffer_len < 2 ^ 31 ->
         receive ws sock p buffer buffer_len fl c w
         = receive_bufs ws sock p [mkWSABUF buffer buffer_len] 1 fl c w) /\
        (- 2 ^ 31 <= buffer_len < 0 ->
         receive ws sock p buffer buffer_len fl c w
         = receive_bufs ws sock p [mkWSABUF buffer (buffer_len + 2 ^ 32)] 1 fl c w)).
Proof.
  intros ws sock p c w.
  split; [intros; reflexivity|].
  split; intros buffer buffer_len fl;
    destruct (to_ULONG_of_int buffer_len) as [Hpos Hneg].
  - unfold send. split; [reflexivity|].
    split; intros H; [rewrite (Hpos H)|rewrite (Hneg H)]; reflexivity.
  - unfold receive. split; [reflexivity|].
    split; intros H; [rewrite (Hpos H)|rewrite (Hneg H)]; reflexivity.
Qed.

(** A request of 16 bytes goes out as one [WSABUF] of 16 bytes; a length
    of -1 goes out as one of 4294967295. *)
Lemma overloads_delegate_witness :
  send Sample.ws_accepting 5 2%nat 100 16 0 Sample.ctx0 Sample.port0
  = send_bufs Sample.ws_accepting 5 2%nat [mkWSABUF 100 16] 1 0
      Sample.ctx0 Sample.port0 /\
  receive Sample.ws_accepting 5 2%nat 100 (-1) 0 Sample.ctx0 Sample.port0
  = receive_bufs Sample.ws_accepting 5 2%nat [mkWSABUF 100 4294967295] 1 0
      Sample.ctx0 Sample.port0.
Proof.
  destruct (overloads_delegate Sample.ws_accepting 5 2%nat Sample.ctx0
              Sample.port0) as (_ & Hsend & Hrecv).
  split.
  - apply (proj1 (proj2 (Hsend 100 16 0))). lia.
  - apply (proj2 (proj2 (Hrecv 100 (-1) 0))). lia.
Defined.

(** ** Immediate failure *)

Lemma classify_failure :
  forall a f c w,
    fails_immediately a = true ->
    completed_with_error (last_error a) w (classify a f c w).
Proof.
  intros a f c w H. unfold fails_immediately in H.
  apply andb_true_iff in H. destruct H as [Hd He].
  apply negb_true_iff in Hd. apply negb_true_iff in He.
  unfold classify. rewrite Hd, He. repeat split.
Qed.

Lemma not_pending_when_failed :
  forall a, fails_immediately a = true -> is_pending a = false.
Proof.
  intros a H. unfold fails_immediately in H. unfold is_pending.
  apply andb_true_iff in H. destruct H as [_ He].
  apply negb_true_iff in He. rewrite He. apply andb_false_r.
Qed.

Lemma failed_call_leaves_port :
  forall p a w, fails_immediately a = true -> os_overlapped_call p a w = w.
Proof.
  intros p a w H. unfold os_overlapped_call.
  now rewrite (not_pending_when_failed a H).
Qed.

(** C7: an immediate failure of a socket primitive is a synchronous
    completion with error.  When the extension function cannot be looked
    up the primitive returns [true] with the lookup's error code, zero
    bytes and zero flags; when the OS call itself fails with anything but
    [ERROR_IO_PENDING] it returns [true] with that code and zero flags.
    Both are the same outcome shape, nothing is handed to the OS, and the
    primitives are total functions: nothing is thrown. *)
Theorem immediate_failure_completes_with_error :
  forall ws sock p (c : socket_context) (w : port),
    (forall e acc b rl ll rml,
        WSAIoctl_AcceptEx ws sock = IoctlFailed e ->
        let r := accept_and_receive ws sock p acc b rl ll rml c w in
        completed_with_error e w r /\ m_transferred (ctx r) = 0) /\
    (forall e name nl b bl,
        WSAIoctl_ConnectEx ws sock = IoctlFailed e ->
        let r := connect_and_send ws sock p name nl b bl c w in
        completed_with_error e w r /\ m_transferred (ctx r) = 0) /\
    (forall e reuse,
        WSAIoctl_DisconnectEx ws sock = IoctlFailed e ->
        let r := disconnect ws sock p reuse c w in
        completed_with_error e w r /\ m_transferred (ctx r) = 0) /\
    (forall acc b rl ll rml,
        WSAIoctl_AcceptEx ws sock = IoctlFound ->
        fails_immediately (AcceptEx ws sock acc b rl ll rml) = true ->
        completed_with_error (last_error (AcceptEx ws sock acc b rl ll rml)) w
          (accept_and_receive ws sock p acc b rl ll rml c w)) /\
    (forall name nl b bl,
        WSAIoctl_ConnectEx ws sock = IoctlFound ->
        fails_immediately (ConnectEx ws sock name nl b bl) = true ->
        completed_with_error (last_error (ConnectEx ws sock name nl b bl)) w
          (connect_and_send ws sock p name nl b bl c w)) /\
    (forall bufs n fl,
        fails_immediately (WSASend ws sock bufs n fl) = true ->
        completed_with_error (last_error (WSASend ws sock bufs n fl)) w
          (send_bufs ws sock p bufs n fl c w)) /\
    (forall bufs n fl,
        fails_immediately (WSARecv ws sock bufs n fl) = true ->
        completed_with_error (last_error (WSARecv ws sock bufs n fl)) w
          (receive_bufs ws sock p bufs n fl c w)) /\
    (forall reuse : bool,
        WSAIoctl_DisconnectEx ws sock = IoctlFound ->
        fails_immediately
          (DisconnectEx ws sock (if reuse then TF_REUSE_SOCKET else 0) 0) = true ->
        completed_with_error
          (last_error (DisconnectEx ws sock (if reuse then TF_REUSE_SOCKET else 0) 0)) w
          (disconnect ws sock p reuse c w)).
Proof.
  intros ws sock p c w.
  repeat match goal with |- _ /\ _ => split end; intros.
  - unfold r, accept_and_receive. rewrite H. unfold ioctl_failed, completed_with_error; simpl. auto.
  - unfold r, connect_and_send. rewrite H. unfold ioctl_failed, completed_with_error; simpl. auto.
  - unfold r, disconnect. rewrite H. unfold ioctl_failed, completed_with_error; simpl. auto.
  - unfold accept_and_receive. rewrite H.
    cbv zeta. rewrite (failed_call_leaves_port p _ w H0).
    now apply classify_failure.
  - unfold connect_and_send. rewrite H.
    cbv zeta. rewrite (failed_call_leaves_port p _ w H0).
    now apply classify_failure.
  - unfold send_bufs. cbv zeta. rewrite (failed_call_leaves_port p _ w H).
    now apply classify_failure.
  - unfold receive_bufs. cbv zeta. rewrite (failed_call_leaves_port p _ w H).
    now apply classify_failure.
  - unfold disconnect. rewrite H.
    cbv zeta. rewrite (failed_call_leaves_port p _ w H0).
    now apply classify_failure.
Qed.

Lemma immediate_failure_witness :
  (completed_with_error 10045 Sample.port0
     (connect_and_send Sample.ws_no_extension 5 2%nat 100 16 0 0
        Sample.ctx0 Sample.port0) /\
   m_transferred
     (ctx (connect_and_send Sample.ws_no_extension 5 2%nat 100 16 0 0
             Sample.ctx0 Sample.port0)) = 0) /\
  completed_with_error 10061 Sample.port0
    (send_bufs Sample.ws_refusing 5 2%nat [mkWSABUF 100 16] 1 0
       Sample.ctx0 Sample.port0) /\
  completed_with_error 10061 Sample.port0
    (disconnect Sample.ws_refusing 5 2%nat false Sample.ctx0 Sample.port0).
Proof.
  destruct (immediate_failure_completes_with_error
              Sample.ws_no_extension 5 2%nat Sample.ctx0 Sample.port0)
    as (_ & Hc & _).
  destruct (immediate_failure_completes_with_error
              Sample.ws_refusing 5 2%nat Sample.ctx0 Sample.port0)
    as (_ & _ & _ & _ & _ & Hs & _ & Hd).
  split; [ exact (Hc 10045 100 16 0 0 eq_refl) | split ].
  - exact (Hs [mkWSABUF 100 16] 1 0 eq_refl).
  - exact (Hd false eq_refl eq_refl).
Defined.

(** ** The multiplexer *)

Section ServiceFacts.

Variable St : Type.
Variable cf : ptr -> St -> outcome unit St.

Lemma dispatch_returns :
  forall q (d : driven St) s,
    cf q (prog d) = Returns tt s ->
    dispatch St cf (Some q) d = Returns tt (mkDriven s (dispatched d ++ [q])).
Proof.
  intros q d s H. unfold dispatch. now rewrite H.
Qed.

Lemma run_entries_spec :
  forall entries keep (d : driven St) s',
    forallb known_key entries = true ->
    forallb carries_context entries = true ->
    after_hooks cf (hooks_due entries) (prog d) = Some s' ->
    run_entries St cf entries keep d
    = Returns (keep && negb (existsb is_shutdown_entry entries))
              (mkDriven s' (dispatched d ++ hooks_due entries)).
Proof.
  induction entries as [|pk rest IH]; intros keep d s' Hk Hc Hh.
  - simpl in *. injection Hh as <-. rewrite andb_true_r, app_nil_r.
    now destruct d.
  - simpl in Hk, Hc. apply andb_true_iff in Hk. destruct Hk as [Hk Hks].
    apply andb_true_iff in Hc. destruct Hc as [Hc Hcs].
    unfold known_key in Hk. unfold carries_context in Hc.
    cbn [run_entries existsb hooks_due] in Hh |- *.
    destruct (lpCompletionKey pk =? KEY_RUN) eqn:Hrun.
    + assert (Hs : is_shutdown_entry pk = false).
      { unfold is_shutdown_entry. apply Z.eqb_eq in Hrun.
        rewrite Hrun. reflexivity. }
      rewrite Hs in Hh, Hc |- *. cbn [orb] in Hc |- *.
      destruct (lpOverlapped pk) as [q|]; [|discriminate].
      cbn [after_hooks] in Hh.
      destruct (cf q (prog d)) as [[] s1| |] eqn:Hq; try discriminate.
      rewrite (dispatch_returns q d s1 Hq). cbn [bind].
      rewrite (IH keep (mkDriven s1 (dispatched d ++ [q])) s' Hks Hcs Hh).
      cbn [dispatched]. now rewrite <- app_assoc.
    + cbn [orb] in Hk. fold (is_shutdown_entry pk) in Hk.
      rewrite Hk in Hh |- *.
      rewrite (IH false d s' Hks Hcs Hh). cbn [orb negb].
      now rewrite andb_false_r.
Qed.

Lemma hooks_due_count :
  forall entries,
    forallb carries_context entries = true ->
    length (hooks_due entries)
    = length (filter (fun pk => negb (is_shutdown_entry pk)) entries).
Proof.
  induction entries as [|pk rest IH]; intros Hc; [reflexivity|].
  simpl in Hc. apply andb_true_iff in Hc. destruct Hc as [Hc Hcs].
  unfold carries_context in Hc. simpl.
  destruct (is_shutdown_entry pk); simpl; [now apply IH|].
  simpl in Hc. destruct (lpOverlapped pk); [|discriminate].
  simpl. now rewrite IH.
Qed.

End ServiceFacts.

Lemma forallb_firstn :
  forall {A} (f : A -> bool) n l,
    forallb f l = true -> forallb f (firstn n l) = true.
Proof.
  intros A f n. induction n as [|n IH]; intros [|x l] H; simpl in *; auto.
  apply andb_true_iff in H. destruct H as [Hx Hl].
  rewrite Hx. simpl. now apply IH.
Qed.

(** C5: [service::run].  The wait blocks exactly while the queue is empty.
    A wait that fails with no descriptor attached is thrown to the caller
    with its error code and nothing is dispatched.  A dequeued packet with
    the shutdown key makes [run] return [false] without invoking any hook;
    any other packet has the hook of its descriptor invoked once and, when
    the hook returns, [run] returns [true].  The packet [shutdown] posts
    carries the shutdown key and no descriptor, and is served that way. *)
Theorem run_one_contract :
  forall (St : Type) (cf : ptr -> St -> outcome unit St) (d : driven St),
    (forall io_ok w,
        GetQueuedCompletionStatus None io_ok w = None <-> queue w = []) /\
    (forall a,
        gq_ret a = false -> gq_overlapped a = None ->
        run St cf a d = Throws (gq_error a) d) /\
    (forall a,
        gq_ret a = true \/ gq_overlapped a <> None ->
        gq_key a = KEY_SHUTDOWN ->
        run St cf a d = Returns false d) /\
    (forall a q s,
        gq_key a <> KEY_SHUTDOWN ->
        gq_overlapped a = Some q ->
        cf q (prog d) = Returns tt s ->
        run St cf a d = Returns true (mkDriven s (dispatched d ++ [q]))) /\
    (forall io_ok e w,
        queue w = [] ->
        exists w1 a,
          shutdown true e w = Returns tt w1 /\
          GetQueuedCompletionStatus None io_ok w1 = Some (a, w) /\
          gq_key a = KEY_SHUTDOWN /\ gq_overlapped a = None /\
          run St cf a d = Returns false d).
Proof.
  intros St cf d. repeat match goal with |- _ /\ _ => split end.
  - intros io_ok w. unfold GetQueuedCompletionStatus.
    destruct (queue w); split; intro H; try reflexivity; discriminate.
  - intros a Hr Ho. unfold run. now rewrite Hr, Ho.
  - intros a Hr Hk. unfold run.
    assert (Hc : negb (gq_ret a) &&
                 match gq_overlapped a with None => true | Some _ => false end
                 = false).
    { destruct Hr as [Hr|Hr]; [now rewrite Hr|].
      destruct (gq_overlapped a); [apply andb_false_r|congruence]. }
    rewrite Hc, Hk. reflexivity.
  - intros a q s Hk Ho Hq. unfold run. rewrite Ho, andb_false_r.
    apply Z.eqb_neq in Hk. rewrite Hk.
    now rewrite (dispatch_returns St cf q d s Hq).
  - intros io_ok e w Hq. destruct w as [fl qu]. simpl in Hq. subst qu.
    eexists. eexists. repeat split.
Qed.

Lemma run_one_witness :
  run nat (fun _ n => Returns tt (S n)) (mkGqcs false 0 None 6) (mkDriven 0%nat [])
  = Throws 6 (mkDriven 0%nat []) /\
  run nat (fun _ n => Returns tt (S n)) (mkGqcs true KEY_SHUTDOWN None 0)
      (mkDriven 0%nat [])
  = Returns false (mkDriven 0%nat []) /\
  run nat (fun _ n => Returns tt (S n)) (mkGqcs true KEY_RUN (Some 2%nat) 0)
      (mkDriven 0%nat [])
  = Returns true (mkDriven 1%nat [2%nat]).
Proof.
  destruct (run_one_contract nat (fun _ n => Returns tt (S n)) (mkDriven 0%nat []))
    as (_ & Ht & Hs & Hr & Hq).
  split; [ exact (Ht (mkGqcs false 0 None 6) eq_refl eq_refl) | split ].
  - exact (Hs (mkGqcs true KEY_SHUTDOWN None 0) (or_introl eq_refl) eq_refl).
  - refine (Hr (mkGqcs true KEY_RUN (Some 2%nat) 0) 2%nat 1%nat _ eq_refl eq_refl).
    unfold KEY_RUN, KEY_SHUTDOWN; simpl; lia.
Defined.

(** The packets this program queues keep to the two keys and carry a
    descriptor unless they are the shutdown sentinel. *)
Lemma producers_keep_keys :
  forall w,
    forallb known_key (queue w) = true ->
    forallb carries_context (queue w) = true ->
    (forall q, forallb known_key (queue (os_complete q w)) = true /\
               forallb carries_context (queue (os_complete q w)) = true) /\
    (forall e q c,
        forallb known_key (queue (snd (lookup_completion e q c w))) = true /\
        forallb carries_context (queue (snd (lookup_completion e q c w))) = true) /\
    forallb known_key (queue (PostQueuedCompletionStatus KEY_SHUTDOWN None w)) = true /\
    forallb carries_context (queue (PostQueuedCompletionStatus KEY_SHUTDOWN None w)) = true.
Proof.
  intros w Hk Hc.
  assert (Hadd : forall pk,
             known_key pk = true -> carries_context pk = true ->
             forallb known_key (queue w ++ [pk]) = true /\
             forallb carries_context (queue w ++ [pk]) = true).
  { intros pk H1 H2. rewrite !forallb_app. cbn [forallb].
    now rewrite Hk, Hc, H1, H2. }
  split; [|split].
  - intros q. unfold os_complete.
    destruct (existsb (Nat.eqb q) (inflight w)); [|now split].
    now apply Hadd.
  - intros e q c. now apply Hadd.
  - now apply Hadd.
Qed.

Lemma batch_wait_spec :
  forall n w a w',
    GetQueuedCompletionStatusEx None n w = Some (a, w') ->
    gqx_ret a = true /\ gqx_entries a = firstn n (queue w) /\
    queue w' = skipn n (queue w).
Proof.
  intros n w a w' H. unfold GetQueuedCompletionStatusEx in H.
  destruct (queue w) as [|pk rest]; [discriminate|].
  inversion H; subst. repeat split.
Qed.

(** C6: [service::run_many].  One wait hands over at most 16 entries, the
    oldest of the queue.  On a port holding only this program's packets,
    and with hooks that return, the batch invokes the hook of every entry
    that is not a shutdown entry, once each and in queue order, wherever
    it stands relative to a shutdown entry; it invokes nothing for a
    shutdown entry; and it returns [false] exactly when the batch held a
    shutdown entry. *)
Theorem run_batch_contract :
  forall (St : Type) (cf : ptr -> St -> outcome unit St) (d : driven St)
         (w w' : port) (a : gqcs_ex_answer) (s' : St),
    GetQueuedCompletionStatusEx None 16 w = Some (a, w') ->
    forallb known_key (queue w) = true ->
    forallb carries_context (queue w) = true ->
    after_hooks cf (hooks_due (gqx_entries a)) (prog d) = Some s' ->
    (length (gqx_entries a) <= 16)%nat /\
    queue w = gqx_entries a ++ queue w' /\
    length (hooks_due (gqx_entries a))
    = length (filter (fun pk => negb (is_shutdown_entry pk)) (gqx_entries a)) /\
    run_many St cf a d
    = Returns (negb (existsb is_shutdown_entry (gqx_entries a)))
              (mkDriven s' (dispatched d ++ hooks_due (gqx_entries a))).
Proof.
  intros St cf d w w' a s' Hw Hk Hc Hh.
  destruct (batch_wait_spec 16 w a w' Hw) as (Hr & He & Hw').
  rewrite He in *. rewrite Hw'.
  pose proof (forallb_firstn known_key 16 _ Hk) as Hk'.
  pose proof (forallb_firstn carries_context 16 _ Hc) as Hc'.
  repeat match goal with |- _ /\ _ => split end.
  - apply firstn_le_length.
  - symmetry. apply firstn_skipn.
  - now apply hooks_due_count.
  - unfold run_many. rewrite Hr, He. cbn [negb].
    now rewrite (run_entries_spec St cf _ true d s' Hk' Hc' Hh).
Qed.

Lemma run_batch_witness :
  run_many nat SampleBatch.counting
    (mkGqcsEx true (queue SampleBatch.port3) 0) (mkDriven 0%nat [])
  = Returns false (mkDriven 2%nat [4%nat; 7%nat]).
Proof.
  exact (proj2 (proj2 (proj2
    (run_batch_contract nat SampleBatch.counting (mkDriven 0%nat [])
       SampleBatch.port3 (mkPort [] [])
       (mkGqcsEx true (queue SampleBatch.port3) 0) 2%nat
       eq_refl eq_refl eq_refl eq_refl)))).
Defined.

(** ** Resolve-and-connect: the path of one run *)

Lemma connect_returned :
  forall t h p n nl b bl c w,
    returned (connect_and_send (winsock_of t) h p n nl b bl c w)
    = negb (connect_suspends t).
Proof.
  intros. unfold connect_and_send, connect_suspends. cbn.
  destruct (at_ioctl t); [|reflexivity].
  unfold classify, is_pending.
  destruct (call_done (at_connect t)); [reflexivity|].
  now destruct (last_error (at_connect t) =? ERROR_IO_PENDING).
Qed.

Lemma connect_port :
  forall t h p n nl b bl c w,
    os (connect_and_send (winsock_of t) h p n nl b bl c w)
    = if connect_suspends t then mkPort (inflight w ++ [p]) (queue w) else w.
Proof.
  intros. unfold connect_and_send, connect_suspends. cbn.
  destruct (at_ioctl t); [|reflexivity].
  unfold classify, os_overlapped_call.
  destruct (is_pending (at_connect t)) eqn:Hp;
  destruct (call_done (at_connect t));
  destruct (last_error (at_connect t) =? ERROR_IO_PENDING); reflexivity.
Qed.

Lemma connect_inline_code :
  forall t h p n nl b bl c w,
    connect_suspends t = false ->
    m_error (ctx (connect_and_send (winsock_of t) h p n nl b bl c w))
    = connect_code t.
Proof.
  intros t h p n nl b bl c w H.
  unfold connect_and_send, connect_suspends, connect_code in *. cbn.
  destruct (at_ioctl t); [|reflexivity].
  unfold classify, is_pending in *.
  destruct (call_done (at_connect t)); [reflexivity|].
  destruct (last_error (at_connect t) =? ERROR_IO_PENDING); [discriminate|].
  reflexivity.
Qed.

Lemma connect_loop_cons :
  forall env a rest s,
    attempt_ready (env_attempt env a) = true ->
    connect_loop env (a :: rest) s
    = if connect_suspends (env_attempt env a)
      then Returns tt (set_sync false (connect_issued env a rest s))
      else on_connect_label (connect_loop env rest) rest (connect_issued env a rest s).
Proof.
  intros env a rest s Hr.
  unfold attempt_ready in Hr.
  apply andb_true_iff in Hr. destruct Hr as [Hr Hb].
  apply andb_true_iff in Hr. destruct Hr as [Hs Ha].
  apply negb_true_iff in Hs.
  destruct (at_associate (env_attempt env a)) eqn:Hassoc; [discriminate|].
  cbn [connect_loop]. unfold socket_ctor.
  cbn [sock log set_trace set_iter]. rewrite Hs, Hassoc. cbn [bind].
  unfold socket_bind. rewrite Hb. cbn [negb bind].
  rewrite connect_returned, negb_involutive.
  reflexivity.
Qed.


Lemma drive_idle :
  forall env n (d : driven resolve_and_connect_context),
    idle (the_port (prog d)) -> drive env n d = Returns tt d.
Proof.
  intros env n d H. destruct n as [|n]; [reflexivity|].
  cbn [drive]. unfold turn. rewrite H. cbn [queue].
  unfold os_finish. rewrite H. cbn [inflight].
  rewrite H. reflexivity.
Qed.

Lemma drive_resume_connect :
  forall env n disp s,
    the_port s = mkPort [p_connect_ctx] [] ->
    m_op (connect_ctx s) = p_this ->
    drive env (S n) (mkDriven s disp)
    = then_drive env n (disp ++ [p_connect_ctx])
        (bind (connect_base_completion_func env (set_the_port (mkPort [] []) s))
              (fun _ s2 => step env s2)).
Proof.
  intros env n disp s Hp Hop.
  cbn [drive]. unfold turn. cbn [prog dispatched]. rewrite Hp. cbn [queue].
  unfold os_finish. rewrite Hp. cbn [inflight].
  change (Nat.eqb p_connect_ctx p_resolve_ctx) with false. cbv iota.
  unfold os_complete. cbn [inflight existsb queue remove_first app].
  change (Nat.eqb p_connect_ctx p_connect_ctx) with true.
  cbn [orb the_port set_the_port].
  unfold GetQueuedCompletionStatus. cbn [queue inflight lpOverlapped lpCompletionKey].
  unfold run. cbn [gq_ret gq_overlapped gq_key negb andb].
  change (KEY_RUN =? KEY_SHUTDOWN) with false. cbv iota.
  unfold dispatch. cbn [prog dispatched].
  unfold completion_func at 1.
  change (Nat.eqb p_connect_ctx p_resolve_ctx) with false.
  change (Nat.eqb p_connect_ctx p_connect_ctx) with true. cbv iota.
  unfold async_completion_func. cbn [connect_ctx set_the_port].
  rewrite Hop.
  match goal with
  | |- context [connect_base_completion_func env ?x] =>
      change x with (set_the_port (mkPort [] []) s)
  end.
  unfold step_at. change (Nat.eqb p_this p_this) with true. cbv iota.
  destruct (connect_base_completion_func env (set_the_port (mkPort [] []) s))
    as [[] s2|e s2|]; cbn [bind then_drive]; try reflexivity.
  destruct (step env s2) as [[] s3|e s3|]; reflexivity.
Qed.

Lemma drive_resume_resolve :
  forall env n disp s,
    the_port s = mkPort [p_resolve_ctx] [] ->
    m_op (resolve_ctx s) = p_this ->
    drive env (S n) (mkDriven s disp)
    = then_drive env n (disp ++ [p_resolve_ctx])
        (step env
           (set_the_port (mkPort [] [])
              (set_resolve_ctx
                 (mkAsync
                    (fst (lookup_completion (lk_error (env_lookup env)) p_resolve_ctx
                       (mkResolveCtx (r_overlapped (base (resolve_ctx s)))
                          (r_error (base (resolve_ctx s)))
                          (m_iocp (base (resolve_ctx s)))
                          (lk_stored (env_lookup env))
                          (m_result (base (resolve_ctx s))))
                       (mkPort [] [])))
                    p_this) s))).
Proof.
  intros env n disp s Hp Hop.
  cbn [drive]. unfold turn. cbn [prog dispatched]. rewrite Hp. cbn [queue].
  unfold os_finish. rewrite Hp. cbn [inflight].
  change (Nat.eqb p_resolve_ctx p_resolve_ctx) with true. cbv iota.
  unfold os_lookup_done. cbn [inflight existsb queue remove_first app].
  change (Nat.eqb p_resolve_ctx p_resolve_ctx) with true.
  cbn [orb]. unfold lookup_completion at 1. cbn [queue inflight app fst snd].
  cbn [the_port set_the_port].
  unfold GetQueuedCompletionStatus. cbn [queue inflight lpOverlapped lpCompletionKey].
  unfold run. cbn [gq_ret gq_overlapped gq_key negb andb].
  change (KEY_RUN =? KEY_SHUTDOWN) with false. cbv iota.
  unfold dispatch. cbn [prog dispatched].
  unfold completion_func at 1.
  change (Nat.eqb p_resolve_ctx p_resolve_ctx) with true. cbv iota.
  unfold async_completion_func, resolve_base_completion_func.
  cbn [bind resolve_ctx set_the_port set_resolve_ctx m_op]. rewrite Hop.
  unfold step_at. unfold lookup_completion. cbv beta iota zeta.
  cbn [fst snd m_op resolve_ctx set_the_port set_resolve_ctx].
  change (Nat.eqb p_this p_this) with true. cbv iota.
  match goal with
  | |- context [then_drive env n _ (step env ?y)] =>
      match goal with
      | |- context [match step env ?x with _ => _ end] => change x with y
      end
  end.
  match goal with
  | |- context [then_drive env n _ (step env ?y)] =>
      destruct (step env y) as [[] s3|e s3|]; reflexivity
  end.
Qed.

Lemma connect_issued_fields :
  forall env a rest s,
    let t := env_attempt env a in
    let s1 := connect_issued env a rest s in
    let r := connect_and_send (winsock_of t) (at_socket t) p_connect_ctx
               (ai_addr a) (ai_addrlen a) (buffer s) (buffer_len s)
               (base (connect_ctx s)) (the_port s) in
    trace s1 = trace s ++ [EvSocket a (at_socket t)] ++ close_events (sock s) ++
               [EvBind (at_socket t) (ai_family a) (ai_addrlen a);
                EvConnect a (at_socket t)] /\
    sock s1 = at_socket t /\ iter s1 = a :: rest /\ state s1 = on_connect /\
    rc_base s1 = rc_base s /\ sync s1 = sync s /\
    resolve_ctx s1 = resolve_ctx s /\
    connect_ctx s1 = mkAsync (ctx r) (m_op (connect_ctx s)) /\
    the_port s1 = os r.
Proof.
  intros env a rest s t s1 r. subst s1 r t.
  unfold connect_issued, socket_move_assign, socket_close, close_events.
  cbn -[connect_and_send Z.eqb].
  destruct (sock s =? INVALID_SOCKET); cbn -[connect_and_send Z.eqb];
    repeat split; rewrite <- ?app_assoc; reflexivity.
Qed.

Lemma connect_inline_flags :
  forall t h p n nl b bl c w,
    connect_suspends t = false ->
    m_flags (ctx (connect_and_send (winsock_of t) h p n nl b bl c w)) = 0.
Proof.
  intros t h p n nl b bl c w H.
  unfold connect_and_send, connect_suspends in *. cbn.
  destruct (at_ioctl t); [|reflexivity].
  unfold classify, is_pending in *.
  destruct (call_done (at_connect t)); [reflexivity|].
  destruct (last_error (at_connect t) =? ERROR_IO_PENDING); [discriminate|].
  reflexivity.
Qed.

Lemma connect_inline_bytes :
  forall t h p n nl b bl c w k,
    at_ioctl t = IoctlFound ->
    bytes_stored (at_connect t) = Some k ->
    m_transferred (ctx (connect_and_send (winsock_of t) h p n nl b bl c w)) = k.
Proof.
  intros t h p n nl b bl c w k Hi Hb.
  unfold connect_and_send. cbn. rewrite Hi, Hb.
  unfold classify.
  destruct (call_done (at_connect t)); [reflexivity|].
  destruct (last_error (at_connect t) =? ERROR_IO_PENDING); reflexivity.
Qed.

Lemma connect_pending_sock :
  forall t h p n nl b bl c w,
    connect_suspends t = true ->
    m_sock (ctx (connect_and_send (winsock_of t) h p n nl b bl c w)) = h.
Proof.
  intros t h p n nl b bl c w H.
  unfold connect_and_send, connect_suspends in *. cbn.
  destruct (at_ioctl t); [|discriminate].
  unfold classify, is_pending in *.
  destruct (call_done (at_connect t)); [discriminate|].
  destruct (last_error (at_connect t) =? ERROR_IO_PENDING); [|discriminate].
  cbn. now destruct (bytes_stored (at_connect t)).
Qed.

Lemma suspended_code :
  forall t,
    connect_suspends t = true ->
    connect_code t
    = if ovl_ok (at_result t) then ERROR_SUCCESS else ovl_last_error (at_result t).
Proof.
  intros t H. unfold connect_suspends, connect_code, is_pending in *.
  destruct (at_ioctl t); [|discriminate].
  destruct (call_done (at_connect t)); [discriminate|].
  now destruct (last_error (at_connect t) =? ERROR_IO_PENDING).
Qed.

Lemma step_on_connect :
  forall env s a rest,
    state s = on_connect -> iter s = a :: rest ->
    step env s
    = on_connect_label (connect_loop env rest) rest (log (EvStep on_connect) s).
Proof.
  intros env s a rest Hs Hi. unfold step.
  cbn [state iter log set_trace]. rewrite Hs, Hi. reflexivity.
Qed.

Lemma step_on_resolve :
  forall env s,
    state s = on_resolve ->
    step env s = on_resolve_label env (log (EvStep on_resolve) s).
Proof.
  intros env s Hs. unfold step. cbn [state log set_trace]. now rewrite Hs.
Qed.

Lemma hook_error_is_code :
  forall t c,
    connect_suspends t = true ->
    has_error (socket_completion_func (at_result t) c) = connect_fails t /\
    m_error (socket_completion_func (at_result t) c) = connect_code t.
Proof.
  intros t c H. unfold connect_fails. rewrite (suspended_code t H).
  unfold has_error, status, socket_completion_func. cbn. split; reflexivity.
Qed.

Lemma fixup_does_not_throw :
  forall t,
    connect_suspends t = true ->
    (connect_fails t || connect_succeeds t) = true ->
    connect_fails t = false ->
    (at_setsockopt t =? 0) = true.
Proof.
  intros t Hs Hf Hn. rewrite Hn in Hf. cbn [orb] in Hf.
  unfold connect_succeeds in Hf. rewrite Hs in Hf.
  apply andb_true_iff in Hf. now destruct Hf as [_ Hf].
Qed.

Lemma connect_hook_returns :
  forall env s a rest,
    let t := env_attempt env a in
    iter s = a :: rest ->
    connect_suspends t = true ->
    (connect_fails t || connect_succeeds t) = true ->
    connect_base_completion_func env s
    = Returns tt
        (let c1 := socket_completion_func (at_result t) (base (connect_ctx s)) in
         let s1 := set_connect_ctx (mkAsync c1 (m_op (connect_ctx s))) s in
         if connect_fails t then s1
         else log (EvSetsockopt (m_sock (base (connect_ctx s)))) s1).
Proof.
  intros env s a rest t Hi Hs Hf.
  unfold connect_base_completion_func. rewrite Hi. fold t.
  unfold connect_completion_func. cbv zeta.
  destruct (hook_error_is_code t (base (connect_ctx s)) Hs) as [He _].
  pose proof (fixup_does_not_throw t Hs Hf) as Hfix.
  rewrite He.
  destruct (connect_fails t) eqn:Hfail; cbn [negb].
  - now rewrite He.
  - rewrite (Hfix eq_refl). cbn [negb].
    now rewrite He.
Qed.


Lemma resume_pending_connect :
  forall env a rest s1 n disp,
    let t := env_attempt env a in
    connect_suspends t = true ->
    (connect_fails t || connect_succeeds t) = true ->
    iter s1 = a :: rest -> state s1 = on_connect ->
    the_port s1 = mkPort [p_connect_ctx] [] ->
    m_op (connect_ctx s1) = p_this ->
    then_drive env (S n) disp (Returns tt (set_sync false s1))
    = then_drive env n (disp ++ [p_connect_ctx])
        (on_connect_label (connect_loop env rest) rest (resumed env a s1)).
Proof.
  intros env a rest s1 n disp t Hsusp Hfate Hiter Hstate Hport Hbc.
  cbn [then_drive].
  rewrite drive_resume_connect;
      [ | cbn [the_port set_sync]; exact Hport
        | cbn [connect_ctx set_sync]; exact Hbc ].
  rewrite (connect_hook_returns env _ a rest);
      [ | cbn [iter set_the_port set_sync]; exact Hiter | exact Hsusp | exact Hfate ].
  fold t. cbn [bind].
  rewrite (step_on_connect env _ a rest);
      [ | destruct (connect_fails t); cbn; assumption
        | destruct (connect_fails t); cbn; assumption ].
  reflexivity.
Qed.

Lemma resumed_fields :
  forall env a s,
    let t := env_attempt env a in
    let s2 := resumed env a s in
    trace s2 = trace s ++
               (if connect_fails t then []
                else [EvSetsockopt (m_sock (base (connect_ctx s)))]) ++
               [EvStep on_connect] /\
    sock s2 = sock s /\ iter s2 = iter s /\ state s2 = state s /\
    rc_base s2 = rc_base s /\ sync s2 = false /\
    resolve_ctx s2 = resolve_ctx s /\
    connect_ctx s2 = mkAsync (socket_completion_func (at_result t) (base (connect_ctx s)))
                       (m_op (connect_ctx s)) /\
    the_port s2 = mkPort [] [].
Proof.
  intros env a s t s2. subst s2. unfold resumed. fold t.
  destruct (connect_fails t);
    cbn -[socket_completion_func];
    repeat match goal with |- _ /\ _ => split end;
    rewrite <- ?app_assoc; reflexivity.
Qed.

Lemma attempt_lands :
  forall env a rest s n disp,
    let t := env_attempt env a in
    attempt_ready t = true ->
    (connect_fails t || connect_succeeds t) = true ->
    idle (the_port s) -> bound_to_this s ->
    exists s2 n' disp',
      then_drive env (S n) disp (connect_loop env (a :: rest) s)
      = then_drive env n' disp'
          (on_connect_label (connect_loop env rest) rest s2) /\
      (n <= n')%nat /\ landed env a rest s s2.
Proof.
  intros env a rest s n disp t Hready Hfate Hidle [Hbr Hbc].
  rewrite (connect_loop_cons env a rest s Hready). fold t.
  pose proof (connect_issued_fields env a rest s) as F.
  cbv zeta in F. fold t in F. rewrite connect_port in F.
  remember (connect_issued env a rest s) as s1 eqn:Es1. clear Es1.
  destruct F as (Htr & Hsock & Hiter & Hstate & Hbase & Hsync & Hres & Hctx & Hport).
  unfold idle in Hidle.
  destruct (connect_suspends t) eqn:Hsusp.
  - (* the connect is pending: the hook brings the operation back *)
    assert (Hp1 : the_port s1 = mkPort [p_connect_ctx] [])
      by (rewrite Hport, Hidle; reflexivity).
    assert (Hb1 : m_op (connect_ctx s1) = p_this)
      by (rewrite Hctx; exact Hbc).
    assert (Hms : m_sock (base (connect_ctx s1)) = at_socket t).
    { rewrite Hctx. cbn [base].
      exact (connect_pending_sock t _ _ _ _ _ _ _ _ Hsusp). }
    exists (resumed env a s1), n, (disp ++ [p_connect_ctx]).
    split; [exact (resume_pending_connect env a rest s1 n disp
                     Hsusp Hfate Hiter Hstate Hp1 Hb1)|].
    split; [lia|].
    destruct (resumed_fields env a s1)
      as (Rtr & Rsock & Riter & Rstate & Rbase & Rsync & Rres & Rctx & Rport).
    fold t in Rtr, Rctx.
    destruct (hook_error_is_code t (base (connect_ctx s1)) Hsusp) as [_ Hcode].
    unfold landed, bound_to_this, attempt_events. fold t. rewrite Hsusp.
    rewrite Rtr, Rsock, Riter, Rbase, Rsync, Rres, Rctx, Rport.
    cbn [base m_op]. rewrite Hcode, Hms, Htr, Hsock, Hiter, Hbase, Hres, Hb1, Hidle.
    rewrite andb_false_r.
    split; [rewrite <- !app_assoc; reflexivity|].
    repeat match goal with |- (?x = ?x) /\ _ => split; [reflexivity|] end.
    split; [split; [exact Hbr|reflexivity]|].
    repeat match goal with |- (?x = ?x) /\ _ => split; [reflexivity|] end.
    split; [intros _; split; reflexivity|].
    intros Hx; discriminate Hx.
  - (* the connect finished inside its call *)
    exists s1, (S n), disp.
    split; [reflexivity|]. split; [lia|].
    unfold landed, bound_to_this, attempt_events. fold t. rewrite Hsusp.
    rewrite Htr, Hsock, Hiter, Hbase, Hsync, Hres, Hctx, Hport.
    cbn [base m_op]. rewrite andb_true_r, app_nil_r.
    repeat match goal with |- (?x = ?x) /\ _ => split; [reflexivity|] end.
    split; [split; [exact Hbr|exact Hbc]|].
    split; [reflexivity|].
    split; [exact (connect_inline_code t _ _ _ _ _ _ _ _ Hsusp)|].
    split; [intros Hx; discriminate Hx|].
    intros _. split; [exact (connect_inline_flags t _ _ _ _ _ _ _ _ Hsusp)|].
    intros k Hi Hb. exact (connect_inline_bytes t _ _ _ _ _ _ _ _ k Hi Hb).
Qed.

Lemma landed_has_error :
  forall env a rest s s2,
    landed env a rest s s2 ->
    has_error (base (connect_ctx s2)) = connect_fails (env_attempt env a).
Proof.
  intros env a rest s s2 L.
  destruct L as (_ & _ & _ & _ & _ & _ & _ & _ & Hc & _).
  unfold has_error, status, connect_fails. now rewrite Hc.
Qed.

Lemma socket_close_fields :
  forall s,
    trace (socket_close s) = trace s ++ close_events (sock s) /\
    sock (socket_close s) = INVALID_SOCKET /\
    iter (socket_close s) = iter s /\
    rc_base (socket_close s) = rc_base s /\
    sync (socket_close s) = sync s /\
    resolve_ctx (socket_close s) = resolve_ctx s /\
    connect_ctx (socket_close s) = connect_ctx s /\
    the_port (socket_close s) = the_port s.
Proof.
  intros s. unfold socket_close, close_events.
  destruct (sock s =? INVALID_SOCKET); cbn;
    repeat match goal with |- _ /\ _ => split end;
    rewrite ?app_nil_r; reflexivity.
Qed.

Lemma finish_fields :
  forall e t f s,
    exists sF,
      finish e t f s = Returns tt sF /\
      trace sF = trace s ++ (if sync s then [] else [EvCompleted]) /\
      rc_base sF = set_flags f (set_transferred t (set_error e (rc_base s))) /\
      sock sF = sock s /\ sync sF = sync s /\
      connect_ctx sF = connect_ctx s /\ resolve_ctx sF = resolve_ctx s /\
      the_port sF = the_port s.
Proof.
  intros e t f s. unfold finish. eexists. split; [reflexivity|].
  cbn [sync set_rc_base].
  destruct (sync s) eqn:Hs; cbn; rewrite ?Hs, ?app_nil_r;
    repeat match goal with |- _ /\ _ => split end; reflexivity.
Qed.

Lemma ready_socket_closes :
  forall t, attempt_ready t = true -> close_events (at_socket t) = [EvClosesocket (at_socket t)].
Proof.
  intros t H. unfold attempt_ready in H.
  apply andb_true_iff in H. destruct H as [H _].
  apply andb_true_iff in H. destruct H as [H _].
  apply negb_true_iff in H. unfold close_events. now rewrite H.
Qed.

Lemma fails_inv :
  forall env a,
    fails env a = true ->
    attempt_ready (env_attempt env a) = true /\
    connect_fails (env_attempt env a) = true /\
    (connect_fails (env_attempt env a) || connect_succeeds (env_attempt env a)) = true.
Proof.
  intros env a H. unfold fails in H. apply andb_true_iff in H.
  destruct H as [Hr Hf]. rewrite Hf. auto.
Qed.

Lemma skip_one :
  forall env a x xs s n disp,
    fails env a = true ->
    idle (the_port s) -> bound_to_this s ->
    exists s' n' disp',
      then_drive env (S n) disp (connect_loop env (a :: x :: xs) s)
      = then_drive env n' disp' (connect_loop env (x :: xs) s') /\
      (n <= n')%nat /\ skipped env [a] s s'.
Proof.
  intros env a x xs s n disp Hf Hidle Hb.
  destruct (fails_inv env a Hf) as (Hready & Hfail & Hfate).
  destruct (attempt_lands env a (x :: xs) s n disp Hready Hfate Hidle Hb)
    as (s2 & n' & disp' & Heq & Hn & L).
  exists (socket_close s2), n', disp'.
  split; [|split; [exact Hn|]].
  - rewrite Heq. unfold on_connect_label.
    rewrite (landed_has_error env a (x :: xs) s s2 L), Hfail. reflexivity.
  - destruct L as (Ltr & Lsock & Liter & Lbase & Lsync & Lport & Lb & Lres & _).
    destruct (socket_close_fields s2)
      as (Ctr & Csock & Citer & Cbase & Csync & Cres & Cctx & Cport).
    unfold skipped, bound_to_this, all_inline. cbn [failing_trace forallb].
    rewrite Ctr, Csock, Cbase, Csync, Cres, Cctx, Cport.
    rewrite Ltr, Lsock, Lbase, Lsync, Lport, Lres.
    rewrite (ready_socket_closes _ Hready), app_nil_r, andb_true_r.
    rewrite <- !app_assoc.
    repeat match goal with |- (?x = ?x) /\ _ => split; [reflexivity|] end.
    split; [exact Hidle|]. split; [exact Lb|reflexivity].
Qed.

Lemma skipped_nil : forall env s, idle (the_port s) -> bound_to_this s -> skipped env [] s s.
Proof.
  intros env s Hi Hb. unfold skipped, all_inline. cbn [failing_trace forallb].
  rewrite app_nil_r, andb_true_r. auto 10.
Qed.

Lemma skipped_cons :
  forall env a pre s s1 s',
    skipped env [a] s s1 -> skipped env pre s1 s' -> skipped env (a :: pre) s s'.
Proof.
  intros env a pre s s1 s' A B.
  destruct A as (Atr & Asock & Abase & Async & Aidle & Ab & Ares).
  destruct B as (Btr & Bsock & Bbase & Bsync & Bidle & Bb & Bres).
  unfold skipped, all_inline in *. cbn [failing_trace forallb] in *.
  rewrite Btr, Bsock, Bbase, Bsync, Bres, Atr, Asock, Abase, Async, Ares.
  rewrite app_nil_r, andb_true_r. rewrite <- !app_assoc, <- andb_assoc.
  split; [reflexivity|]. split; [now destruct pre|].
  auto 10.
Qed.

Lemma skip_many :
  forall env pre x xs s n disp,
    forallb (fails env) pre = true ->
    idle (the_port s) -> bound_to_this s ->
    exists s' n' disp',
      then_drive env (length pre + n) disp (connect_loop env (pre ++ x :: xs) s)
      = then_drive env n' disp' (connect_loop env (x :: xs) s') /\
      (n <= n')%nat /\ skipped env pre s s'.
Proof.
  intros env pre x xs. induction pre as [|a pre IH]; intros s n disp Hf Hidle Hb.
  - exists s, n, disp. split; [reflexivity|]. split; [lia|].
    now apply skipped_nil.
  - cbn [forallb] in Hf. apply andb_true_iff in Hf. destruct Hf as [Ha Hpre].
    assert (Hne : exists y ys, pre ++ x :: xs = y :: ys)
      by (destruct pre; cbn; eauto).
    destruct Hne as (y & ys & Hne).
    cbn [length Nat.add app]. rewrite Hne.
    destruct (skip_one env a y ys s (length pre + n) disp Ha Hidle Hb)
      as (s1 & n1 & disp1 & Heq & Hn1 & S1).
    rewrite Heq, <- Hne.
    assert (Hidle1 : idle (the_port s1)) by apply S1.
    assert (Hb1 : bound_to_this s1) by apply S1.
    destruct (IH s1 (n1 - length pre)%nat disp1 Hpre Hidle1 Hb1)
      as (s' & n' & disp' & Heq' & Hn' & S').
    replace (length pre + (n1 - length pre))%nat with n1 in Heq' by lia.
    exists s', n', disp'. split; [exact Heq'|]. split; [lia|].
    exact (skipped_cons env a pre s s1 s' S1 S').
Qed.

Lemma last_candidate :
  forall env a s n disp,
    let t := env_attempt env a in
    attempt_ready t = true ->
    (connect_fails t || connect_succeeds t) = true ->
    idle (the_port s) -> bound_to_this s ->
    exists sF dispF,
      then_drive env (S n) disp (connect_loop env [a] s)
      = Returns tt (mkDriven sF dispF) /\ settled env a s sF.
Proof.
  intros env a s n disp t Hready Hfate Hidle Hb.
  destruct (attempt_lands env a [] s n disp Hready Hfate Hidle Hb)
    as (s2 & n' & disp' & Heq & Hn & L).
  fold t in L. rewrite Heq. unfold on_connect_label.
  rewrite (landed_has_error env a [] s s2 L). fold t.
  destruct L as (Ltr & Lsock & Liter & Lbase & Lsync & Lport & Lb & Lres & Lcode & Lasync & Linline).
  fold t in Ltr, Lsock, Lsync, Lcode, Lasync, Linline.
  destruct (connect_fails t) eqn:Hfail.
  - destruct (socket_close_fields s2)
      as (Ctr & Csock & Citer & Cbase & Csync & Cres & Cctx & Cport).
    destruct (finish_fields (status (base (connect_ctx s2)))
                (transferred (base (connect_ctx s2)))
                (flags (base (connect_ctx s2))) (socket_close s2))
      as (sF & HF & Ftr & Fbase & Fsock & Fsync & Fctx & Fres & Fport).
    rewrite HF. cbn [then_drive].
    rewrite drive_idle
      by (cbn [prog]; rewrite Fport, Cport, Lport; exact Hidle).
    exists sF, disp'. split; [reflexivity|].
    unfold settled. fold t. rewrite Hfail.
    rewrite Ftr, Fbase, Fsock, Fsync, Fctx, Fport.
    rewrite Ctr, Csock, Csync, Cctx, Cport.
    rewrite Ltr, Lsock, Lsync, Lport.
    rewrite (ready_socket_closes _ Hready).
    unfold status. cbn [m_error m_transferred m_flags set_flags set_transferred set_error].
    rewrite Lcode. rewrite <- !app_assoc.
    repeat match goal with |- (?x = ?x) /\ _ => split; [reflexivity|] end.
    split; [exact Hidle|]. split; assumption.
  - destruct (finish_fields ERROR_SUCCESS
                (transferred (base (connect_ctx s2)))
                (flags (base (connect_ctx s2))) s2)
      as (sF & HF & Ftr & Fbase & Fsock & Fsync & Fctx & Fres & Fport).
    rewrite HF. cbn [then_drive].
    rewrite drive_idle
      by (cbn [prog]; rewrite Fport, Lport; exact Hidle).
    exists sF, disp'. split; [reflexivity|].
    assert (Hzero : connect_code t = ERROR_SUCCESS).
    { unfold connect_fails in Hfail. apply negb_false_iff in Hfail.
      now apply Z.eqb_eq in Hfail. }
    unfold settled. fold t. rewrite Hfail.
    rewrite Ftr, Fbase, Fsock, Fsync, Fctx, Fport.
    rewrite Ltr, Lsock, Lsync, Lport.
    cbn [m_error m_transferred m_flags set_flags set_transferred set_error app].
    rewrite Hzero. rewrite <- !app_assoc.
    repeat match goal with |- (?x = ?x) /\ _ => split; [reflexivity|] end.
    split; [exact Hidle|]. split; assumption.
Qed.

Lemma forget_operation :
  forall env fuel svch hn sn b bl s0,
    forget (operation env fuel svch hn sn b bl s0)
    = then_drive env fuel [] (step env (started svch hn sn b bl s0)).
Proof.
  intros env fuel svch hn sn b bl s0. unfold operation, rcc_connect_and_send.
  change (set_sync true _) with (started svch hn sn b bl s0).
  destruct (step env (started svch hn sn b bl s0)) as [[] s1|e s1|];
    cbn [bind then_drive forget]; try reflexivity.
  destruct (drive env fuel (mkDriven s1 [])) as [[] d|e d|]; reflexivity.
Qed.

Lemma resolve_cases :
  forall iocp a p c w,
    let r := resolve iocp a p c w in
    let pending := gai_ret a =? ERROR_IO_PENDING in
    r_returned r = negb pending /\
    r_os r = (if pending then mkPort (inflight w ++ [p]) (queue w) else w) /\
    r_error (r_ctx r) = (if pending then r_error c else gai_ret a) /\
    m_result (r_ctx r) = m_result c.
Proof.
  intros iocp a p c w r pending. subst r pending. unfold resolve.
  destruct (gai_ret a =? 0) eqn:H0.
  - apply Z.eqb_eq in H0. rewrite H0. cbn. auto.
  - destruct (gai_ret a =? ERROR_IO_PENDING); cbn; auto.
Qed.

Lemma step_on_start :
  forall env s,
    state s = on_start ->
    step env s
    = if negb (r_returned (resolve (svc s) (env_gai env) p_resolve_ctx
                             (base (resolve_ctx s)) (the_port s)))
      then Returns tt (set_sync false (resolve_issued env s))
      else on_resolve_label env (resolve_issued env s).
Proof.
  intros env s Hs. unfold step. cbn [state log set_trace]. rewrite Hs.
  reflexivity.
Qed.

Lemma resolve_issued_fields :
  forall env s,
    let r := resolve (svc s) (env_gai env) p_resolve_ctx
               (base (resolve_ctx s)) (the_port s) in
    let s1 := resolve_issued env s in
    trace s1 = trace s ++ [EvStep on_start; EvResolve (hostname s) (servicename s)] /\
    sock s1 = sock s /\ rc_base s1 = rc_base s /\ sync s1 = sync s /\
    state s1 = on_resolve /\
    resolve_ctx s1 = mkAsync (r_ctx r) (m_op (resolve_ctx s)) /\
    connect_ctx s1 = connect_ctx s /\
    the_port s1 = r_os r.
Proof.
  intros env s r s1. subst r s1. unfold resolve_issued.
  cbn -[resolve].
  repeat match goal with |- _ /\ _ => split end;
    rewrite <- ?app_assoc; reflexivity.
Qed.

Lemma resume_pending_lookup :
  forall env n disp s,
    the_port s = mkPort [p_resolve_ctx] [] ->
    m_op (resolve_ctx s) = p_this ->
    state s = on_resolve ->
    drive env (S n) (mkDriven s disp)
    = then_drive env n (disp ++ [p_resolve_ctx])
        (on_resolve_label env (resolve_resumed env s)).
Proof.
  intros env n disp s Hp Hb Hs.
  rewrite (drive_resume_resolve env n disp s Hp Hb).
  rewrite step_on_resolve by (cbn [state set_the_port set_resolve_ctx]; exact Hs).
  reflexivity.
Qed.

Lemma resolve_resumed_fields :
  forall env s,
    let s1 := resolve_resumed env s in
    trace s1 = trace s ++ [EvStep on_resolve] /\
    sock s1 = sock s /\ rc_base s1 = rc_base s /\ sync s1 = sync s /\
    m_op (resolve_ctx s1) = p_this /\
    connect_ctx s1 = connect_ctx s /\
    the_port s1 = mkPort [] [] /\
    r_error (base (resolve_ctx s1)) = lk_error (env_lookup env) /\
    m_result (base (resolve_ctx s1))
    = (if lk_error (env_lookup env) =? ERROR_SUCCESS
       then match lk_stored (env_lookup env) with
            | [] => m_result (base (resolve_ctx s))
            | l => l
            end
       else m_result (base (resolve_ctx s))).
Proof.
  intros env s s1. subst s1. unfold resolve_resumed, looked_up, lookup_completion.
  cbn [fst trace log set_trace set_the_port set_resolve_ctx sock rc_base sync
       resolve_ctx connect_ctx the_port base m_op m_rawres].
  repeat match goal with |- (?x = ?x) /\ _ => split; [reflexivity|] end.
  destruct (lk_error (env_lookup env) =? ERROR_SUCCESS);
    destruct (lk_stored (env_lookup env)); cbn; auto.
Qed.

Lemma started_fields :
  forall svch hn sn b bl s,
    let s1 := started svch hn sn b bl s in
    trace s1 = trace s /\ sock s1 = sock s /\ rc_base s1 = rc_base s /\
    sync s1 = true /\ state s1 = on_start /\
    resolve_ctx s1 = resolve_ctx s /\ connect_ctx s1 = connect_ctx s /\
    the_port s1 = the_port s /\ hostname s1 = hn /\ servicename s1 = sn.
Proof.
  intros svch hn sn b bl s s1. subst s1. unfold started. cbn. auto 12.
Qed.

Lemma first_step_inline :
  forall env svch hn sn b bl s0,
    idle (the_port s0) -> bound_to_this s0 ->
    (gai_ret (env_gai env) =? ERROR_IO_PENDING) = false ->
    exists s1,
      step env (started svch hn sn b bl s0) = on_resolve_label env s1 /\
      at_on_resolve env hn sn s0 s1.
Proof.
  intros env svch hn sn b bl s0 Hidle [Hbr Hbc] Hpend. unfold idle in Hidle.
  destruct (started_fields svch hn sn b bl s0)
    as (Str & Ssock & Sbase & Ssync & Sstate & Sres & Sctx & Sport & Shn & Ssn).
  remember (started svch hn sn b bl s0) as S0 eqn:ES0. clear ES0.
  rewrite (step_on_start env S0 Sstate).
  destruct (resolve_issued_fields env S0)
    as (Itr & Isock & Ibase & Isync & Istate & Ires & Ictx & Iport).
  destruct (resolve_cases (svc S0) (env_gai env) p_resolve_ctx
              (base (resolve_ctx S0)) (the_port S0))
    as (Rret & Ros & Rerr & Rres).
  rewrite Rret, negb_involutive.
  rewrite Ros in Iport.
  remember (resolve (svc S0) (env_gai env) p_resolve_ctx
              (base (resolve_ctx S0)) (the_port S0)) as r eqn:Er. clear Er.
  remember (resolve_issued env S0) as RI eqn:ERI. clear ERI.
  unfold at_on_resolve, resolution_events, bound_to_this.
  rewrite Hpend in *.
  exists RI. split; [reflexivity|].
  rewrite Itr, Isock, Ibase, Isync, Ictx, Ires, Iport.
  rewrite Str, Ssock, Sbase, Ssync, Sctx, Sres, Sport, Shn, Ssn.
  cbn [base m_op andb negb]. rewrite Rerr, Rres, ?Sres, app_nil_r.
  repeat match goal with |- (?x = ?x) /\ _ => split; [reflexivity|] end.
  split; [exact Hidle|]. split; [split; [exact Hbr|exact Hbc]|].
  split; reflexivity.
Qed.

Lemma first_step_pending :
  forall env svch hn sn b bl s0,
    idle (the_port s0) -> bound_to_this s0 ->
    (gai_ret (env_gai env) =? ERROR_IO_PENDING) = true ->
    exists sP s1,
      step env (started svch hn sn b bl s0) = Returns tt sP /\
      sync sP = false /\
      (forall n disp,
          drive env (S n) (mkDriven sP disp)
          = then_drive env n (disp ++ [p_resolve_ctx]) (on_resolve_label env s1)) /\
      at_on_resolve env hn sn s0 s1.
Proof.
  intros env svch hn sn b bl s0 Hidle [Hbr Hbc] Hpend. unfold idle in Hidle.
  destruct (started_fields svch hn sn b bl s0)
    as (Str & Ssock & Sbase & Ssync & Sstate & Sres & Sctx & Sport & Shn & Ssn).
  remember (started svch hn sn b bl s0) as S0 eqn:ES0. clear ES0.
  rewrite (step_on_start env S0 Sstate).
  destruct (resolve_issued_fields env S0)
    as (Itr & Isock & Ibase & Isync & Istate & Ires & Ictx & Iport).
  destruct (resolve_cases (svc S0) (env_gai env) p_resolve_ctx
              (base (resolve_ctx S0)) (the_port S0))
    as (Rret & Ros & Rerr & Rres).
  rewrite Rret, negb_involutive.
  rewrite Ros in Iport.
  remember (resolve (svc S0) (env_gai env) p_resolve_ctx
              (base (resolve_ctx S0)) (the_port S0)) as r eqn:Er. clear Er.
  remember (resolve_issued env S0) as RI eqn:ERI. clear ERI.
  unfold at_on_resolve, resolution_events, bound_to_this.
  rewrite Hpend in *.
  destruct (resolve_resumed_fields env (set_sync false RI))
    as (Ztr & Zsock & Zbase & Zsync & Zop & Zctx & Zport & Zerr & Zres).
  cbn [trace sock rc_base sync resolve_ctx connect_ctx set_sync]
    in Ztr, Zsock, Zbase, Zsync, Zctx, Zres.
  exists (set_sync false RI), (resolve_resumed env (set_sync false RI)).
  split; [reflexivity|]. split; [reflexivity|]. split.
  - intros n disp. apply resume_pending_lookup.
    + cbn [the_port set_sync]. rewrite Iport, Sport, Hidle. reflexivity.
    + cbn [resolve_ctx set_sync]. rewrite Ires, Sres. exact Hbr.
    + exact Istate.
  - rewrite Ztr, Zsock, Zbase, Zsync, Zop, Zctx, Zport, Zerr, Zres.
    rewrite Itr, Isock, Ibase, Ictx, Ires, Str, Ssock, Sbase, Sctx, Shn, Ssn.
    cbn [base andb negb]. rewrite Rres, Sres. rewrite <- !app_assoc.
    repeat match goal with |- (?x = ?x) /\ _ => split; [reflexivity|] end.
    split; [reflexivity|]. split; [split; [reflexivity|exact Hbc]|].
    split; reflexivity.
Qed.

Lemma resolution_phase :
  forall env n svch hn sn b bl s0,
    idle (the_port s0) -> bound_to_this s0 ->
    exists s1 n' disp,
      then_drive env (S n) [] (step env (started svch hn sn b bl s0))
      = then_drive env n' disp (on_resolve_label env s1) /\
      (n <= n')%nat /\ at_on_resolve env hn sn s0 s1.
Proof.
  intros env n svch hn sn b bl s0 Hidle Hb.
  destruct (gai_ret (env_gai env) =? ERROR_IO_PENDING) eqn:Hpend.
  - destruct (first_step_pending env svch hn sn b bl s0 Hidle Hb Hpend)
      as (sP & s1 & Hstep & _ & Hdrive & A).
    exists s1, n, ([] ++ [p_resolve_ctx]).
    rewrite Hstep. cbn [then_drive]. rewrite Hdrive. auto.
  - destruct (first_step_inline env svch hn sn b bl s0 Hidle Hb Hpend)
      as (s1 & Hstep & A).
    exists s1, (S n), []. rewrite Hstep. auto.
Qed.

(** ** Resolve-and-connect: the whole operation *)

Lemma fate_of_either :
  forall env a,
    (fails env a || succeeds env a) = true ->
    attempt_ready (env_attempt env a) = true /\
    (connect_fails (env_attempt env a) || connect_succeeds (env_attempt env a)) = true.
Proof.
  intros env a H. unfold fails, succeeds in H.
  rewrite <- andb_orb_distrib_r in H. now apply andb_true_iff in H.
Qed.

Lemma fallback_run :
  forall env pre aN s n disp,
    forallb (fails env) pre = true ->
    (fails env aN || succeeds env aN) = true ->
    idle (the_port s) -> bound_to_this s ->
    exists sF dispF s',
      then_drive env (length pre + S n) disp (connect_loop env (pre ++ [aN]) s)
      = Returns tt (mkDriven sF dispF) /\
      skipped env pre s s' /\ settled env aN s' sF.
Proof.
  intros env pre aN s n disp Hpre HN Hidle Hb.
  destruct (fate_of_either env aN HN) as [Hready Hfate].
  destruct (skip_many env pre aN [] s (S n) disp Hpre Hidle Hb)
    as (s' & n' & disp' & Heq & Hn' & Sk).
  assert (Hidle' : idle (the_port s')) by apply Sk.
  assert (Hb' : bound_to_this s') by apply Sk.
  destruct n' as [|m]; [lia|].
  destruct (last_candidate env aN s' m disp' Hready Hfate Hidle' Hb')
    as (sF & dispF & HF & St).
  exists sF, dispF, s'. rewrite Heq, HF. auto.
Qed.

Lemma forget_returns :
  forall {S : Type} (o : outcome bool S) d,
    forget o = Returns tt d -> exists r, o = Returns r d.
Proof.
  intros S o d H. destruct o as [r s|e s|]; try discriminate.
  injection H as <-. now exists r.
Qed.

Lemma delivered_enters_loop :
  forall env hn sn s0 s1 cands,
    resolution_delivers env s0 cands ->
    at_on_resolve env hn sn s0 s1 ->
    on_resolve_label env s1 = connect_loop env cands s1.
Proof.
  intros env hn sn s0 s1 cands D A.
  destruct A as (_ & _ & _ & _ & _ & _ & Aerr & Ares).
  unfold on_resolve_label, r_has_error. rewrite Aerr, Ares.
  destruct D as [(Hp & He & Hs & Hne) | (H0 & Hm)].
  - rewrite Hp, He, Hs. cbn.
    destruct cands; [congruence|reflexivity].
  - rewrite H0, Hm. reflexivity.
Qed.

Lemma failing_trace_app :
  forall env pre post old,
    failing_trace env (pre ++ post) old
    = failing_trace env pre old ++
      failing_trace env post (match pre with [] => old | _ :: _ => INVALID_SOCKET end).
Proof.
  intros env pre. induction pre as [|a pre IH]; intros post old; [reflexivity|].
  cbn [failing_trace app]. rewrite IH. rewrite <- !app_assoc.
  now destruct pre.
Qed.

Lemma attempted_app :
  forall l1 l2, attempted (l1 ++ l2) = attempted l1 ++ attempted l2.
Proof.
  induction l1 as [|e l1 IH]; intros l2; [reflexivity|].
  destruct e; cbn [attempted app]; rewrite IH; reflexivity.
Qed.

Lemma attempted_close_events : forall h, attempted (close_events h) = [].
Proof. intros h. unfold close_events. now destruct (h =? INVALID_SOCKET). Qed.

Lemma attempted_attempt_events :
  forall t a old, attempted (attempt_events t a old) = [a].
Proof.
  intros t a old. unfold attempt_events.
  rewrite !attempted_app, attempted_close_events.
  destruct (connect_suspends t); destruct (connect_fails t); reflexivity.
Qed.

Lemma attempted_failing_trace :
  forall env cands old, attempted (failing_trace env cands old) = cands.
Proof.
  intros env cands. induction cands as [|a cands IH]; intros old; [reflexivity|].
  cbn [failing_trace]. rewrite !attempted_app, attempted_attempt_events, IH.
  reflexivity.
Qed.

Lemma attempted_resolution_events :
  forall env hn sn, attempted (resolution_events env hn sn) = [].
Proof.
  intros env hn sn. unfold resolution_events.
  now destruct (gai_ret (env_gai env) =? ERROR_IO_PENDING).
Qed.

(** Resolve-and-connect over candidates that all fail: what holds of
    every such run.  With the candidates [pre ++ [aN]] behind
    [resolve_ctx.result()], every socket created and bound, and every
    connect failing (inside its call or through the hook), the operation
    returns once driven; its trace is the resolution followed by
    [failing_trace]: each candidate connected once, in list order, its
    socket closed before the next socket is created and the last one
    closed too; the recorded error is the failure code of [aN] and the
    recorded flags are those of [aN]'s connect; the recorded byte count
    is the one [connect_ctx] holds, which is [aN]'s when the request
    completed through the port or the call stored a count; nothing is
    left outstanding. *)
Lemma all_candidates_fail :
  forall env fuel svch hn sn b bl s0 pre aN,
    resolution_delivers env s0 (pre ++ [aN]) ->
    forallb (fails env) (pre ++ [aN]) = true ->
    idle (the_port s0) -> bound_to_this s0 ->
    (length pre + 2 <= fuel)%nat ->
    exists r d,
      operation env fuel svch hn sn b bl s0 = Returns r d /\
      trace (prog d)
      = trace s0 ++ resolution_events env hn sn ++
        failing_trace env (pre ++ [aN]) (sock s0) ++
        (if sync (prog d) then [] else [EvCompleted]) /\
      attempted (trace (prog d)) = attempted (trace s0) ++ pre ++ [aN] /\
      m_error (rc_base (prog d)) = connect_code (env_attempt env aN) /\
      connect_code (env_attempt env aN) <> ERROR_SUCCESS /\
      m_transferred (rc_base (prog d)) = transferred (base (connect_ctx (prog d))) /\
      m_flags (rc_base (prog d)) = flags (base (connect_ctx (prog d))) /\
      (connect_suspends (env_attempt env aN) = true ->
       m_transferred (rc_base (prog d)) = ovl_transferred (at_result (env_attempt env aN)) /\
       m_flags (rc_base (prog d)) = ovl_flags (at_result (env_attempt env aN))) /\
      (connect_suspends (env_attempt env aN) = false ->
       m_flags (rc_base (prog d)) = 0 /\
       forall k, at_ioctl (env_attempt env aN) = IoctlFound ->
                 bytes_stored (at_connect (env_attempt env aN)) = Some k ->
                 m_transferred (rc_base (prog d)) = k) /\
      sock (prog d) = INVALID_SOCKET /\
      idle (the_port (prog d)).
Proof.
  intros env fuel svch hn sn b bl s0 pre aN D Hall Hidle Hb Hfuel.
  rewrite forallb_app in Hall. apply andb_true_iff in Hall.
  destruct Hall as [Hpre HN]. cbn [forallb] in HN. rewrite andb_true_r in HN.
  destruct fuel as [|n]; [lia|].
  destruct (resolution_phase env n svch hn sn b bl s0 Hidle Hb)
    as (s1 & n1 & disp1 & Heq1 & Hn1 & A).
  rewrite (delivered_enters_loop env hn sn s0 s1 _ D A) in Heq1.
  assert (Hidle1 : idle (the_port s1)) by apply A.
  assert (Hb1 : bound_to_this s1) by apply A.
  assert (HN' : (fails env aN || succeeds env aN) = true) by (now rewrite HN).
  replace n1 with (length pre + S (n1 - length pre - 1))%nat in Heq1 by lia.
  destruct (fallback_run env pre aN s1 (n1 - length pre - 1)%nat disp1
              Hpre HN' Hidle1 Hb1)
    as (sF & dispF & s' & HF & Sk & St).
  rewrite HF in Heq1. rewrite <- forget_operation in Heq1.
  destruct (forget_returns _ _ Heq1) as [r Hop].
  exists r, (mkDriven sF dispF). split; [exact Hop|]. cbn [prog].
  destruct (fails_inv env aN HN) as (_ & Hfail & _).
  destruct A as (Atr & Asock & Abase & Async & _ & _ & _ & _).
  destruct Sk as (Ktr & Ksock & Kbase & Ksync & _ & _ & _).
  destruct St as (Ttr & Tsync & Terr & Ttrans & Tflags & Tsock & Tidle & Tasync & Tinline).
  rewrite Hfail in Ttr, Tsock.
  assert (Htrace : trace sF
      = trace s0 ++ resolution_events env hn sn ++
        failing_trace env (pre ++ [aN]) (sock s0) ++
        (if sync sF then [] else [EvCompleted])).
  { rewrite Ttr, Ktr, Atr, failing_trace_app. cbn [failing_trace].
    rewrite Ksock, Asock. rewrite <- !app_assoc. cbn [app].
    reflexivity. }
  split; [exact Htrace|].
  split.
  { rewrite Htrace, !attempted_app, attempted_resolution_events,
            attempted_failing_trace.
    destruct (sync sF); cbn [attempted app]; now rewrite app_nil_r. }
  split; [exact Terr|].
  split.
  { unfold connect_fails in Hfail. apply negb_true_iff in Hfail.
    now apply Z.eqb_neq in Hfail. }
  split; [exact Ttrans|]. split; [exact Tflags|].
  unfold transferred, flags in Ttrans, Tflags.
  split.
  { intros Hs. destruct (Tasync Hs) as [H1 H2]. now rewrite Ttrans, Tflags. }
  split.
  { intros Hs. destruct (Tinline Hs) as [H1 H2]. rewrite Ttrans, Tflags.
    split; [exact H1|exact H2]. }
  split; [exact Tsock|exact Tidle].
Qed.

Lemma succeeds_inv :
  forall env a,
    succeeds env a = true ->
    connect_fails (env_attempt env a) = false /\
    connect_code (env_attempt env a) = ERROR_SUCCESS.
Proof.
  intros env a H. unfold succeeds, connect_succeeds in H.
  apply andb_true_iff in H. destruct H as [_ H].
  apply andb_true_iff in H. destruct H as [H _].
  unfold connect_fails. rewrite H. split; [reflexivity|].
  now apply Z.eqb_eq in H.
Qed.

(** C3: resolve-and-connect where the candidates [pre] fail and [aN]
    succeeds.  The operation returns once driven; its trace is the
    resolution, then [failing_trace] over [pre] (each candidate connected
    once, in order, each failed socket closed before the next is created),
    then the attempt on [aN], after which nothing is tried or closed; the
    recorded outcome is [ERROR_SUCCESS] with the bytes and flags
    [connect_ctx] holds after [aN]'s connect; [*sock] keeps [aN]'s
    socket. *)
Theorem last_candidate_succeeds :
  forall env fuel svch hn sn b bl s0 pre aN,
    resolution_delivers env s0 (pre ++ [aN]) ->
    forallb (fails env) pre = true ->
    succeeds env aN = true ->
    idle (the_port s0) -> bound_to_this s0 ->
    (length pre + 2 <= fuel)%nat ->
    exists r d,
      operation env fuel svch hn sn b bl s0 = Returns r d /\
      trace (prog d)
      = trace s0 ++ resolution_events env hn sn ++
        failing_trace env pre (sock s0) ++
        attempt_events (env_attempt env aN) aN
          (match pre with [] => sock s0 | _ :: _ => INVALID_SOCKET end) ++
        (if sync (prog d) then [] else [EvCompleted]) /\
      attempted (trace (prog d)) = attempted (trace s0) ++ pre ++ [aN] /\
      m_error (rc_base (prog d)) = ERROR_SUCCESS /\
      m_transferred (rc_base (prog d)) = transferred (base (connect_ctx (prog d))) /\
      m_flags (rc_base (prog d)) = flags (base (connect_ctx (prog d))) /\
      (connect_suspends (env_attempt env aN) = true ->
       m_transferred (rc_base (prog d)) = ovl_transferred (at_result (env_attempt env aN)) /\
       m_flags (rc_base (prog d)) = ovl_flags (at_result (env_attempt env aN))) /\
      (connect_suspends (env_attempt env aN) = false ->
       m_flags (rc_base (prog d)) = 0 /\
       forall k, at_ioctl (env_attempt env aN) = IoctlFound ->
                 bytes_stored (at_connect (env_attempt env aN)) = Some k ->
                 m_transferred (rc_base (prog d)) = k) /\
      sock (prog d) = at_socket (env_attempt env aN) /\
      idle (the_port (prog d)).
Proof.
  intros env fuel svch hn sn b bl s0 pre aN D Hpre HN Hidle Hb Hfuel.
  destruct fuel as [|n]; [lia|].
  destruct (resolution_phase env n svch hn sn b bl s0 Hidle Hb)
    as (s1 & n1 & disp1 & Heq1 & Hn1 & A).
  rewrite (delivered_enters_loop env hn sn s0 s1 _ D A) in Heq1.
  assert (Hidle1 : idle (the_port s1)) by apply A.
  assert (Hb1 : bound_to_this s1) by apply A.
  assert (HN' : (fails env aN || succeeds env aN) = true)
    by (rewrite HN; apply orb_true_r).
  replace n1 with (length pre + S (n1 - length pre - 1))%nat in Heq1 by lia.
  destruct (fallback_run env pre aN s1 (n1 - length pre - 1)%nat disp1
              Hpre HN' Hidle1 Hb1)
    as (sF & dispF & s' & HF & Sk & St).
  rewrite HF in Heq1. rewrite <- forget_operation in Heq1.
  destruct (forget_returns _ _ Heq1) as [r Hop].
  exists r, (mkDriven sF dispF). split; [exact Hop|]. cbn [prog].
  destruct (succeeds_inv env aN HN) as (Hfail & Hcode).
  destruct A as (Atr & Asock & Abase & Async & _ & _ & _ & _).
  destruct Sk as (Ktr & Ksock & Kbase & Ksync & _ & _ & _).
  destruct St as (Ttr & Tsync & Terr & Ttrans & Tflags & Tsock & Tidle & Tasync & Tinline).
  rewrite Hfail in Ttr, Tsock. rewrite Hcode in Terr.
  assert (Htrace : trace sF
      = trace s0 ++ resolution_events env hn sn ++
        failing_trace env pre (sock s0) ++
        attempt_events (env_attempt env aN) aN
          (match pre with [] => sock s0 | _ :: _ => INVALID_SOCKET end) ++
        (if sync sF then [] else [EvCompleted])).
  { rewrite Ttr, Ktr, Atr, Ksock, Asock. rewrite <- !app_assoc. reflexivity. }
  split; [exact Htrace|].
  split.
  { rewrite Htrace, !attempted_app, attempted_resolution_events,
            attempted_failing_trace, attempted_attempt_events.
    destruct (sync sF); cbn [attempted app]; now rewrite ?app_nil_r. }
  split; [exact Terr|].
  split; [exact Ttrans|]. split; [exact Tflags|].
  unfold transferred, flags in Ttrans, Tflags.
  split.
  { intros Hs. destruct (Tasync Hs) as [H1 H2]. now rewrite Ttrans, Tflags. }
  split.
  { intros Hs. destruct (Tinline Hs) as [H1 H2]. rewrite Ttrans, Tflags.
    split; [exact H1|exact H2]. }
  split; [exact Tsock|exact Tidle].
Qed.

Lemma operation_unfold :
  forall env fuel svch hn sn b bl s0,
    operation env fuel svch hn sn b bl s0
    = match step env (started svch hn sn b bl s0) with
      | Returns _ s' =>
          match drive env fuel (mkDriven s' []) with
          | Returns _ d => Returns (sync s') d
          | Throws e d => Throws e d
          | NullDeref => NullDeref
          end
      | Throws e s' => Throws e (mkDriven s' [])
      | NullDeref => NullDeref
      end.
Proof.
  intros env fuel svch hn sn b bl s0. unfold operation, rcc_connect_and_send.
  change (set_sync true _) with (started svch hn sn b bl s0).
  destruct (step env (started svch hn sn b bl s0)) as [[] s1|e s1|];
    cbn [bind]; reflexivity.
Qed.

(** What [on_resolve_label] does when resolution left an error. *)
Lemma on_resolve_error :
  forall env hn sn s0 s1 e,
    resolution_fails env e ->
    at_on_resolve env hn sn s0 s1 ->
    on_resolve_label env s1 = finish e 0 0 s1.
Proof.
  intros env hn sn s0 s1 e [Hne F] A.
  destruct A as (_ & _ & _ & _ & _ & _ & Aerr & _).
  unfold on_resolve_label, r_has_error. rewrite Aerr.
  destruct F as [[Hg Hp] | [Hg Hl]].
  - apply Z.eqb_neq in Hp. rewrite Hg, Hp.
    apply Z.eqb_neq in Hne. rewrite Hne. reflexivity.
  - rewrite Hg, Z.eqb_refl, Hl.
    apply Z.eqb_neq in Hne. rewrite Hne. reflexivity.
Qed.

(** C8: resolve-and-connect when resolution fails with code [e], inside
    the call or through [lookup_completion].  The operation records
    [e], zero bytes and zero flags, returns [true] from the call in the
    first case and [false] in the second, adds nothing to the trace but
    the resolution (and the completion call when it was asynchronous):
    no socket is created or bound, [*sock] is untouched, nothing is
    outstanding. *)
Theorem resolution_failure_stops :
  forall env fuel svch hn sn b bl s0 e,
    resolution_fails env e ->
    idle (the_port s0) -> bound_to_this s0 ->
    (1 <= fuel)%nat ->
    exists d,
      operation env fuel svch hn sn b bl s0
      = Returns (negb (gai_ret (env_gai env) =? ERROR_IO_PENDING)) d /\
      m_error (rc_base (prog d)) = e /\
      m_transferred (rc_base (prog d)) = 0 /\
      m_flags (rc_base (prog d)) = 0 /\
      trace (prog d)
      = trace s0 ++ resolution_events env hn sn ++
        (if gai_ret (env_gai env) =? ERROR_IO_PENDING then [EvCompleted] else []) /\
      filter is_socket_event (trace (prog d))
      = filter is_socket_event (trace s0) /\
      sock (prog d) = sock s0 /\
      idle (the_port (prog d)).
Proof.
  intros env fuel svch hn sn b bl s0 e F Hidle Hb Hfuel.
  rewrite operation_unfold.
  destruct (gai_ret (env_gai env) =? ERROR_IO_PENDING) eqn:Hpend.
  - destruct (first_step_pending env svch hn sn b bl s0 Hidle Hb Hpend)
      as (sP & s1 & Hstep & HsP & Hdrive & A).
    rewrite Hstep. destruct fuel as [|n]; [lia|]. rewrite Hdrive.
    rewrite (on_resolve_error env hn sn s0 s1 e F A).
    destruct (finish_fields e 0 0 s1)
      as (sF & HF & Ftr & Fbase & Fsock & Fsync & Fctx & Fres & Fport).
    destruct A as (Atr & Asock & Abase & Async & Aidle & _ & _ & _).
    rewrite Hpend in Async.
    rewrite HF. cbn [then_drive].
    rewrite drive_idle by (cbn [prog]; rewrite Fport; exact Aidle).
    rewrite HsP. eexists. split; [reflexivity|]. cbn [prog negb].
    rewrite Fbase, Ftr, Fsock, Fport, Async, Atr, Asock.
    cbn [m_error m_transferred m_flags set_flags set_transferred set_error negb].
    rewrite <- !app_assoc. unfold resolution_events. rewrite Hpend.
    rewrite !filter_app. cbn [filter is_socket_event app].
    rewrite app_nil_r. auto 10.
  - destruct (first_step_inline env svch hn sn b bl s0 Hidle Hb Hpend)
      as (s1 & Hstep & A).
    rewrite Hstep.
    rewrite (on_resolve_error env hn sn s0 s1 e F A).
    destruct (finish_fields e 0 0 s1)
      as (sF & HF & Ftr & Fbase & Fsock & Fsync & Fctx & Fres & Fport).
    destruct A as (Atr & Asock & Abase & Async & Aidle & _ & _ & _).
    rewrite Hpend in Async.
    rewrite HF.
    rewrite drive_idle by (cbn [prog]; rewrite Fport; exact Aidle).
    rewrite Fsync, Async. eexists. split; [reflexivity|]. cbn [prog negb].
    rewrite Fbase, Ftr, Fsock, Fport, Async, Atr, Asock.
    cbn [m_error m_transferred m_flags set_flags set_transferred set_error negb].
    rewrite !app_nil_r. unfold resolution_events. rewrite Hpend.
    rewrite !filter_app. cbn [filter is_socket_event app].
    rewrite app_nil_r. auto 10.
Qed.

Lemma on_resolve_nothing :
  forall env hn sn s0 s1,
    resolution_yields_nothing env s0 ->
    at_on_resolve env hn sn s0 s1 ->
    on_resolve_label env s1 = Returns tt (set_iter [] s1).
Proof.
  intros env hn sn s0 s1 [Hm Y] A.
  destruct A as (_ & _ & _ & _ & _ & _ & Aerr & Ares).
  unfold on_resolve_label, r_has_error. rewrite Aerr, Ares, Hm.
  destruct Y as [H0 | (Hp & He & Hs)].
  - rewrite H0. reflexivity.
  - rewrite Hp, He, Hs. reflexivity.
Qed.

(** C10: resolution ends without error but [resolve_ctx.result()] is null
    (always so when the lookup finishes inside its call).  [step()]
    leaves the loop at once: the outcome fields of the operation are the
    ones it started with, [this->completion_func()] is never called, and
    nothing is outstanding that could resume anybody.  The call returns
    [true] when the lookup finished inside it, [false] when it was
    pending. *)
Theorem empty_result_never_completes :
  forall env fuel svch hn sn b bl s0,
    resolution_yields_nothing env s0 ->
    idle (the_port s0) -> bound_to_this s0 ->
    (1 <= fuel)%nat ->
    exists d,
      operation env fuel svch hn sn b bl s0
      = Returns (negb (gai_ret (env_gai env) =? ERROR_IO_PENDING)) d /\
      rc_base (prog d) = rc_base s0 /\
      trace (prog d) = trace s0 ++ resolution_events env hn sn /\
      filter is_completed (trace (prog d)) = filter is_completed (trace s0) /\
      idle (the_port (prog d)).
Proof.
  intros env fuel svch hn sn b bl s0 Y Hidle Hb Hfuel.
  rewrite operation_unfold.
  assert (Hquiet : forall s1, at_on_resolve env hn sn s0 s1 ->
            rc_base (set_iter [] s1) = rc_base s0 /\
            trace (set_iter [] s1) = trace s0 ++ resolution_events env hn sn /\
            filter is_completed (trace (set_iter [] s1))
            = filter is_completed (trace s0) /\
            idle (the_port (set_iter [] s1))).
  { intros s1 A. destruct A as (Atr & _ & Abase & _ & Aidle & _).
    cbn [rc_base trace the_port set_iter]. rewrite Atr, Abase.
    repeat split; try assumption.
    rewrite filter_app. unfold resolution_events.
    destruct (gai_ret (env_gai env) =? ERROR_IO_PENDING);
      cbn [filter is_completed app]; now rewrite app_nil_r. }
  destruct (gai_ret (env_gai env) =? ERROR_IO_PENDING) eqn:Hpend.
  - destruct (first_step_pending env svch hn sn b bl s0 Hidle Hb Hpend)
      as (sP & s1 & Hstep & HsP & Hdrive & A).
    rewrite Hstep. destruct fuel as [|n]; [lia|]. rewrite Hdrive.
    rewrite (on_resolve_nothing env hn sn s0 s1 Y A). cbn [then_drive].
    destruct (Hquiet s1 A) as (Q1 & Q2 & Q3 & Q4).
    rewrite drive_idle by exact Q4.
    rewrite HsP. eexists. split; [reflexivity|]. cbn [prog]. auto.
  - destruct (first_step_inline env svch hn sn b bl s0 Hidle Hb Hpend)
      as (s1 & Hstep & A).
    rewrite Hstep.
    rewrite (on_resolve_nothing env hn sn s0 s1 Y A).
    destruct (Hquiet s1 A) as (Q1 & Q2 & Q3 & Q4).
    rewrite drive_idle by exact Q4.
    destruct A as (_ & _ & _ & Async & _). rewrite Hpend in Async.
    cbn [sync set_iter]. rewrite Async.
    eexists. split; [reflexivity|]. cbn [prog]. auto.
Qed.

(** ** Sample runs *)

Lemma all_candidates_fail_witness :
  exists r d,
    operation SampleRun.env_exhausted 4 55 1 2 3 4 SampleRun.fresh = Returns r d /\
    m_error (rc_base (prog d)) = 10060 /\
    m_transferred (rc_base (prog d)) = 3 /\
    attempted (trace (prog d)) = [SampleRun.a1; SampleRun.a2; SampleRun.a3].
Proof.
  destruct (all_candidates_fail SampleRun.env_exhausted 4 55 1 2 3 4
              SampleRun.fresh [SampleRun.a1; SampleRun.a2] SampleRun.a3)
    as (r & d & Hop & _ & Hatt & Herr & _ & _ & _ & Hlate & _).
  - left. repeat split; try reflexivity. discriminate.
  - reflexivity.
  - reflexivity.
  - split; reflexivity.
  - cbn [length]. lia.
  - exists r, d. split; [exact Hop|]. split; [exact Herr|].
    split; [exact (proj1 (Hlate eq_refl))|exact Hatt].
Defined.

(** C2, at the failing input.  Of two candidates, the connect to [a1] is
    accepted and times out after 3 bytes, and the connect to [a2] is
    refused inside the call, which stores no byte count.  The operation
    tries [a1], then [a2], and records the code 10061 and the flags of
    [a2] together with the 3 bytes of [a1]: the byte count of the final
    outcome is not that of the last candidate.  With [a2] as the only
    candidate it records the 13 its memory held before the operation was
    started. *)
Theorem refused_candidate_reports_earlier_bytes :
  (exists r d,
      operation SampleRun.env_stale 4 55 1 2 3 4 SampleRun.fresh = Returns r d /\
      attempted (trace (prog d)) = [SampleRun.a1; SampleRun.a2] /\
      m_error (rc_base (prog d)) = 10061 /\
      m_flags (rc_base (prog d)) = 0 /\
      m_transferred (rc_base (prog d)) = 3) /\
  connect_suspends (env_attempt SampleRun.env_stale SampleRun.a2) = false /\
  bytes_stored (at_connect (env_attempt SampleRun.env_stale SampleRun.a2))
  = None /\
  ovl_transferred (at_result (env_attempt SampleRun.env_stale SampleRun.a1))
  = 3 /\
  (exists r d,
      operation SampleRun.env_refused_alone 4 55 1 2 3 4 SampleRun.fresh
      = Returns r d /\
      attempted (trace (prog d)) = [SampleRun.a2] /\
      m_error (rc_base (prog d)) = 10061 /\
      m_transferred (rc_base (prog d)) = 13 /\
      m_transferred (rc_base SampleRun.fresh) = 13).
Proof.
  split.
  { eexists _, _. split; [vm_compute; reflexivity|].
    repeat split. }
  repeat split.
  eexists _, _. split; [vm_compute; reflexivity|].
  repeat split.
Qed.

Lemma last_candidate_succeeds_witness :
  exists r d,
    operation SampleRun.env_fallback 4 55 1 2 3 4 SampleRun.fresh = Returns r d /\
    m_error (rc_base (prog d)) = ERROR_SUCCESS /\
    m_transferred (rc_base (prog d)) = 37 /\
    sock (prog d) = 102 /\
    attempted (trace (prog d)) = [SampleRun.a1; SampleRun.a2; SampleRun.a3].
Proof.
  destruct (last_candidate_succeeds SampleRun.env_fallback 4 55 1 2 3 4
              SampleRun.fresh [SampleRun.a1; SampleRun.a2] SampleRun.a3)
    as (r & d & Hop & _ & Hatt & Herr & _ & _ & Hlate & _ & Hsock & _).
  - left. repeat split; try reflexivity. discriminate.
  - reflexivity.
  - reflexivity.
  - reflexivity.
  - split; reflexivity.
  - cbn [length]. lia.
  - exists r, d. split; [exact Hop|]. split; [exact Herr|].
    split; [exact (proj1 (Hlate eq_refl))|]. split; [exact Hsock|exact Hatt].
Defined.

Lemma resolution_failure_witness :
  (exists d,
      operation SampleRun.env_no_host 1 55 1 2 3 4 SampleRun.fresh = Returns true d /\
      m_error (rc_base (prog d)) = 11001 /\
      trace (prog d) = [EvStep on_start; EvResolve 1 2]) /\
  (exists d,
      operation SampleRun.env_no_host_late 1 55 1 2 3 4 SampleRun.fresh = Returns false d /\
      m_error (rc_base (prog d)) = 11001 /\
      trace (prog d) = [EvStep on_start; EvResolve 1 2; EvStep on_resolve; EvCompleted]).
Proof.
  split.
  - destruct (resolution_failure_stops SampleRun.env_no_host 1 55 1 2 3 4
                SampleRun.fresh 11001)
      as (d & Hop & Herr & _ & _ & Htr & _).
    + split; [discriminate|]. left. split; [reflexivity|discriminate].
    + reflexivity.
    + split; reflexivity.
    + lia.
    + exists d. split; [exact Hop|]. split; [exact Herr|exact Htr].
  - destruct (resolution_failure_stops SampleRun.env_no_host_late 1 55 1 2 3 4
                SampleRun.fresh 11001)
      as (d & Hop & Herr & _ & _ & Htr & _).
    + split; [discriminate|]. right. split; reflexivity.
    + reflexivity.
    + split; reflexivity.
    + lia.
    + exists d. split; [exact Hop|]. split; [exact Herr|exact Htr].
Defined.

Lemma empty_result_witness :
  exists d,
    operation SampleRun.env_inline_lookup 3 55 1 2 3 4 SampleRun.fresh = Returns true d /\
    rc_base (prog d) = SampleRun.ctx0 /\
    trace (prog d) = [EvStep on_start; EvResolve 1 2].
Proof.
  destruct (empty_result_never_completes SampleRun.env_inline_lookup 3 55 1 2 3 4
              SampleRun.fresh)
    as (d & Hop & Hbase & Htr & _).
  - split; [reflexivity|]. left. reflexivity.
  - reflexivity.
  - split; reflexivity.
  - lia.
  - exists d. split; [exact Hop|]. split; [exact Hbase|exact Htr].
Defined.

(** ** Bound contexts *)

Lemma steps_app : forall l1 l2, steps (l1 ++ l2) = steps l1 ++ steps l2.
Proof. intros. unfold steps. apply filter_app. Qed.

Lemma steps_close_events : forall h, steps (close_events h) = [].
Proof. intros h. unfold close_events. now destruct (h =? INVALID_SOCKET). Qed.

Lemma calm_refl : forall s, calm s s.
Proof. intros s. unfold calm. auto. Qed.

Lemma calm_trans : forall s s1 s2, calm s s1 -> calm s1 s2 -> calm s s2.
Proof.
  intros s s1 s2 (A1 & A2 & A3 & A4) (B1 & B2 & B3 & B4). unfold calm.
  rewrite B1, B2, B3, B4. auto.
Qed.

Lemma calm_effect : forall s s1, calm s s1 -> effect s s1.
Proof. intros s s1 (A1 & A2 & A3 & A4). unfold effect. auto. Qed.

Lemma calm_then_effect :
  forall s s1 sF, calm s s1 -> effect s1 sF -> effect s sF.
Proof.
  intros s s1 sF (A1 & A2 & A3 & A4) (B1 & B2 & B3 & B4). unfold effect.
  rewrite B1, B2, B3, <- A4. auto.
Qed.

Lemma calm_log :
  forall e s, is_step e = false -> calm s (log e s).
Proof.
  intros e s H. unfold calm. cbn [log set_trace resolve_ctx connect_ctx trace the_port].
  rewrite steps_app. unfold steps at 2. cbn [filter]. rewrite H.
  rewrite app_nil_r. auto.
Qed.

Lemma calm_socket_close : forall s, calm s (socket_close s).
Proof.
  intros s. destruct (socket_close_fields s)
    as (Ctr & Csock & Citer & Cbase & Csync & Cres & Cctx & Cport).
  unfold calm. rewrite Ctr, Cres, Cctx, Cport, steps_app, steps_close_events.
  rewrite app_nil_r. auto.
Qed.

Lemma calm_finish :
  forall e t f s sF, ends (finish e t f s) sF -> calm s sF.
Proof.
  intros e t f s sF H.
  destruct (finish_fields e t f s)
    as (s1 & HF & Ftr & Fbase & Fsock & Fsync & Fctx & Fres & Fport).
  rewrite HF in H. destruct H as [[r H]|[x H]]; [|discriminate].
  injection H as _ <-.
  unfold calm. rewrite Ftr, Fres, Fctx, Fport, steps_app.
  destruct (sync s); cbn; rewrite app_nil_r; auto.
Qed.

Lemma ends_returns : forall {R S} (r : R) (s sF : S), ends (Returns r s) sF -> sF = s.
Proof.
  intros R S r s sF [[x H]|[x H]]; [|discriminate]. now injection H.
Qed.

Lemma ends_throws : forall {R S} e (s sF : S), ends (@Throws R S e s) sF -> sF = s.
Proof.
  intros R S e s sF [[x H]|[x H]]; [discriminate|]. now injection H.
Qed.

Lemma calm_connect_issued :
  forall env a rest s,
    connect_suspends (env_attempt env a) = false ->
    calm s (connect_issued env a rest s).
Proof.
  intros env a rest s Hs.
  destruct (connect_issued_fields env a rest s)
    as (Htr & Hsock & Hiter & Hstate & Hbase & Hsync & Hres & Hctx & Hport).
  rewrite connect_port, Hs in Hport.
  unfold calm. rewrite Htr, Hres, Hctx, Hport, !steps_app, steps_close_events.
  cbn. rewrite app_nil_r. auto.
Qed.

Lemma effect_connect_pending :
  forall env a rest s,
    connect_suspends (env_attempt env a) = true ->
    effect s (set_sync false (connect_issued env a rest s)).
Proof.
  intros env a rest s Hs.
  pose proof (connect_issued_fields env a rest s) as F.
  cbv zeta in F. rewrite connect_port, Hs in F.
  generalize dependent (connect_issued env a rest s). intros s1 F.
  destruct F as (Htr & Hsock & Hiter & Hstate & Hbase & Hsync & Hres & Hctx & Hport).
  assert (Hm : m_op (connect_ctx s1) = m_op (connect_ctx s))
    by (rewrite Hctx; reflexivity).
  assert (Hst : steps (trace s1) = steps (trace s)).
  { rewrite Htr, !steps_app, steps_close_events. cbn. now rewrite app_nil_r. }
  unfold effect. cbn [resolve_ctx connect_ctx trace the_port state set_sync].
  rewrite Hres, Hm, Hst, Hport, Hstate.
  split; [reflexivity|]. split; [reflexivity|]. split; [reflexivity|].
  right. split; reflexivity.
Qed.

Lemma on_connect_label_effect :
  forall next rest s sF,
    (forall s1 sF1, rest <> [] -> ends (next s1) sF1 -> effect s1 sF1) ->
    ends (on_connect_label next rest s) sF ->
    effect s sF.
Proof.
  intros next rest s sF Hnext H. unfold on_connect_label in H.
  destruct (has_error (base (connect_ctx s))).
  - destruct rest as [|x xs].
    + apply calm_effect. eapply calm_trans; [apply calm_socket_close|].
      eapply calm_finish. exact H.
    + eapply calm_then_effect; [apply calm_socket_close|].
      apply Hnext; [discriminate|exact H].
  - apply calm_effect. eapply calm_finish. exact H.
Qed.

Lemma calm_set_iter : forall it s, calm s (set_iter it s).
Proof. intros it s. unfold calm. cbn. auto. Qed.

Lemma calm_set_sock : forall h s, calm s (set_sock h s).
Proof. intros h s. unfold calm. cbn. auto. Qed.

Lemma calm_socket_ctor :
  forall t a s sF, ends (socket_ctor t a s) sF -> calm s sF.
Proof.
  intros t a s sF H. unfold socket_ctor in H.
  assert (C1 : calm s (log (EvSocket a (at_socket t)) s))
    by (apply calm_log; reflexivity).
  destruct (at_socket t =? INVALID_SOCKET).
  - apply ends_throws in H. now subst sF.
  - destruct (at_associate t).
    + apply ends_throws in H. subst sF.
      eapply calm_trans; [exact C1|]. apply calm_log. reflexivity.
    + apply ends_returns in H. now subst sF.
Qed.

Lemma calm_socket_move_assign :
  forall h s, calm s (socket_move_assign h s).
Proof.
  intros h s. unfold socket_move_assign.
  eapply calm_trans; [apply calm_socket_close|apply calm_set_sock].
Qed.

Lemma calm_socket_bind :
  forall t a s sF, ends (socket_bind t a s) sF -> calm s sF.
Proof.
  intros t a s sF H. unfold socket_bind in H.
  assert (C1 : calm s (log (EvBind (sock s) (ai_family a) (ai_addrlen a)) s))
    by (apply calm_log; reflexivity).
  destruct (negb (at_bind t =? 0)).
  - apply ends_throws in H. now subst sF.
  - apply ends_returns in H. now subst sF.
Qed.

Lemma connect_loop_effect :
  forall env it s sF,
    ends (connect_loop env it s) sF -> effect s sF.
Proof.
  intros env it. induction it as [|a rest IH]; intros s sF H.
  - cbn [connect_loop] in H. apply ends_returns in H. subst sF.
    apply calm_effect. apply calm_set_iter.
  - destruct (attempt_ready (env_attempt env a)) eqn:Hready.
    + rewrite (connect_loop_cons env a rest s Hready) in H.
      destruct (connect_suspends (env_attempt env a)) eqn:Hs.
      * apply ends_returns in H. subst sF. now apply effect_connect_pending.
      * apply (calm_then_effect s (connect_issued env a rest s) sF
                 (calm_connect_issued env a rest s Hs)).
        eapply on_connect_label_effect; [|exact H].
        intros s1 sF1 _ H1. now apply IH.
    + (* the socket cannot be made or bound: the constructor or [bind]
         throws before anything is handed to the OS *)
      apply calm_effect.
      apply (calm_trans s (set_iter (a :: rest) s) sF (calm_set_iter _ s)).
      cbn [connect_loop] in H.
      generalize dependent (set_iter (a :: rest) s). intros s0 H.
      destruct (socket_ctor (env_attempt env a) a s0) as [h s1|e s1|] eqn:Hc.
      * assert (C1 : calm s0 s1)
          by (apply (calm_socket_ctor (env_attempt env a) a); rewrite Hc;
              left; eauto).
        cbn [bind] in H.
        pose proof (calm_socket_move_assign h s1) as C2.
        generalize dependent (socket_move_assign h s1). intros s2 H C2.
        destruct (socket_bind (env_attempt env a) a s2) as [u s3|e s3|] eqn:Hb.
        -- exfalso. unfold socket_ctor in Hc. unfold socket_bind in Hb.
           unfold attempt_ready in Hready.
           destruct (at_socket (env_attempt env a) =? INVALID_SOCKET);
             [discriminate|].
           destruct (at_associate (env_attempt env a)); [discriminate|].
           destruct (at_bind (env_attempt env a) =? 0); discriminate.
        -- cbn [bind] in H. apply ends_throws in H. subst sF.
           eapply calm_trans; [exact C1|]. eapply calm_trans; [exact C2|].
           apply (calm_socket_bind (env_attempt env a) a). rewrite Hb.
           right; eauto.
        -- unfold socket_bind in Hb.
           destruct (negb (at_bind (env_attempt env a) =? 0)); discriminate.
      * cbn [bind] in H. apply ends_throws in H. subst sF.
        apply (calm_socket_ctor (env_attempt env a) a). rewrite Hc.
        right; eauto.
      * unfold socket_ctor in Hc.
        destruct (at_socket (env_attempt env a) =? INVALID_SOCKET);
          [discriminate|].
        destruct (at_associate (env_attempt env a)); discriminate.
Qed.

Lemma on_resolve_label_effect :
  forall env s sF, ends (on_resolve_label env s) sF -> effect s sF.
Proof.
  intros env s sF H. unfold on_resolve_label in H.
  destruct (r_has_error (base (resolve_ctx s))).
  - apply calm_effect. eapply calm_finish. exact H.
  - eapply connect_loop_effect. exact H.
Qed.

Lemma steps_log_step :
  forall tag s, steps (trace (log (EvStep tag) s)) = steps (trace s) ++ [EvStep tag].
Proof.
  intros tag s. cbn [log set_trace trace]. now rewrite steps_app.
Qed.

Lemma entered_then_effect :
  forall s sF,
    effect (log (EvStep (state s)) s) sF ->
    m_op (resolve_ctx sF) = m_op (resolve_ctx s) /\
    m_op (connect_ctx sF) = m_op (connect_ctx s) /\
    steps (trace sF) = steps (trace s) ++ [EvStep (state s)] /\
    (the_port sF = the_port s \/
     (the_port sF = handed_over p_connect_ctx (the_port s) /\
      state sF = on_connect)).
Proof.
  intros s sF (E1 & E2 & E3 & E4).
  rewrite steps_log_step in E3.
  cbn [log set_trace resolve_ctx connect_ctx the_port] in E1, E2, E4. auto.
Qed.

Lemma step_effect :
  forall env s sF,
    ends (step env s) sF ->
    m_op (resolve_ctx sF) = m_op (resolve_ctx s) /\
    m_op (connect_ctx sF) = m_op (connect_ctx s) /\
    steps (trace sF) = steps (trace s) ++ [EvStep (state s)] /\
    (the_port sF = the_port s \/
     (the_port sF = handed_over p_connect_ctx (the_port s) /\
      state sF = on_connect) \/
     (the_port sF = handed_over p_resolve_ctx (the_port s) /\
      state sF = on_resolve)).
Proof.
  intros env s sF H.
  assert (Hmain : effect (log (EvStep (state s)) s) sF ->
    m_op (resolve_ctx sF) = m_op (resolve_ctx s) /\
    m_op (connect_ctx sF) = m_op (connect_ctx s) /\
    steps (trace sF) = steps (trace s) ++ [EvStep (state s)] /\
    (the_port sF = the_port s \/
     (the_port sF = handed_over p_connect_ctx (the_port s) /\
      state sF = on_connect) \/
     (the_port sF = handed_over p_resolve_ctx (the_port s) /\
      state sF = on_resolve))).
  { intros E. destruct (entered_then_effect s sF E) as (E1 & E2 & E3 & [E4|E4]).
    - auto.
    - auto 6. }
  destruct (state s) eqn:Hstate.
  - (* on_start *)
    rewrite (step_on_start env s Hstate) in H.
    pose proof (resolve_issued_fields env s) as F. cbv zeta in F.
    destruct (resolve_cases (svc s) (env_gai env) p_resolve_ctx
                (base (resolve_ctx s)) (the_port s))
      as (Rret & Ros & _ & _).
    rewrite Rret, negb_involutive in H. rewrite Ros in F. clear Rret Ros.
    revert H F.
    generalize (resolve (svc s) (env_gai env) p_resolve_ctx
                  (base (resolve_ctx s)) (the_port s)).
    generalize (resolve_issued env s).
    intros RI r H (Itr & Isock & Ibase & Isync & Istate & Ires & Ictx & Iport).
    assert (Hst : steps (trace RI) = steps (trace s) ++ [EvStep on_start]).
    { rewrite Itr, steps_app. reflexivity. }
    assert (Hmr : m_op (resolve_ctx RI) = m_op (resolve_ctx s))
      by (rewrite Ires; reflexivity).
    destruct (gai_ret (env_gai env) =? ERROR_IO_PENDING).
    + apply ends_returns in H. subst sF.
      cbn [resolve_ctx connect_ctx trace the_port state set_sync].
      rewrite Hmr, Ictx, Hst, Iport, Istate.
      split; [reflexivity|]. split; [reflexivity|]. split; [reflexivity|].
      right. right. split; reflexivity.
    + destruct (on_resolve_label_effect env RI sF H) as (E1 & E2 & E3 & E4).
      rewrite E1, E2, E3, Hmr, Ictx, Hst.
      split; [reflexivity|]. split; [reflexivity|]. split; [reflexivity|].
      rewrite Iport in E4. destruct E4 as [E4|E4]; auto.
  - (* on_resolve *)
    rewrite (step_on_resolve env s Hstate) in H.
    apply Hmain. eapply on_resolve_label_effect. exact H.
  - (* on_connect *)
    apply Hmain.
    destruct (iter s) as [|a rest] eqn:Hiter.
    + unfold step in H. cbn [state iter log set_trace] in H.
      rewrite Hstate, Hiter in H.
      destruct (has_error (base (connect_ctx (log (EvStep on_connect) s)))).
      * destruct H as [[r H]|[e H]]; discriminate.
      * apply calm_effect. eapply calm_finish. exact H.
    + rewrite (step_on_connect env s a rest Hstate Hiter) in H.
      eapply on_connect_label_effect; [|exact H].
      intros s1 sF1 _ H1. eapply connect_loop_effect. exact H1.
Qed.

Lemma connect_bookkeeping_calm :
  forall env s s1,
    ends (connect_base_completion_func env s) s1 ->
    state s1 = state s /\ calm s s1.
Proof.
  intros env s s1 H. unfold connect_base_completion_func in H.
  destruct (iter s) as [|a rest]; [destruct H as [[r H]|[e H]]; discriminate|].
  assert (Hput : forall c, state (set_connect_ctx (mkAsync c (m_op (connect_ctx s))) s)
                           = state s /\
                           calm s (set_connect_ctx (mkAsync c (m_op (connect_ctx s))) s))
    by (intros c; unfold calm; cbn; auto).
  assert (Hlog : forall h c,
             state (log (EvSetsockopt h)
                      (set_connect_ctx (mkAsync c (m_op (connect_ctx s))) s))
             = state s /\
             calm s (log (EvSetsockopt h)
                       (set_connect_ctx (mkAsync c (m_op (connect_ctx s))) s))).
  { intros h c. split; [reflexivity|].
    eapply calm_trans; [apply (Hput c)|]. apply calm_log. reflexivity. }
  destruct (connect_completion_func _ _ _ _) as [c1|[e c1]].
  - apply ends_returns in H. subst s1.
    destruct (has_error c1); [apply Hput|apply Hlog].
  - apply ends_throws in H. subst s1. apply Hlog.
Qed.

Lemma hook_of_resolve_ctx :
  forall env s,
    bound_to_this s -> completion_func env p_resolve_ctx s = step env s.
Proof.
  intros env s [Hr _]. unfold completion_func.
  change (Nat.eqb p_resolve_ctx p_resolve_ctx) with true. cbv iota.
  unfold async_completion_func, resolve_base_completion_func. cbn [bind].
  rewrite Hr. reflexivity.
Qed.

Lemma hook_of_connect_ctx :
  forall env s,
    bound_to_this s ->
    completion_func env p_connect_ctx s
    = bind (connect_base_completion_func env s) (fun _ s1 => step env s1).
Proof.
  intros env s [_ Hc]. unfold completion_func.
  change (Nat.eqb p_connect_ctx p_resolve_ctx) with false.
  change (Nat.eqb p_connect_ctx p_connect_ctx) with true. cbv iota.
  unfold async_completion_func. rewrite Hc. reflexivity.
Qed.

(** C4, as the code has it: the hook of a bound context runs the base
    context's bookkeeping first and then [step()] of the operation the
    context was constructed with.  The bookkeeping of the resolve context
    is empty; that of the connect context records the completed request
    and, on success, makes the post-connect fixup, and it leaves the
    resume point, the back-references and the port alone.  When the
    bookkeeping returns, [step()] is entered once, at the resume point
    stored in the operation, and the back-references are still the ones
    of construction; when the fixup throws, the hook throws and [step()]
    is not entered.  A [step()] that hands a request to the OS has stored
    the label that follows that call ([on_resolve] for the lookup,
    [on_connect] for the connect), so the entry the hook makes is at that
    label. *)
Theorem bound_hook_resumes_owner :
  forall env s,
    bound_to_this s ->
    completion_func env p_resolve_ctx s = step env s /\
    completion_func env p_connect_ctx s
    = bind (connect_base_completion_func env s) (fun _ s1 => step env s1) /\
    (forall s1,
        ends (connect_base_completion_func env s) s1 ->
        state s1 = state s /\ calm s s1) /\
    (forall e s1,
        connect_base_completion_func env s = Throws e s1 ->
        completion_func env p_connect_ctx s = Throws e s1 /\
        steps (trace s1) = steps (trace s)) /\
    (forall s1 sF,
        connect_base_completion_func env s = Returns tt s1 ->
        ends (completion_func env p_connect_ctx s) sF ->
        steps (trace sF) = steps (trace s) ++ [EvStep (state s)] /\
        bound_to_this sF) /\
    (forall sF,
        ends (completion_func env p_resolve_ctx s) sF ->
        steps (trace sF) = steps (trace s) ++ [EvStep (state s)] /\
        bound_to_this sF) /\
    (forall sF,
        ends (step env s) sF ->
        the_port sF = the_port s \/
        (the_port sF = handed_over p_connect_ctx (the_port s) /\
         state sF = on_connect) \/
        (the_port sF = handed_over p_resolve_ctx (the_port s) /\
         state sF = on_resolve)).
Proof.
  intros env s Hb.
  pose proof (hook_of_resolve_ctx env s Hb) as Hres.
  pose proof (hook_of_connect_ctx env s Hb) as Hcon.
  split; [exact Hres|]. split; [exact Hcon|].
  split; [apply connect_bookkeeping_calm|].
  split.
  { intros e s1 H. rewrite Hcon, H. split; [reflexivity|].
    apply (connect_bookkeeping_calm env s s1). rewrite H. right; eauto. }
  split.
  { intros s1 sF H HF. rewrite Hcon, H in HF. cbn [bind] in HF.
    destruct (connect_bookkeeping_calm env s s1) as (Hst & C1 & C2 & C3 & _);
      [rewrite H; left; eauto|].
    destruct (step_effect env s1 sF HF) as (E1 & E2 & E3 & _).
    rewrite E3, C3, Hst. split; [reflexivity|].
    destruct Hb as [Hr Hc]. unfold bound_to_this.
    now rewrite E1, E2, C1, C2. }
  split.
  { intros sF HF. rewrite Hres in HF.
    destruct (step_effect env s sF HF) as (E1 & E2 & E3 & _).
    split; [exact E3|]. destruct Hb as [Hr Hc]. unfold bound_to_this.
    now rewrite E1, E2. }
  intros sF HF. apply (step_effect env s sF HF).
Qed.

(** The operation suspended on a connect whose fixup fails: the hook of
    [connect_ctx] throws and [step()] is not entered at all. *)
Lemma hook_can_miss_step :
  bound_to_this SampleHook.waiting /\
  state SampleHook.waiting = on_connect /\
  exists s1,
    completion_func SampleRun.env_fixup p_connect_ctx SampleHook.waiting
    = Throws 10038 s1 /\
    steps (trace s1) = steps (trace SampleHook.waiting).
Proof.
  split; [split; reflexivity|]. split; [reflexivity|].
  eexists. split; vm_compute; reflexivity.
Qed.

Lemma bound_hook_witness :
  completion_func SampleRun.env_fixup p_resolve_ctx SampleHook.waiting
  = step SampleRun.env_fixup SampleHook.waiting /\
  completion_func SampleRun.env_fixup p_connect_ctx SampleHook.waiting
  = bind (connect_base_completion_func SampleRun.env_fixup SampleHook.waiting)
         (fun _ s1 => step SampleRun.env_fixup s1).
Proof.
  destruct (bound_hook_resumes_owner SampleRun.env_fixup SampleHook.waiting
              (conj eq_refl eq_refl)) as (H1 & H2 & _).
  split; [exact H1|exact H2].
Defined.

(** ** The result contract of the primitives *)

Lemma overlapped_primitive_contract :
  forall io a stored fl sock p c c' w,
    result_contract p w c c'
      (overlapped_primitive io a stored fl sock p c w)
      (overlapped_primitive io a stored fl sock p c' w).
Proof.
  intros io a stored fl sock p c c' w. unfold result_contract, overlapped_primitive.
  destruct io as [|e].
  - unfold classify, os_overlapped_call, is_pending, handed_over.
    destruct (call_done a).
    + cbn. auto 10.
    + destruct (last_error a =? ERROR_IO_PENDING).
      * cbn. split; [reflexivity|]. right.
        destruct stored; cbn; auto.
      * cbn. auto 10.
  - unfold ioctl_failed. cbn. auto 10.
Qed.

(** No branch behind the extension lookup assigns [m_transferred]: the
    field holds what the OS call stored, and otherwise keeps the count of
    an earlier request. *)
Lemma overlapped_primitive_bytes :
  forall io a stored fl sock p c w,
    m_transferred (ctx (overlapped_primitive io a stored fl sock p c w))
    = match io with
      | IoctlFailed _ => 0
      | IoctlFound => bytes_after stored c
      end.
Proof.
  intros io a stored fl sock p c w. unfold overlapped_primitive.
  destruct io as [|e]; [|reflexivity].
  unfold classify, bytes_after.
  destruct (call_done a); [destruct stored; reflexivity|].
  destruct (last_error a =? ERROR_IO_PENDING); destruct stored; reflexivity.
Qed.

Lemma remove_first_appended :
  forall p l,
    length (remove_first p (l ++ [p])) = length l /\
    count_occ Nat.eq_dec (remove_first p (l ++ [p])) p = count_occ Nat.eq_dec l p.
Proof.
  intros p l. induction l as [|q l [IH1 IH2]]; cbn [app remove_first].
  - rewrite Nat.eqb_refl. auto.
  - destruct (Nat.eqb p q) eqn:Hpq.
    + apply Nat.eqb_eq in Hpq. subst q. rewrite length_app, count_occ_app.
      cbn [length count_occ].
      destruct (Nat.eq_dec p p) as [_|N]; [|congruence].
      rewrite !Nat.add_1_r. auto.
    + cbn [length count_occ]. rewrite IH1.
      split; [reflexivity|].
      destruct (Nat.eq_dec q p); now rewrite IH2.
Qed.

Lemma one_request_one_packet :
  forall p w,
    queue (os_complete p (handed_over p w))
    = queue w ++ [mkPacket KEY_RUN (Some p)] /\
    length (inflight (os_complete p (handed_over p w))) = length (inflight w) /\
    count_occ Nat.eq_dec (inflight (os_complete p (handed_over p w))) p
    = count_occ Nat.eq_dec (inflight w) p.
Proof.
  intros p w. unfold os_complete, handed_over. cbn [inflight queue].
  assert (He : existsb (Nat.eqb p) (inflight w ++ [p]) = true).
  { rewrite existsb_app. cbn. rewrite Nat.eqb_refl. now rewrite orb_true_r. }
  rewrite He. cbn [inflight queue]. split; [reflexivity|].
  apply remove_first_appended.
Qed.

Lemma nothing_left_nothing_comes :
  forall p w,
    count_occ Nat.eq_dec (inflight w) p = 0%nat -> os_complete p w = w.
Proof.
  intros p w H. unfold os_complete.
  assert (He : existsb (Nat.eqb p) (inflight w) = false).
  { induction (inflight w) as [|q l IH]; [reflexivity|].
    cbn [count_occ existsb] in *.
    destruct (Nat.eq_dec q p) as [E|N]; [discriminate|].
    apply Nat.eqb_neq in N. rewrite Nat.eqb_sym, N. now apply IH. }
  now rewrite He.
Qed.

Lemma completion_populates :
  forall res c,
    m_error (socket_completion_func res c)
    = (if ovl_ok res then ERROR_SUCCESS else ovl_last_error res) /\
    m_transferred (socket_completion_func res c) = ovl_transferred res /\
    m_flags (socket_completion_func res c) = ovl_flags res.
Proof. intros res c. repeat split. Qed.

Lemma resolve_contract :
  forall iocp a p c c' w,
    r_returned (resolve iocp a p c w) = r_returned (resolve iocp a p c' w) /\
    ((r_returned (resolve iocp a p c w) = true /\
      r_os (resolve iocp a p c w) = w /\
      r_error (r_ctx (resolve iocp a p c w))
      = r_error (r_ctx (resolve iocp a p c' w))) \/
     (r_returned (resolve iocp a p c w) = false /\
      r_os (resolve iocp a p c w) = handed_over p w /\
      r_error (r_ctx (resolve iocp a p c w)) = r_error c)).
Proof.
  intros iocp a p c c' w. unfold resolve.
  destruct (gai_ret a =? 0); [cbn; auto 10|].
  destruct (gai_ret a =? ERROR_IO_PENDING); cbn; auto 10.
Qed.

Lemma lookup_done_once :
  forall la p c w,
    r_error (fst (os_lookup_done la p c (handed_over p w))) = lk_error la /\
    queue (snd (os_lookup_done la p c (handed_over p w)))
    = queue w ++ [mkPacket KEY_RUN (Some p)] /\
    count_occ Nat.eq_dec (inflight (snd (os_lookup_done la p c (handed_over p w)))) p
    = count_occ Nat.eq_dec (inflight w) p.
Proof.
  intros la p c w. unfold os_lookup_done, handed_over. cbn [inflight queue].
  assert (He : existsb (Nat.eqb p) (inflight w ++ [p]) = true).
  { rewrite existsb_app. cbn. rewrite Nat.eqb_refl. now rewrite orb_true_r. }
  rewrite He. unfold lookup_completion. cbn [fst snd inflight queue].
  split; [reflexivity|]. split; [reflexivity|].
  apply remove_first_appended.
Qed.

(** The part of the result contract that holds of every call.  For
    [accept_and_receive], [connect_and_send], [send], [receive],
    [disconnect] and [resolve], on any two contexts: the call returns the
    same boolean, and either it returns [true], has left nothing with the
    OS and has written the error field (and, for the socket primitives,
    the flags field), or it returns [false], has left exactly one request
    with the OS and has not written them; never both, never neither.  A
    request left with the OS yields exactly one packet, and a call that
    left none yields none; the hook dispatched for that packet writes the
    three fields of a socket context from the completed request; for
    [resolve] the error is written by [lookup_completion], which then
    posts the one packet. *)
Lemma primitives_return_dichotomy :
  forall ws sock p w c c',
    (forall acc b rl ll rml,
        result_contract p w c c'
          (accept_and_receive ws sock p acc b rl ll rml c w)
          (accept_and_receive ws sock p acc b rl ll rml c' w)) /\
    (forall name nl b bl,
        result_contract p w c c'
          (connect_and_send ws sock p name nl b bl c w)
          (connect_and_send ws sock p name nl b bl c' w)) /\
    (forall bufs n fl,
        result_contract p w c c'
          (send_bufs ws sock p bufs n fl c w)
          (send_bufs ws sock p bufs n fl c' w)) /\
    (forall bufs n fl,
        result_contract p w c c'
          (receive_bufs ws sock p bufs n fl c w)
          (receive_bufs ws sock p bufs n fl c' w)) /\
    (forall reuse,
        result_contract p w c c'
          (disconnect ws sock p reuse c w)
          (disconnect ws sock p reuse c' w)) /\
    (forall iocp a rc rc',
        r_returned (resolve iocp a p rc w) = r_returned (resolve iocp a p rc' w) /\
        ((r_returned (resolve iocp a p rc w) = true /\
          r_os (resolve iocp a p rc w) = w /\
          r_error (r_ctx (resolve iocp a p rc w))
          = r_error (r_ctx (resolve iocp a p rc' w))) \/
         (r_returned (resolve iocp a p rc w) = false /\
          r_os (resolve iocp a p rc w) = handed_over p w /\
          r_error (r_ctx (resolve iocp a p rc w)) = r_error rc))) /\
    (queue (os_complete p (handed_over p w))
     = queue w ++ [mkPacket KEY_RUN (Some p)] /\
     count_occ Nat.eq_dec (inflight (os_complete p (handed_over p w))) p
     = count_occ Nat.eq_dec (inflight w) p) /\
    (count_occ Nat.eq_dec (inflight w) p = 0%nat -> os_complete p w = w) /\
    (forall res,
        m_error (socket_completion_func res c)
        = (if ovl_ok res then ERROR_SUCCESS else ovl_last_error res) /\
        m_transferred (socket_completion_func res c) = ovl_transferred res /\
        m_flags (socket_completion_func res c) = ovl_flags res) /\
    (forall la rc,
        r_error (fst (os_lookup_done la p rc (handed_over p w))) = lk_error la /\
        queue (snd (os_lookup_done la p rc (handed_over p w)))
        = queue w ++ [mkPacket KEY_RUN (Some p)] /\
        count_occ Nat.eq_dec
          (inflight (snd (os_lookup_done la p rc (handed_over p w)))) p
        = count_occ Nat.eq_dec (inflight w) p).
Proof.
  intros ws sock p w c c'.
  split.
  { intros acc b rl ll rml.
    apply (overlapped_primitive_contract (WSAIoctl_AcceptEx ws sock)
             (AcceptEx ws sock acc b rl ll rml)
             (bytes_stored (AcceptEx ws sock acc b rl ll rml)) 0 sock p c c' w). }
  split.
  { intros name nl b bl.
    apply (overlapped_primitive_contract (WSAIoctl_ConnectEx ws sock)
             (ConnectEx ws sock name nl b bl)
             (bytes_stored (ConnectEx ws sock name nl b bl)) 0 sock p c c' w). }
  split.
  { intros bufs n fl.
    apply (overlapped_primitive_contract IoctlFound (WSASend ws sock bufs n fl)
             (bytes_stored (WSASend ws sock bufs n fl)) 0 sock p c c' w). }
  split.
  { intros bufs n fl.
    apply (overlapped_primitive_contract IoctlFound (WSARecv ws sock bufs n fl)
             (bytes_stored (WSARecv ws sock bufs n fl))
             (match flags_stored (WSARecv ws sock bufs n fl) with
              | Some f => f | None => fl end) sock p c c' w). }
  split.
  { intros reuse.
    apply (overlapped_primitive_contract (WSAIoctl_DisconnectEx ws sock)
             (DisconnectEx ws sock (if reuse then TF_REUSE_SOCKET else 0) 0)
             None 0 sock p c c' w). }
  split; [intros iocp a rc rc'; apply resolve_contract|].
  split.
  { destruct (one_request_one_packet p w) as (H1 & _ & H3). auto. }
  split; [apply nothing_left_nothing_comes|].
  split; [intros res; apply completion_populates|].
  intros la rc. apply lookup_done_once.
Qed.

(** A [disconnect] that succeeds at once returns [true] and leaves
    [m_transferred] at what the context held: two contexts that differ
    there still differ after the call. *)
Lemma disconnect_leaves_bytes :
  ~ outcome_populated
      (fun c => disconnect Sample.ws_done 5 2%nat false c Sample.port0).
Proof.
  intros H.
  destruct (H Sample.ctx0 Sample.ctx1 eq_refl eq_refl) as (_ & Hbytes & _).
  vm_compute in Hbytes. discriminate Hbytes.
Qed.

(** C1, at the failing input.  [Sample.ctx1] still holds the 99 bytes of
    an earlier request.  A [disconnect] that [DisconnectEx] completes at
    once and a [connect_and_send] that [ConnectEx] refuses at once both
    return [true] with the error and the flags written and with
    [m_transferred] still 99: the call has returned [true] and the byte
    count of its outcome is not populated.  The other paths of the same
    two functions write the field: it is 0 when the extension lookup
    fails, and the hook stores the completed request's count when the
    call was left pending. *)
Theorem inline_paths_leave_bytes_stale :
  (returned (disconnect Sample.ws_done 5 2%nat false Sample.ctx1 Sample.port0)
   = true /\
   m_error (ctx (disconnect Sample.ws_done 5 2%nat false Sample.ctx1
                   Sample.port0)) = ERROR_SUCCESS /\
   m_flags (ctx (disconnect Sample.ws_done 5 2%nat false Sample.ctx1
                   Sample.port0)) = 0 /\
   m_transferred (ctx (disconnect Sample.ws_done 5 2%nat false Sample.ctx1
                         Sample.port0)) = 99) /\
  (returned (connect_and_send Sample.ws_refusing 5 2%nat 1001 16 0 0
               Sample.ctx1 Sample.port0) = true /\
   m_error (ctx (connect_and_send Sample.ws_refusing 5 2%nat 1001 16 0 0
                   Sample.ctx1 Sample.port0)) = 10061 /\
   m_flags (ctx (connect_and_send Sample.ws_refusing 5 2%nat 1001 16 0 0
                   Sample.ctx1 Sample.port0)) = 0 /\
   m_transferred (ctx (connect_and_send Sample.ws_refusing 5 2%nat 1001 16 0 0
                         Sample.ctx1 Sample.port0)) = 99) /\
  (m_transferred (ctx (disconnect Sample.ws_no_extension 5 2%nat false
                         Sample.ctx1 Sample.port0)) = 0 /\
   m_transferred (ctx (connect_and_send Sample.ws_no_extension 5 2%nat
                         1001 16 0 0 Sample.ctx1 Sample.port0)) = 0) /\
  (returned (disconnect Sample.ws_accepting 5 2%nat false Sample.ctx1
               Sample.port0) = false /\
   m_transferred
     (socket_completion_func (mkOvl true 0 0 0)
        (ctx (disconnect Sample.ws_accepting 5 2%nat false Sample.ctx1
                Sample.port0))) = 0).
Proof.
  repeat split.
Qed.

Lemma return_dichotomy_witness :
  os_complete 2%nat Sample.port0 = Sample.port0 /\
  result_contract 2%nat Sample.port0 Sample.ctx0 Sample.ctx1
    (send_bufs Sample.ws_accepting 5 2%nat [mkWSABUF 100 16] 1 0
       Sample.ctx0 Sample.port0)
    (send_bufs Sample.ws_accepting 5 2%nat [mkWSABUF 100 16] 1 0
       Sample.ctx1 Sample.port0).
Proof.
  destruct (primitives_return_dichotomy Sample.ws_accepting 5 2%nat
              Sample.port0 Sample.ctx0 Sample.ctx1)
    as (_ & _ & Hsend & _ & _ & _ & _ & H & _).
  split; [exact (H eq_refl)|].
  exact (Hsend [mkWSABUF 100 16] 1 0).
Defined.

(** * Further properties of the code *)

(** ** A hook that throws in a batch *)

Section BatchAbort.

Variable St : Type.
Variable cf : ptr -> St -> outcome unit St.

Lemma run_entries_app :
  forall pre rest keep (d : driven St) s1,
    forallb known_key pre = true ->
    forallb carries_context pre = true ->
    after_hooks cf (hooks_due pre) (prog d) = Some s1 ->
    run_entries St cf (pre ++ rest) keep d
    = run_entries St cf rest (keep && negb (existsb is_shutdown_entry pre))
        (mkDriven s1 (dispatched d ++ hooks_due pre)).
Proof.
  induction pre as [|pk pre IH]; intros rest keep d s1 Hk Hc Hh.
  - cbn in Hh. injection Hh as <-. cbn [app existsb hooks_due negb].
    rewrite andb_true_r, app_nil_r. now destruct d.
  - cbn [forallb] in Hk, Hc.
    apply andb_true_iff in Hk. destruct Hk as [Hk Hks].
    apply andb_true_iff in Hc. destruct Hc as [Hc Hcs].
    unfold known_key in Hk. unfold carries_context in Hc.
    cbn [app run_entries existsb hooks_due] in Hh |- *.
    destruct (lpCompletionKey pk =? KEY_RUN) eqn:Hrun.
    + assert (Hs : is_shutdown_entry pk = false).
      { unfold is_shutdown_entry. apply Z.eqb_eq in Hrun.
        rewrite Hrun. reflexivity. }
      rewrite Hs in Hh, Hc |- *. cbn [orb] in Hc |- *.
      destruct (lpOverlapped pk) as [q|]; [|discriminate].
      cbn [after_hooks] in Hh.
      destruct (cf q (prog d)) as [[] s2| |] eqn:Hq; try discriminate.
      rewrite (dispatch_returns St cf q d s2 Hq). cbn [bind].
      rewrite (IH rest keep (mkDriven s2 (dispatched d ++ [q])) s1 Hks Hcs Hh).
      cbn [dispatched]. now rewrite <- app_assoc.
    + cbn [orb] in Hk. fold (is_shutdown_entry pk) in Hk.
      rewrite Hk in Hh |- *.
      rewrite (IH rest false d s1 Hks Hcs Hh). cbn [orb negb].
      now rewrite andb_false_r.
Qed.

(** X1: [service::run_many] and a hook that throws.  The wait has taken the
    whole batch off the port; the hooks before the throwing one have run,
    in order; the exception leaves [run_many] with the error code of the
    hook; the entries after it are neither dispatched nor put back, so
    their completions are lost to the program. *)
Theorem throwing_hook_drops_rest_of_batch :
  forall (d : driven St) (w w' : port) (a : gqcs_ex_answer)
         pre q post s1 err s2,
    GetQueuedCompletionStatusEx None 16 w = Some (a, w') ->
    queue w = pre ++ mkPacket KEY_RUN (Some q) :: post ->
    (length (queue w) <= 16)%nat ->
    forallb known_key pre = true ->
    forallb carries_context pre = true ->
    after_hooks cf (hooks_due pre) (prog d) = Some s1 ->
    cf q s1 = Throws err s2 ->
    run_many St cf a d
    = Throws err (mkDriven s2 (dispatched d ++ hooks_due pre ++ [q])) /\
    queue w' = [].
Proof.
  intros d w w' a pre q post s1 err s2 Hw Hq Hlen Hk Hc Hh Hthrow.
  destruct (batch_wait_spec 16 w a w' Hw) as (Hr & He & Hw').
  rewrite firstn_all2 in He by exact Hlen.
  rewrite skipn_all2 in Hw' by exact Hlen.
  split; [|exact Hw'].
  unfold run_many. rewrite Hr, He, Hq. cbn [negb].
  rewrite (run_entries_app pre _ true d s1 Hk Hc Hh).
  cbn [run_entries lpCompletionKey lpOverlapped].
  change (KEY_RUN =? KEY_RUN) with true. cbv iota.
  unfold dispatch. cbn [prog dispatched]. rewrite Hthrow. cbn [bind].
  now rewrite <- app_assoc.
Qed.

End BatchAbort.

Lemma throwing_hook_witness :
  exists a w',
    GetQueuedCompletionStatusEx None 16 SampleBatch.port4 = Some (a, w') /\
    run_many nat SampleBatch.fragile a (mkDriven 0%nat [])
    = Throws 5 (mkDriven 1%nat [4%nat; 7%nat]) /\
    queue w' = [].
Proof.
  eexists. eexists. split; [reflexivity|].
  apply (throwing_hook_drops_rest_of_batch nat SampleBatch.fragile
           (mkDriven 0%nat []) SampleBatch.port4 _ _
           [mkPacket KEY_RUN (Some 4%nat)] 7%nat
           [mkPacket KEY_SHUTDOWN None; mkPacket KEY_RUN (Some 9%nat)]
           1%nat 5 1%nat); try reflexivity.
  cbn. lia.
Defined.

(** ** The first candidate that connects; a candidate that cannot be set up *)

Lemma candidate_succeeds_here :
  forall env a rest s n disp,
    succeeds env a = true ->
    idle (the_port s) -> bound_to_this s ->
    exists sF dispF,
      then_drive env (S n) disp (connect_loop env (a :: rest) s)
      = Returns tt (mkDriven sF dispF) /\ settled env a s sF.
Proof.
  intros env a rest s n disp Hs Hidle Hb.
  assert (Hboth : (fails env a || succeeds env a) = true)
    by (rewrite Hs; apply orb_true_r).
  destruct (fate_of_either env a Hboth) as [Hready Hfate].
  destruct (succeeds_inv env a Hs) as [Hfail Hzero].
  destruct (attempt_lands env a rest s n disp Hready Hfate Hidle Hb)
    as (s2 & n' & disp' & Heq & Hn & L).
  rewrite Heq. unfold on_connect_label.
  rewrite (landed_has_error env a rest s s2 L), Hfail.
  destruct L as (Ltr & Lsock & Liter & Lbase & Lsync & Lport & Lb & Lres & Lcode & Lasync & Linline).
  destruct (finish_fields ERROR_SUCCESS
              (transferred (base (connect_ctx s2)))
              (flags (base (connect_ctx s2))) s2)
    as (sF & HF & Ftr & Fbase & Fsock & Fsync & Fctx & Fres & Fport).
  rewrite HF. cbn [then_drive].
  rewrite drive_idle
    by (cbn [prog]; rewrite Fport, Lport; exact Hidle).
  exists sF, disp'. split; [reflexivity|].
  unfold settled. rewrite Hfail.
  rewrite Ftr, Fbase, Fsock, Fsync, Fctx, Fport.
  rewrite Ltr, Lsock, Lsync, Lport.
  cbn [m_error m_transferred m_flags set_flags set_transferred set_error app].
  rewrite Hzero. rewrite <- !app_assoc.
  repeat match goal with |- (?x = ?x) /\ _ => split; [reflexivity|] end.
  split; [exact Hidle|]. split; assumption.
Qed.

(** X2: the loop stops at the first candidate that connects.  When the
    candidates before [aK] all fail to connect and [aK] connects, the
    operation completes with [ERROR_SUCCESS] and [*sock] holding the
    socket made for [aK]; exactly the candidates up to [aK] were tried,
    in order, and none after it.  The flags recorded are those of [aK]'s
    connect: the completed request's when it was left pending, 0 when it
    finished inside the call.  The byte count recorded is that of [aK]'s
    connect when the request completed through the port or [ConnectEx]
    stored a count; nothing is said of it for a connect that finishes
    inside the call without storing one. *)
Theorem first_success_wins :
  forall env fuel svch hn sn b bl s0 pre aK post,
    resolution_delivers env s0 (pre ++ aK :: post) ->
    forallb (fails env) pre = true ->
    succeeds env aK = true ->
    idle (the_port s0) -> bound_to_this s0 ->
    (length pre + 2 <= fuel)%nat ->
    exists r d,
      operation env fuel svch hn sn b bl s0 = Returns r d /\
      attempted (trace (prog d)) = attempted (trace s0) ++ pre ++ [aK] /\
      trace (prog d)
      = trace s0 ++ resolution_events env hn sn ++
        failing_trace env pre (sock s0) ++
        attempt_events (env_attempt env aK) aK
          (match pre with [] => sock s0 | _ :: _ => INVALID_SOCKET end) ++
        (if sync (prog d) then [] else [EvCompleted]) /\
      m_error (rc_base (prog d)) = ERROR_SUCCESS /\
      (connect_suspends (env_attempt env aK) = true ->
       m_transferred (rc_base (prog d))
       = ovl_transferred (at_result (env_attempt env aK)) /\
       m_flags (rc_base (prog d)) = ovl_flags (at_result (env_attempt env aK))) /\
      (connect_suspends (env_attempt env aK) = false ->
       m_flags (rc_base (prog d)) = 0 /\
       forall k, at_ioctl (env_attempt env aK) = IoctlFound ->
                 bytes_stored (at_connect (env_attempt env aK)) = Some k ->
                 m_transferred (rc_base (prog d)) = k) /\
      sock (prog d) = at_socket (env_attempt env aK) /\
      idle (the_port (prog d)).
Proof.
  intros env fuel svch hn sn b bl s0 pre aK post D Hpre HK Hidle Hb Hfuel.
  destruct fuel as [|n]; [lia|].
  destruct (resolution_phase env n svch hn sn b bl s0 Hidle Hb)
    as (s1 & n1 & disp1 & Heq1 & Hn1 & A).
  rewrite (delivered_enters_loop env hn sn s0 s1 _ D A) in Heq1.
  assert (Hidle1 : idle (the_port s1)) by apply A.
  assert (Hb1 : bound_to_this s1) by apply A.
  replace n1 with (length pre + (n1 - length pre))%nat in Heq1 by lia.
  destruct (skip_many env pre aK post s1 (n1 - length pre)%nat disp1
              Hpre Hidle1 Hb1)
    as (s' & n' & disp' & Heq' & Hn' & Sk).
  rewrite Heq' in Heq1.
  assert (Hidle' : idle (the_port s')) by apply Sk.
  assert (Hb' : bound_to_this s') by apply Sk.
  destruct n' as [|m]; [lia|].
  destruct (candidate_succeeds_here env aK post s' m disp' HK Hidle' Hb')
    as (sF & dispF & HF & St).
  rewrite HF in Heq1. rewrite <- forget_operation in Heq1.
  destruct (forget_returns _ _ Heq1) as [r Hop].
  exists r, (mkDriven sF dispF). split; [exact Hop|]. cbn [prog].
  destruct (succeeds_inv env aK HK) as (Hfail & Hcode).
  destruct A as (Atr & Asock & Abase & Async & _ & _ & _ & _).
  destruct Sk as (Ktr & Ksock & Kbase & Ksync & _ & _ & _).
  destruct St as (Ttr & Tsync & Terr & Ttrans & Tflags & Tsock & Tidle
                  & Tasync & Tinline).
  rewrite Hfail in Ttr, Tsock. rewrite Hcode in Terr.
  unfold transferred, flags in Ttrans, Tflags.
  assert (Htrace : trace sF
      = trace s0 ++ resolution_events env hn sn ++
        failing_trace env pre (sock s0) ++
        attempt_events (env_attempt env aK) aK
          (match pre with [] => sock s0 | _ :: _ => INVALID_SOCKET end) ++
        (if sync sF then [] else [EvCompleted])).
  { rewrite Ttr, Ktr, Atr, Ksock, Asock. rewrite <- !app_assoc. reflexivity. }
  split.
  { rewrite Htrace, !attempted_app, attempted_resolution_events,
            attempted_failing_trace, attempted_attempt_events.
    destruct (sync sF); cbn [attempted app]; now rewrite ?app_nil_r. }
  split; [exact Htrace|].
  split; [exact Terr|].
  split.
  { intros Hs. destruct (Tasync Hs) as [H1 H2]. now rewrite Ttrans, Tflags. }
  split.
  { intros Hs. destruct (Tinline Hs) as [H1 H2]. rewrite Ttrans, Tflags.
    split; [exact H1|exact H2]. }
  split; [exact Tsock|exact Tidle].
Qed.

Lemma first_success_wins_witness :
  exists r d,
    operation SampleRun.env_second_wins 4 55 1 2 3 4 SampleRun.fresh = Returns r d /\
    attempted (trace (prog d)) = [SampleRun.a1; SampleRun.a2] /\
    sock (prog d) = 102 /\
    m_transferred (rc_base (prog d)) = 37.
Proof.
  destruct (first_success_wins SampleRun.env_second_wins 4 55 1 2 3 4
              SampleRun.fresh [SampleRun.a1] SampleRun.a2 [SampleRun.a3])
    as (r & d & Hop & Hatt & _ & _ & Hlate & _ & Hsock & _).
  - left. repeat split; try reflexivity. discriminate.
  - reflexivity.
  - reflexivity.
  - reflexivity.
  - split; reflexivity.
  - cbn [length]. lia.
  - exists r, d. split; [exact Hop|]. split; [exact Hatt|].
    split; [exact Hsock|]. exact (proj1 (Hlate eq_refl)).
Defined.

Lemma setup_error_not_ready :
  forall t, attempt_ready t = true <-> setup_error t = None.
Proof.
  intros t. unfold attempt_ready, setup_error.
  destruct (at_socket t =? INVALID_SOCKET); cbn; [split; discriminate|].
  destruct (at_associate t); cbn; [split; discriminate|].
  destruct (at_bind t =? 0); cbn; split; try discriminate; reflexivity.
Qed.

Lemma setup_failure_throws :
  forall env a rest s e,
    setup_error (env_attempt env a) = Some e ->
    exists s',
      connect_loop env (a :: rest) s = Throws e s' /\
      trace s' = trace s ++ setup_events (env_attempt env a) a (sock s) /\
      sock s' = setup_sock (env_attempt env a) (sock s) /\
      rc_base s' = rc_base s /\
      sync s' = sync s /\
      the_port s' = the_port s.
Proof.
  intros env a rest s e He.
  cbn [connect_loop].
  assert (F0 : trace (set_iter (a :: rest) s) = trace s /\
               sock (set_iter (a :: rest) s) = sock s /\
               rc_base (set_iter (a :: rest) s) = rc_base s /\
               sync (set_iter (a :: rest) s) = sync s /\
               the_port (set_iter (a :: rest) s) = the_port s)
    by (cbn; auto).
  revert F0. generalize (set_iter (a :: rest) s).
  intros s0 (Ftr & Fsock & Fbase & Fsync & Fport).
  unfold setup_error in He. unfold setup_events, setup_sock.
  unfold socket_ctor.
  destruct (at_socket (env_attempt env a) =? INVALID_SOCKET) eqn:Hs.
  - injection He as <-. cbn [bind]. eexists. split; [reflexivity|].
    cbn [log set_trace trace sock rc_base sync the_port].
    rewrite Ftr, Fsock, Fbase, Fsync, Fport. auto 10.
  - destruct (at_associate (env_attempt env a)) as [e'|] eqn:Ha.
    + injection He as <-. cbn [bind]. eexists. split; [reflexivity|].
      cbn [log set_trace trace sock rc_base sync the_port].
      rewrite Ftr, Fsock, Fbase, Fsync, Fport, <- app_assoc. auto 10.
    + destruct (negb (at_bind (env_attempt env a) =? 0)) eqn:Hb; [|discriminate].
      injection He as <-. cbn [bind].
      pose proof (socket_close_fields (log (EvSocket a (at_socket (env_attempt env a))) s0))
        as C.
      unfold socket_move_assign.
      revert C.
      generalize (socket_close (log (EvSocket a (at_socket (env_attempt env a))) s0)).
      intros s1 (Ctr & Csock & Citer & Cbase & Csync & Cres & Cctx & Cport).
      cbn [log set_trace trace sock rc_base sync the_port] in Ctr, Cbase, Csync, Cport.
      unfold socket_bind. cbn [sock set_sock log set_trace].
      rewrite Hb. cbn [bind]. eexists. split; [reflexivity|].
      cbn [log set_trace trace sock rc_base sync the_port set_sock].
      rewrite Ctr, Cbase, Csync, Cport, Ftr, Fsock, Fbase, Fsync, Fport.
      rewrite <- !app_assoc. auto 10.
Qed.

Lemma forget_throws :
  forall {S : Type} (o : outcome bool S) e d,
    forget o = Throws e d -> o = Throws e d.
Proof.
  intros S o e d H. destruct o as [r s|e' s|]; try discriminate.
  cbn in H. injection H as -> ->. reflexivity.
Qed.

Lemma completions_app :
  forall l1 l2, completions (l1 ++ l2) = completions l1 ++ completions l2.
Proof. intros. unfold completions. apply filter_app. Qed.

Lemma completions_close_events : forall h, completions (close_events h) = [].
Proof. intros h. unfold close_events. now destruct (h =? INVALID_SOCKET). Qed.

Lemma completions_attempt_events :
  forall t a old, completions (attempt_events t a old) = [].
Proof.
  intros t a old. unfold attempt_events.
  rewrite !completions_app, completions_close_events.
  destruct (connect_suspends t); destruct (connect_fails t); reflexivity.
Qed.

Lemma completions_failing_trace :
  forall env cands old, completions (failing_trace env cands old) = [].
Proof.
  intros env cands. induction cands as [|a cands IH]; intros old; [reflexivity|].
  cbn [failing_trace]. rewrite !completions_app, completions_attempt_events, IH.
  reflexivity.
Qed.

Lemma completions_resolution_events :
  forall env hn sn, completions (resolution_events env hn sn) = [].
Proof.
  intros env hn sn. unfold resolution_events.
  now destruct (gai_ret (env_gai env) =? ERROR_IO_PENDING).
Qed.

Lemma completions_setup_events :
  forall t a old, completions (setup_events t a old) = [].
Proof.
  intros t a old. unfold setup_events.
  destruct (at_socket t =? INVALID_SOCKET); [reflexivity|].
  destruct (at_associate t); [reflexivity|].
  now rewrite !completions_app, completions_close_events.
Qed.

Lemma attempted_setup_events :
  forall t a old, attempted (setup_events t a old) = [].
Proof.
  intros t a old. unfold setup_events.
  destruct (at_socket t =? INVALID_SOCKET); [reflexivity|].
  destruct (at_associate t); [reflexivity|].
  now rewrite !attempted_app, attempted_close_events.
Qed.

(** X3: a candidate whose socket cannot be made, associated with the port
    or bound ends the whole operation with an exception carrying that
    error code: the candidates after it are never tried, no connect is
    issued for it, the result fields of the operation are left as they
    were and [this->completion_func()] is not called. *)
Theorem setup_failure_aborts :
  forall env fuel svch hn sn b bl s0 pre aK post e,
    resolution_delivers env s0 (pre ++ aK :: post) ->
    forallb (fails env) pre = true ->
    setup_error (env_attempt env aK) = Some e ->
    idle (the_port s0) -> bound_to_this s0 ->
    (length pre + 1 <= fuel)%nat ->
    exists d,
      operation env fuel svch hn sn b bl s0 = Throws e d /\
      attempted (trace (prog d)) = attempted (trace s0) ++ pre /\
      completions (trace (prog d)) = completions (trace s0) /\
      rc_base (prog d) = rc_base s0 /\
      sock (prog d)
      = setup_sock (env_attempt env aK)
          (match pre with [] => sock s0 | _ :: _ => INVALID_SOCKET end) /\
      idle (the_port (prog d)).
Proof.
  intros env fuel svch hn sn b bl s0 pre aK post e D Hpre HK Hidle Hb Hfuel.
  destruct fuel as [|n]; [lia|].
  destruct (resolution_phase env n svch hn sn b bl s0 Hidle Hb)
    as (s1 & n1 & disp1 & Heq1 & Hn1 & A).
  rewrite (delivered_enters_loop env hn sn s0 s1 _ D A) in Heq1.
  assert (Hidle1 : idle (the_port s1)) by apply A.
  assert (Hb1 : bound_to_this s1) by apply A.
  replace n1 with (length pre + (n1 - length pre))%nat in Heq1 by lia.
  destruct (skip_many env pre aK post s1 (n1 - length pre)%nat disp1
              Hpre Hidle1 Hb1)
    as (s' & n' & disp' & Heq' & Hn' & Sk).
  rewrite Heq' in Heq1.
  destruct (setup_failure_throws env aK post s' e HK)
    as (sT & HT & Ttr & Tsock & Tbase & Tsync & Tport).
  rewrite HT in Heq1. cbn [then_drive] in Heq1.
  rewrite <- forget_operation in Heq1. apply forget_throws in Heq1.
  exists (mkDriven sT disp'). split; [exact Heq1|]. cbn [prog].
  destruct A as (Atr & Asock & Abase & Async & _ & _ & _ & _).
  destruct Sk as (Ktr & Ksock & Kbase & Ksync & Kidle & _ & _).
  rewrite Ttr, Tsock, Tbase, Tport, Ktr, Ksock, Kbase, Atr, Asock, Abase.
  split.
  { rewrite !attempted_app, attempted_resolution_events,
            attempted_failing_trace, attempted_setup_events.
    now rewrite !app_nil_r. }
  split.
  { rewrite !completions_app, completions_resolution_events,
            completions_failing_trace, completions_setup_events.
    now rewrite !app_nil_r. }
  split; [reflexivity|]. split; [reflexivity|exact Kidle].
Qed.

Lemma setup_failure_witness :
  exists d,
    operation SampleRun.env_bind_fails 4 55 1 2 3 4 SampleRun.fresh
    = Throws 10049 d /\
    attempted (trace (prog d)) = [SampleRun.a1] /\
    sock (prog d) = 104.
Proof.
  destruct (setup_failure_aborts SampleRun.env_bind_fails 4 55 1 2 3 4
              SampleRun.fresh [SampleRun.a1] SampleRun.a2 [SampleRun.a3] 10049)
    as (d & Hop & Hatt & _ & _ & Hsock & _).
  - left. repeat split; try reflexivity. discriminate.
  - reflexivity.
  - reflexivity.
  - reflexivity.
  - split; reflexivity.
  - cbn [length]. lia.
  - exists d. split; [exact Hop|]. split; [exact Hatt|exact Hsock].
Defined.

(** ** Sockets made and sockets closed *)

Lemma handle_balance_app :
  forall l1 l2, handle_balance (l1 ++ l2) = handle_balance l1 + handle_balance l2.
Proof.
  induction l1 as [|e l1 IH]; intros l2; [reflexivity|].
  destruct e; cbn [handle_balance app]; rewrite IH; lia.
Qed.

Lemma handle_balance_close_events :
  forall h, handle_balance (close_events h)
            = - (if h =? INVALID_SOCKET then 0 else 1).
Proof. intros h. unfold close_events. now destruct (h =? INVALID_SOCKET). Qed.

Lemma leaked_socket_close : forall s, leaked (socket_close s) = leaked s.
Proof.
  intros s. destruct (socket_close_fields s) as (Ctr & Csock & _).
  unfold leaked, held. rewrite Ctr, Csock, handle_balance_app,
    handle_balance_close_events.
  change (INVALID_SOCKET =? INVALID_SOCKET) with true. cbv iota. lia.
Qed.

Lemma leaked_finish :
  forall e t f s sF, ends (finish e t f s) sF -> leaked sF = leaked s.
Proof.
  intros e t f s sF H.
  destruct (finish_fields e t f s)
    as (s1 & HF & Ftr & Fbase & Fsock & _).
  rewrite HF in H. apply ends_returns in H. subst sF.
  unfold leaked, held. rewrite Ftr, Fsock, handle_balance_app.
  destruct (sync s); cbn [handle_balance]; lia.
Qed.

Lemma ready_socket_valid :
  forall t, attempt_ready t = true -> (at_socket t =? INVALID_SOCKET) = false.
Proof.
  intros t H. unfold attempt_ready in H.
  apply andb_true_iff in H. destruct H as [H _].
  apply andb_true_iff in H. destruct H as [H _].
  now apply negb_true_iff in H.
Qed.

Lemma leaked_connect_issued :
  forall env a rest s,
    attempt_ready (env_attempt env a) = true ->
    leaked (connect_issued env a rest s) = leaked s.
Proof.
  intros env a rest s Hr.
  destruct (connect_issued_fields env a rest s) as (Htr & Hsock & _).
  unfold leaked, held. rewrite Htr, Hsock, !handle_balance_app,
    handle_balance_close_events.
  cbn [handle_balance]. rewrite (ready_socket_valid _ Hr). lia.
Qed.

Lemma leaked_setup_failure :
  forall t a s s',
    trace s' = trace s ++ setup_events t a (sock s) ->
    sock s' = setup_sock t (sock s) ->
    leaked s' = leaked s.
Proof.
  intros t a s s' Htr Hsock. unfold leaked, held.
  rewrite Htr, Hsock, handle_balance_app. unfold setup_events, setup_sock.
  destruct (at_socket t =? INVALID_SOCKET) eqn:Hs.
  - cbn [handle_balance]. rewrite Hs. lia.
  - destruct (at_associate t).
    + cbn [handle_balance]. rewrite Hs. lia.
    + rewrite !handle_balance_app, handle_balance_close_events.
      cbn [handle_balance]. rewrite Hs. lia.
Qed.

Lemma leaked_on_connect_label :
  forall next rest s sF,
    (forall s1 sF1, ends (next s1) sF1 -> leaked sF1 = leaked s1) ->
    ends (on_connect_label next rest s) sF ->
    leaked sF = leaked s.
Proof.
  intros next rest s sF Hnext H. unfold on_connect_label in H.
  destruct (has_error (base (connect_ctx s))).
  - destruct rest as [|x xs].
    + rewrite (leaked_finish _ _ _ _ _ H). apply leaked_socket_close.
    + rewrite (Hnext _ _ H). apply leaked_socket_close.
  - exact (leaked_finish _ _ _ _ _ H).
Qed.

Lemma leaked_set_sync : forall b s, leaked (set_sync b s) = leaked s.
Proof. intros b s. reflexivity. Qed.

Lemma leaked_set_iter : forall it s, leaked (set_iter it s) = leaked s.
Proof. intros it s. reflexivity. Qed.

Lemma leaked_connect_loop :
  forall env it s sF,
    ends (connect_loop env it s) sF -> leaked sF = leaked s.
Proof.
  intros env it. induction it as [|a rest IH]; intros s sF H.
  - cbn [connect_loop] in H. apply ends_returns in H. subst sF.
    exact (leaked_set_iter _ _).
  - destruct (attempt_ready (env_attempt env a)) eqn:Hready.
    + rewrite (connect_loop_cons env a rest s Hready) in H.
      refine (eq_trans _ (leaked_connect_issued env a rest s Hready)).
      generalize dependent (connect_issued env a rest s). intros s1 H.
      destruct (connect_suspends (env_attempt env a)).
      * apply ends_returns in H. subst sF. exact (leaked_set_sync _ _).
      * exact (leaked_on_connect_label _ rest s1 sF IH H).
    + destruct (setup_error (env_attempt env a)) as [e|] eqn:He.
      * destruct (setup_failure_throws env a rest s e He)
          as (sT & HT & Ttr & Tsock & _).
        rewrite HT in H. apply ends_throws in H. subst sF.
        exact (leaked_setup_failure _ a s sT Ttr Tsock).
      * apply setup_error_not_ready in He. rewrite He in Hready.
        discriminate Hready.
Qed.

Lemma leaked_same :
  forall s s' l,
    trace s' = trace s ++ l -> sock s' = sock s -> handle_balance l = 0 ->
    leaked s' = leaked s.
Proof.
  intros s s' l Htr Hsock Hl. unfold leaked, held.
  rewrite Htr, Hsock, handle_balance_app. lia.
Qed.

Lemma leaked_log_step :
  forall tag s, leaked (log (EvStep tag) s) = leaked s.
Proof.
  intros tag s. apply (leaked_same s _ [EvStep tag]); reflexivity.
Qed.

Lemma leaked_on_resolve_label :
  forall env s sF,
    ends (on_resolve_label env s) sF -> leaked sF = leaked s.
Proof.
  intros env s sF H. unfold on_resolve_label in H.
  destruct (r_has_error (base (resolve_ctx s))).
  - exact (leaked_finish _ _ _ _ _ H).
  - exact (leaked_connect_loop _ _ _ _ H).
Qed.

Lemma leaked_resolve_issued :
  forall env s, leaked (resolve_issued env s) = leaked s.
Proof.
  intros env s.
  pose proof (resolve_issued_fields env s) as F. cbv zeta in F.
  destruct F as (Itr & Isock & _).
  exact (leaked_same s _ _ Itr Isock eq_refl).
Qed.

Lemma leaked_step :
  forall env s sF, ends (step env s) sF -> leaked sF = leaked s.
Proof.
  intros env s sF H.
  destruct (state s) eqn:Hstate.
  - rewrite (step_on_start env s Hstate) in H.
    refine (eq_trans _ (leaked_resolve_issued env s)).
    revert H. generalize (resolve_issued env s). intros RI H.
    destruct (negb _).
    + apply ends_returns in H. subst sF. exact (leaked_set_sync _ _).
    + exact (leaked_on_resolve_label _ _ _ H).
  - rewrite (step_on_resolve env s Hstate) in H.
    refine (eq_trans _ (leaked_log_step on_resolve s)).
    exact (leaked_on_resolve_label _ _ _ H).
  - refine (eq_trans _ (leaked_log_step on_connect s)).
    destruct (iter s) as [|a rest] eqn:Hiter.
    + unfold step in H. cbn [state iter log set_trace] in H.
      rewrite Hstate, Hiter in H.
      destruct (has_error (base (connect_ctx (log (EvStep on_connect) s)))).
      * destruct H as [[r H]|[e H]]; discriminate.
      * exact (leaked_finish _ _ _ _ _ H).
    + rewrite (step_on_connect env s a rest Hstate Hiter) in H.
      refine (leaked_on_connect_label _ rest _ sF _ H).
      intros s1 sF1 H1. exact (leaked_connect_loop _ _ _ _ H1).
Qed.

Lemma leaked_connect_hook :
  forall env s s1,
    ends (connect_base_completion_func env s) s1 -> leaked s1 = leaked s.
Proof.
  intros env s s1 H. unfold connect_base_completion_func in H.
  destruct (iter s) as [|a rest]; [destruct H as [[r H]|[e H]]; discriminate|].
  assert (Hput : forall c,
             leaked (set_connect_ctx (mkAsync c (m_op (connect_ctx s))) s)
             = leaked s) by (intros c; reflexivity).
  assert (Hlog : forall h c,
             leaked (log (EvSetsockopt h)
                       (set_connect_ctx (mkAsync c (m_op (connect_ctx s))) s))
             = leaked s).
  { intros h c. apply (leaked_same s _ [EvSetsockopt h]); reflexivity. }
  destruct (connect_completion_func _ _ _ _) as [c1|[e c1]].
  - apply ends_returns in H. subst s1.
    destruct (has_error c1); [apply Hput|apply Hlog].
  - apply ends_throws in H. subst s1. apply Hlog.
Qed.

Lemma ends_bind :
  forall {R R' S} (o : outcome R S) (k : R -> S -> outcome R' S) sF,
    ends (bind o k) sF ->
    (exists r s1, o = Returns r s1 /\ ends (k r s1) sF) \/
    (exists e, o = Throws e sF).
Proof.
  intros R R' S o k sF H. destruct o as [r s1|e s1|]; cbn [bind] in H.
  - left. eauto.
  - right. apply ends_throws in H. subst. eauto.
  - destruct H as [[r H]|[e H]]; discriminate.
Qed.

Lemma leaked_step_at :
  forall env q s sF, ends (step_at env q s) sF -> leaked sF = leaked s.
Proof.
  intros env q s sF H. unfold step_at in H.
  destruct (Nat.eqb q p_this).
  - exact (leaked_step _ _ _ H).
  - destruct H as [[r H]|[e H]]; discriminate.
Qed.

Lemma leaked_completion_func :
  forall env q s sF,
    ends (completion_func env q s) sF -> leaked sF = leaked s.
Proof.
  intros env q s sF H. unfold completion_func in H.
  destruct (Nat.eqb q p_resolve_ctx).
  { unfold async_completion_func, resolve_base_completion_func in H.
    cbn [bind] in H. exact (leaked_step_at _ _ _ _ H). }
  destruct (Nat.eqb q p_connect_ctx).
  { unfold async_completion_func in H.
    apply ends_bind in H. destruct H as [(r & s1 & Hb & H)|(e & Hb)].
    - rewrite (leaked_step_at _ _ _ _ H).
      apply (leaked_connect_hook env). left. eauto.
    - apply (leaked_connect_hook env). right. eauto. }
  destruct (Nat.eqb q p_this).
  - apply ends_returns in H. subst sF. reflexivity.
  - destruct H as [[r H]|[e H]]; discriminate.
Qed.

Section ServiceKeeps.

Variable St : Type.
Variable cf : ptr -> St -> outcome unit St.
Variable A : Type.
Variable m : St -> A.
Hypothesis cf_keeps : forall q s sF, ends (cf q s) sF -> m sF = m s.

Lemma dispatch_keeps :
  forall o (d dF : driven St),
    ends (dispatch St cf o d) dF -> m (prog dF) = m (prog d).
Proof.
  intros o d dF H. unfold dispatch in H.
  destruct o as [q|]; [|destruct H as [[r H]|[e H]]; discriminate].
  destruct (cf q (prog d)) as [u s|e s|] eqn:Hq.
  - apply ends_returns in H. subst dF. cbn [prog].
    apply (cf_keeps q). rewrite Hq. left. eauto.
  - apply ends_throws in H. subst dF. cbn [prog].
    apply (cf_keeps q). rewrite Hq. right. eauto.
  - destruct H as [[r H]|[e H]]; discriminate.
Qed.

Lemma run_keeps :
  forall a (d dF : driven St),
    ends (run St cf a d) dF -> m (prog dF) = m (prog d).
Proof.
  intros a d dF H. unfold run in H.
  destruct (negb (gq_ret a) && _).
  { apply ends_throws in H. now subst dF. }
  destruct (gq_key a =? KEY_SHUTDOWN).
  { apply ends_returns in H. now subst dF. }
  apply ends_bind in H. destruct H as [(r & d1 & Hd & H)|(e & Hd)].
  - apply ends_returns in H. subst dF.
    apply (dispatch_keeps (gq_overlapped a)). rewrite Hd. left. eauto.
  - apply (dispatch_keeps (gq_overlapped a)). rewrite Hd. right. eauto.
Qed.

Lemma run_entries_keeps :
  forall entries keep (d dF : driven St),
    ends (run_entries St cf entries keep d) dF -> m (prog dF) = m (prog d).
Proof.
  induction entries as [|pk rest IH]; intros keep d dF H;
    cbn [run_entries] in H.
  - apply ends_returns in H. now subst dF.
  - destruct (lpCompletionKey pk =? KEY_RUN).
    + apply ends_bind in H. destruct H as [(r & d1 & Hd & H)|(e & Hd)].
      * rewrite (IH _ _ _ H).
        apply (dispatch_keeps (lpOverlapped pk)). rewrite Hd. left. eauto.
      * apply (dispatch_keeps (lpOverlapped pk)). rewrite Hd. right. eauto.
    + exact (IH _ _ _ H).
Qed.

End ServiceKeeps.

Lemma leaked_os_finish :
  forall env s, leaked (os_finish env s) = leaked s.
Proof.
  intros env s. unfold os_finish.
  destruct (inflight (the_port s)) as [|q l]; [reflexivity|].
  destruct (Nat.eqb q p_resolve_ctx); [|reflexivity].
  destruct (os_lookup_done _ _ _ _). reflexivity.
Qed.

Lemma leaked_turn :
  forall env d o dF,
    turn env d = Some o -> ends o dF -> leaked (prog dF) = leaked (prog d).
Proof.
  intros env d o dF Ht H. unfold turn in Ht.
  assert (Hs : leaked (match queue (the_port (prog d)) with
                       | [] => os_finish env (prog d)
                       | _ => prog d
                       end) = leaked (prog d)).
  { destruct (queue (the_port (prog d))); [apply leaked_os_finish|reflexivity]. }
  revert Ht Hs.
  generalize (match queue (the_port (prog d)) with
              | [] => os_finish env (prog d)
              | _ => prog d
              end).
  intros s Ht Hs.
  destruct (GetQueuedCompletionStatus None true (the_port s)) as [[a w]|];
    [|discriminate].
  injection Ht as <-.
  rewrite (run_keeps _ (completion_func env) _ leaked
             (leaked_completion_func env) _ _ _ H).
  exact Hs.
Qed.

Lemma leaked_drive :
  forall env fuel d dF,
    ends (drive env fuel d) dF -> leaked (prog dF) = leaked (prog d).
Proof.
  intros env fuel. induction fuel as [|n IH]; intros d dF H;
    cbn [drive] in H.
  - apply ends_returns in H. now subst dF.
  - destruct (turn env d) as [o|] eqn:Ht.
    + apply ends_bind in H. destruct H as [(r & d1 & Ho & H)|(e & Ho)].
      * rewrite (IH _ _ H).
        apply (leaked_turn env d o d1 Ht). rewrite Ho. left. eauto.
      * apply (leaked_turn env d o dF Ht). rewrite Ho. right. eauto.
    + apply ends_returns in H. now subst dF.
Qed.

(** X4: however a whole operation ends, by completing, by being left
    waiting, or by an exception out of the call or out of a hook, every
    socket it made has been closed again, except the one [*sock] holds:
    sockets made minus sockets closed minus the one held is what it was
    before the call. *)
Theorem operation_leaks_no_socket :
  forall env fuel svch hn sn b bl s0 dF,
    ends (operation env fuel svch hn sn b bl s0) dF ->
    leaked (prog dF) = leaked s0.
Proof.
  intros env fuel svch hn sn b bl s0 dF H. unfold operation in H.
  unfold rcc_connect_and_send in H.
  assert (H0 : leaked (set_sync true (set_state on_start (set_buffer_len bl
                 (set_buffer b (set_servicename sn (set_hostname hn
                    (set_svc svch s0))))))) = leaked s0) by reflexivity.
  revert H H0.
  generalize (set_sync true (set_state on_start (set_buffer_len bl
                 (set_buffer b (set_servicename sn (set_hostname hn
                    (set_svc svch s0))))))).
  intros s H H0.
  destruct (step env s) as [u s1|e s1|] eqn:Hs; cbn [bind] in H.
  - assert (H1 : leaked s1 = leaked s)
      by (apply (leaked_step env); rewrite Hs; left; eauto).
    apply ends_bind in H. destruct H as [(r & d1 & Hd & H)|(e & Hd)].
    + apply ends_returns in H. subst dF.
      rewrite (leaked_drive env fuel (mkDriven s1 []) d1);
        [cbn [prog]; congruence|]. rewrite Hd. left. eauto.
    + rewrite (leaked_drive env fuel (mkDriven s1 []) dF);
        [cbn [prog]; congruence|]. rewrite Hd. right. eauto.
  - apply ends_throws in H. subst dF. cbn [prog].
    rewrite <- H0. apply (leaked_step env). rewrite Hs. right. eauto.
  - destruct H as [[r H]|[e H]]; discriminate.
Qed.

Lemma operation_leaks_no_socket_witness :
  exists d,
    ends (operation SampleRun.env_fallback 4 55 1 2 3 4 SampleRun.fresh) d /\
    handle_balance (trace (prog d)) = 1 /\ sock (prog d) = 102.
Proof.
  assert (E : exists d,
             ends (operation SampleRun.env_fallback 4 55 1 2 3 4
                     SampleRun.fresh) d /\ sock (prog d) = 102).
  { eexists. split; [left; eexists; vm_compute; reflexivity|reflexivity]. }
  destruct E as (d & E & Hsock). exists d. split; [exact E|].
  pose proof (operation_leaks_no_socket _ _ _ _ _ _ _ _ _ E) as L.
  unfold leaked, held in L. rewrite Hsock in L. cbn in L.
  split; [lia|exact Hsock].
Defined.

(** ** The calling convention of the compound call *)

Lemma undisturbed_then :
  forall s s1 o,
    undisturbed s s1 -> inline_contract s1 o -> inline_contract s o.
Proof.
  intros s s1 o (Hsync & Hport & Hc) H. unfold inline_contract in *.
  destruct o as [u sF|e sF|]; [| |exact H].
  - rewrite <- Hc, <- Hport. exact H.
  - rewrite <- Hc, <- Hport. exact H.
Qed.

Lemma finish_inline :
  forall e t f s, sync s = true -> inline_contract s (finish e t f s).
Proof.
  intros e t f s Hs.
  destruct (finish_fields e t f s)
    as (sF & HF & Ftr & _ & _ & Fsync & _ & _ & Fport).
  rewrite HF. unfold inline_contract. rewrite Ftr, Hs, app_nil_r.
  split; [reflexivity|]. left. split; [congruence|exact Fport].
Qed.

Lemma undisturbed_socket_close : forall s, undisturbed s (socket_close s).
Proof.
  intros s.
  destruct (socket_close_fields s) as (Ctr & _ & _ & _ & Csync & _ & _ & Cport).
  unfold undisturbed. rewrite Ctr, completions_app, completions_close_events,
    app_nil_r. auto.
Qed.

Lemma sync_socket_close : forall s, sync (socket_close s) = sync s.
Proof. intros s. exact (proj1 (undisturbed_socket_close s)). Qed.

Lemma on_connect_label_inline :
  forall next rest s,
    sync s = true ->
    (forall s1, sync s1 = true -> inline_contract s1 (next s1)) ->
    inline_contract s (on_connect_label next rest s).
Proof.
  intros next rest s Hs Hnext. unfold on_connect_label.
  destruct (has_error (base (connect_ctx s))).
  - apply (undisturbed_then s (socket_close s) _ (undisturbed_socket_close s)).
    assert (Hc : sync (socket_close s) = true)
      by (rewrite sync_socket_close; exact Hs).
    destruct rest as [|x xs].
    + exact (finish_inline _ _ _ _ Hc).
    + exact (Hnext _ Hc).
  - exact (finish_inline _ _ _ _ Hs).
Qed.

Lemma connect_issued_completions :
  forall env a rest s,
    completions (trace (connect_issued env a rest s)) = completions (trace s).
Proof.
  intros env a rest s.
  destruct (connect_issued_fields env a rest s) as (Htr & _).
  rewrite Htr, !completions_app, completions_close_events.
  cbn. now rewrite app_nil_r.
Qed.

Lemma connect_loop_inline :
  forall env it s,
    sync s = true -> inline_contract s (connect_loop env it s).
Proof.
  intros env it. induction it as [|a rest IH]; intros s Hs.
  - cbn [connect_loop]. unfold inline_contract.
    split; [reflexivity|]. left. split; [exact Hs|reflexivity].
  - destruct (attempt_ready (env_attempt env a)) eqn:Hready.
    + rewrite (connect_loop_cons env a rest s Hready).
      pose proof (connect_issued_completions env a rest s) as Hc.
      pose proof (connect_issued_fields env a rest s) as F.
      cbv zeta in F. rewrite connect_port in F.
      revert Hc F. generalize (connect_issued env a rest s).
      intros s1 Hc (_ & _ & _ & Hstate & _ & Hsync & _ & _ & Hport).
      destruct (connect_suspends (env_attempt env a)).
      * unfold inline_contract.
        cbn [trace sync the_port state set_sync].
        split; [exact Hc|]. right. split; [reflexivity|].
        right. split; [exact Hport|exact Hstate].
      * apply (undisturbed_then s s1).
        { unfold undisturbed. auto. }
        apply on_connect_label_inline; [congruence|exact IH].
    + destruct (setup_error (env_attempt env a)) as [e|] eqn:He.
      * destruct (setup_failure_throws env a rest s e He)
          as (sT & HT & Ttr & _ & _ & _ & Tport).
        rewrite HT. unfold inline_contract.
        rewrite Ttr, completions_app, completions_setup_events, app_nil_r.
        split; [reflexivity|exact Tport].
      * apply setup_error_not_ready in He. rewrite He in Hready.
        discriminate Hready.
Qed.

Lemma on_resolve_label_inline :
  forall env s,
    sync s = true -> inline_contract s (on_resolve_label env s).
Proof.
  intros env s Hs. unfold on_resolve_label.
  destruct (r_has_error (base (resolve_ctx s))).
  - exact (finish_inline _ _ _ _ Hs).
  - exact (connect_loop_inline _ _ _ Hs).
Qed.

Lemma step_on_start_inline :
  forall env s,
    state s = on_start -> sync s = true -> inline_contract s (step env s).
Proof.
  intros env s Hstate Hs.
  rewrite (step_on_start env s Hstate).
  pose proof (resolve_issued_fields env s) as F. cbv zeta in F.
  destruct (resolve_cases (svc s) (env_gai env) p_resolve_ctx
              (base (resolve_ctx s)) (the_port s))
    as (Rret & Ros & _ & _).
  rewrite Rret, negb_involutive. rewrite Ros in F. clear Rret Ros.
  revert F.
  generalize (resolve_issued env s).
  intros RI (Itr & _ & _ & Isync & Istate & _ & _ & Iport).
  assert (Hc : completions (trace RI) = completions (trace s)).
  { rewrite Itr, completions_app. cbn. now rewrite app_nil_r. }
  destruct (gai_ret (env_gai env) =? ERROR_IO_PENDING).
  - unfold inline_contract. cbn [trace sync the_port state set_sync].
    split; [exact Hc|]. right. split; [reflexivity|].
    left. split; [exact Iport|exact Istate].
  - apply (undisturbed_then s RI).
    { unfold undisturbed. auto. }
    apply on_resolve_label_inline. congruence.
Qed.

(** X5: the compound [connect_and_send] keeps the library's calling
    convention.  It never dereferences a null pointer.  When it returns
    [true] the port is as it was: nothing is left with the OS.  When it
    returns [false] exactly one request was left with the OS, on the
    lookup context with the resume point at [on_resolve] or on the connect
    context with the resume point at [on_connect].  When it throws the
    port is as it was.  In none of the cases has it called
    [this->completion_func()]. *)
Theorem compound_call_contract :
  forall env svch hn sn b bl s0,
    match rcc_connect_and_send env svch hn sn b bl s0 with
    | Returns r sF =>
        sync sF = r /\
        completions (trace sF) = completions (trace s0) /\
        (if r then the_port sF = the_port s0
         else (the_port sF = handed_over p_resolve_ctx (the_port s0) /\
               state sF = on_resolve) \/
              (the_port sF = handed_over p_connect_ctx (the_port s0) /\
               state sF = on_connect))
    | Throws _ sF =>
        completions (trace sF) = completions (trace s0) /\
        the_port sF = the_port s0
    | NullDeref => False
    end.
Proof.
  intros env svch hn sn b bl s0. unfold rcc_connect_and_send.
  assert (H : inline_contract
                (set_sync true (set_state on_start (set_buffer_len bl
                   (set_buffer b (set_servicename sn (set_hostname hn
                      (set_svc svch s0)))))))
                (step env
                   (set_sync true (set_state on_start (set_buffer_len bl
                      (set_buffer b (set_servicename sn (set_hostname hn
                         (set_svc svch s0)))))))))
    by (apply step_on_start_inline; reflexivity).
  assert (Ht : trace (set_sync true (set_state on_start (set_buffer_len bl
                   (set_buffer b (set_servicename sn (set_hostname hn
                      (set_svc svch s0))))))) = trace s0) by reflexivity.
  assert (Hp : the_port (set_sync true (set_state on_start (set_buffer_len bl
                   (set_buffer b (set_servicename sn (set_hostname hn
                      (set_svc svch s0))))))) = the_port s0) by reflexivity.
  revert H Ht Hp.
  generalize (set_sync true (set_state on_start (set_buffer_len bl
                 (set_buffer b (set_servicename sn (set_hostname hn
                    (set_svc svch s0))))))).
  intros s H Ht Hp. unfold inline_contract in H.
  destruct (step env s) as [u sF|e sF|]; cbn [bind]; [| |exact H].
  - rewrite Ht, Hp in H. destruct H as (Hc & [[Hs Hport]|[Hs Hport]]).
    + rewrite Hs. auto.
    + rewrite Hs. auto.
  - rewrite Ht, Hp in H. exact H.
Qed.

(** * The sample program *)

(** ** Relations kept by the multiplexer *)

Section ServiceRelates.

Variable St : Type.
Variable cf : ptr -> St -> outcome unit St.
Variable rel : St -> St -> Prop.
Hypothesis rel_refl : forall s, rel s s.
Hypothesis rel_trans : forall s1 s2 s3, rel s1 s2 -> rel s2 s3 -> rel s1 s3.
Hypothesis cf_rel : forall q s sF, ends (cf q s) sF -> rel s sF.

Lemma dispatch_relates :
  forall o (d dF : driven St),
    ends (dispatch St cf o d) dF -> rel (prog d) (prog dF).
Proof.
  intros o d dF H. unfold dispatch in H.
  destruct o as [q|]; [|destruct H as [[r H]|[e H]]; discriminate].
  destruct (cf q (prog d)) as [u s|e s|] eqn:Hq.
  - apply ends_returns in H. subst dF. cbn [prog].
    apply (cf_rel q). rewrite Hq. left. eauto.
  - apply ends_throws in H. subst dF. cbn [prog].
    apply (cf_rel q). rewrite Hq. right. eauto.
  - destruct H as [[r H]|[e H]]; discriminate.
Qed.

Lemma run_entries_relates :
  forall entries keep (d dF : driven St),
    ends (run_entries St cf entries keep d) dF -> rel (prog d) (prog dF).
Proof.
  induction entries as [|pk rest IH]; intros keep d dF H;
    cbn [run_entries] in H.
  - apply ends_returns in H. subst dF. apply rel_refl.
  - destruct (lpCompletionKey pk =? KEY_RUN).
    + apply ends_bind in H. destruct H as [(r & d1 & Hd & H)|(e & Hd)].
      * apply (rel_trans _ (prog d1)); [|exact (IH _ _ _ H)].
        apply (dispatch_relates (lpOverlapped pk)). rewrite Hd. left. eauto.
      * apply (dispatch_relates (lpOverlapped pk)). rewrite Hd. right. eauto.
    + exact (IH _ _ _ H).
Qed.

Lemma run_many_relates :
  forall a (d dF : driven St),
    ends (run_many St cf a d) dF -> rel (prog d) (prog dF).
Proof.
  intros a d dF H. unfold run_many in H.
  destruct (negb (gqx_ret a)).
  - apply ends_throws in H. subst dF. apply rel_refl.
  - exact (run_entries_relates _ _ _ _ H).
Qed.

End ServiceRelates.

(** ** The program's bookkeeping *)

Lemma to_int_mod : forall a b, a mod 2 ^ 32 = b mod 2 ^ 32 -> Http.to_int a = Http.to_int b.
Proof.
  intros a b H. unfold Http.to_int.
  rewrite <- (Z.add_mod_idemp_l a), <- (Z.add_mod_idemp_l b) by lia.
  now rewrite H.
Qed.

Lemma to_int_congr : forall a, (Http.to_int a) mod 2 ^ 32 = a mod 2 ^ 32.
Proof.
  intros a. unfold Http.to_int.
  rewrite Zminus_mod, Z.mod_mod by lia.
  rewrite <- Zminus_mod. f_equal. lia.
Qed.

Lemma to_int_add_l :
  forall a b, Http.to_int (Http.to_int a + b) = Http.to_int (a + b).
Proof.
  intros a b. apply to_int_mod.
  rewrite <- Z.add_mod_idemp_l by lia. rewrite to_int_congr.
  now rewrite Z.add_mod_idemp_l by lia.
Qed.

Lemma reported_app : forall l1 l2, reported (l1 ++ l2) = reported l1 + reported l2.
Proof.
  induction l1 as [|x l1 IH]; intros l2; [reflexivity|].
  destruct x; cbn [reported app]; rewrite IH; lia.
Qed.

Lemma kept_refl : forall s, kept s s.
Proof. intros s. unfold kept. auto. Qed.

Lemma kept_trans : forall s1 s2 s3, kept s1 s2 -> kept s2 s3 -> kept s1 s3.
Proof.
  intros s1 s2 s3 (A1 & A2 & A3) (B1 & B2 & B3). unfold kept.
  split; [congruence|]. split; congruence.
Qed.

Lemma kept_so_far_refl : forall st, kept_so_far st st.
Proof. intros [s|]; cbn; [apply kept_refl|exact I]. Qed.

Lemma kept_so_far_trans :
  forall s1 s2 s3, kept_so_far s1 s2 -> kept_so_far s2 s3 -> kept_so_far s1 s3.
Proof.
  intros [s1|] [s2|] [s3|]; cbn; try tauto. apply kept_trans.
Qed.

(** A change that leaves the compound operation's sockets, the send window
    and the reported bytes alone. *)
Lemma kept_same :
  forall s s',
    leaked (Http.conn s') = leaked (Http.conn s) ->
    Http.m_sendbuf s' = Http.m_sendbuf s ->
    Http.m_sendleft s' = Http.m_sendleft s ->
    reported (Http.out s') = reported (Http.out s) ->
    kept s s'.
Proof.
  intros s s' H1 H2 H3 H4. unfold kept. rewrite H1, H2, H3, H4. auto.
Qed.

Lemma kept_say :
  forall l s, reported [l] = 0 -> kept s (Http.say l s).
Proof.
  intros l s Hl. apply kept_same; try reflexivity.
  cbn [Http.say Http.out Http.set_out]. rewrite reported_app, Hl. lia.
Qed.

Lemma kept_set_m_state : forall v s, kept s (Http.set_m_state v s).
Proof. intros. apply kept_same; reflexivity. Qed.

Lemma kept_set_m_recvbuf : forall v s, kept s (Http.set_m_recvbuf v s).
Proof. intros. apply kept_same; reflexivity. Qed.

Lemma kept_set_sends : forall v s, kept s (Http.set_sends v s).
Proof. intros. apply kept_same; reflexivity. Qed.

Lemma kept_set_recvs : forall v s, kept s (Http.set_recvs v s).
Proof. intros. apply kept_same; reflexivity. Qed.

Lemma kept_set_m_ctx : forall v s, kept s (Http.set_m_ctx v s).
Proof. intros. apply kept_same; reflexivity. Qed.

Lemma kept_set_m_svc : forall w s, kept s (Http.set_m_svc w s).
Proof. intros. apply kept_same; reflexivity. Qed.

Lemma kept_put : forall r s, kept s (Http.put r s).
Proof. intros. apply kept_same; reflexivity. Qed.

Lemma kept_set_conn :
  forall c s, leaked c = leaked (Http.conn s) -> kept s (Http.set_conn c s).
Proof. intros c s H. apply kept_same; try reflexivity. exact H. Qed.

(** Reporting [n] bytes and moving the window by [n]. *)
Lemma kept_advance :
  forall l n s,
    reported [l] = n ->
    kept s (Http.advance n (Http.say l s)).
Proof.
  intros l n s Hl. unfold kept.
  cbn [Http.advance Http.say Http.conn Http.m_connect_ctx Http.m_sendbuf
       Http.m_sendleft Http.out Http.set_out Http.set_m_sendbuf
       Http.set_m_sendleft].
  rewrite reported_app, Hl.
  split; [reflexivity|]. split; [lia|].
  rewrite to_int_add_l. f_equal. lia.
Qed.

Ltac kept_move :=
  match goal with
  | |- kept ?s ?s => apply kept_refl
  | |- kept ?s (Http.advance ?n (Http.say ?l ?t)) =>
      apply (kept_trans s t); [|apply kept_advance; unfold Http.conn; cbn; lia]
  | |- kept ?s (Http.say ?l ?t) =>
      apply (kept_trans s t); [|apply kept_say; reflexivity]
  | |- kept ?s (Http.set_m_state ?v ?t) =>
      apply (kept_trans s t); [|apply kept_set_m_state]
  | |- kept ?s (Http.set_m_recvbuf ?v ?t) =>
      apply (kept_trans s t); [|apply kept_set_m_recvbuf]
  | |- kept ?s (Http.set_sends ?v ?t) =>
      apply (kept_trans s t); [|apply kept_set_sends]
  | |- kept ?s (Http.set_recvs ?v ?t) =>
      apply (kept_trans s t); [|apply kept_set_recvs]
  | |- kept ?s (Http.set_m_ctx ?v ?t) =>
      apply (kept_trans s t); [|apply kept_set_m_ctx]
  | |- kept ?s (Http.set_m_svc ?v ?t) =>
      apply (kept_trans s t); [|apply kept_set_m_svc]
  | |- kept ?s (Http.put ?r ?t) =>
      apply (kept_trans s t); [|apply kept_put]
  end.

Ltac no_end H := destruct H as [[? H]|[? H]]; discriminate H.

Lemma check_ends :
  forall c s s', ends (Http.check c s) s' -> s' = s.
Proof.
  intros c s s' H. unfold Http.check in H.
  destruct (check_error c).
  - now apply ends_throws in H.
  - now apply ends_returns in H.
Qed.

Lemma check_returns :
  forall c s u s', Http.check c s = Returns u s' -> s' = s.
Proof.
  intros c s u s' H. apply check_ends with (c := c). rewrite H. left. eauto.
Qed.

Lemma obind_ends :
  forall {R R'} (m : outcome R Http.http_op)
         (k : R -> Http.http_op -> option (outcome R' Http.http_op)) o sF,
    Http.obind m k = Some o -> ends o sF ->
    (exists r s1, m = Returns r s1 /\ k r s1 = Some o) \/
    (exists err, m = Throws err sF).
Proof.
  intros R R' m k o sF H E. destruct m as [r s1|err s1|]; cbn [Http.obind] in H.
  - left. eauto.
  - right. injection H as <-. apply ends_throws in E. subst. eauto.
  - injection H as <-. no_end E.
Qed.

Section Kept.

Variable e : Http.world.

Lemma kept_socket_shutdown :
  forall how s s', ends (Http.socket_shutdown e how s) s' -> kept s s'.
Proof.
  intros how s s' H. unfold Http.socket_shutdown in H.
  destruct (negb _).
  - apply ends_throws in H. subst s'. repeat kept_move.
  - apply ends_returns in H. subst s'. repeat kept_move.
Qed.

Lemma kept_svc_shutdown :
  forall s s', ends (Http.svc_shutdown e s) s' -> kept s s'.
Proof.
  intros s s' H. unfold Http.svc_shutdown in H.
  destruct (shutdown _ _ _) as [u w|err w|].
  - apply ends_returns in H. subst s'. repeat kept_move.
  - apply ends_throws in H. subst s'. repeat kept_move.
  - no_end H.
Qed.

Lemma kept_on_disconnect_label :
  forall s s', ends (Http.on_disconnect_label e s) s' -> kept s s'.
Proof.
  intros s s' H. unfold Http.on_disconnect_label in H.
  apply ends_bind in H. destruct H as [(u & s1 & Hc & H)|(err & Hc)].
  - apply check_returns in Hc. subst s1.
    apply kept_svc_shutdown in H.
    refine (kept_trans _ _ _ _ H).
    apply (kept_trans s (Http.say Http.Said_disconnected s));
      [repeat kept_move|].
    apply kept_set_conn. apply leaked_socket_close.
  - assert (s' = s) by (apply check_ends with (c := base (Http.m_ctx s));
                        rewrite Hc; right; eauto).
    subst s'. apply kept_refl.
Qed.

Lemma kept_after_receive_loop :
  forall s s', ends (Http.after_receive_loop e s) s' -> kept s s'.
Proof.
  intros s s' H. unfold Http.after_receive_loop in H.
  apply ends_bind in H. destruct H as [(u & s1 & Hc & H)|(err & Hc)].
  - assert (K1 : kept s s1)
      by (apply (kept_socket_shutdown Http.SD_RECEIVE); rewrite Hc; left; eauto).
    refine (kept_trans _ _ _ K1 _). clear K1 Hc.
    cbv zeta in H.
    destruct (negb _).
    + apply ends_returns in H. subst s'. repeat kept_move.
    + apply kept_on_disconnect_label in H.
      refine (kept_trans _ _ _ _ H). repeat kept_move.
  - apply (kept_socket_shutdown Http.SD_RECEIVE). rewrite Hc. right. eauto.
Qed.

Lemma kept_received :
  forall s s', ends (Http.received s) s' -> kept s s'.
Proof.
  intros s s' H. unfold Http.received in H.
  apply ends_bind in H. destruct H as [(u & s1 & Hc & H)|(err & Hc)].
  - apply check_returns in Hc. subst s1.
    apply ends_returns in H. subst s'. repeat kept_move.
  - assert (s' = s) by (apply check_ends with (c := base (Http.m_ctx s));
                        rewrite Hc; right; eauto).
    subst s'. apply kept_refl.
Qed.

Lemma kept_after_received :
  forall (loop : Http.http_op -> option (outcome unit Http.http_op)) s o s',
    (forall s1 o1 s2, loop s1 = Some o1 -> ends o1 s2 -> kept s1 s2) ->
    Http.obind (Http.received s)
      (fun again s1 => if again then loop s1
                       else Some (Http.after_receive_loop e s1)) = Some o ->
    ends o s' -> kept s s'.
Proof.
  intros loop s o s' Hloop H E.
  destruct (obind_ends _ _ _ _ H E) as [(again & s1 & Hr & Hk)|(err & Hr)].
  - assert (K1 : kept s s1)
      by (apply kept_received; rewrite Hr; left; eauto).
    refine (kept_trans _ _ _ K1 _).
    destruct again.
    + exact (Hloop _ _ _ Hk E).
    + injection Hk as <-. exact (kept_after_receive_loop _ _ E).
  - apply kept_received. rewrite Hr. right. eauto.
Qed.

Lemma kept_receive_loop :
  forall gas s o s',
    Http.receive_loop e gas s = Some o -> ends o s' -> kept s s'.
Proof.
  induction gas as [|gas IH]; intros s o s' H E; [discriminate|].
  cbn [Http.receive_loop] in H. cbv zeta in H.
  destruct (negb _).
  - injection H as <-. apply ends_returns in E. subst s'. repeat kept_move.
  - refine (kept_trans _ _ _ _ (kept_after_received _ _ _ _ IH H E)).
    repeat kept_move.
Qed.

Lemma kept_on_receive_label :
  forall gas s o s',
    Http.on_receive_label e gas s = Some o -> ends o s' -> kept s s'.
Proof.
  intros gas s o s' H E. unfold Http.on_receive_label in H.
  exact (kept_after_received _ _ _ _ (kept_receive_loop gas) H E).
Qed.

Lemma kept_after_send_loop :
  forall gas s o s',
    Http.after_send_loop e gas s = Some o -> ends o s' -> kept s s'.
Proof.
  intros gas s o s' H E. unfold Http.after_send_loop in H.
  destruct (obind_ends _ _ _ _ H E) as [(u & s1 & Hr & Hk)|(err & Hr)].
  - assert (K1 : kept s s1)
      by (apply (kept_socket_shutdown Http.SD_SEND); rewrite Hr; left; eauto).
    refine (kept_trans _ _ _ K1 _). cbv zeta in Hk.
    refine (kept_trans _ _ _ _ (kept_receive_loop _ _ _ _ Hk E)).
    repeat kept_move.
  - apply (kept_socket_shutdown Http.SD_SEND). rewrite Hr. right. eauto.
Qed.

Lemma kept_sent :
  forall s s', ends (Http.sent s) s' -> kept s s'.
Proof.
  intros s s' H. unfold Http.sent in H.
  apply ends_bind in H. destruct H as [(u & s1 & Hc & H)|(err & Hc)].
  - apply check_returns in Hc. subst s1.
    apply ends_returns in H. subst s'. repeat kept_move.
  - assert (s' = s) by (apply check_ends with (c := base (Http.m_ctx s));
                        rewrite Hc; right; eauto).
    subst s'. apply kept_refl.
Qed.

Lemma kept_send_loop :
  forall gas s o s',
    Http.send_loop e gas s = Some o -> ends o s' -> kept s s'.
Proof.
  induction gas as [|gas IH]; intros s o s' H E; [discriminate|].
  cbn [Http.send_loop] in H.
  destruct (Http.m_sendleft s =? 0).
  { exact (kept_after_send_loop _ _ _ _ H E). }
  cbv zeta in H.
  destruct (negb _).
  - injection H as <-. apply ends_returns in E. subst s'. repeat kept_move.
  - destruct (obind_ends _ _ _ _ H E) as [(u & s1 & Hr & Hk)|(err & Hr)].
    + refine (kept_trans _ _ _ _ (IH _ _ _ Hk E)).
      refine (kept_trans _ _ _ _ (kept_sent _ _ (or_introl (ex_intro _ u Hr)))).
      repeat kept_move.
    + refine (kept_trans _ _ _ _ (kept_sent _ _ (or_intror (ex_intro _ err Hr)))).
      repeat kept_move.
Qed.

Lemma kept_on_send_label :
  forall gas s o s',
    Http.on_send_label e gas s = Some o -> ends o s' -> kept s s'.
Proof.
  intros gas s o s' H E. unfold Http.on_send_label in H.
  destruct (obind_ends _ _ _ _ H E) as [(u & s1 & Hr & Hk)|(err & Hr)].
  - refine (kept_trans _ _ _ _ (kept_send_loop _ _ _ _ Hk E)).
    apply kept_sent. rewrite Hr. left. eauto.
  - apply kept_sent. rewrite Hr. right. eauto.
Qed.

Lemma kept_on_connect_label :
  forall gas s o s',
    Http.on_connect_label e gas s = Some o -> ends o s' -> kept s s'.
Proof.
  intros gas s o s' H E. unfold Http.on_connect_label in H.
  destruct (obind_ends _ _ _ _ H E) as [(u & s1 & Hr & Hk)|(err & Hr)].
  - apply check_returns in Hr. subst s1. cbv zeta in Hk.
    refine (kept_trans _ _ _ _ (kept_send_loop _ _ _ _ Hk E)).
    repeat kept_move.
  - assert (s' = s) by (apply check_ends with (c := rc_base (Http.conn s));
                        rewrite Hr; right; eauto).
    subst s'. apply kept_refl.
Qed.

End Kept.

Lemma leaked_compound_call :
  forall env svch hn sn b bl c c',
    ends (rcc_connect_and_send env svch hn sn b bl c) c' ->
    leaked c' = leaked c.
Proof.
  intros env svch hn sn b bl c c' H. unfold rcc_connect_and_send in H.
  assert (H0 : leaked (set_sync true (set_state on_start (set_buffer_len bl
                 (set_buffer b (set_servicename sn (set_hostname hn
                    (set_svc svch c))))))) = leaked c) by reflexivity.
  revert H H0.
  generalize (set_sync true (set_state on_start (set_buffer_len bl
                 (set_buffer b (set_servicename sn (set_hostname hn
                    (set_svc svch c))))))).
  intros s H H0. rewrite <- H0.
  apply ends_bind in H. destruct H as [(u & s1 & Hs & H)|(err & Hs)].
  - apply ends_returns in H. subst c'.
    apply (leaked_step env). rewrite Hs. left. eauto.
  - apply (leaked_step env). rewrite Hs. right. eauto.
Qed.

Section KeptHooks.

Variable e : Http.world.

Lemma kept_step :
  forall gas s o s',
    Http.step e gas s = Some o -> ends o s' -> kept s s'.
Proof.
  intros gas s o s' H E. unfold Http.step in H.
  destruct (Http.m_state s).
  - cbv zeta in H.
    match type of H with
    | match ?call with _ => _ end = _ => destruct call as [b c|err c|] eqn:Hc
    end.
    + assert (L : leaked c
                  = leaked (Http.conn (Http.set_m_state Http.on_connect
                                         (Http.say Http.Said_connecting s)))).
      { eapply leaked_compound_call; rewrite Hc; left; eauto. }
      assert (K : kept s (Http.set_conn c
                            (Http.set_m_state Http.on_connect
                               (Http.say Http.Said_connecting s)))).
      { refine (kept_trans _ _ _ _ (kept_set_conn _ _ L)). repeat kept_move. }
      destruct (negb b).
      * injection H as <-. apply ends_returns in E. subst s'. exact K.
      * exact (kept_trans _ _ _ K (kept_on_connect_label e _ _ _ _ H E)).
    + injection H as <-. apply ends_throws in E. subst s'.
      assert (L : leaked c
                  = leaked (Http.conn (Http.set_m_state Http.on_connect
                                         (Http.say Http.Said_connecting s)))).
      { eapply leaked_compound_call; rewrite Hc; right; eauto. }
      refine (kept_trans _ _ _ _ (kept_set_conn _ _ L)). repeat kept_move.
    + injection H as <-. no_end E.
  - exact (kept_on_connect_label e _ _ _ _ H E).
  - exact (kept_on_send_label e _ _ _ _ H E).
  - exact (kept_on_receive_label e _ _ _ _ H E).
  - injection H as <-. exact (kept_on_disconnect_label e _ _ E).
Qed.

Lemma kept_step_at :
  forall gas q s o s',
    Http.step_at e gas q s = Some o -> ends o s' -> kept s s'.
Proof.
  intros gas q s o s' H E. unfold Http.step_at in H.
  destruct (Nat.eqb q Http.p_op).
  - exact (kept_step _ _ _ _ H E).
  - injection H as <-. no_end E.
Qed.

Lemma kept_hook_at :
  forall gas q s o s',
    Http.hook_at e gas q s = Some o -> ends o s' -> kept s s'.
Proof.
  intros gas q s o s' H E. unfold Http.hook_at in H.
  destruct (Nat.eqb q Http.p_ctx).
  { unfold Http.ctx_completion_func in H. cbv zeta in H.
    refine (kept_trans _ _ _ _ (kept_step_at _ _ _ _ _ H E)).
    repeat kept_move. }
  destruct (Nat.eqb q p_this).
  { exact (kept_step_at _ _ _ _ _ H E). }
  unfold Http.inner_completion_func in H.
  destruct (completion_func (Http.net e) q (Http.conn s)) as [u c|err c|] eqn:Hc.
  - assert (L : leaked c = leaked (Http.conn s))
      by (apply (leaked_completion_func (Http.net e) q); rewrite Hc; left; eauto).
    destruct (_ <? _)%nat.
    + exact (kept_trans _ _ _ (kept_set_conn _ _ L)
               (kept_step_at _ _ _ _ _ H E)).
    + injection H as <-. apply ends_returns in E. subst s'.
      exact (kept_set_conn _ _ L).
  - injection H as <-. apply ends_throws in E. subst s'.
    apply kept_set_conn.
    apply (leaked_completion_func (Http.net e) q). rewrite Hc. right. eauto.
  - injection H as <-. no_end E.
Qed.

Lemma kept_hook :
  forall gas q st st',
    ends (Http.hook e gas q st) st' -> kept_so_far st st'.
Proof.
  intros gas q st st' H. unfold Http.hook in H.
  destruct st as [s|].
  - destruct (Http.hook_at e gas q s) as [[u s1|err s1|]|] eqn:Hh.
    + apply ends_returns in H. subst st'. cbn.
      apply (kept_hook_at gas q s _ s1 Hh). left. eauto.
    + apply ends_throws in H. subst st'. cbn.
      apply (kept_hook_at gas q s _ s1 Hh). right. eauto.
    + no_end H.
    + apply ends_returns in H. subst st'. exact I.
  - apply ends_returns in H. subst st'. exact I.
Qed.

Lemma kept_os_turn : forall s, kept s (Http.os_turn e s).
Proof.
  intros s. unfold Http.os_turn.
  destruct (queue (Http.m_svc s)); [|apply kept_refl].
  apply kept_set_conn. apply leaked_os_finish.
Qed.

Lemma kept_run_loop :
  forall fuel gas d x disp s s',
    Http.run_loop e fuel gas d = Some (x, disp) ->
    prog d = Some s -> state_of x = Some s' ->
    kept s s'.
Proof.
  induction fuel as [|fuel IH]; intros gas d x disp s s' H Hd Hx;
    [discriminate|].
  cbn [Http.run_loop] in H. rewrite Hd in H. cbv zeta in H.
  pose proof (kept_os_turn s) as K0.
  revert H K0. generalize (Http.os_turn e s). intros s0 H K0.
  destruct (GetQueuedCompletionStatusEx None 16 (Http.m_svc s0)) as [[a w]|].
  2:{ injection H as <- <-. cbn in Hx. injection Hx as <-. exact K0. }
  pose proof (run_many_relates _ (Http.hook e gas) kept_so_far
                kept_so_far_refl kept_so_far_trans (kept_hook gas) a
                (mkDriven (Some (Http.set_m_svc w s0)) (dispatched d))) as R.
  destruct (run_many _ _ a _) as [keep d1|err d1|].
  - specialize (R d1 (or_introl (ex_intro _ keep eq_refl))).
    cbn [prog] in R.
    destruct (prog d1) as [s1|] eqn:Hd1; [|discriminate].
    cbn in R.
    assert (K1 : kept s s1).
    { refine (kept_trans _ _ _ K0 (kept_trans _ _ _ _ R)).
      apply kept_set_m_svc. }
    destruct keep.
    + refine (kept_trans _ _ _ K1 _).
      refine (kept_trans _ _ _ _
                (IH gas _ x disp (Http.say Http.Said_completed s1) s'
                    H eq_refl Hx)).
      apply kept_say. reflexivity.
    + injection H as <- <-. cbn in Hx. injection Hx as <-. exact K1.
  - specialize (R d1 (or_intror (ex_intro _ err eq_refl))).
    cbn [prog] in R.
    destruct (prog d1) as [s1|] eqn:Hd1; [|discriminate].
    cbn in R. injection H as <- <-. cbn in Hx. injection Hx as <-.
    refine (kept_trans _ _ _ K0 (kept_trans _ _ _ _ R)).
    apply kept_set_m_svc.
  - injection H as <- <-. discriminate.
Qed.

Lemma kept_try_block :
  forall fuel gas mem buffer buffer_len x disp s',
    Http.try_block e fuel gas mem buffer buffer_len = Some (x, disp) ->
    state_of x = Some s' ->
    kept (Http.ctor mem buffer buffer_len) s'.
Proof.
  intros fuel gas mem buffer buffer_len x disp s' H Hx.
  unfold Http.try_block in H.
  destruct (Http.step e gas (Http.ctor mem buffer buffer_len))
    as [[u s|err s|]|] eqn:Hs; [| | |discriminate].
  - refine (kept_trans _ _ _ _ (kept_run_loop _ _ _ _ _ s s' H eq_refl Hx)).
    apply (kept_step gas _ _ s Hs). left. eauto.
  - injection H as <- <-. cbn in Hx. injection Hx as <-.
    apply (kept_step gas _ _ s Hs). right. eauto.
  - injection H as <- <-. discriminate.
Qed.

End KeptHooks.

(** ** The send window and the sockets of [main] *)

(** X6: the send window of the sample program.  However the [try] block
    of [main] is left, [m_sendbuf] has moved from the start of the request
    by exactly the bytes the program reported as sent, by the connect and
    by every send, and [m_sendleft] is the request length minus those
    bytes, modulo 2^32. *)
Theorem send_window_accounts_for_reported_bytes :
  forall e fuel gas mem buffer buffer_len x disp s,
    Http.out mem = [] ->
    Http.try_block e fuel gas mem buffer buffer_len = Some (x, disp) ->
    state_of x = Some s ->
    Http.m_sendbuf s = buffer + reported (Http.out s) /\
    (Http.m_sendleft s + reported (Http.out s)) mod 2 ^ 32
    = buffer_len mod 2 ^ 32.
Proof.
  intros e fuel gas mem buffer buffer_len x disp s Hout H Hx.
  destruct (kept_try_block e fuel gas mem buffer buffer_len x disp s H Hx)
    as (_ & Hbuf & Hleft).
  cbn [Http.ctor Http.m_sendbuf Http.m_sendleft Http.out] in Hbuf, Hleft.
  rewrite Hout in Hbuf, Hleft. cbn [reported] in Hbuf, Hleft.
  split; [lia|].
  rewrite <- to_int_congr, Hleft, to_int_congr. f_equal. lia.
Qed.

Lemma send_window_witness :
  exists s,
    option_map fst (Http.try_block SampleHttp.good 20 20 SampleHttp.memory 5000 36)
    = Some (Http.Stopped s) /\
    Http.m_sendbuf s = 5000 + reported (Http.out s) /\
    reported (Http.out s) = 36.
Proof.
  assert (E : exists s disp,
             Http.try_block SampleHttp.good 20 20 SampleHttp.memory 5000 36
             = Some (Http.Stopped s, disp) /\
             reported (Http.out s) = 36).
  { eexists. eexists. split; vm_compute; reflexivity. }
  destruct E as (s & disp & E & Hrep). exists s.
  split; [rewrite E; reflexivity|].
  split; [|exact Hrep].
  exact (proj1 (send_window_accounts_for_reported_bytes SampleHttp.good 20 20
                  SampleHttp.memory 5000 36 (Http.Stopped s) disp s
                  eq_refl E eq_refl)).
Defined.

(** X7: [main] loses no socket.  Whenever [main] returns, after a clean
    stop or after an exception caught by its handler, it returns 0, every
    socket the program created has been closed again and [m_sock] holds
    none. *)
Theorem main_closes_every_socket :
  forall e fuel gas mem buffer buffer_len code s,
    trace (Http.conn mem) = [] ->
    Http.main e fuel gas mem buffer buffer_len = Some (Http.Returned code s) ->
    code = 0 /\
    handle_balance (trace (Http.conn s)) = 0 /\
    Http.m_sock s = INVALID_SOCKET.
Proof.
  intros e fuel gas mem buffer buffer_len code s Htr H.
  unfold Http.main in H.
  destruct (Http.try_block e fuel gas mem buffer buffer_len)
    as [[x disp]|] eqn:Ht; [|discriminate].
  assert (L0 : leaked (Http.conn (Http.ctor mem buffer buffer_len)) = 0).
  { unfold leaked, held.
    cbn [Http.ctor Http.conn Http.m_connect_ctx async_context_ctor base].
    change (trace (set_sock INVALID_SOCKET (rcc_ctor (Http.conn mem))))
      with (trace (Http.conn mem)).
    rewrite Htr. reflexivity. }
  assert (Hmain : forall s1,
             state_of x = Some s1 ->
             handle_balance (trace (Http.conn (Http.dtor s1))) = 0 /\
             sock (Http.conn (Http.dtor s1)) = INVALID_SOCKET).
  { intros s1 Hx.
    destruct (kept_try_block e fuel gas mem buffer buffer_len x disp s1 Ht Hx)
      as (L & _ & _).
    rewrite L0 in L.
    pose proof (leaked_socket_close (Http.conn s1)) as C.
    destruct (socket_close_fields (Http.conn s1)) as (_ & Csock & _).
    unfold Http.dtor.
    change (Http.conn (Http.set_conn (socket_close (Http.conn s1)) s1))
      with (socket_close (Http.conn s1)).
    revert C Csock. generalize (socket_close (Http.conn s1)).
    intros c C Csock. split; [|exact Csock].
    unfold leaked, held in C, L. rewrite Csock in C.
    change (INVALID_SOCKET =? INVALID_SOCKET) with true in C.
    cbv iota in C. unfold leaked, held. lia. }
  destruct x as [s1|err s1|s1|]; try discriminate.
  - injection H as <- <-. split; [reflexivity|]. exact (Hmain s1 eq_refl).
  - injection H as <- <-. split; [reflexivity|]. exact (Hmain s1 eq_refl).
Qed.

Lemma main_closes_every_socket_witness :
  exists s,
    Http.main SampleHttp.bad_send 20 20 SampleHttp.memory 5000 36
    = Some (Http.Returned 0 s) /\
    handle_balance (trace (Http.conn s)) = 0 /\
    Http.m_sock s = INVALID_SOCKET.
Proof.
  assert (E : exists s,
             Http.main SampleHttp.bad_send 20 20 SampleHttp.memory 5000 36
             = Some (Http.Returned 0 s)).
  { eexists. vm_compute. reflexivity. }
  destruct E as (s & E). exists s. split; [exact E|].
  exact (proj2 (main_closes_every_socket SampleHttp.bad_send 20 20
                  SampleHttp.memory 5000 36 0 s eq_refl E)).
Defined.

(** ** What the compound operation leaves on the port *)

Lemma undisturbed_refl : forall s, undisturbed s s.
Proof. intros s. unfold undisturbed. auto. Qed.

Lemma undisturbed_trans :
  forall s1 s2 s3, undisturbed s1 s2 -> undisturbed s2 s3 -> undisturbed s1 s3.
Proof.
  intros s1 s2 s3 (A1 & A2 & A3) (B1 & B2 & B3). unfold undisturbed.
  split; [congruence|]. split; congruence.
Qed.

Lemma undisturbed_contract :
  forall s s1 sF, undisturbed s s1 -> contract s1 sF -> contract s sF.
Proof.
  intros s s1 sF (_ & Hport & Hc) H. unfold contract in *.
  rewrite <- Hport, <- Hc. exact H.
Qed.

Lemma contract_untouched :
  forall s sF, the_port sF = the_port s -> contract s sF.
Proof. intros s sF H. left. exact H. Qed.

Lemma finish_contract :
  forall e t f s sF, ends (finish e t f s) sF -> contract s sF.
Proof.
  intros e t f s sF H.
  destruct (finish_fields e t f s)
    as (s1 & HF & _ & _ & _ & _ & _ & _ & Fport).
  rewrite HF in H. apply ends_returns in H. subst sF. left. exact Fport.
Qed.

Lemma on_connect_label_contract :
  forall next rest s sF,
    (forall s1 sF1, ends (next s1) sF1 -> contract s1 sF1) ->
    ends (on_connect_label next rest s) sF -> contract s sF.
Proof.
  intros next rest s sF Hnext H. unfold on_connect_label in H.
  destruct (has_error (base (connect_ctx s))).
  - apply (undisturbed_contract s (socket_close s) sF
             (undisturbed_socket_close s)).
    destruct rest as [|x xs].
    + exact (finish_contract _ _ _ _ _ H).
    + exact (Hnext _ _ H).
  - exact (finish_contract _ _ _ _ _ H).
Qed.

Lemma connect_loop_contract :
  forall env it s sF,
    ends (connect_loop env it s) sF -> contract s sF.
Proof.
  intros env it. induction it as [|a rest IH]; intros s sF H.
  - cbn [connect_loop] in H. apply ends_returns in H. subst sF.
    left. reflexivity.
  - destruct (attempt_ready (env_attempt env a)) eqn:Hready.
    + rewrite (connect_loop_cons env a rest s Hready) in H.
      pose proof (connect_issued_completions env a rest s) as Hc.
      pose proof (connect_issued_fields env a rest s) as F.
      cbv zeta in F. rewrite connect_port in F.
      revert H Hc F. generalize (connect_issued env a rest s).
      intros s1 H Hc (_ & _ & _ & _ & _ & Hsync & _ & _ & Hport).
      destruct (connect_suspends (env_attempt env a)).
      * apply ends_returns in H. subst sF. right.
        cbn [trace the_port set_sync].
        split; [exact Hc|]. exists p_connect_ctx. exact Hport.
      * apply (undisturbed_contract s s1).
        { unfold undisturbed. auto. }
        exact (on_connect_label_contract _ rest s1 sF IH H).
    + destruct (setup_error (env_attempt env a)) as [e|] eqn:He.
      * destruct (setup_failure_throws env a rest s e He)
          as (sT & HT & _ & _ & _ & _ & Tport).
        rewrite HT in H. apply ends_throws in H. subst sF.
        left. exact Tport.
      * apply setup_error_not_ready in He. rewrite He in Hready.
        discriminate Hready.
Qed.

Lemma on_resolve_label_contract :
  forall env s sF, ends (on_resolve_label env s) sF -> contract s sF.
Proof.
  intros env s sF H. unfold on_resolve_label in H.
  destruct (r_has_error (base (resolve_ctx s))).
  - exact (finish_contract _ _ _ _ _ H).
  - exact (connect_loop_contract _ _ _ _ H).
Qed.

Lemma undisturbed_log_step :
  forall tag s, undisturbed s (log (EvStep tag) s).
Proof.
  intros tag s. unfold undisturbed. cbn [log set_trace trace sync the_port].
  rewrite completions_app. cbn. rewrite app_nil_r. auto.
Qed.

Lemma step_contract :
  forall env s sF, ends (step env s) sF -> contract s sF.
Proof.
  intros env s sF H.
  destruct (state s) eqn:Hstate.
  - rewrite (step_on_start env s Hstate) in H.
    pose proof (resolve_issued_fields env s) as F. cbv zeta in F.
    destruct (resolve_cases (svc s) (env_gai env) p_resolve_ctx
                (base (resolve_ctx s)) (the_port s))
      as (Rret & Ros & _ & _).
    rewrite Rret, negb_involutive in H. rewrite Ros in F. clear Rret Ros.
    revert H F. generalize (resolve_issued env s).
    intros RI H (Itr & _ & _ & Isync & _ & _ & _ & Iport).
    assert (Hc : completions (trace RI) = completions (trace s)).
    { rewrite Itr, completions_app. cbn. now rewrite app_nil_r. }
    destruct (gai_ret (env_gai env) =? ERROR_IO_PENDING).
    + apply ends_returns in H. subst sF. right.
      cbn [trace the_port set_sync].
      split; [exact Hc|]. exists p_resolve_ctx. exact Iport.
    + apply (undisturbed_contract s RI).
      { unfold undisturbed. auto. }
      exact (on_resolve_label_contract _ _ _ H).
  - rewrite (step_on_resolve env s Hstate) in H.
    apply (undisturbed_contract s _ sF (undisturbed_log_step on_resolve s)).
    exact (on_resolve_label_contract _ _ _ H).
  - apply (undisturbed_contract s _ sF (undisturbed_log_step on_connect s)).
    destruct (iter s) as [|a rest] eqn:Hiter.
    + unfold step in H. cbn [state iter log set_trace] in H.
      rewrite Hstate, Hiter in H.
      destruct (has_error (base (connect_ctx (log (EvStep on_connect) s)))).
      * destruct H as [[r H]|[e H]]; discriminate.
      * exact (finish_contract _ _ _ _ _ H).
    + rewrite (step_on_connect env s a rest Hstate Hiter) in H.
      refine (on_connect_label_contract _ rest _ sF _ H).
      intros s1 sF1 H1. exact (connect_loop_contract _ _ _ _ H1).
Qed.

Lemma connect_hook_undisturbed :
  forall env s s1,
    ends (connect_base_completion_func env s) s1 -> undisturbed s s1.
Proof.
  intros env s s1 H. unfold connect_base_completion_func in H.
  destruct (iter s) as [|a rest]; [destruct H as [[r H]|[e H]]; discriminate|].
  assert (Hput : forall c,
             undisturbed s (set_connect_ctx (mkAsync c (m_op (connect_ctx s))) s))
    by (intros c; unfold undisturbed; cbn; auto).
  assert (Hlog : forall h c,
             undisturbed s
               (log (EvSetsockopt h)
                  (set_connect_ctx (mkAsync c (m_op (connect_ctx s))) s))).
  { intros h c. unfold undisturbed. cbn [log set_trace trace sync the_port
      set_connect_ctx]. rewrite completions_app. cbn.
    rewrite app_nil_r. auto. }
  destruct (connect_completion_func _ _ _ _) as [c1|[e c1]].
  - apply ends_returns in H. subst s1.
    destruct (has_error c1); [apply Hput|apply Hlog].
  - apply ends_throws in H. subst s1. apply Hlog.
Qed.

Lemma step_at_contract :
  forall env q s sF, ends (step_at env q s) sF -> contract s sF.
Proof.
  intros env q s sF H. unfold step_at in H.
  destruct (Nat.eqb q p_this).
  - exact (step_contract _ _ _ H).
  - destruct H as [[r H]|[e H]]; discriminate.
Qed.

Lemma completion_func_contract :
  forall env q s sF, ends (completion_func env q s) sF -> contract s sF.
Proof.
  intros env q s sF H. unfold completion_func in H.
  destruct (Nat.eqb q p_resolve_ctx).
  { unfold async_completion_func, resolve_base_completion_func in H.
    cbn [bind] in H. exact (step_at_contract _ _ _ _ H). }
  destruct (Nat.eqb q p_connect_ctx).
  { unfold async_completion_func in H.
    apply ends_bind in H. destruct H as [(r & s1 & Hb & H)|(e & Hb)].
    - apply (undisturbed_contract s s1).
      + apply (connect_hook_undisturbed env). rewrite Hb. left. eauto.
      + exact (step_at_contract _ _ _ _ H).
    - left. apply (connect_hook_undisturbed env s sF). rewrite Hb. right. eauto. }
  destruct (Nat.eqb q p_this).
  - apply ends_returns in H. subst sF. left. reflexivity.
  - destruct H as [[r H]|[e H]]; discriminate.
Qed.

Lemma compound_call_contract_ends :
  forall env svch hn sn b bl c c',
    ends (rcc_connect_and_send env svch hn sn b bl c) c' ->
    the_port c' = the_port c \/ exists q, the_port c' = handed_over q (the_port c).
Proof.
  intros env svch hn sn b bl c c' H. unfold rcc_connect_and_send in H.
  assert (H0 : the_port (set_sync true (set_state on_start (set_buffer_len bl
                 (set_buffer b (set_servicename sn (set_hostname hn
                    (set_svc svch c))))))) = the_port c) by reflexivity.
  revert H H0.
  generalize (set_sync true (set_state on_start (set_buffer_len bl
                 (set_buffer b (set_servicename sn (set_hostname hn
                    (set_svc svch c))))))).
  intros s H H0. rewrite <- H0.
  assert (C : contract s c').
  { apply ends_bind in H. destruct H as [(u & s1 & Hs & H)|(err & Hs)].
    - apply ends_returns in H. subst c'.
      apply (step_contract env). rewrite Hs. left. eauto.
    - apply (step_contract env). rewrite Hs. right. eauto. }
  destruct C as [C|(_ & C)]; auto.
Qed.

Lemma compound_call_inline :
  forall env svch hn sn b bl c c',
    rcc_connect_and_send env svch hn sn b bl c = Returns true c' ->
    the_port c' = the_port c.
Proof.
  intros env svch hn sn b bl c c' H. unfold rcc_connect_and_send in H.
  assert (C : inline_contract
                (set_sync true (set_state on_start (set_buffer_len bl
                   (set_buffer b (set_servicename sn (set_hostname hn
                      (set_svc svch c)))))))
                (step env
                   (set_sync true (set_state on_start (set_buffer_len bl
                      (set_buffer b (set_servicename sn (set_hostname hn
                         (set_svc svch c)))))))))
    by (apply step_on_start_inline; reflexivity).
  assert (Hp : the_port (set_sync true (set_state on_start (set_buffer_len bl
                   (set_buffer b (set_servicename sn (set_hostname hn
                      (set_svc svch c))))))) = the_port c) by reflexivity.
  revert H C Hp.
  generalize (set_sync true (set_state on_start (set_buffer_len bl
                 (set_buffer b (set_servicename sn (set_hostname hn
                    (set_svc svch c))))))).
  intros s H C Hp. unfold inline_contract in C.
  destruct (step env s) as [u sF|e sF|]; cbn [bind] in H; try discriminate.
  injection H as Hs <-. rewrite Hp in C.
  destruct C as (_ & [[_ C]|[C _]]); [exact C|congruence].
Qed.

(** ** What the program leaves on the port *)

Lemma classify_port :
  forall a fl c w p,
    os (classify a fl c (os_overlapped_call p a w))
    = if returned (classify a fl c (os_overlapped_call p a w)) then w
      else handed_over p w.
Proof.
  intros a fl c w p. unfold classify, os_overlapped_call, is_pending, handed_over.
  destruct (call_done a); [reflexivity|].
  destruct (last_error a =? ERROR_IO_PENDING); reflexivity.
Qed.

Lemma send_port :
  forall ws h p b l fl c w,
    os (send ws h p b l fl c w)
    = if returned (send ws h p b l fl c w) then w else handed_over p w.
Proof. intros. unfold send, send_bufs. apply classify_port. Qed.

Lemma receive_port :
  forall ws h p b l fl c w,
    os (receive ws h p b l fl c w)
    = if returned (receive ws h p b l fl c w) then w else handed_over p w.
Proof. intros. unfold receive, receive_bufs. apply classify_port. Qed.

Lemma disconnect_port :
  forall ws h p reuse c w,
    os (disconnect ws h p reuse c w)
    = if returned (disconnect ws h p reuse c w) then w else handed_over p w.
Proof.
  intros. unfold disconnect.
  destruct (WSAIoctl_DisconnectEx ws h); [apply classify_port|reflexivity].
Qed.

Lemma same_phase_say : forall l s, same_phase s (Http.say l s).
Proof. intros. unfold same_phase. auto. Qed.

Lemma idle_ok : forall s, Http.m_svc s = mkPort [] [] -> outstanding_ok s.
Proof. intros s H. left. exact H. Qed.

Lemma handed_ok :
  forall s q, Http.m_svc s = handed_over q (mkPort [] []) -> outstanding_ok s.
Proof. intros s q H. right. left. exists q. exact H. Qed.

Section Settles.

Variable e : Http.world.

Lemma svc_shutdown_settles :
  forall s s',
    Http.m_svc s = mkPort [] [] ->
    Http.m_state s = Http.on_disconnect -> Http.m_sendleft s = 0 ->
    Http.m_sock s = INVALID_SOCKET ->
    ends (Http.svc_shutdown e s) s' ->
    outstanding_ok s' /\ Http.m_sendleft s' = 0.
Proof.
  intros s s' Hidle Hst Hleft Hsock H. unfold Http.svc_shutdown in H.
  cbv zeta in H. unfold shutdown in H.
  change (Http.m_svc (Http.say Http.Called_post_shutdown s))
    with (Http.m_svc s) in H.
  rewrite Hidle in H.
  destruct (negb (Http.post_ok e)).
  - apply ends_throws in H. subst s'. split; [|exact Hleft].
    apply idle_ok. exact Hidle.
  - apply ends_returns in H. subst s'. split; [|exact Hleft].
    right. right. split; [reflexivity|].
    unfold finished. auto.
Qed.

Lemma on_disconnect_label_settles :
  forall s s',
    Http.m_svc s = mkPort [] [] ->
    Http.m_state s = Http.on_disconnect -> Http.m_sendleft s = 0 ->
    ends (Http.on_disconnect_label e s) s' ->
    outstanding_ok s' /\ Http.m_sendleft s' = 0.
Proof.
  intros s s' Hidle Hst Hleft H. unfold Http.on_disconnect_label in H.
  apply ends_bind in H. destruct H as [(u & s1 & Hc & H)|(err & Hc)].
  - apply check_returns in Hc. subst s1. cbv zeta in H.
    destruct (socket_close_fields (Http.conn s))
      as (_ & Csock & _ & _ & _ & _ & _ & Cport).
    refine (svc_shutdown_settles _ s' _ _ _ _ H).
    + change (the_port (socket_close (Http.conn s)) = mkPort [] []).
      rewrite Cport. exact Hidle.
    + exact Hst.
    + exact Hleft.
    + exact Csock.
  - assert (s' = s) by (apply check_ends with (c := base (Http.m_ctx s));
                        rewrite Hc; right; eauto).
    subst s'. split; [apply idle_ok; exact Hidle|exact Hleft].
Qed.

Lemma socket_shutdown_same :
  forall how s s', ends (Http.socket_shutdown e how s) s' -> same_phase s s'.
Proof.
  intros how s s' H. unfold Http.socket_shutdown in H. cbv zeta in H.
  destruct (negb _).
  - apply ends_throws in H. subst s'. apply same_phase_say.
  - apply ends_returns in H. subst s'. apply same_phase_say.
Qed.

Lemma after_receive_loop_settles :
  forall s s',
    Http.m_svc s = mkPort [] [] -> Http.m_sendleft s = 0 ->
    ends (Http.after_receive_loop e s) s' ->
    outstanding_ok s' /\ Http.m_sendleft s' = 0.
Proof.
  intros s s' Hidle Hleft H. unfold Http.after_receive_loop in H.
  apply ends_bind in H. destruct H as [(u & s1 & Hc & H)|(err & Hc)].
  - assert (P : same_phase s s1)
      by (apply (socket_shutdown_same Http.SD_RECEIVE); rewrite Hc; left; eauto).
    destruct P as (_ & Pleft & _ & Pport).
    rewrite Hidle in Pport. rewrite Hleft in Pleft. clear Hc Hidle Hleft s.
    cbv zeta in H.
    match type of H with
    | context [Http.put ?x _] =>
        match x with
        | disconnect ?ws ?h ?p ?re ?c ?w =>
            pose proof (disconnect_port ws h p re c w) as Hp
        end;
        revert H Hp; generalize x
    end.
    intros r H Hp.
    change (Http.m_svc (Http.set_m_state Http.on_disconnect
                          (Http.say Http.Said_disconnecting s1)))
      with (Http.m_svc s1) in Hp.
    rewrite Pport in Hp.
    destruct (returned r); cbn [negb] in H.
    + refine (on_disconnect_label_settles _ s' _ _ _ H).
      * unfold Http.m_svc. cbn. exact Hp.
      * reflexivity.
      * exact Pleft.
    + apply ends_returns in H. subst s'. split; [|exact Pleft].
      apply (handed_ok _ Http.p_ctx). unfold Http.m_svc. cbn. exact Hp.
  - destruct (socket_shutdown_same Http.SD_RECEIVE s s'
                (or_intror (ex_intro _ err Hc))) as (_ & Pleft & _ & Pport).
    split; [apply idle_ok; congruence|congruence].
Qed.

Lemma received_same :
  forall s s', ends (Http.received s) s' -> same_phase s s'.
Proof.
  intros s s' H. unfold Http.received in H.
  apply ends_bind in H. destruct H as [(u & s1 & Hc & H)|(err & Hc)].
  - apply check_returns in Hc. subst s1.
    apply ends_returns in H. subst s'. apply same_phase_say.
  - assert (s' = s) by (apply check_ends with (c := base (Http.m_ctx s));
                        rewrite Hc; right; eauto).
    subst s'. unfold same_phase. auto.
Qed.

Lemma after_received_settles :
  forall (loop : Http.http_op -> option (outcome unit Http.http_op)) s o s',
    (forall s1 o1 s2,
        Http.m_svc s1 = mkPort [] [] -> Http.m_sendleft s1 = 0 ->
        loop s1 = Some o1 -> ends o1 s2 ->
        outstanding_ok s2 /\ Http.m_sendleft s2 = 0) ->
    Http.m_svc s = mkPort [] [] -> Http.m_sendleft s = 0 ->
    Http.obind (Http.received s)
      (fun again s1 => if again then loop s1
                       else Some (Http.after_receive_loop e s1)) = Some o ->
    ends o s' ->
    outstanding_ok s' /\ Http.m_sendleft s' = 0.
Proof.
  intros loop s o s' Hloop Hidle Hleft H E.
  destruct (obind_ends _ _ _ _ H E) as [(again & s1 & Hr & Hk)|(err & Hr)].
  - destruct (received_same s s1 (or_introl (ex_intro _ again Hr)))
      as (_ & Pleft & _ & Pport).
    rewrite Hidle in Pport. rewrite Hleft in Pleft.
    destruct again.
    + exact (Hloop _ _ _ Pport Pleft Hk E).
    + injection Hk as <-.
      exact (after_receive_loop_settles _ _ Pport Pleft E).
  - destruct (received_same s s' (or_intror (ex_intro _ err Hr)))
      as (_ & Pleft & _ & Pport).
    split; [apply idle_ok; congruence|congruence].
Qed.

Lemma receive_loop_settles :
  forall gas s o s',
    Http.m_svc s = mkPort [] [] -> Http.m_sendleft s = 0 ->
    Http.receive_loop e gas s = Some o -> ends o s' ->
    outstanding_ok s' /\ Http.m_sendleft s' = 0.
Proof.
  induction gas as [|gas IH]; intros s o s' Hidle Hleft H E; [discriminate|].
  cbn [Http.receive_loop] in H. cbv zeta in H.
  match type of H with
  | context [Http.put ?x _] =>
      match x with
      | receive ?ws ?h ?p ?b ?l ?fl ?c ?w =>
          pose proof (receive_port ws h p b l fl c w) as Hp
      end;
      revert H Hp; generalize x
  end.
  intros r H Hp.
  change (Http.m_svc (Http.set_m_state Http.on_receive
                        (Http.say (Http.Said_receiving Http.RECVBUF_LEN) s)))
    with (Http.m_svc s) in Hp.
  rewrite Hidle in Hp.
  destruct (returned r); cbn [negb] in H.
  - refine (after_received_settles _ _ _ _ IH _ _ H E).
    + unfold Http.m_svc. cbn. exact Hp.
    + exact Hleft.
  - injection H as <-. apply ends_returns in E. subst s'.
    split; [|exact Hleft].
    apply (handed_ok _ Http.p_ctx). unfold Http.m_svc. cbn. exact Hp.
Qed.

Lemma on_receive_label_settles :
  forall gas s o s',
    Http.m_svc s = mkPort [] [] -> Http.m_sendleft s = 0 ->
    Http.on_receive_label e gas s = Some o -> ends o s' ->
    outstanding_ok s' /\ Http.m_sendleft s' = 0.
Proof.
  intros gas s o s' Hidle Hleft H E. unfold Http.on_receive_label in H.
  exact (after_received_settles _ _ _ _ (receive_loop_settles gas)
           Hidle Hleft H E).
Qed.

Lemma after_send_loop_settles :
  forall gas s o s',
    Http.m_svc s = mkPort [] [] -> Http.m_sendleft s = 0 ->
    Http.after_send_loop e gas s = Some o -> ends o s' ->
    outstanding_ok s' /\ Http.m_sendleft s' = 0.
Proof.
  intros gas s o s' Hidle Hleft H E. unfold Http.after_send_loop in H.
  destruct (obind_ends _ _ _ _ H E) as [(u & s1 & Hr & Hk)|(err & Hr)].
  - destruct (socket_shutdown_same Http.SD_SEND s s1
                (or_introl (ex_intro _ u Hr))) as (_ & Pleft & _ & Pport).
    cbv zeta in Hk.
    refine (receive_loop_settles _ _ _ _ _ _ Hk E).
    + change (Http.m_svc s1 = mkPort [] []). congruence.
    + change (Http.m_sendleft s1 = 0). congruence.
  - destruct (socket_shutdown_same Http.SD_SEND s s'
                (or_intror (ex_intro _ err Hr))) as (_ & Pleft & _ & Pport).
    split; [apply idle_ok; congruence|congruence].
Qed.

(** A state the send loop or the connect left: nothing outstanding and
    the resume point not behind the send loop. *)
Lemma sent_settles :
  forall s s',
    ends (Http.sent s) s' ->
    Http.m_state s' = Http.m_state s /\ Http.m_svc s' = Http.m_svc s.
Proof.
  intros s s' H. unfold Http.sent in H.
  apply ends_bind in H. destruct H as [(u & s1 & Hc & H)|(err & Hc)].
  - apply check_returns in Hc. subst s1.
    apply ends_returns in H. subst s'. split; reflexivity.
  - assert (s' = s) by (apply check_ends with (c := base (Http.m_ctx s));
                        rewrite Hc; right; eauto).
    subst s'. split; reflexivity.
Qed.

Lemma sending_past_sending :
  forall s,
    Http.m_state s = Http.on_send \/ Http.m_state s = Http.on_connect ->
    past_sending s.
Proof.
  intros s [H|H] [H1|H1]; rewrite H in H1; discriminate.
Qed.

Lemma send_loop_settles :
  forall gas s o s',
    Http.m_svc s = mkPort [] [] ->
    Http.m_state s = Http.on_send \/ Http.m_state s = Http.on_connect ->
    Http.send_loop e gas s = Some o -> ends o s' ->
    outstanding_ok s' /\ past_sending s'.
Proof.
  induction gas as [|gas IH]; intros s o s' Hidle Hst H E; [discriminate|].
  cbn [Http.send_loop] in H.
  destruct (Http.m_sendleft s =? 0) eqn:Hz.
  { apply Z.eqb_eq in Hz.
    destruct (after_send_loop_settles _ _ _ _ Hidle Hz H E) as (A & B).
    split; [exact A|]. intros _. exact B. }
  cbv zeta in H.
  match type of H with
  | context [Http.put ?x _] =>
      match x with
      | send ?ws ?h ?p ?b ?l ?fl ?c ?w =>
          pose proof (send_port ws h p b l fl c w) as Hp
      end;
      revert H Hp; generalize x
  end.
  intros r H Hp.
  change (Http.m_svc (Http.set_m_state Http.on_send
                        (Http.say (Http.Said_sending (Http.m_sendleft s)) s)))
    with (Http.m_svc s) in Hp.
  rewrite Hidle in Hp.
  destruct (returned r); cbn [negb] in H.
  - destruct (obind_ends _ _ _ _ H E) as [(u & s1 & Hr & Hk)|(err & Hr)].
    + destruct (sent_settles _ s1 (or_introl (ex_intro _ u Hr))) as (Sst & Sport).
      refine (IH _ _ _ _ _ Hk E).
      * rewrite Sport. unfold Http.m_svc. cbn. exact Hp.
      * left. rewrite Sst. reflexivity.
    + destruct (sent_settles _ s' (or_intror (ex_intro _ err Hr))) as (Sst & Sport).
      split.
      * apply idle_ok. rewrite Sport. unfold Http.m_svc. cbn. exact Hp.
      * apply sending_past_sending. left. rewrite Sst. reflexivity.
  - injection H as <-. apply ends_returns in E. subst s'. split.
    + apply (handed_ok _ Http.p_ctx). unfold Http.m_svc. cbn. exact Hp.
    + apply sending_past_sending. left. reflexivity.
Qed.

Lemma on_send_label_settles :
  forall gas s o s',
    Http.m_svc s = mkPort [] [] -> Http.m_state s = Http.on_send ->
    Http.on_send_label e gas s = Some o -> ends o s' ->
    outstanding_ok s' /\ past_sending s'.
Proof.
  intros gas s o s' Hidle Hst H E. unfold Http.on_send_label in H.
  destruct (obind_ends _ _ _ _ H E) as [(u & s1 & Hr & Hk)|(err & Hr)].
  - destruct (sent_settles _ s1 (or_introl (ex_intro _ u Hr))) as (Sst & Sport).
    refine (send_loop_settles _ _ _ _ _ _ Hk E).
    + congruence.
    + left. congruence.
  - destruct (sent_settles _ s' (or_intror (ex_intro _ err Hr))) as (Sst & Sport).
    split; [apply idle_ok; congruence|].
    apply sending_past_sending. left. congruence.
Qed.

Lemma on_connect_label_settles :
  forall gas s o s',
    Http.m_svc s = mkPort [] [] -> Http.m_state s = Http.on_connect ->
    Http.on_connect_label e gas s = Some o -> ends o s' ->
    outstanding_ok s' /\ past_sending s'.
Proof.
  intros gas s o s' Hidle Hst H E. unfold Http.on_connect_label in H.
  destruct (obind_ends _ _ _ _ H E) as [(u & s1 & Hr & Hk)|(err & Hr)].
  - apply check_returns in Hr. subst s1. cbv zeta in Hk.
    refine (send_loop_settles _ _ _ _ _ _ Hk E).
    + exact Hidle.
    + right. exact Hst.
  - assert (s' = s) by (apply check_ends with (c := rc_base (Http.conn s));
                        rewrite Hr; right; eauto).
    subst s'. split; [apply idle_ok; exact Hidle|].
    apply sending_past_sending. right. exact Hst.
Qed.

Lemma step_settles :
  forall gas s o s',
    Http.m_svc s = mkPort [] [] -> past_sending s ->
    Http.step e gas s = Some o -> ends o s' ->
    outstanding_ok s' /\ past_sending s'.
Proof.
  intros gas s o s' Hidle Hpast H E. unfold Http.step in H.
  destruct (Http.m_state s) eqn:Hst.
  - cbv zeta in H.
    match type of H with
    | match ?call with _ => _ end = _ => destruct call as [b c|err c|] eqn:Hc
    end.
    + pose proof (compound_call_contract_ends _ _ _ _ _ _ _ c
                    (or_introl (ex_intro _ b Hc))) as P.
      change (the_port (Http.conn (Http.set_m_state Http.on_connect
                (Http.say Http.Said_connecting s)))) with (Http.m_svc s) in P.
      rewrite Hidle in P.
      destruct (negb b) eqn:Hb.
      * injection H as <-. apply ends_returns in E. subst s'. split.
        -- destruct P as [P|(q & P)].
           ++ apply idle_ok. exact P.
           ++ apply (handed_ok _ q). exact P.
        -- apply sending_past_sending. right. reflexivity.
      * apply negb_false_iff in Hb. subst b.
        refine (on_connect_label_settles _ _ _ _ _ _ H E); [|reflexivity].
        change (the_port c = mkPort [] []).
        rewrite (compound_call_inline _ _ _ _ _ _ _ _ Hc). exact Hidle.
    + injection H as <-. apply ends_throws in E. subst s'. split.
      * pose proof (compound_call_contract_ends _ _ _ _ _ _ _ c
                      (or_intror (ex_intro _ err Hc))) as P.
        change (the_port (Http.conn (Http.set_m_state Http.on_connect
                  (Http.say Http.Said_connecting s)))) with (Http.m_svc s) in P.
        rewrite Hidle in P.
        destruct P as [P|(q & P)].
        -- apply idle_ok. exact P.
        -- apply (handed_ok _ q). exact P.
      * apply sending_past_sending. right. reflexivity.
    + injection H as <-. no_end E.
  - exact (on_connect_label_settles _ _ _ _ Hidle Hst H E).
  - exact (on_send_label_settles _ _ _ _ Hidle Hst H E).
  - destruct (on_receive_label_settles _ _ _ _ Hidle
                (Hpast (or_introl Hst)) H E) as (A & B).
    split; [exact A|]. intros _. exact B.
  - injection H as <-.
    destruct (on_disconnect_label_settles _ _ Hidle Hst
                (Hpast (or_intror Hst)) E) as (A & B).
    split; [exact A|]. intros _. exact B.
Qed.

End Settles.

Lemma os_finish_one :
  forall env c q,
    the_port c = mkPort [q] [] ->
    the_port (os_finish env c) = mkPort [] [mkPacket KEY_RUN (Some q)].
Proof.
  intros env c q H. unfold os_finish. rewrite H. cbn [inflight].
  destruct (Nat.eqb q p_resolve_ctx).
  - unfold os_lookup_done, lookup_completion. cbn [inflight queue existsb].
    rewrite Nat.eqb_refl. cbn [orb remove_first]. rewrite Nat.eqb_refl.
    reflexivity.
  - unfold os_complete. cbn [inflight queue existsb set_the_port the_port].
    rewrite Nat.eqb_refl. cbn [orb remove_first]. rewrite Nat.eqb_refl.
    reflexivity.
Qed.

Lemma os_finish_none :
  forall env c, inflight (the_port c) = [] -> os_finish env c = c.
Proof. intros env c H. unfold os_finish. now rewrite H. Qed.

Section SettlesHooks.

Variable e : Http.world.

Lemma step_at_settles :
  forall gas q s o s',
    Http.m_svc s = mkPort [] [] -> past_sending s ->
    Http.step_at e gas q s = Some o -> ends o s' ->
    outstanding_ok s' /\ past_sending s'.
Proof.
  intros gas q s o s' Hidle Hpast H E. unfold Http.step_at in H.
  destruct (Nat.eqb q Http.p_op).
  - exact (step_settles e _ _ _ _ Hidle Hpast H E).
  - injection H as <-. no_end E.
Qed.

Lemma hook_at_settles :
  forall gas q s o s',
    Http.m_svc s = mkPort [] [] -> past_sending s ->
    Http.hook_at e gas q s = Some o -> ends o s' ->
    outstanding_ok s' /\ past_sending s'.
Proof.
  intros gas q s o s' Hidle Hpast H E. unfold Http.hook_at in H.
  destruct (Nat.eqb q Http.p_ctx).
  { unfold Http.ctx_completion_func in H. cbv zeta in H.
    exact (step_at_settles _ _ (Http.set_m_ctx _ s) _ _ Hidle Hpast H E). }
  destruct (Nat.eqb q p_this).
  { exact (step_at_settles _ _ _ _ _ Hidle Hpast H E). }
  unfold Http.inner_completion_func in H.
  destruct (completion_func (Http.net e) q (Http.conn s)) as [u c|err c|] eqn:Hc.
  - pose proof (completion_func_contract (Http.net e) q (Http.conn s) c
                  (or_introl (ex_intro _ u Hc))) as C.
    unfold contract in C.
    change (the_port (Http.conn s)) with (Http.m_svc s) in C.
    rewrite Hidle in C.
    destruct (_ <? _)%nat eqn:Hgrew.
    + refine (step_at_settles _ _ (Http.set_conn c s) _ _ _ Hpast H E).
      change (the_port c = mkPort [] []).
      destruct C as [C|(C & _)]; [exact C|].
      rewrite C in Hgrew. apply Nat.ltb_lt in Hgrew. lia.
    + injection H as <-. apply ends_returns in E. subst s'.
      split; [|exact Hpast].
      destruct C as [C|(_ & q' & C)].
      * apply idle_ok. exact C.
      * apply (handed_ok _ q'). exact C.
  - injection H as <-. apply ends_throws in E. subst s'.
    pose proof (completion_func_contract (Http.net e) q (Http.conn s) c
                  (or_intror (ex_intro _ err Hc))) as C.
    unfold contract in C.
    change (the_port (Http.conn s)) with (Http.m_svc s) in C.
    rewrite Hidle in C.
    split; [|exact Hpast].
    destruct C as [C|(_ & q' & C)].
    + apply idle_ok. exact C.
    + apply (handed_ok _ q'). exact C.
  - injection H as <-. no_end E.
Qed.

Lemma hook_settles :
  forall gas q s st',
    Http.m_svc s = mkPort [] [] -> past_sending s ->
    ends (Http.hook e gas q (Some s)) st' -> between_waits st'.
Proof.
  intros gas q s st' Hidle Hpast H. unfold Http.hook in H.
  destruct (Http.hook_at e gas q s) as [[u s1|err s1|]|] eqn:Hh.
  - apply ends_returns in H. subst st'. cbn.
    apply (hook_at_settles gas q s _ s1 Hidle Hpast Hh). left. eauto.
  - apply ends_throws in H. subst st'. cbn.
    apply (hook_at_settles gas q s _ s1 Hidle Hpast Hh). right. eauto.
  - no_end H.
  - apply ends_returns in H. subst st'. exact I.
Qed.

Lemma run_loop_stops_finished :
  forall fuel gas d s s' disp,
    prog d = Some s -> outstanding_ok s -> past_sending s ->
    Http.run_loop e fuel gas d = Some (Http.Stopped s', disp) ->
    finished s' /\ Http.m_svc s' = mkPort [] [].
Proof.
  induction fuel as [|fuel IH]; intros gas d s s' disp Hd Hok Hpast H;
    [discriminate|].
  cbn [Http.run_loop] in H. rewrite Hd in H. cbv zeta in H.
  destruct Hok as [Hidle|[(q & Hq)|(Hsd & Hfin)]].
  - (* nothing outstanding: the wait never returns *)
    assert (Ht : Http.os_turn e s = s).
    { unfold Http.os_turn. rewrite Hidle. cbn [queue].
      rewrite os_finish_none by (exact (f_equal inflight Hidle)).
      unfold Http.set_conn, Http.conn. destruct s as [? ? ? ? [? ?] ? ? ? ?].
      reflexivity. }
    rewrite Ht, Hidle in H. cbn in H. discriminate.
  - (* one request: the OS completes it, its hook runs *)
    assert (Ht : Http.m_svc (Http.os_turn e s)
                 = mkPort [] [mkPacket KEY_RUN (Some q)] /\
                 past_sending (Http.os_turn e s)).
    { unfold Http.os_turn. rewrite Hq. cbn [queue]. split.
      - exact (os_finish_one (Http.net e) (Http.conn s) q Hq).
      - exact Hpast. }
    revert H Ht. generalize (Http.os_turn e s). intros s0 H (Hport & Hpast0).
    rewrite Hport in H.
    cbn [GetQueuedCompletionStatusEx queue firstn skipn inflight] in H.
    unfold run_many in H.
    cbn [gqx_ret negb gqx_entries run_entries lpCompletionKey lpOverlapped] in H.
    change (KEY_RUN =? KEY_RUN) with true in H. cbv iota in H.
    unfold dispatch in H. cbn [prog dispatched] in H.
    pose proof (hook_settles gas q (Http.set_m_svc (mkPort [] []) s0)) as Hh.
    assert (Hpast1 : past_sending (Http.set_m_svc (mkPort [] []) s0))
      by exact Hpast0.
    specialize (fun st' => Hh st' eq_refl Hpast1).
    revert H Hh.
    generalize (Http.hook e gas q (Some (Http.set_m_svc (mkPort [] []) s0))).
    intros o H Hh.
    destruct o as [u st1|err st1|]; cbn [bind run_entries prog dispatched] in H.
    + specialize (Hh st1 (or_introl (ex_intro _ u eq_refl))).
      destruct st1 as [s1|]; [|discriminate].
      cbn in Hh. destruct Hh as (Hok1 & Hpast1').
      refine (IH gas (mkDriven (Some (Http.say Http.Said_completed s1))
                            (dispatched d ++ [q]))
                (Http.say Http.Said_completed s1) s' disp eq_refl _ _ H).
      * exact Hok1.
      * exact Hpast1'.
    + destruct st1; discriminate.
    + discriminate.
  - (* the sentinel *)
    assert (Ht : Http.os_turn e s = s).
    { unfold Http.os_turn. rewrite Hsd. reflexivity. }
    rewrite Ht, Hsd in H.
    cbn [GetQueuedCompletionStatusEx queue firstn skipn inflight] in H.
    unfold run_many in H.
    cbn [gqx_ret negb gqx_entries run_entries lpCompletionKey lpOverlapped
         prog dispatched] in H.
    change (KEY_SHUTDOWN =? KEY_RUN) with false in H. cbv iota in H.
    cbn [run_entries prog] in H.
    injection H as <- _. split; [exact Hfin|reflexivity].
Qed.

End SettlesHooks.

(** X8: [main] stops only when the exchange is over.  Started on a port
    with nothing outstanding, whenever the loop of [main] ends because
    [run_many] returned [false], the program is past its disconnect, has
    nothing left to send, has reported as sent the whole request (modulo
    2^32), has closed its socket, and nothing is outstanding on the
    port. *)
Theorem clean_stop_means_exchange_complete :
  forall e fuel gas mem buffer buffer_len s disp,
    Http.m_svc mem = mkPort [] [] ->
    Http.out mem = [] ->
    Http.try_block e fuel gas mem buffer buffer_len
    = Some (Http.Stopped s, disp) ->
    finished s /\
    Http.m_svc s = mkPort [] [] /\
    reported (Http.out s) mod 2 ^ 32 = buffer_len mod 2 ^ 32.
Proof.
  intros e fuel gas mem buffer buffer_len s disp Hidle Hout H.
  destruct (kept_try_block e fuel gas mem buffer buffer_len _ disp s H eq_refl)
    as (_ & _ & Hleft).
  cbn [Http.ctor Http.m_sendleft Http.out] in Hleft.
  rewrite Hout in Hleft. cbn [reported] in Hleft.
  unfold Http.try_block in H.
  assert (Hidle0 : Http.m_svc (Http.ctor mem buffer buffer_len) = mkPort [] [])
    by exact Hidle.
  assert (Hpast0 : past_sending (Http.ctor mem buffer buffer_len))
    by (intros [Hs|Hs]; discriminate Hs).
  revert H Hleft Hidle0 Hpast0.
  generalize (Http.ctor mem buffer buffer_len). intros s0 H Hleft Hidle0 Hpast0.
  destruct (Http.step e gas s0) as [[u s1|err s1|]|] eqn:Hs; try discriminate.
  destruct (step_settles e gas s0 _ s1 Hidle0 Hpast0 Hs
              (or_introl (ex_intro _ u eq_refl))) as (Hok & Hpast).
  destruct (run_loop_stops_finished e fuel gas (mkDriven (Some s1) []) s1 s disp
              eq_refl Hok Hpast H)
    as (Hfin & Hport).
  split; [exact Hfin|]. split; [exact Hport|].
  destruct Hfin as (_ & Hz & _). rewrite Hz in Hleft.
  replace (reported (Http.out s)) with (0 + reported (Http.out s)) at 1 by lia.
  rewrite <- (to_int_congr (0 + reported (Http.out s))) in *.
  rewrite Hleft, to_int_congr. f_equal. lia.
Qed.

Lemma clean_stop_witness :
  exists s,
    option_map fst (Http.try_block SampleHttp.good 20 20 SampleHttp.memory 5000 36)
    = Some (Http.Stopped s) /\
    finished s /\ reported (Http.out s) mod 2 ^ 32 = 36.
Proof.
  assert (E : exists s disp,
             Http.try_block SampleHttp.good 20 20 SampleHttp.memory 5000 36
             = Some (Http.Stopped s, disp)).
  { eexists. eexists. vm_compute. reflexivity. }
  destruct E as (s & disp & E). exists s.
  split; [rewrite E; reflexivity|].
  destruct (clean_stop_means_exchange_complete SampleHttp.good 20 20
              SampleHttp.memory 5000 36 s disp eq_refl eq_refl E)
    as (Hfin & _ & Hrep).
  split; [exact Hfin|exact Hrep].
Defined.

(** ** The resolution phase, as the program meets it *)

Lemma lookup_hook_after_finish :
  forall env s,
    the_port s = mkPort [p_resolve_ctx] [] ->
    m_op (resolve_ctx s) = p_this ->
    state s = on_resolve ->
    completion_func env p_resolve_ctx
      (set_the_port (mkPort [] []) (os_finish env s))
    = on_resolve_label env (resolve_resumed env s).
Proof.
  intros env s Hp Hop Hs.
  unfold os_finish. rewrite Hp. cbn [inflight].
  change (Nat.eqb p_resolve_ctx p_resolve_ctx) with true. cbv iota.
  unfold os_lookup_done. cbn [inflight existsb queue remove_first app].
  change (Nat.eqb p_resolve_ctx p_resolve_ctx) with true.
  cbn [orb]. unfold lookup_completion at 1. cbn [queue inflight app fst snd].
  unfold completion_func.
  change (Nat.eqb p_resolve_ctx p_resolve_ctx) with true. cbv iota.
  unfold async_completion_func, resolve_base_completion_func.
  cbn [bind resolve_ctx set_the_port set_resolve_ctx m_op]. rewrite Hop.
  unfold step_at.
  change (Nat.eqb p_this p_this) with true. cbv iota.
  rewrite step_on_resolve by (cbn [state set_the_port set_resolve_ctx]; exact Hs).
  unfold resolve_resumed, looked_up. reflexivity.
Qed.

Lemma compound_call_pending :
  forall env svch hn sn b bl s0,
    idle (the_port s0) -> bound_to_this s0 ->
    gai_ret (env_gai env) = ERROR_IO_PENDING ->
    exists sP,
      rcc_connect_and_send env svch hn sn b bl s0 = Returns false sP /\
      the_port sP = mkPort [p_resolve_ctx] [] /\
      m_op (resolve_ctx sP) = p_this /\
      state sP = on_resolve /\
      trace sP = trace s0 ++ [EvStep on_start; EvResolve hn sn] /\
      at_on_resolve env hn sn s0 (resolve_resumed env sP).
Proof.
  intros env svch hn sn b bl s0 Hidle [Hbr Hbc] Hg. unfold idle in Hidle.
  assert (Hpend : (gai_ret (env_gai env) =? ERROR_IO_PENDING) = true)
    by (rewrite Hg; reflexivity).
  unfold rcc_connect_and_send. fold (started svch hn sn b bl s0).
  destruct (started_fields svch hn sn b bl s0)
    as (Str & Ssock & Sbase & Ssync & Sstate & Sres & Sctx & Sport & Shn & Ssn).
  revert Str Ssock Sbase Ssync Sstate Sres Sctx Sport Shn Ssn.
  generalize (started svch hn sn b bl s0).
  intros S0 Str Ssock Sbase Ssync Sstate Sres Sctx Sport Shn Ssn.
  rewrite (step_on_start env S0 Sstate).
  pose proof (resolve_issued_fields env S0) as F. cbv zeta in F.
  destruct (resolve_cases (svc S0) (env_gai env) p_resolve_ctx
              (base (resolve_ctx S0)) (the_port S0))
    as (Rret & Ros & Rerr & Rres).
  rewrite Rret, negb_involutive, Hpend. rewrite Ros, Hpend in F.
  rewrite Hpend in Rerr.
  revert F Rerr Rres.
  generalize (resolve (svc S0) (env_gai env) p_resolve_ctx
                (base (resolve_ctx S0)) (the_port S0)).
  generalize (resolve_issued env S0).
  intros RI r (Itr & Isock & Ibase & Isync & Istate & Ires & Ictx & Iport)
         Rerr Rres.
  cbn [bind sync set_sync].
  exists (set_sync false RI). split; [reflexivity|].
  cbn [the_port resolve_ctx state trace set_sync].
  split; [rewrite Iport, Sport, Hidle; reflexivity|].
  split; [rewrite Ires, Sres; exact Hbr|].
  split; [exact Istate|].
  split; [rewrite Itr, Str, Shn, Ssn; reflexivity|].
  destruct (resolve_resumed_fields env (set_sync false RI))
    as (Ztr & Zsock & Zbase & Zsync & Zop & Zctx & Zport & Zerr & Zres).
  cbn [trace sock rc_base sync resolve_ctx connect_ctx set_sync]
    in Ztr, Zsock, Zbase, Zsync, Zctx, Zres.
  unfold at_on_resolve, resolution_events, bound_to_this.
  rewrite Hpend.
  rewrite Ztr, Zsock, Zbase, Zsync, Zop, Zctx, Zport, Zerr, Zres.
  rewrite Itr, Isock, Ibase, Ictx, Ires, Str, Ssock, Sbase, Sctx, Shn, Ssn.
  cbn [base andb negb]. rewrite Rres, Sres. rewrite <- !app_assoc.
  repeat match goal with |- (?x = ?x) /\ _ => split; [reflexivity|] end.
  split; [reflexivity|]. split; [split; [reflexivity|exact Hbc]|].
  split; reflexivity.
Qed.

Lemma compound_call_fails_inline :
  forall env svch hn sn b bl s0 e,
    idle (the_port s0) -> bound_to_this s0 ->
    gai_ret (env_gai env) = e -> e <> ERROR_SUCCESS -> e <> ERROR_IO_PENDING ->
    exists sF,
      rcc_connect_and_send env svch hn sn b bl s0 = Returns true sF /\
      m_error (rc_base sF) = e /\
      trace sF = trace s0 ++ [EvStep on_start; EvResolve hn sn] /\
      sock sF = sock s0 /\
      the_port sF = mkPort [] [].
Proof.
  intros env svch hn sn b bl s0 e Hidle Hb Hg He Hp.
  assert (Hpend : (gai_ret (env_gai env) =? ERROR_IO_PENDING) = false)
    by (rewrite Hg; apply Z.eqb_neq; exact Hp).
  unfold rcc_connect_and_send. fold (started svch hn sn b bl s0).
  destruct (first_step_inline env svch hn sn b bl s0 Hidle Hb Hpend)
    as (s1 & Hstep & A).
  rewrite Hstep.
  rewrite (on_resolve_error env hn sn s0 s1 e
             (conj He (or_introl (conj Hg Hp))) A).
  destruct (finish_fields e 0 0 s1)
    as (sF & HF & Ftr & Fbase & Fsock & Fsync & _ & _ & Fport).
  destruct A as (Atr & Asock & _ & Async & Aidle & _).
  rewrite Hpend in Async. unfold resolution_events in Atr.
  rewrite Hpend, app_nil_r in Atr.
  rewrite HF. cbn [bind]. exists sF.
  rewrite Fsync, Async. split; [reflexivity|].
  rewrite Fbase, Ftr, Fsock, Fport, Async, Atr, Asock, app_nil_r.
  split; [reflexivity|]. split; [reflexivity|]. split; [reflexivity|].
  exact Aidle.
Qed.

Section FirstTurn.

Variable e : Http.world.

(** One iteration of the loop of [main] when one request is with the OS:
    the OS completes it, the wait hands over its packet, its hook runs. *)
Lemma run_loop_one :
  forall n gas s q disp,
    Http.m_svc s = mkPort [q] [] ->
    Http.run_loop e (S n) gas (mkDriven (Some s) disp)
    = match Http.hook e gas q
              (Some (Http.set_m_svc (mkPort [] []) (Http.os_turn e s))) with
      | Returns _ (Some s1) =>
          Http.run_loop e n gas
            (mkDriven (Some (Http.say Http.Said_completed s1)) (disp ++ [q]))
      | Returns _ None => None
      | Throws err (Some s1) => Some (Http.Thrown err s1, disp ++ [q])
      | Throws err None => None
      | NullDeref => Some (Http.Undefined, disp)
      end.
Proof.
  intros n gas s q disp Hq.
  cbn [Http.run_loop prog dispatched]. cbv zeta.
  assert (Ht : Http.m_svc (Http.os_turn e s)
               = mkPort [] [mkPacket KEY_RUN (Some q)]).
  { unfold Http.os_turn. rewrite Hq. cbn [queue].
    exact (os_finish_one (Http.net e) (Http.conn s) q Hq). }
  revert Ht. generalize (Http.os_turn e s). intros s0 Hport.
  rewrite Hport.
  cbn [GetQueuedCompletionStatusEx queue firstn skipn inflight].
  unfold run_many.
  cbn [gqx_ret negb gqx_entries run_entries lpCompletionKey lpOverlapped].
  change (KEY_RUN =? KEY_RUN) with true. cbv iota.
  unfold dispatch. cbn [prog dispatched].
  generalize (Http.hook e gas q (Some (Http.set_m_svc (mkPort [] []) s0))).
  intros o.
  destruct o as [u [s1|]|err [s1|]|]; reflexivity.
Qed.

(** Nothing outstanding: the wait of [run_many] does not return. *)
Lemma run_loop_blocked :
  forall n gas s disp,
    Http.m_svc s = mkPort [] [] ->
    Http.run_loop e (S n) gas (mkDriven (Some s) disp)
    = Some (Http.Blocked s, disp).
Proof.
  intros n gas s disp Hidle.
  cbn [Http.run_loop prog dispatched]. cbv zeta.
  assert (Ht : Http.os_turn e s = s).
  { unfold Http.os_turn. rewrite Hidle. cbn [queue].
    rewrite os_finish_none by (exact (f_equal inflight Hidle)).
    unfold Http.set_conn, Http.conn. destruct s as [? ? ? ? [? ?] ? ? ? ?].
    reflexivity. }
  rewrite Ht, Hidle. reflexivity.
Qed.

End FirstTurn.

Lemma trace_os_finish : forall env c, trace (os_finish env c) = trace c.
Proof.
  intros env c. unfold os_finish.
  destruct (inflight (the_port c)) as [|q l]; [reflexivity|].
  destruct (Nat.eqb q p_resolve_ctx); [|reflexivity].
  destruct (os_lookup_done _ _ _ _). reflexivity.
Qed.

Lemma sock_os_finish : forall env c, sock (os_finish env c) = sock c.
Proof.
  intros env c. unfold os_finish.
  destruct (inflight (the_port c)) as [|q l]; [reflexivity|].
  destruct (Nat.eqb q p_resolve_ctx); [|reflexivity].
  destruct (os_lookup_done _ _ _ _). reflexivity.
Qed.

Lemma connecting_fields :
  forall mem buffer buffer_len,
    Http.m_svc mem = mkPort [] [] ->
    idle (the_port (Http.conn (connecting mem buffer buffer_len))) /\
    bound_to_this (Http.conn (connecting mem buffer buffer_len)) /\
    trace (Http.conn (connecting mem buffer buffer_len))
    = trace (Http.conn mem) /\
    sock (Http.conn (connecting mem buffer buffer_len)) = INVALID_SOCKET.
Proof.
  intros mem buffer buffer_len Hidle.
  split; [exact Hidle|]. split; [split; reflexivity|]. split; reflexivity.
Qed.

Section Resolution.

Variable e : Http.world.

Lemma step_unfold_on_start :
  forall gas mem buffer buffer_len,
    Http.step e gas (Http.ctor mem buffer buffer_len)
    = match rcc_connect_and_send (Http.net e) (Http.svc_handle e)
              (Http.L_google_com e) (Http.L_http e) buffer buffer_len
              (Http.conn (connecting mem buffer buffer_len)) with
      | Returns b c =>
          if negb b
          then Some (Returns tt (Http.set_conn c (connecting mem buffer buffer_len)))
          else Http.on_connect_label e gas
                 (Http.set_conn c (connecting mem buffer buffer_len))
      | Throws err c =>
          Some (Throws err (Http.set_conn c (connecting mem buffer buffer_len)))
      | NullDeref => Some NullDeref
      end.
Proof. intros. reflexivity. Qed.

(** [case on_connect:] when the compound operation recorded an error. *)
Lemma on_connect_label_throws :
  forall gas s err,
    m_error (rc_base (Http.conn s)) = err -> err <> ERROR_SUCCESS ->
    Http.on_connect_label e gas s = Some (Throws err s).
Proof.
  intros gas s err Herr Hne. unfold Http.on_connect_label, Http.check, check_error.
  rewrite Herr. apply Z.eqb_neq in Hne. rewrite Hne. reflexivity.
Qed.

(** The hook of the pending lookup, dispatched by [run_many]. *)
Lemma lookup_hook_unfold :
  forall gas s,
    Http.m_svc s = mkPort [p_resolve_ctx] [] ->
    m_op (resolve_ctx (Http.conn s)) = p_this ->
    state (Http.conn s) = on_resolve ->
    Http.hook_at e gas p_resolve_ctx
      (Http.set_m_svc (mkPort [] []) (Http.os_turn e s))
    = match on_resolve_label (Http.net e)
              (resolve_resumed (Http.net e) (Http.conn s)) with
      | Returns _ c =>
          if (length (completions (trace (Http.conn s)))
              <? length (completions (trace c)))%nat
          then Http.step_at e gas (m_op (Http.m_connect_ctx s))
                 (Http.set_conn c s)
          else Some (Returns tt (Http.set_conn c s))
      | Throws err c => Some (Throws err (Http.set_conn c s))
      | NullDeref => Some NullDeref
      end.
Proof.
  intros gas s Hp Hop Hst.
  unfold Http.hook_at.
  change (Nat.eqb p_resolve_ctx Http.p_ctx) with false.
  change (Nat.eqb p_resolve_ctx p_this) with false. cbv iota.
  unfold Http.inner_completion_func.
  assert (Hc : Http.conn (Http.set_m_svc (mkPort [] []) (Http.os_turn e s))
               = set_the_port (mkPort [] []) (os_finish (Http.net e) (Http.conn s))).
  { unfold Http.os_turn. rewrite Hp. reflexivity. }
  rewrite Hc.
  rewrite (lookup_hook_after_finish (Http.net e) (Http.conn s) Hp Hop Hst).
  change (trace (set_the_port (mkPort [] [])
                   (os_finish (Http.net e) (Http.conn s))))
    with (trace (os_finish (Http.net e) (Http.conn s))).
  rewrite trace_os_finish.
  assert (Hs : forall c,
             Http.set_conn c (Http.set_m_svc (mkPort [] []) (Http.os_turn e s))
             = Http.set_conn c s).
  { intros c. unfold Http.os_turn. rewrite Hp. reflexivity. }
  assert (Hm : m_op (Http.m_connect_ctx
                       (Http.set_m_svc (mkPort [] []) (Http.os_turn e s)))
               = m_op (Http.m_connect_ctx s)).
  { unfold Http.os_turn. rewrite Hp. reflexivity. }
  rewrite Hm.
  destruct (on_resolve_label _ _) as [u c|err c|]; rewrite ?Hs; reflexivity.
Qed.

End Resolution.

Lemma socket_events_app :
  forall l1 l2,
    filter is_socket_event (l1 ++ l2)
    = filter is_socket_event l1 ++ filter is_socket_event l2.
Proof. intros. apply filter_app. Qed.

(** What [main] leaves when the [try] block is left by an exception from
    a state whose socket was never made. *)
Lemma unwound_fields :
  forall err c s,
    sock c = INVALID_SOCKET ->
    Http.out (Http.say Http.Said_closing
                (Http.say (Http.Said_win32_error err)
                   (Http.dtor (Http.set_conn c s))))
    = Http.out s ++ [Http.Said_win32_error err; Http.Said_closing] /\
    trace (Http.conn (Http.say Http.Said_closing
                        (Http.say (Http.Said_win32_error err)
                           (Http.dtor (Http.set_conn c s)))))
    = trace c /\
    Http.m_sock (Http.say Http.Said_closing
                   (Http.say (Http.Said_win32_error err)
                      (Http.dtor (Http.set_conn c s))))
    = INVALID_SOCKET.
Proof.
  intros err c s Hsock.
  destruct (socket_close_fields c) as (Ctr & Csock & _).
  unfold close_events in Ctr. rewrite Hsock in Ctr.
  change (INVALID_SOCKET =? INVALID_SOCKET) with true in Ctr.
  cbv iota in Ctr. rewrite app_nil_r in Ctr.
  split.
  - cbn [Http.say Http.out Http.set_out Http.dtor Http.set_conn
         Http.set_m_connect_ctx].
    rewrite <- app_assoc. reflexivity.
  - split.
    + change (trace (socket_close c) = trace c). exact Ctr.
    + change (sock (socket_close c) = INVALID_SOCKET). exact Csock.
Qed.

(** X9: [main] when the host cannot be resolved.  Whether the lookup
    fails inside [GetAddrInfoExW] or later through its completion
    routine, [main] returns 0 having printed the connect announcement,
    the resolver's error code and the closing line, and nothing else; no
    socket was created. *)
Theorem main_reports_resolution_failure :
  forall e fuel gas mem buffer buffer_len err,
    Http.m_svc mem = mkPort [] [] ->
    resolution_fails (Http.net e) err ->
    (1 <= fuel)%nat ->
    exists s,
      Http.main e fuel gas mem buffer buffer_len = Some (Http.Returned 0 s) /\
      Http.out s
      = Http.out mem ++ [Http.Said_connecting; Http.Said_win32_error err;
                         Http.Said_closing] /\
      filter is_socket_event (trace (Http.conn s))
      = filter is_socket_event (trace (Http.conn mem)) /\
      Http.m_sock s = INVALID_SOCKET.
Proof.
  intros e fuel gas mem buffer buffer_len err Hidle F Hfuel.
  unfold Http.main, Http.try_block. rewrite step_unfold_on_start.
  destruct (connecting_fields mem buffer buffer_len Hidle)
    as (Cidle & Cb & Ctr & Csock).
  assert (Cout : Http.out (connecting mem buffer buffer_len)
                 = Http.out mem ++ [Http.Said_connecting]) by reflexivity.
  assert (Cst : forall c, Http.m_state (Http.set_conn c
                            (connecting mem buffer buffer_len))
                          = Http.on_connect) by reflexivity.
  assert (Cop : m_op (Http.m_connect_ctx (connecting mem buffer buffer_len))
                = Http.p_op) by reflexivity.
  revert Cidle Cb Ctr Csock Cout Cst Cop.
  generalize (connecting mem buffer buffer_len).
  intros s0 Cidle Cb Ctr Csock Cout Cst Cop.
  destruct F as [Hne [[Hg Hp]|[Hg Hl]]].
  - (* the lookup fails inside the call *)
    destruct (compound_call_fails_inline (Http.net e) (Http.svc_handle e)
                (Http.L_google_com e) (Http.L_http e) buffer buffer_len
                (Http.conn s0) err Cidle Cb Hg Hne Hp)
      as (sF & Hcall & Herr & Htr & Hsock & _).
    rewrite Hcall. cbn [negb].
    rewrite (on_connect_label_throws e gas (Http.set_conn sF s0) err Herr Hne).
    eexists. split; [reflexivity|].
    destruct (unwound_fields err sF s0) as (U1 & U2 & U3).
    { rewrite Hsock. exact Csock. }
    rewrite U1, U2, U3, Cout, Htr, Ctr, <- app_assoc, socket_events_app.
    cbn [filter is_socket_event app]. rewrite app_nil_r.
    split; [reflexivity|]. split; reflexivity.
  - (* the lookup is pending and its completion routine gets the error *)
    destruct (compound_call_pending (Http.net e) (Http.svc_handle e)
                (Http.L_google_com e) (Http.L_http e) buffer buffer_len
                (Http.conn s0) Cidle Cb Hg)
      as (sP & Hcall & Pport & Pop & Pst & Ptr & A).
    rewrite Hcall. cbn [negb].
    destruct fuel as [|n]; [lia|].
    rewrite (run_loop_one e n gas (Http.set_conn sP s0) p_resolve_ctx [])
      by exact Pport.
    unfold Http.hook.
    rewrite (lookup_hook_unfold e gas (Http.set_conn sP s0) Pport Pop Pst).
    change (Http.conn (Http.set_conn sP s0)) with sP.
    rewrite (on_resolve_error (Http.net e) _ _ _ _ err
               (conj Hne (or_intror (conj Hg Hl))) A).
    destruct (finish_fields err 0 0 (resolve_resumed (Http.net e) sP))
      as (sF & HF & Ftr & Fbase & Fsock & _ & _ & _ & _).
    destruct A as (Atr & Asock & _ & Async & _).
    assert (Hpend : (gai_ret (env_gai (Http.net e)) =? ERROR_IO_PENDING) = true)
      by (rewrite Hg; reflexivity).
    rewrite Hpend in Async. unfold resolution_events in Atr.
    rewrite Hpend in Atr. rewrite Async in Ftr. rewrite Atr in Ftr.
    rewrite Asock in Fsock.
    revert HF Ftr Fbase Fsock.
    generalize (resolve_resumed (Http.net e) sP). intros s1 HF Ftr Fbase Fsock.
    rewrite HF.
    assert (Hgrew : (length (completions (trace sP))
                     <? length (completions (trace sF)))%nat = true).
    { rewrite Ftr, Ptr, !completions_app. cbn. rewrite !app_nil_r.
      rewrite length_app. cbn. apply Nat.ltb_lt. lia. }
    rewrite Hgrew.
    change (m_op (Http.m_connect_ctx (Http.set_conn sP s0)))
      with (m_op (Http.m_connect_ctx s0)).
    rewrite Cop. unfold Http.step_at.
    change (Nat.eqb Http.p_op Http.p_op) with true. cbv iota.
    change (Http.set_conn sF (Http.set_conn sP s0)) with (Http.set_conn sF s0).
    unfold Http.step. rewrite Cst.
    assert (Herr : m_error (rc_base (Http.conn (Http.set_conn sF s0))) = err).
    { change (m_error (rc_base sF) = err). rewrite Fbase. reflexivity. }
    rewrite (on_connect_label_throws e gas (Http.set_conn sF s0) err Herr Hne).
    eexists. split; [reflexivity|].
    destruct (unwound_fields err sF s0) as (U1 & U2 & U3).
    { rewrite Fsock. exact Csock. }
    rewrite U1, U2, U3, Cout, Ftr, Ctr, <- !app_assoc, !socket_events_app.
    cbn [filter is_socket_event app]. rewrite app_nil_r.
    split; [reflexivity|]. split; reflexivity.
Qed.

Lemma resolution_failure_main_witness :
  exists s,
    Http.main
      (Http.mkWorld SampleRun.env_no_host_late 55 7001 7002 SampleHttp.sends
         SampleHttp.recvs (fun _ => 0) (fun _ => 0) IoctlFound
         (SampleHttp.later 0) 9000 true 0)
      1 0 SampleHttp.memory 5000 36 = Some (Http.Returned 0 s) /\
    Http.out s = [Http.Said_connecting; Http.Said_win32_error 11001;
                  Http.Said_closing].
Proof.
  destruct (main_reports_resolution_failure
              (Http.mkWorld SampleRun.env_no_host_late 55 7001 7002
                 SampleHttp.sends SampleHttp.recvs (fun _ => 0) (fun _ => 0)
                 IoctlFound (SampleHttp.later 0) 9000 true 0)
              1 0 SampleHttp.memory 5000 36 11001)
    as (s & Hm & Hout & _).
  - reflexivity.
  - split; [discriminate|]. right. split; reflexivity.
  - lia.
  - exists s. split; [exact Hm|exact Hout].
Defined.

(** X10: [main] when the pending lookup succeeds with an empty list.  The
    compound operation leaves its loop at once, never calls its
    completion hook and leaves nothing with the OS, so the program's
    [step()] is never resumed: [main] prints one completion line and then
    waits in [run_many] for ever. *)
Theorem main_waits_forever_without_candidates :
  forall e fuel gas mem buffer buffer_len,
    Http.m_svc mem = mkPort [] [] ->
    gai_ret (env_gai (Http.net e)) = ERROR_IO_PENDING ->
    lk_error (env_lookup (Http.net e)) = ERROR_SUCCESS ->
    lk_stored (env_lookup (Http.net e)) = [] ->
    (2 <= fuel)%nat ->
    Http.main e fuel gas mem buffer buffer_len = Some Http.Waits_forever /\
    exists s disp,
      Http.try_block e fuel gas mem buffer buffer_len
      = Some (Http.Blocked s, disp) /\
      Http.out s = Http.out mem ++ [Http.Said_connecting; Http.Said_completed] /\
      Http.m_state s = Http.on_connect.
Proof.
  intros e fuel gas mem buffer buffer_len Hidle Hg Hl Hs Hfuel.
  assert (Hmain : forall s disp,
             Http.try_block e fuel gas mem buffer buffer_len
             = Some (Http.Blocked s, disp) ->
             Http.main e fuel gas mem buffer buffer_len
             = Some Http.Waits_forever).
  { intros s disp Ht. unfold Http.main. rewrite Ht. reflexivity. }
  assert (Hgoal : exists s disp,
             Http.try_block e fuel gas mem buffer buffer_len
             = Some (Http.Blocked s, disp) /\
             Http.out s = Http.out mem ++ [Http.Said_connecting; Http.Said_completed] /\
             Http.m_state s = Http.on_connect).
  2:{ destruct Hgoal as (s & disp & Ht & Hout & Hst).
      split; [exact (Hmain s disp Ht)|]. exists s, disp. auto. }
  clear Hmain.
  unfold Http.try_block. rewrite step_unfold_on_start.
  destruct (connecting_fields mem buffer buffer_len Hidle)
    as (Cidle & Cb & Ctr & Csock).
  assert (Cout : Http.out (connecting mem buffer buffer_len)
                 = Http.out mem ++ [Http.Said_connecting]) by reflexivity.
  assert (Cst : forall c, Http.m_state (Http.set_conn c
                            (connecting mem buffer buffer_len))
                          = Http.on_connect) by reflexivity.
  assert (Cres : m_result (base (resolve_ctx
                    (Http.conn (connecting mem buffer buffer_len)))) = [])
    by reflexivity.
  revert Cidle Cb Ctr Csock Cout Cst Cres.
  generalize (connecting mem buffer buffer_len).
  intros s0 Cidle Cb Ctr Csock Cout Cst Cres.
  destruct (compound_call_pending (Http.net e) (Http.svc_handle e)
              (Http.L_google_com e) (Http.L_http e) buffer buffer_len
              (Http.conn s0) Cidle Cb Hg)
    as (sP & Hcall & Pport & Pop & Pst & Ptr & A).
  rewrite Hcall. cbn [negb].
  destruct fuel as [|[|n]]; [lia|lia|].
  rewrite (run_loop_one e (S n) gas (Http.set_conn sP s0) p_resolve_ctx [])
    by exact Pport.
  unfold Http.hook.
  rewrite (lookup_hook_unfold e gas (Http.set_conn sP s0) Pport Pop Pst).
  change (Http.conn (Http.set_conn sP s0)) with sP.
  rewrite (on_resolve_nothing (Http.net e) _ _ _ _
             (conj Cres (or_intror (conj Hg (conj Hl Hs)))) A).
  destruct A as (Atr & _ & _ & _ & Aidle & _).
  assert (Hpend : (gai_ret (env_gai (Http.net e)) =? ERROR_IO_PENDING) = true)
    by (rewrite Hg; reflexivity).
  unfold resolution_events in Atr. rewrite Hpend in Atr.
  unfold idle in Aidle.
  revert Atr Aidle.
  generalize (resolve_resumed (Http.net e) sP). intros s1 Atr Aidle.
  assert (Hgrew : (length (completions (trace sP))
                   <? length (completions (trace (set_iter [] s1))))%nat = false).
  { change (trace (set_iter [] s1)) with (trace s1).
    rewrite Atr, Ptr, !completions_app. cbn. rewrite !app_nil_r.
    apply Nat.ltb_ge. lia. }
  rewrite Hgrew.
  change (Http.set_conn (set_iter [] s1) (Http.set_conn sP s0))
    with (Http.set_conn (set_iter [] s1) s0).
  rewrite run_loop_blocked by exact Aidle.
  eexists. eexists. split; [reflexivity|].
  split.
  - cbn [Http.say Http.out Http.set_out Http.set_conn Http.set_m_connect_ctx].
    rewrite Cout, <- app_assoc. reflexivity.
  - exact (Cst (set_iter [] s1)).
Qed.

Lemma main_waits_forever_witness :
  Http.main
    (Http.mkWorld
       (mkEnv (mkGai ERROR_IO_PENDING None) (mkLookup 0 [])
          (fun _ => SampleRun.refused_inline))
       55 7001 7002 SampleHttp.sends SampleHttp.recvs (fun _ => 0)
       (fun _ => 0) IoctlFound (SampleHttp.later 0) 9000 true 0)
    2 0 SampleHttp.memory 5000 36 = Some Http.Waits_forever.
Proof.
  apply (main_waits_forever_without_candidates
           (Http.mkWorld
              (mkEnv (mkGai ERROR_IO_PENDING None) (mkLookup 0 [])
                 (fun _ => SampleRun.refused_inline))
              55 7001 7002 SampleHttp.sends SampleHttp.recvs (fun _ => 0)
              (fun _ => 0) IoctlFound (SampleHttp.later 0) 9000 true 0)
           2 0 SampleHttp.memory 5000 36); reflexivity.
Defined.

(** ** The exchange, call by call *)

Lemma classify_inline :
  forall a fl c w p,
    call_done a = true ->
    classify a fl c (os_overlapped_call p a w)
    = mkIssued true (set_flags fl (set_error ERROR_SUCCESS c)) w.
Proof.
  intros a fl c w p H. unfold classify, os_overlapped_call, is_pending.
  rewrite H. reflexivity.
Qed.

Lemma classify_late :
  forall a fl c w p,
    call_done a = false -> last_error a = ERROR_IO_PENDING ->
    classify a fl c (os_overlapped_call p a w)
    = mkIssued false c (handed_over p w).
Proof.
  intros a fl c w p H1 H2. unfold classify, os_overlapped_call, is_pending.
  rewrite H1, H2. reflexivity.
Qed.

(** The two ways a call can move [n] bytes. *)
Lemma moved_cases :
  forall a n,
    moved a = Some n ->
    (call_done (Http.io_call a) = true /\
     bytes_stored (Http.io_call a) = Some n) \/
    (call_done (Http.io_call a) = false /\
     last_error (Http.io_call a) = ERROR_IO_PENDING /\
     forall c,
       m_error (socket_completion_func (Http.io_result a) c) = ERROR_SUCCESS /\
       m_transferred (socket_completion_func (Http.io_result a) c) = n).
Proof.
  intros a n H. unfold moved in H.
  destruct (call_done (Http.io_call a)); [left; auto|right].
  destruct (last_error (Http.io_call a) =? ERROR_IO_PENDING) eqn:Hp;
    [|discriminate].
  apply Z.eqb_eq in Hp.
  destruct (ovl_ok (Http.io_result a)) eqn:Hok; [|discriminate].
  injection H as <-.
  split; [reflexivity|]. split; [exact Hp|].
  intros c. unfold socket_completion_func. rewrite Hok. split; reflexivity.
Qed.

Lemma completes_cases :
  forall a,
    completes a = true ->
    call_done (Http.io_call a) = true \/
    (call_done (Http.io_call a) = false /\
     last_error (Http.io_call a) = ERROR_IO_PENDING /\
     forall c,
       m_error (socket_completion_func (Http.io_result a) c) = ERROR_SUCCESS).
Proof.
  intros a H. unfold completes in H.
  destruct (call_done (Http.io_call a)); [left; reflexivity|right].
  cbn [orb] in H. apply andb_true_iff in H. destruct H as [Hp Hok].
  apply Z.eqb_eq in Hp.
  split; [reflexivity|]. split; [exact Hp|].
  intros c. unfold socket_completion_func. rewrite Hok. reflexivity.
Qed.

Section Exchange.

Variable e : Http.world.

(** The OS completing the request on [m_ctx] and the wait taking its
    packet leave the program as it was, with an empty port. *)
Lemma os_turn_ctx :
  forall s,
    Http.m_svc s = mkPort [Http.p_ctx] [] ->
    Http.set_m_svc (mkPort [] []) (Http.os_turn e s)
    = Http.set_m_svc (mkPort [] []) s.
Proof.
  intros s H. unfold Http.os_turn. rewrite H. cbn [queue].
  unfold os_finish. unfold Http.m_svc in H. rewrite H. cbn [inflight].
  change (Nat.eqb Http.p_ctx p_resolve_ctx) with false. cbv iota.
  reflexivity.
Qed.

Lemma run_loop_hook :
  forall n gas s q disp,
    Http.m_svc s = mkPort [q] [] ->
    Http.run_loop e (S n) gas (mkDriven (Some s) disp)
    = after_hook e n gas disp q
        (Http.hook_at e gas q
           (Http.set_m_svc (mkPort [] []) (Http.os_turn e s))).
Proof.
  intros n gas s q disp Hq.
  rewrite (run_loop_one e n gas s q disp Hq). unfold Http.hook, after_hook.
  destruct (Http.hook_at e gas q _) as [[u s1|err s1|]|]; reflexivity.
Qed.

(** The hook of [m_ctx] re-enters [step()] with the completed request
    recorded. *)
Lemma ctx_hook_unfold :
  forall gas s,
    Http.m_svc s = mkPort [Http.p_ctx] [] ->
    m_op (Http.m_ctx s) = Http.p_op ->
    Http.hook_at e gas Http.p_ctx
      (Http.set_m_svc (mkPort [] []) (Http.os_turn e s))
    = Http.step e gas
        (Http.set_m_ctx
           (mkAsync
              (socket_completion_func
                 match Http.m_state s with
                 | Http.on_send =>
                     Http.io_result (Http.on_send_call e (pred (Http.sends s)))
                 | Http.on_receive =>
                     Http.io_result (Http.on_recv_call e (pred (Http.recvs s)))
                 | _ => Http.io_result (Http.on_disconnect_call e)
                 end (base (Http.m_ctx s)))
              Http.p_op)
           (Http.set_m_svc (mkPort [] []) s)).
Proof.
  intros gas s Hp Hop. rewrite (os_turn_ctx s Hp).
  unfold Http.hook_at.
  change (Nat.eqb Http.p_ctx Http.p_ctx) with true. cbv iota.
  unfold Http.ctx_completion_func. cbv zeta.
  change (m_op (Http.m_ctx (Http.set_m_svc (mkPort [] []) s)))
    with (m_op (Http.m_ctx s)).
  rewrite Hop. unfold Http.step_at.
  change (Nat.eqb Http.p_op Http.p_op) with true. cbv iota.
  reflexivity.
Qed.

(** The sentinel on an otherwise empty port stops the loop. *)
Lemma run_loop_sentinel :
  forall n gas s disp,
    Http.m_svc s = mkPort [] [mkPacket KEY_SHUTDOWN None] ->
    Http.run_loop e (S n) gas (mkDriven (Some s) disp)
    = Some (Http.Stopped (Http.set_m_svc (mkPort [] []) s), disp).
Proof.
  intros n gas s disp Hsd.
  cbn [Http.run_loop prog dispatched]. cbv zeta.
  assert (Ht : Http.os_turn e s = s).
  { unfold Http.os_turn. rewrite Hsd. reflexivity. }
  rewrite Ht, Hsd.
  cbn [GetQueuedCompletionStatusEx queue firstn skipn inflight].
  unfold run_many.
  cbn [gqx_ret negb gqx_entries run_entries lpCompletionKey lpOverlapped
       prog dispatched].
  change (KEY_SHUTDOWN =? KEY_RUN) with false. cbv iota.
  reflexivity.
Qed.

End Exchange.

Section ExchangePhases.

Variable e : Http.world.

Lemma on_disconnect_stops :
  forall n gas disp q s,
    Http.post_ok e = true ->
    m_error (base (Http.m_ctx s)) = ERROR_SUCCESS ->
    Http.m_svc s = mkPort [] [] ->
    stops_after (Http.sends s) (Http.recvs s)
      (after_hook e (S n) gas disp q (Some (Http.on_disconnect_label e s))).
Proof.
  intros n gas disp q s Hpost Herr Hidle.
  unfold Http.on_disconnect_label, Http.check, check_error.
  rewrite Herr. change (ERROR_SUCCESS =? ERROR_SUCCESS) with true.
  cbn [bind]. unfold Http.svc_shutdown, shutdown. cbv zeta.
  rewrite Hpost. cbn [negb].
  destruct (socket_close_fields (Http.conn s))
    as (_ & _ & _ & _ & _ & _ & _ & Cport).
  change (Http.conn (Http.say Http.Said_disconnected s)) with (Http.conn s).
  change (Http.m_svc (Http.say Http.Called_post_shutdown
            (Http.set_conn (socket_close (Http.conn s))
               (Http.say Http.Said_disconnected s))))
    with (the_port (socket_close (Http.conn s))).
  rewrite Cport. change (the_port (Http.conn s)) with (Http.m_svc s).
  rewrite Hidle.
  unfold after_hook.
  rewrite run_loop_sentinel by reflexivity.
  eexists. eexists. split; [reflexivity|]. split; reflexivity.
Qed.

Lemma after_receive_stops :
  forall n gas disp q s,
    Http.on_shutdown e Http.SD_RECEIVE = 0 ->
    Http.disconnect_ioctl e = IoctlFound ->
    completes (Http.on_disconnect_call e) = true ->
    Http.post_ok e = true ->
    Http.m_svc s = mkPort [] [] ->
    m_op (Http.m_ctx s) = Http.p_op ->
    stops_after (Http.sends s) (Http.recvs s)
      (after_hook e (S (S n)) gas disp q (Some (Http.after_receive_loop e s))).
Proof.
  intros n gas disp q s Hsd Hio Hdisc Hpost Hidle Hop.
  unfold Http.after_receive_loop, Http.socket_shutdown. cbv zeta.
  rewrite Hsd. change (negb (0 =? 0)) with false. cbv iota. cbn [bind].
  unfold disconnect.
  cbn [Http.winsock_at WSAIoctl_DisconnectEx DisconnectEx]. rewrite Hio.
  match goal with
  | |- context [Http.put (classify ?a ?fl ?c (os_overlapped_call ?p ?a ?w)) ?x] =>
      change w with (Http.m_svc s);
      set (c0 := c); set (x0 := x)
  end.
  assert (X1 : Http.sends x0 = Http.sends s) by reflexivity.
  assert (X2 : Http.recvs x0 = Http.recvs s) by reflexivity.
  assert (X3 : m_op (Http.m_ctx x0) = Http.p_op) by exact Hop.
  assert (X4 : Http.m_state x0 = Http.on_disconnect) by reflexivity.
  clearbody x0 c0. rewrite Hidle.
  destruct (completes_cases _ Hdisc) as [Hdone|(Hnot & Hpend & Hres)].
  - rewrite (classify_inline _ _ _ _ _ Hdone). cbn [returned negb].
    rewrite <- X1, <- X2.
    apply (on_disconnect_stops (S n) gas disp q
             (Http.put (mkIssued true (set_flags 0 (set_error ERROR_SUCCESS c0))
                          (mkPort [] [])) x0)).
    + exact Hpost.
    + reflexivity.
    + reflexivity.
  - rewrite (classify_late _ _ _ _ _ Hnot Hpend). cbn [returned negb].
    unfold after_hook at 1.
    rewrite (run_loop_hook e (S n) gas _ Http.p_ctx) by reflexivity.
    rewrite ctx_hook_unfold; [|reflexivity|exact X3].
    match goal with
    | |- context [Http.step e gas ?y] => set (y0 := y)
    end.
    assert (Y1 : Http.sends y0 = Http.sends s) by exact X1.
    assert (Y2 : Http.recvs y0 = Http.recvs s) by exact X2.
    assert (Y3 : Http.m_state y0 = Http.on_disconnect) by exact X4.
    assert (Y4 : Http.m_svc y0 = mkPort [] []) by reflexivity.
    assert (Y5 : m_error (base (Http.m_ctx y0)) = ERROR_SUCCESS).
    { subst y0.
      cbn [Http.m_ctx Http.set_m_ctx base Http.m_state Http.say Http.set_out
           Http.put Http.set_m_svc Http.set_conn Http.set_m_connect_ctx].
      rewrite X4. apply Hres. }
    clearbody y0.
    unfold Http.step. rewrite Y3. rewrite <- Y1, <- Y2.
    exact (on_disconnect_stops n gas _ Http.p_ctx y0 Hpost Y5 Y4).
Qed.

End ExchangePhases.

Section ReceivePhase.

Variable e : Http.world.
Hypothesis Hsd : Http.on_shutdown e Http.SD_RECEIVE = 0.
Hypothesis Hio : Http.disconnect_ioctl e = IoctlFound.
Hypothesis Hdisc : completes (Http.on_disconnect_call e) = true.
Hypothesis Hpost : Http.post_ok e = true.

(** From [case on_receive:] on, for a receive that brought [n] bytes. *)
Lemma received_unfold :
  forall gas n s,
    m_error (base (Http.m_ctx s)) = ERROR_SUCCESS ->
    m_transferred (base (Http.m_ctx s)) = n ->
    Http.obind (Http.received s)
      (fun again s1 => if again then Http.receive_loop e gas s1
                       else Some (Http.after_receive_loop e s1))
    = if n =? 0
      then Some (Http.after_receive_loop e (Http.say (Http.Said_received n) s))
      else Http.receive_loop e gas (Http.say (Http.Said_received n) s).
Proof.
  intros gas n s Herr Hn. unfold Http.received, Http.check, check_error.
  rewrite Herr. change (ERROR_SUCCESS =? ERROR_SUCCESS) with true.
  cbn [bind Http.obind]. unfold transferred.
  change (base (Http.m_ctx (Http.say
            (Http.Said_received (m_transferred (base (Http.m_ctx s)))) s)))
    with (base (Http.m_ctx s)).
  rewrite Hn. destruct (n =? 0); reflexivity.
Qed.

Lemma receive_phase :
  forall gas rs g fuel disp q s,
    serves (Http.on_recv_call e) (Http.recvs s) (rs ++ [0]) = true ->
    forallb (fun n => negb (n =? 0)) rs = true ->
    Http.m_svc s = mkPort [] [] ->
    m_op (Http.m_ctx s) = Http.p_op ->
    (length rs + 1 <= g)%nat -> (length rs + 1 <= gas)%nat ->
    (length rs + 3 <= fuel)%nat ->
    stops_after (Http.sends s) (Http.recvs s + length rs + 1)%nat
      (after_hook e fuel gas disp q (Http.receive_loop e g s)).
Proof.
  intros gas rs. induction rs as [|n0 rs IH];
    intros g fuel disp q s Hserves Hnz Hidle Hop Hg Hgas Hfuel.
  - (* the receive that brings nothing *)
    cbn [app serves] in Hserves.
    destruct (moved (Http.on_recv_call e (Http.recvs s))) as [m|] eqn:Hm;
      [|discriminate].
    rewrite andb_true_r in Hserves. apply Z.eqb_eq in Hserves. subst m.
    cbn [length] in *.
    assert (Hcont : forall g1 fuel1 disp1 q1 sx,
               m_error (base (Http.m_ctx sx)) = ERROR_SUCCESS ->
               m_transferred (base (Http.m_ctx sx)) = 0 ->
               Http.m_svc sx = mkPort [] [] ->
               m_op (Http.m_ctx sx) = Http.p_op ->
               Http.sends sx = Http.sends s ->
               Http.recvs sx = S (Http.recvs s) ->
               (2 <= fuel1)%nat ->
               stops_after (Http.sends s) (Http.recvs s + 0 + 1)%nat
                 (after_hook e fuel1 gas disp1 q1
                    (Http.obind (Http.received sx)
                       (fun again s1 =>
                          if again then Http.receive_loop e g1 s1
                          else Some (Http.after_receive_loop e s1))))).
    { intros g1 fuel1 disp1 q1 sx E1 E2 E3 E4 E5 E6 E7.
      rewrite (received_unfold g1 0 sx E1 E2).
      change (0 =? 0) with true. cbv iota.
      destruct fuel1 as [|[|f]]; [lia|lia|].
      replace (Http.recvs s + 0 + 1)%nat with (Http.recvs sx) by lia.
      rewrite <- E5.
      exact (after_receive_stops e f gas disp1 q1
               (Http.say (Http.Said_received 0) sx) Hsd Hio Hdisc Hpost E3 E4). }
    destruct g as [|g']; [lia|].
    cbn [Http.receive_loop]. cbv zeta.
    unfold receive, receive_bufs. cbn [Http.winsock_at WSARecv].
    match goal with
    | |- context [Http.put (classify ?a ?fl ?c (os_overlapped_call ?p ?a ?w)) ?x] =>
        set (fl0 := fl); set (c0 := c); set (x0 := x);
        change a with (Http.io_call (Http.on_recv_call e (Http.recvs s)));
        change w with (Http.m_svc s)
    end.
    assert (X1 : Http.sends x0 = Http.sends s) by reflexivity.
    assert (X2 : Http.recvs x0 = S (Http.recvs s)) by reflexivity.
    assert (X3 : m_op (Http.m_ctx x0) = Http.p_op) by exact Hop.
    assert (X4 : Http.m_state x0 = Http.on_receive) by reflexivity.
    assert (C0 : c0 = store_bytes
                        (bytes_stored (Http.io_call
                           (Http.on_recv_call e (Http.recvs s))))
                        (init (Http.m_sock s) (base (Http.m_ctx s))))
      by reflexivity.
    clearbody x0 c0 fl0. rewrite Hidle.
    destruct (moved_cases _ _ Hm) as [(Hdone & Hst)|(Hnot & Hpend & Hres)].
    + rewrite (classify_inline _ _ _ _ _ Hdone). cbn [returned negb].
      apply Hcont; try reflexivity; try assumption.
      * rewrite C0, Hst. reflexivity.
      * lia.
    + rewrite (classify_late _ _ _ _ _ Hnot Hpend). cbn [returned negb].
      unfold after_hook at 1.
      destruct fuel as [|fuel']; [lia|].
      rewrite (run_loop_hook e fuel' gas _ Http.p_ctx) by reflexivity.
      rewrite ctx_hook_unfold; [|reflexivity|exact X3].
      match goal with
      | |- context [Http.step e gas ?y] => set (y0 := y)
      end.
      assert (Y1 : Http.sends y0 = Http.sends s) by exact X1.
      assert (Y2 : Http.recvs y0 = S (Http.recvs s)) by exact X2.
      assert (Y3 : Http.m_state y0 = Http.on_receive) by exact X4.
      assert (Y4 : Http.m_svc y0 = mkPort [] []) by reflexivity.
      assert (Y6 : m_op (Http.m_ctx y0) = Http.p_op) by reflexivity.
      assert (Y5 : m_error (base (Http.m_ctx y0)) = ERROR_SUCCESS /\
                   m_transferred (base (Http.m_ctx y0)) = 0).
      { subst y0.
        cbn [Http.m_ctx Http.set_m_ctx base Http.m_state Http.say Http.set_out
             Http.put Http.set_m_svc Http.set_conn Http.set_m_connect_ctx
             Http.recvs].
        rewrite X4, X2. cbn [pred]. apply Hres. }
      clearbody y0. destruct Y5 as [Y5 Y7].
      unfold Http.step. rewrite Y3. unfold Http.on_receive_label.
      apply Hcont; try assumption. lia.
  - (* a receive that brings bytes *)
    cbn [app serves] in Hserves.
    destruct (moved (Http.on_recv_call e (Http.recvs s))) as [m|] eqn:Hm;
      [|discriminate].
    apply andb_true_iff in Hserves. destruct Hserves as [Hmn Hrest].
    apply Z.eqb_eq in Hmn. subst m.
    cbn [forallb] in Hnz. apply andb_true_iff in Hnz.
    destruct Hnz as [Hn0 Hnz]. apply negb_true_iff in Hn0.
    cbn [length] in *.
    assert (Hcont : forall g1 fuel1 disp1 q1 sx,
               m_error (base (Http.m_ctx sx)) = ERROR_SUCCESS ->
               m_transferred (base (Http.m_ctx sx)) = n0 ->
               Http.m_svc sx = mkPort [] [] ->
               m_op (Http.m_ctx sx) = Http.p_op ->
               Http.sends sx = Http.sends s ->
               Http.recvs sx = S (Http.recvs s) ->
               (length rs + 1 <= g1)%nat ->
               (length rs + 3 <= fuel1)%nat ->
               stops_after (Http.sends s) (Http.recvs s + S (length rs) + 1)%nat
                 (after_hook e fuel1 gas disp1 q1
                    (Http.obind (Http.received sx)
                       (fun again s1 =>
                          if again then Http.receive_loop e g1 s1
                          else Some (Http.after_receive_loop e s1))))).
    { intros g1 fuel1 disp1 q1 sx E1 E2 E3 E4 E5 E6 E7 E8.
      rewrite (received_unfold g1 n0 sx E1 E2). rewrite Hn0.
      replace (Http.recvs s + S (length rs) + 1)%nat
        with (Http.recvs (Http.say (Http.Said_received n0) sx)
              + length rs + 1)%nat
        by (change (Http.recvs (Http.say (Http.Said_received n0) sx))
              with (Http.recvs sx); lia).
      rewrite <- E5.
      apply (IH g1 fuel1 disp1 q1 (Http.say (Http.Said_received n0) sx)).
      - change (Http.recvs (Http.say (Http.Said_received n0) sx))
          with (Http.recvs sx). rewrite E6. exact Hrest.
      - exact Hnz.
      - exact E3.
      - exact E4.
      - exact E7.
      - lia.
      - exact E8. }
    destruct g as [|g']; [lia|].
    cbn [Http.receive_loop]. cbv zeta.
    unfold receive, receive_bufs. cbn [Http.winsock_at WSARecv].
    match goal with
    | |- context [Http.put (classify ?a ?fl ?c (os_overlapped_call ?p ?a ?w)) ?x] =>
        set (fl0 := fl); set (c0 := c); set (x0 := x);
        change a with (Http.io_call (Http.on_recv_call e (Http.recvs s)));
        change w with (Http.m_svc s)
    end.
    assert (X1 : Http.sends x0 = Http.sends s) by reflexivity.
    assert (X2 : Http.recvs x0 = S (Http.recvs s)) by reflexivity.
    assert (X3 : m_op (Http.m_ctx x0) = Http.p_op) by exact Hop.
    assert (X4 : Http.m_state x0 = Http.on_receive) by reflexivity.
    assert (C0 : c0 = store_bytes
                        (bytes_stored (Http.io_call
                           (Http.on_recv_call e (Http.recvs s))))
                        (init (Http.m_sock s) (base (Http.m_ctx s))))
      by reflexivity.
    clearbody x0 c0 fl0. rewrite Hidle.
    destruct (moved_cases _ _ Hm) as [(Hdone & Hst)|(Hnot & Hpend & Hres)].
    + rewrite (classify_inline _ _ _ _ _ Hdone). cbn [returned negb].
      apply Hcont; try reflexivity; try assumption.
      * rewrite C0, Hst. reflexivity.
      * lia.
      * lia.
    + rewrite (classify_late _ _ _ _ _ Hnot Hpend). cbn [returned negb].
      unfold after_hook at 1.
      destruct fuel as [|fuel']; [lia|].
      rewrite (run_loop_hook e fuel' gas _ Http.p_ctx) by reflexivity.
      rewrite ctx_hook_unfold; [|reflexivity|exact X3].
      match goal with
      | |- context [Http.step e gas ?y] => set (y0 := y)
      end.
      assert (Y1 : Http.sends y0 = Http.sends s) by exact X1.
      assert (Y2 : Http.recvs y0 = S (Http.recvs s)) by exact X2.
      assert (Y3 : Http.m_state y0 = Http.on_receive) by exact X4.
      assert (Y4 : Http.m_svc y0 = mkPort [] []) by reflexivity.
      assert (Y6 : m_op (Http.m_ctx y0) = Http.p_op) by reflexivity.
      assert (Y5 : m_error (base (Http.m_ctx y0)) = ERROR_SUCCESS /\
                   m_transferred (base (Http.m_ctx y0)) = n0).
      { subst y0.
        cbn [Http.m_ctx Http.set_m_ctx base Http.m_state Http.say Http.set_out
             Http.put Http.set_m_svc Http.set_conn Http.set_m_connect_ctx
             Http.recvs].
        rewrite X4, X2. cbn [pred]. apply Hres. }
      clearbody y0. destruct Y5 as [Y5 Y7].
      unfold Http.step. rewrite Y3. unfold Http.on_receive_label.
      apply Hcont; try assumption; lia.
Qed.

End ReceivePhase.

Lemma to_int_small : forall x, 0 <= x < 2 ^ 31 -> Http.to_int x = x.
Proof.
  intros x H. unfold Http.to_int.
  rewrite Z.mod_small by lia. lia.
Qed.

Lemma sum_nonneg :
  forall ns, forallb (fun n => 0 <? n) ns = true -> 0 <= sum ns.
Proof.
  induction ns as [|n ns IH]; intros H; cbn [sum]; [lia|].
  cbn [forallb] in H. apply andb_true_iff in H. destruct H as [Hn Hr].
  apply Z.ltb_lt in Hn. specialize (IH Hr). lia.
Qed.

Section SendPhase.

Variable e : Http.world.
Hypothesis Hsd : Http.on_shutdown e Http.SD_RECEIVE = 0.
Hypothesis Hss : Http.on_shutdown e Http.SD_SEND = 0.
Hypothesis Hio : Http.disconnect_ioctl e = IoctlFound.
Hypothesis Hdisc : completes (Http.on_disconnect_call e) = true.
Hypothesis Hpost : Http.post_ok e = true.

(** From [case on_send:] on, for a send that took [n] bytes. *)
Lemma sent_unfold :
  forall gas n s,
    m_error (base (Http.m_ctx s)) = ERROR_SUCCESS ->
    m_transferred (base (Http.m_ctx s)) = n ->
    Http.obind (Http.sent s) (fun _ s1 => Http.send_loop e gas s1)
    = Http.send_loop e gas
        (Http.advance n (Http.say (Http.Said_sent n) s)).
Proof.
  intros gas n s Herr Hn. unfold Http.sent, Http.check, check_error.
  rewrite Herr. change (ERROR_SUCCESS =? ERROR_SUCCESS) with true.
  cbn [bind Http.obind]. unfold transferred.
  change (base (Http.m_ctx (Http.say
            (Http.Said_sent (m_transferred (base (Http.m_ctx s)))) s)))
    with (base (Http.m_ctx s)).
  rewrite Hn. reflexivity.
Qed.

Lemma send_phase :
  forall gas rs ns g fuel disp q s,
    serves (Http.on_send_call e) (Http.sends s) ns = true ->
    forallb (fun n => 0 <? n) ns = true ->
    sum ns < 2 ^ 31 ->
    Http.m_sendleft s = sum ns ->
    serves (Http.on_recv_call e) (Http.recvs s) (rs ++ [0]) = true ->
    forallb (fun n => negb (n =? 0)) rs = true ->
    Http.m_svc s = mkPort [] [] ->
    m_op (Http.m_ctx s) = Http.p_op ->
    (length ns + length rs + 2 <= g)%nat ->
    (length ns + length rs + 2 <= gas)%nat ->
    (length ns + length rs + 3 <= fuel)%nat ->
    stops_after (Http.sends s + length ns)%nat
      (Http.recvs s + length rs + 1)%nat
      (after_hook e fuel gas disp q (Http.send_loop e g s)).
Proof.
  intros gas rs ns. induction ns as [|n0 ns IH];
    intros g fuel disp q s Hserves Hpos Hsum Hleft Hrecv Hnz Hidle Hop
           Hg Hgas Hfuel.
  - (* nothing left to send *)
    cbn [length sum] in *.
    destruct g as [|g']; [lia|].
    cbn [Http.send_loop]. rewrite Hleft. change (0 =? 0) with true. cbv iota.
    unfold Http.after_send_loop, Http.socket_shutdown. cbv zeta.
    rewrite Hss. change (negb (0 =? 0)) with false. cbv iota.
    cbn [Http.obind].
    replace (Http.sends s + 0)%nat with (Http.sends s) by lia.
    apply (receive_phase e Hsd Hio Hdisc Hpost gas rs g' fuel disp q
             (Http.set_m_recvbuf (Some (Http.new_recvbuf e))
                (Http.say (Http.Called_shutdown (Http.m_sock s) Http.SD_SEND) s)));
      try assumption; lia.
  - (* one more send *)
    cbn [serves] in Hserves.
    destruct (moved (Http.on_send_call e (Http.sends s))) as [m|] eqn:Hm;
      [|discriminate].
    apply andb_true_iff in Hserves. destruct Hserves as [Hmn Hrest].
    apply Z.eqb_eq in Hmn. subst m.
    cbn [forallb] in Hpos. apply andb_true_iff in Hpos.
    destruct Hpos as [Hn0 Hpos]. apply Z.ltb_lt in Hn0.
    pose proof (sum_nonneg ns Hpos) as Hns.
    cbn [length sum] in *.
    assert (Hcont : forall g1 fuel1 disp1 q1 sx,
               m_error (base (Http.m_ctx sx)) = ERROR_SUCCESS ->
               m_transferred (base (Http.m_ctx sx)) = n0 ->
               Http.m_svc sx = mkPort [] [] ->
               m_op (Http.m_ctx sx) = Http.p_op ->
               Http.sends sx = S (Http.sends s) ->
               Http.recvs sx = Http.recvs s ->
               Http.m_sendleft sx = n0 + sum ns ->
               (length ns + length rs + 2 <= g1)%nat ->
               (length ns + length rs + 3 <= fuel1)%nat ->
               stops_after (Http.sends s + S (length ns))%nat
                 (Http.recvs s + length rs + 1)%nat
                 (after_hook e fuel1 gas disp1 q1
                    (Http.obind (Http.sent sx)
                       (fun _ s1 => Http.send_loop e g1 s1)))).
    { intros g1 fuel1 disp1 q1 sx E1 E2 E3 E4 E5 E6 E7 E8 E9.
      rewrite (sent_unfold g1 n0 sx E1 E2).
      set (sy := Http.advance n0 (Http.say (Http.Said_sent n0) sx)).
      assert (S1 : Http.sends sy = Http.sends sx) by reflexivity.
      assert (S2 : Http.recvs sy = Http.recvs sx) by reflexivity.
      assert (S3 : Http.m_svc sy = Http.m_svc sx) by reflexivity.
      assert (S4 : m_op (Http.m_ctx sy) = m_op (Http.m_ctx sx)) by reflexivity.
      assert (S5 : Http.m_sendleft sy = Http.to_int (Http.m_sendleft sx - n0))
        by reflexivity.
      clearbody sy.
      replace (Http.sends s + S (length ns))%nat
        with (Http.sends sy + length ns)%nat by lia.
      replace (Http.recvs s) with (Http.recvs sy) by congruence.
      apply (IH g1 fuel1 disp1 q1 sy).
      - rewrite S1, E5. exact Hrest.
      - exact Hpos.
      - lia.
      - rewrite S5, E7. replace (n0 + sum ns - n0) with (sum ns) by lia.
        apply to_int_small. lia.
      - rewrite S2, E6. exact Hrecv.
      - exact Hnz.
      - congruence.
      - congruence.
      - lia.
      - lia.
      - lia. }
    destruct g as [|g']; [lia|].
    cbn [Http.send_loop]. rewrite Hleft.
    assert (Hnz0 : (n0 + sum ns =? 0) = false) by (apply Z.eqb_neq; lia).
    rewrite Hnz0. cbv zeta.
    unfold send, send_bufs. cbn [Http.winsock_at WSASend].
    match goal with
    | |- context [Http.put (classify ?a ?fl ?c (os_overlapped_call ?p ?a ?w)) ?x] =>
        set (c0 := c); set (x0 := x);
        change a with (Http.io_call (Http.on_send_call e (Http.sends s)));
        change w with (Http.m_svc s)
    end.
    assert (X1 : Http.sends x0 = S (Http.sends s)) by reflexivity.
    assert (X2 : Http.recvs x0 = Http.recvs s) by reflexivity.
    assert (X3 : m_op (Http.m_ctx x0) = Http.p_op) by exact Hop.
    assert (X4 : Http.m_state x0 = Http.on_send) by reflexivity.
    assert (X5 : Http.m_sendleft x0 = n0 + sum ns) by exact Hleft.
    assert (C0 : c0 = store_bytes
                        (bytes_stored (Http.io_call
                           (Http.on_send_call e (Http.sends s))))
                        (init (Http.m_sock s) (base (Http.m_ctx s))))
      by reflexivity.
    clearbody x0 c0. rewrite Hidle.
    destruct (moved_cases _ _ Hm) as [(Hdone & Hst)|(Hnot & Hpend & Hres)].
    + rewrite (classify_inline _ _ _ _ _ Hdone). cbn [returned negb].
      apply Hcont; try reflexivity; try assumption.
      * rewrite C0, Hst. reflexivity.
      * lia.
      * lia.
    + rewrite (classify_late _ _ _ _ _ Hnot Hpend). cbn [returned negb].
      unfold after_hook at 1.
      destruct fuel as [|fuel']; [lia|].
      rewrite (run_loop_hook e fuel' gas _ Http.p_ctx) by reflexivity.
      rewrite ctx_hook_unfold; [|reflexivity|exact X3].
      match goal with
      | |- context [Http.step e gas ?y] => set (y0 := y)
      end.
      assert (Y1 : Http.sends y0 = S (Http.sends s)) by exact X1.
      assert (Y2 : Http.recvs y0 = Http.recvs s) by exact X2.
      assert (Y3 : Http.m_state y0 = Http.on_send) by exact X4.
      assert (Y4 : Http.m_svc y0 = mkPort [] []) by reflexivity.
      assert (Y6 : m_op (Http.m_ctx y0) = Http.p_op) by reflexivity.
      assert (Y8 : Http.m_sendleft y0 = n0 + sum ns) by exact X5.
      assert (Y5 : m_error (base (Http.m_ctx y0)) = ERROR_SUCCESS /\
                   m_transferred (base (Http.m_ctx y0)) = n0).
      { subst y0.
        cbn [Http.m_ctx Http.set_m_ctx base Http.m_state Http.say Http.set_out
             Http.put Http.set_m_svc Http.set_conn Http.set_m_connect_ctx
             Http.sends].
        rewrite X4, X1. cbn [pred]. apply Hres. }
      clearbody y0. destruct Y5 as [Y5 Y7].
      unfold Http.step. rewrite Y3. unfold Http.on_send_label.
      apply Hcont; try assumption; lia.
Qed.

End SendPhase.

(** From [case on_connect:] on, in a world that lets the exchange
    through. *)
Lemma on_connect_label_stops :
  forall e fuel gas disp q s ns rs,
    m_error (rc_base (Http.conn s)) = ERROR_SUCCESS ->
    Http.m_svc s = mkPort [] [] ->
    m_op (Http.m_ctx s) = Http.p_op ->
    Http.to_int (Http.m_sendleft s - m_transferred (rc_base (Http.conn s)))
    = sum ns ->
    cooperative e (Http.sends s) ns (Http.recvs s) rs ->
    (length ns + length rs + 2 <= gas)%nat ->
    (length ns + length rs + 3 <= fuel)%nat ->
    stops_after (Http.sends s + length ns)%nat
      (Http.recvs s + length rs + 1)%nat
      (after_hook e fuel gas disp q (Http.on_connect_label e gas s)).
Proof.
  intros e fuel gas disp q s ns rs Herr Hidle Hop Hleft
         (Hserves & Hpos & Hsum & Hrecv & Hnz & Hss & Hsd & Hio & Hdisc & Hpost)
         Hgas Hfuel.
  unfold Http.on_connect_label, Http.check, check_error.
  rewrite Herr. change (ERROR_SUCCESS =? ERROR_SUCCESS) with true.
  cbn [Http.obind]. cbv zeta. unfold transferred.
  change (Http.conn (Http.say
            (Http.Said_connected (m_transferred (rc_base (Http.conn s)))) s))
    with (Http.conn s).
  apply (send_phase e Hsd Hss Hio Hdisc Hpost gas rs ns gas fuel disp q
           (Http.advance (m_transferred (rc_base (Http.conn s)))
              (Http.say (Http.Said_connected
                           (m_transferred (rc_base (Http.conn s)))) s)));
    assumption.
Qed.

(** X11: the exchange runs to a clean stop.  When [step()] is resumed at
    [on_connect] with a successful connect recorded and nothing
    outstanding, in a world that lets the exchange through, the program
    makes one send for each of the byte counts [ns] and one receive for
    each of [rs] and a last one that brings nothing, and the loop of
    [main] ends because [run_many] returned [false], whichever of the
    calls finish at once and whichever are completed later through the
    port. *)
Theorem exchange_runs_to_clean_stop :
  forall e fuel gas disp q s ns rs,
    Http.m_state s = Http.on_connect ->
    m_error (rc_base (Http.conn s)) = ERROR_SUCCESS ->
    Http.m_svc s = mkPort [] [] ->
    m_op (Http.m_ctx s) = Http.p_op ->
    Http.to_int (Http.m_sendleft s - m_transferred (rc_base (Http.conn s)))
    = sum ns ->
    cooperative e (Http.sends s) ns (Http.recvs s) rs ->
    (length ns + length rs + 2 <= gas)%nat ->
    (length ns + length rs + 3 <= fuel)%nat ->
    stops_after (Http.sends s + length ns)%nat
      (Http.recvs s + length rs + 1)%nat
      (after_hook e fuel gas disp q (Http.step e gas s)).
Proof.
  intros e fuel gas disp q s ns rs Hst Herr Hidle Hop Hleft Hcoop Hgas Hfuel.
  unfold Http.step. rewrite Hst.
  exact (on_connect_label_stops e fuel gas disp q s ns rs
           Herr Hidle Hop Hleft Hcoop Hgas Hfuel).
Qed.

Lemma exchange_witness :
  stops_after 2 3
    (after_hook SampleHttp.good 7 6 [] p_connect_ctx
       (Http.step SampleHttp.good 6 SampleHttp.connected)).
Proof.
  apply (exchange_runs_to_clean_stop SampleHttp.good 7 6 [] p_connect_ctx
           SampleHttp.connected [20; 6] [128; 50]).
  - reflexivity.
  - reflexivity.
  - reflexivity.
  - reflexivity.
  - reflexivity.
  - unfold cooperative.
    repeat match goal with |- _ /\ _ => split end; reflexivity.
  - cbn [length]. lia.
  - cbn [length]. lia.
Defined.

(** ** The connect phase, as the program meets it *)

Lemma then_drive_inj :
  forall env disp (o1 o2 : outcome unit resolve_and_connect_context),
    then_drive env 0 disp o1 = then_drive env 0 disp o2 -> o1 = o2.
Proof.
  intros env disp o1 o2 H.
  destruct o1 as [[] s1|e1 s1|]; destruct o2 as [[] s2|e2 s2|];
    cbn [then_drive drive] in H; try discriminate; try reflexivity.
  - injection H as ->. reflexivity.
  - injection H as -> ->. reflexivity.
Qed.

(** One turn of the operation's own driver is the hook of the request the
    OS completed. *)
Lemma drive_one :
  forall env n disp s q,
    the_port s = mkPort [q] [] ->
    drive env (S n) (mkDriven s disp)
    = then_drive env n (disp ++ [q])
        (completion_func env q
           (set_the_port (mkPort [] []) (os_finish env s))).
Proof.
  intros env n disp s q Hp.
  cbn [drive]. unfold turn. cbn [prog dispatched]. rewrite Hp. cbn [queue].
  pose proof (os_finish_one env s q Hp) as Hf.
  revert Hf. generalize (os_finish env s). intros s1 Hf.
  rewrite Hf.
  unfold GetQueuedCompletionStatus.
  cbn [queue inflight lpOverlapped lpCompletionKey].
  unfold run. cbn [gq_ret gq_overlapped gq_key negb andb].
  change (KEY_RUN =? KEY_SHUTDOWN) with false. cbv iota.
  unfold dispatch. cbn [prog dispatched].
  destruct (completion_func env q (set_the_port (mkPort [] []) s1))
    as [[] s2|e s2|]; reflexivity.
Qed.

Lemma connect_hook_after_finish :
  forall env a rest s1,
    let t := env_attempt env a in
    connect_suspends t = true ->
    (connect_fails t || connect_succeeds t) = true ->
    iter s1 = a :: rest -> state s1 = on_connect ->
    the_port s1 = mkPort [p_connect_ctx] [] ->
    m_op (connect_ctx s1) = p_this ->
    completion_func env p_connect_ctx
      (set_the_port (mkPort [] []) (os_finish env (set_sync false s1)))
    = on_connect_label (connect_loop env rest) rest (resumed env a s1).
Proof.
  intros env a rest s1 t Hsusp Hfate Hiter Hstate Hport Hbc.
  apply (then_drive_inj env ([] ++ [p_connect_ctx])).
  rewrite <- (resume_pending_connect env a rest s1 0 []
                Hsusp Hfate Hiter Hstate Hport Hbc).
  cbn [then_drive]. symmetry.
  apply drive_one. exact Hport.
Qed.

(** The bytes a connect reports: what [ConnectEx] stored when it finished
    inside the call, what the completed request transferred otherwise. *)
Lemma first_candidate_connects :
  forall env a rest s n0,
    let t := env_attempt env a in
    succeeds env a = true ->
    at_ioctl t = IoctlFound ->
    moved (Http.mkIo (at_connect t) (at_result t)) = Some n0 ->
    idle (the_port s) -> bound_to_this s -> sync s = false ->
    exists sF,
      m_error (rc_base sF) = ERROR_SUCCESS /\
      m_transferred (rc_base sF) = n0 /\
      the_port sF = mkPort [] [] /\
      ((connect_suspends t = false /\
        connect_loop env (a :: rest) s = Returns tt sF /\
        completions (trace sF) = completions (trace s) ++ [EvCompleted]) \/
       (connect_suspends t = true /\
        exists sW,
          connect_loop env (a :: rest) s = Returns tt sW /\
          the_port sW = mkPort [p_connect_ctx] [] /\
          completions (trace sW) = completions (trace s) /\
          completion_func env p_connect_ctx
            (set_the_port (mkPort [] []) (os_finish env sW))
          = Returns tt sF /\
          completions (trace sF) = completions (trace sW) ++ [EvCompleted])).
Proof.
  intros env a rest s n0 t Hs Hi Hmoved Hidle [Hbr Hbc] Hsync.
  unfold idle in Hidle.
  assert (Hboth : (fails env a || succeeds env a) = true)
    by (rewrite Hs; apply orb_true_r).
  destruct (fate_of_either env a Hboth) as [Hready Hfate].
  destruct (succeeds_inv env a Hs) as [Hfail Hzero].
  fold t in Hready, Hfate, Hfail, Hzero.
  rewrite (connect_loop_cons env a rest s Hready). fold t.
  pose proof (connect_issued_completions env a rest s) as Hcomp.
  pose proof (connect_issued_fields env a rest s) as F.
  cbv zeta in F. fold t in F. rewrite connect_port in F.
  revert Hcomp F. generalize (connect_issued env a rest s).
  intros s1 Hcomp
         (Htr & Hsock & Hiter & Hstate & Hbase & Hsy & Hres & Hctx & Hport).
  rewrite Hidle in Hport.
  destruct (connect_suspends t) eqn:Hsusp.
  - (* the connect is pending *)
    assert (Hp1 : the_port s1 = mkPort [p_connect_ctx] []) by exact Hport.
    assert (Hb1 : m_op (connect_ctx s1) = p_this)
      by (rewrite Hctx; exact Hbc).
    pose proof (connect_hook_after_finish env a rest s1
                  Hsusp Hfate Hiter Hstate Hp1 Hb1) as Hhook.
    destruct (resumed_fields env a s1)
      as (Rtr & Rsock & Riter & Rstate & Rbase & Rsync & Rres & Rctx & Rport).
    fold t in Rtr, Rctx. rewrite Hfail in Rtr.
    destruct (hook_error_is_code t (base (connect_ctx s1)) Hsusp) as [Herr Hcode].
    revert Hhook Rtr Rctx Rport Rsync Rbase.
    generalize (resumed env a s1). intros s2 Hhook Rtr Rctx Rport Rsync Rbase.
    unfold on_connect_label in Hhook.
    rewrite Rctx in Hhook. cbn [base] in Hhook.
    rewrite Herr, Hfail in Hhook.
    unfold transferred, flags in Hhook.
    destruct (finish_fields ERROR_SUCCESS
                (m_transferred (socket_completion_func (at_result t)
                                  (base (connect_ctx s1))))
                (m_flags (socket_completion_func (at_result t)
                            (base (connect_ctx s1)))) s2)
      as (sF & HF & Ftr & Fbase & _ & _ & _ & _ & Fport).
    rewrite HF in Hhook. rewrite Rsync in Ftr.
    exists sF.
    assert (Hn0 : m_transferred (socket_completion_func (at_result t)
                                   (base (connect_ctx s1))) = n0).
    { unfold moved in Hmoved. cbn [Http.io_call Http.io_result] in Hmoved.
      unfold connect_suspends in Hsusp. rewrite Hi in Hsusp.
      unfold is_pending in Hsusp.
      destruct (call_done (at_connect t)); [discriminate|].
      cbn [negb andb] in Hsusp. rewrite Hsusp in Hmoved.
      destruct (ovl_ok (at_result t)); [|discriminate].
      injection Hmoved as <-. reflexivity. }
    rewrite Fbase, Fport, Rport.
    split; [reflexivity|]. split; [exact Hn0|]. split; [reflexivity|].
    right. split; [reflexivity|].
    exists (set_sync false s1).
    split; [reflexivity|]. split; [exact Hp1|]. split; [exact Hcomp|].
    split; [exact Hhook|].
    cbn [trace set_sync]. rewrite Ftr, Rtr, !completions_app.
    cbn. rewrite !app_nil_r. reflexivity.
  - (* the connect finished inside its call *)
    unfold on_connect_label.
    assert (Herr : has_error (base (connect_ctx s1)) = false).
    { rewrite Hctx. cbn [base]. unfold has_error, status.
      rewrite (connect_inline_code t _ _ _ _ _ _ _ _ Hsusp).
      unfold connect_fails in Hfail. apply negb_false_iff in Hfail.
      rewrite Hfail. reflexivity. }
    rewrite Herr.
    destruct (finish_fields ERROR_SUCCESS
                (transferred (base (connect_ctx s1)))
                (flags (base (connect_ctx s1))) s1)
      as (sF & HF & Ftr & Fbase & _ & _ & _ & _ & Fport).
    rewrite HF. rewrite Hsy, Hsync in Ftr.
    exists sF. rewrite Fbase, Fport, Hport.
    split; [reflexivity|].
    split.
    { cbn [m_transferred set_flags set_transferred]. unfold transferred.
      rewrite Hctx. cbn [base].
      unfold moved in Hmoved. cbn [Http.io_call Http.io_result] in Hmoved.
      unfold connect_suspends in Hsusp. rewrite Hi in Hsusp.
      unfold is_pending in Hsusp.
      destruct (call_done (at_connect t)) eqn:Hdone.
      - exact (connect_inline_bytes t _ _ _ _ _ _ _ _ n0 Hi Hmoved).
      - cbn [negb andb] in Hsusp. rewrite Hsusp in Hmoved. discriminate. }
    split; [reflexivity|].
    left. split; [reflexivity|]. split; [reflexivity|].
    rewrite Ftr, completions_app, Hcomp. reflexivity.
Qed.

Section ConnectPhase.

Variable e : Http.world.

(** The hook of a context inside the compound operation, dispatched by
    [run_many] after the OS completed its request. *)
Lemma inner_hook_unfold :
  forall gas s q,
    Http.m_svc s = mkPort [q] [] ->
    Nat.eqb q Http.p_ctx = false -> Nat.eqb q p_this = false ->
    Http.hook_at e gas q (Http.set_m_svc (mkPort [] []) (Http.os_turn e s))
    = match completion_func (Http.net e) q
              (set_the_port (mkPort [] [])
                 (os_finish (Http.net e) (Http.conn s))) with
      | Returns _ c =>
          if (length (completions (trace (Http.conn s)))
              <? length (completions (trace c)))%nat
          then Http.step_at e gas (m_op (Http.m_connect_ctx s))
                 (Http.set_conn c s)
          else Some (Returns tt (Http.set_conn c s))
      | Throws err c => Some (Throws err (Http.set_conn c s))
      | NullDeref => Some NullDeref
      end.
Proof.
  intros gas s q Hp Hq1 Hq2.
  unfold Http.hook_at. rewrite Hq1, Hq2.
  unfold Http.inner_completion_func.
  assert (Hc : Http.conn (Http.set_m_svc (mkPort [] []) (Http.os_turn e s))
               = set_the_port (mkPort [] []) (os_finish (Http.net e) (Http.conn s))).
  { unfold Http.os_turn. rewrite Hp. reflexivity. }
  rewrite Hc.
  change (trace (set_the_port (mkPort [] [])
                   (os_finish (Http.net e) (Http.conn s))))
    with (trace (os_finish (Http.net e) (Http.conn s))).
  rewrite trace_os_finish.
  assert (Hs : forall c,
             Http.set_conn c (Http.set_m_svc (mkPort [] []) (Http.os_turn e s))
             = Http.set_conn c s).
  { intros c. unfold Http.os_turn. rewrite Hp. reflexivity. }
  assert (Hm : m_op (Http.m_connect_ctx
                       (Http.set_m_svc (mkPort [] []) (Http.os_turn e s)))
               = m_op (Http.m_connect_ctx s)).
  { unfold Http.os_turn. rewrite Hp. reflexivity. }
  rewrite Hm.
  destruct (completion_func _ _ _) as [u c|err c|]; rewrite ?Hs; reflexivity.
Qed.

End ConnectPhase.

(** X12: [main] completes the exchange.  When the pending lookup delivers
    a list whose first address connects, at once or later, having sent
    [n0] bytes, in a world that lets the rest of the exchange through,
    the loop of [main] ends because [run_many] returned [false] and
    [main] returns 0, after one send for each of the byte counts [ns] and
    one receive for each of [rs] and a last one that brings nothing. *)
Theorem main_completes_the_exchange :
  forall e fuel gas mem buffer buffer_len a rest n0 ns rs,
    Http.m_svc mem = mkPort [] [] ->
    gai_ret (env_gai (Http.net e)) = ERROR_IO_PENDING ->
    lk_error (env_lookup (Http.net e)) = ERROR_SUCCESS ->
    lk_stored (env_lookup (Http.net e)) = a :: rest ->
    succeeds (Http.net e) a = true ->
    at_ioctl (env_attempt (Http.net e) a) = IoctlFound ->
    moved (Http.mkIo (at_connect (env_attempt (Http.net e) a))
                     (at_result (env_attempt (Http.net e) a))) = Some n0 ->
    Http.to_int (buffer_len - n0) = sum ns ->
    cooperative e (Http.sends mem) ns (Http.recvs mem) rs ->
    (length ns + length rs + 2 <= gas)%nat ->
    (length ns + length rs + 5 <= fuel)%nat ->
    exists s disp,
      Http.try_block e fuel gas mem buffer buffer_len
      = Some (Http.Stopped s, disp) /\
      Http.main e fuel gas mem buffer buffer_len
      = Some (Http.Returned 0 (Http.say Http.Said_closing (Http.dtor s))) /\
      Http.sends s = (Http.sends mem + length ns)%nat /\
      Http.recvs s = (Http.recvs mem + length rs + 1)%nat.
Proof.
  intros e fuel gas mem buffer buffer_len a rest n0 ns rs
         Hidle Hg Hl Hs Hsucc Hi Hmoved Hleft Hcoop Hgas Hfuel.
  assert (Hcore : stops_after (Http.sends mem + length ns)%nat
                    (Http.recvs mem + length rs + 1)%nat
                    (Http.try_block e fuel gas mem buffer buffer_len)).
  2:{ destruct Hcore as (s & disp & Ht & H1 & H2).
      exists s, disp. split; [exact Ht|].
      split; [unfold Http.main; rewrite Ht; reflexivity|].
      split; assumption. }
  unfold Http.try_block. rewrite step_unfold_on_start.
  destruct (connecting_fields mem buffer buffer_len Hidle)
    as (Cidle & Cb & _ & _).
  assert (Cst : forall c, Http.m_state (Http.set_conn c
                            (connecting mem buffer buffer_len))
                          = Http.on_connect) by reflexivity.
  assert (Cop : m_op (Http.m_connect_ctx (connecting mem buffer buffer_len))
                = Http.p_op) by reflexivity.
  assert (Cctx : m_op (Http.m_ctx (connecting mem buffer buffer_len))
                 = Http.p_op) by reflexivity.
  assert (Cs : Http.sends (connecting mem buffer buffer_len) = Http.sends mem)
    by reflexivity.
  assert (Cr : Http.recvs (connecting mem buffer buffer_len) = Http.recvs mem)
    by reflexivity.
  assert (Cl : Http.m_sendleft (connecting mem buffer buffer_len) = buffer_len)
    by reflexivity.
  revert Cidle Cb Cst Cop Cctx Cs Cr Cl.
  generalize (connecting mem buffer buffer_len).
  intros s0 Cidle Cb Cst Cop Cctx Cs Cr Cl.
  rewrite <- Cs, <- Cr in Hcoop |- *.
  (* what is left once the compound operation has completed in [sF] *)
  assert (Hexchange : forall f disp q sF,
             m_error (rc_base sF) = ERROR_SUCCESS ->
             m_transferred (rc_base sF) = n0 ->
             the_port sF = mkPort [] [] ->
             (length ns + length rs + 3 <= f)%nat ->
             stops_after (Http.sends s0 + length ns)%nat
               (Http.recvs s0 + length rs + 1)%nat
               (after_hook e f gas disp q
                  (Http.step e gas (Http.set_conn sF s0)))).
  { intros f disp q sF E1 E2 E3 E4.
    unfold Http.step. rewrite Cst.
    apply (on_connect_label_stops e f gas disp q (Http.set_conn sF s0) ns rs);
      try assumption.
    change (Http.to_int (Http.m_sendleft s0 - m_transferred (rc_base sF))
            = sum ns).
    rewrite Cl, E2. exact Hleft. }
  destruct (compound_call_pending (Http.net e) (Http.svc_handle e)
              (Http.L_google_com e) (Http.L_http e) buffer buffer_len
              (Http.conn s0) Cidle Cb Hg)
    as (sP & Hcall & Pport & Pop & Pst & Ptr & A).
  rewrite Hcall. cbn [negb].
  destruct fuel as [|f1]; [lia|].
  rewrite (run_loop_hook e f1 gas (Http.set_conn sP s0) p_resolve_ctx [])
    by exact Pport.
  rewrite (lookup_hook_unfold e gas (Http.set_conn sP s0) Pport Pop Pst).
  change (Http.conn (Http.set_conn sP s0)) with sP.
  assert (D : resolution_delivers (Http.net e) (Http.conn s0) (a :: rest)).
  { left. split; [exact Hg|]. split; [exact Hl|]. split; [exact Hs|].
    discriminate. }
  rewrite (delivered_enters_loop (Http.net e) _ _ _ _ _ D A).
  destruct A as (Atr & _ & _ & Async & Aidle & Ab & _).
  assert (Hpend : (gai_ret (env_gai (Http.net e)) =? ERROR_IO_PENDING) = true)
    by (rewrite Hg; reflexivity).
  rewrite Hpend in Async. unfold resolution_events in Atr.
  rewrite Hpend in Atr.
  assert (Hsame : completions (trace (resolve_resumed (Http.net e) sP))
                  = completions (trace sP)).
  { rewrite Atr, Ptr, !completions_app. reflexivity. }
  revert Atr Async Aidle Ab Hsame.
  generalize (resolve_resumed (Http.net e) sP).
  intros s1 _ Async Aidle Ab Hsame.
  destruct (first_candidate_connects (Http.net e) a rest s1 n0
              Hsucc Hi Hmoved Aidle Ab Async)
    as (sF & F1 & F2 & F3 &
        [(Hsusp & Hloop & Hc)|(Hsusp & sW & Hloop & Wport & Wc & Hhook & Hc)]).
  - (* the connect finished inside its call *)
    rewrite Hloop.
    assert (Hgrew : (length (completions (trace sP))
                     <? length (completions (trace sF)))%nat = true).
    { rewrite Hc, Hsame, length_app. cbn. apply Nat.ltb_lt. lia. }
    rewrite Hgrew.
    change (m_op (Http.m_connect_ctx (Http.set_conn sP s0)))
      with (m_op (Http.m_connect_ctx s0)).
    rewrite Cop. unfold Http.step_at.
    change (Nat.eqb Http.p_op Http.p_op) with true. cbv iota.
    change (Http.set_conn sF (Http.set_conn sP s0)) with (Http.set_conn sF s0).
    apply Hexchange; try assumption. lia.
  - (* the connect is completed later *)
    rewrite Hloop.
    assert (Hsame2 : (length (completions (trace sP))
                      <? length (completions (trace sW)))%nat = false).
    { rewrite Wc, Hsame. apply Nat.ltb_ge. lia. }
    rewrite Hsame2.
    change (Http.set_conn sW (Http.set_conn sP s0)) with (Http.set_conn sW s0).
    unfold after_hook at 1.
    destruct f1 as [|f2]; [lia|].
    rewrite (run_loop_hook e f2 gas _ p_connect_ctx) by exact Wport.
    rewrite inner_hook_unfold; [|exact Wport|reflexivity|reflexivity].
    change (Http.conn (Http.say Http.Said_completed (Http.set_conn sW s0)))
      with sW.
    rewrite Hhook.
    assert (Hgrew : (length (completions (trace sW))
                     <? length (completions (trace sF)))%nat = true).
    { rewrite Hc, length_app. cbn. apply Nat.ltb_lt. lia. }
    rewrite Hgrew.
    change (m_op (Http.m_connect_ctx
                    (Http.say Http.Said_completed (Http.set_conn sW s0))))
      with (m_op (Http.m_connect_ctx s0)).
    rewrite Cop. unfold Http.step_at.
    change (Nat.eqb Http.p_op Http.p_op) with true. cbv iota.
    set (s0' := Http.say Http.Said_completed s0).
    change (Http.set_conn sF
              (Http.say Http.Said_completed (Http.set_conn sW s0)))
      with (Http.set_conn sF s0').
    assert (Hexchange' : forall f disp q,
               (length ns + length rs + 3 <= f)%nat ->
               stops_after (Http.sends s0 + length ns)%nat
                 (Http.recvs s0 + length rs + 1)%nat
                 (after_hook e f gas disp q
                    (Http.step e gas (Http.set_conn sF s0')))).
    { intros f disp q E4.
      unfold Http.step.
      change (Http.m_state (Http.set_conn sF s0'))
        with (Http.m_state (Http.set_conn sF s0)).
      rewrite Cst.
      apply (on_connect_label_stops e f gas disp q (Http.set_conn sF s0') ns rs);
        try assumption.
      change (Http.to_int (Http.m_sendleft s0 - m_transferred (rc_base sF))
              = sum ns).
      rewrite Cl, F2. exact Hleft. }
    apply Hexchange'. lia.
Qed.

Lemma main_completes_witness :
  exists s disp,
    Http.try_block SampleHttp.direct 9 6 SampleHttp.memory 5000 36
    = Some (Http.Stopped s, disp) /\
    Http.main SampleHttp.direct 9 6 SampleHttp.memory 5000 36
    = Some (Http.Returned 0 (Http.say Http.Said_closing (Http.dtor s))) /\
    Http.sends s = 2%nat /\ Http.recvs s = 3%nat.
Proof.
  apply (main_completes_the_exchange SampleHttp.direct 9 6 SampleHttp.memory
           5000 36 SampleRun.a3 [] 10 [20; 6] [128; 50]).
  - reflexivity.
  - reflexivity.
  - reflexivity.
  - reflexivity.
  - reflexivity.
  - reflexivity.
  - reflexivity.
  - reflexivity.
  - unfold cooperative.
    repeat match goal with |- _ /\ _ => split end; reflexivity.
  - cbn [length]. lia.
  - cbn [length]. lia.
Defined.

(** The two ways a call can fail with [err]. *)
Lemma breaks_cases :
  forall a err,
    breaks a = Some err ->
    (call_done (Http.io_call a) = false /\
     (last_error (Http.io_call a) =? ERROR_IO_PENDING) = false /\
     last_error (Http.io_call a) = err) \/
    (call_done (Http.io_call a) = false /\
     last_error (Http.io_call a) = ERROR_IO_PENDING /\
     forall c,
       m_error (socket_completion_func (Http.io_result a) c) = err).
Proof.
  intros a err H. unfold breaks in H.
  destruct (call_done (Http.io_call a)); [discriminate|].
  destruct (last_error (Http.io_call a) =? ERROR_IO_PENDING) eqn:Hp.
  - right. apply Z.eqb_eq in Hp.
    destruct (ovl_ok (Http.io_result a)) eqn:Hok; [discriminate|].
    injection H as <-.
    split; [reflexivity|]. split; [exact Hp|].
    intros c. unfold socket_completion_func. rewrite Hok. reflexivity.
  - left. injection H as <-. auto.
Qed.

Lemma classify_refused :
  forall a fl c w p,
    call_done a = false -> (last_error a =? ERROR_IO_PENDING) = false ->
    classify a fl c (os_overlapped_call p a w)
    = mkIssued true (set_flags 0 (set_error (last_error a) c)) w.
Proof.
  intros a fl c w p H1 H2. unfold classify, os_overlapped_call, is_pending.
  rewrite H1, H2. reflexivity.
Qed.

(** From [case on_send:] on, for a send that failed with [err]. *)
Lemma sent_throws :
  forall (k : unit -> Http.http_op -> option (outcome unit Http.http_op))
         err s,
    m_error (base (Http.m_ctx s)) = err -> err <> ERROR_SUCCESS ->
    Http.obind (Http.sent s) k = Some (Throws err s).
Proof.
  intros k err s Herr Hne. unfold Http.sent, Http.check, check_error.
  rewrite Herr.
  destruct (err =? ERROR_SUCCESS) eqn:E; [apply Z.eqb_eq in E; contradiction|].
  reflexivity.
Qed.

Section SendPrefix.

Variable e : Http.world.
Variable gas : nat.
Variable P : option (Http.ending * list ptr) -> Prop.
Variable need : nat.

(** The sends that take the byte counts [ns], with [rest] bytes left to
    send after them: whatever holds of the run from the head of the
    [while] loop after them holds of the run from its head before
    them. *)
Lemma send_prefix :
  forall ns g fuel disp q s rest,
    serves (Http.on_send_call e) (Http.sends s) ns = true ->
    forallb (fun n => 0 <? n) ns = true ->
    Http.m_sendleft s = sum ns + rest ->
    0 <= rest ->
    sum ns + rest < 2 ^ 31 ->
    Http.m_svc s = mkPort [] [] ->
    m_op (Http.m_ctx s) = Http.p_op ->
    (length ns + need <= g)%nat ->
    (length ns + need <= gas)%nat ->
    (length ns + need <= fuel)%nat ->
    (forall g1 fuel1 disp1 q1 s1,
        Http.sends s1 = (Http.sends s + length ns)%nat ->
        Http.recvs s1 = Http.recvs s ->
        Http.m_sendleft s1 = rest ->
        Http.m_svc s1 = mkPort [] [] ->
        m_op (Http.m_ctx s1) = Http.p_op ->
        (need <= g1)%nat ->
        (need <= fuel1)%nat ->
        P (after_hook e fuel1 gas disp1 q1 (Http.send_loop e g1 s1))) ->
    P (after_hook e fuel gas disp q (Http.send_loop e g s)).
Proof.
  induction ns as [|n0 ns IH];
    intros g fuel disp q s rest Hserves Hpos Hleft Hrest Hsum Hidle Hop
           Hg Hgas Hfuel Hthen.
  - cbn [length sum] in *.
    apply Hthen; try assumption; lia.
  - cbn [serves] in Hserves.
    destruct (moved (Http.on_send_call e (Http.sends s))) as [m|] eqn:Hm;
      [|discriminate].
    apply andb_true_iff in Hserves. destruct Hserves as [Hmn Hmore].
    apply Z.eqb_eq in Hmn. subst m.
    cbn [forallb] in Hpos. apply andb_true_iff in Hpos.
    destruct Hpos as [Hn0 Hpos]. apply Z.ltb_lt in Hn0.
    pose proof (sum_nonneg ns Hpos) as Hns.
    cbn [length sum] in *.
    assert (Hcont : forall g1 fuel1 disp1 q1 sx,
               m_error (base (Http.m_ctx sx)) = ERROR_SUCCESS ->
               m_transferred (base (Http.m_ctx sx)) = n0 ->
               Http.m_svc sx = mkPort [] [] ->
               m_op (Http.m_ctx sx) = Http.p_op ->
               Http.sends sx = S (Http.sends s) ->
               Http.recvs sx = Http.recvs s ->
               Http.m_sendleft sx = n0 + sum ns + rest ->
               (length ns + need <= g1)%nat ->
               (length ns + need <= fuel1)%nat ->
               P (after_hook e fuel1 gas disp1 q1
                    (Http.obind (Http.sent sx)
                       (fun _ s1 => Http.send_loop e g1 s1)))).
    { intros g1 fuel1 disp1 q1 sx E1 E2 E3 E4 E5 E6 E7 E8 E9.
      rewrite (sent_unfold e g1 n0 sx E1 E2).
      set (sy := Http.advance n0 (Http.say (Http.Said_sent n0) sx)).
      assert (S1 : Http.sends sy = Http.sends sx) by reflexivity.
      assert (S2 : Http.recvs sy = Http.recvs sx) by reflexivity.
      assert (S3 : Http.m_svc sy = Http.m_svc sx) by reflexivity.
      assert (S4 : m_op (Http.m_ctx sy) = m_op (Http.m_ctx sx)) by reflexivity.
      assert (S5 : Http.m_sendleft sy = Http.to_int (Http.m_sendleft sx - n0))
        by reflexivity.
      clearbody sy.
      apply (IH g1 fuel1 disp1 q1 sy rest).
      - rewrite S1, E5. exact Hmore.
      - exact Hpos.
      - rewrite S5, E7.
        replace (n0 + sum ns + rest - n0) with (sum ns + rest) by lia.
        apply to_int_small. lia.
      - exact Hrest.
      - lia.
      - congruence.
      - congruence.
      - lia.
      - lia.
      - lia.
      - intros g2 fuel2 disp2 q2 s2 F1 F2 F3 F4 F5 F6 F7.
        apply Hthen; try assumption.
        + rewrite F1, S1, E5. lia.
        + congruence. }
    destruct g as [|g']; [lia|].
    cbn [Http.send_loop]. rewrite Hleft.
    assert (Hnz0 : (n0 + sum ns + rest =? 0) = false)
      by (apply Z.eqb_neq; lia).
    rewrite Hnz0. cbv zeta.
    unfold send, send_bufs. cbn [Http.winsock_at WSASend].
    match goal with
    | |- context [Http.put (classify ?a ?fl ?c (os_overlapped_call ?p ?a ?w)) ?x] =>
        set (c0 := c); set (x0 := x);
        change a with (Http.io_call (Http.on_send_call e (Http.sends s)));
        change w with (Http.m_svc s)
    end.
    assert (X1 : Http.sends x0 = S (Http.sends s)) by reflexivity.
    assert (X2 : Http.recvs x0 = Http.recvs s) by reflexivity.
    assert (X3 : m_op (Http.m_ctx x0) = Http.p_op) by exact Hop.
    assert (X4 : Http.m_state x0 = Http.on_send) by reflexivity.
    assert (X5 : Http.m_sendleft x0 = n0 + sum ns + rest) by exact Hleft.
    assert (C0 : c0 = store_bytes
                        (bytes_stored (Http.io_call
                           (Http.on_send_call e (Http.sends s))))
                        (init (Http.m_sock s) (base (Http.m_ctx s))))
      by reflexivity.
    clearbody x0 c0. rewrite Hidle.
    destruct (moved_cases _ _ Hm) as [(Hdone & Hst)|(Hnot & Hpend & Hres)].
    + rewrite (classify_inline _ _ _ _ _ Hdone). cbn [returned negb].
      apply Hcont; try reflexivity; try assumption.
      * rewrite C0, Hst. reflexivity.
      * lia.
      * lia.
    + rewrite (classify_late _ _ _ _ _ Hnot Hpend). cbn [returned negb].
      unfold after_hook at 1.
      destruct fuel as [|fuel']; [lia|].
      rewrite (run_loop_hook e fuel' gas _ Http.p_ctx) by reflexivity.
      rewrite ctx_hook_unfold; [|reflexivity|exact X3].
      match goal with
      | |- context [Http.step e gas ?y] => set (y0 := y)
      end.
      assert (Y1 : Http.sends y0 = S (Http.sends s)) by exact X1.
      assert (Y2 : Http.recvs y0 = Http.recvs s) by exact X2.
      assert (Y3 : Http.m_state y0 = Http.on_send) by exact X4.
      assert (Y4 : Http.m_svc y0 = mkPort [] []) by reflexivity.
      assert (Y6 : m_op (Http.m_ctx y0) = Http.p_op) by reflexivity.
      assert (Y8 : Http.m_sendleft y0 = n0 + sum ns + rest) by exact X5.
      assert (Y5 : m_error (base (Http.m_ctx y0)) = ERROR_SUCCESS /\
                   m_transferred (base (Http.m_ctx y0)) = n0).
      { subst y0.
        cbn [Http.m_ctx Http.set_m_ctx base Http.m_state Http.say Http.set_out
             Http.put Http.set_m_svc Http.set_conn Http.set_m_connect_ctx
             Http.sends].
        rewrite X4, X1. cbn [pred]. apply Hres. }
      clearbody y0. destruct Y5 as [Y5 Y7].
      unfold Http.step. rewrite Y3. unfold Http.on_send_label.
      apply Hcont; try assumption; lia.
Qed.

End SendPrefix.

Section SendFailure.

Variable e : Http.world.

(** At the head of the [while] loop with bytes left to send and a send
    that fails with [err]: the exception leaves the [try] block, whether
    the call is refused or its completion reports the failure. *)
Lemma send_breaks :
  forall gas g fuel disp q s err,
    breaks (Http.on_send_call e (Http.sends s)) = Some err ->
    err <> ERROR_SUCCESS ->
    Http.m_sendleft s <> 0 ->
    Http.m_svc s = mkPort [] [] ->
    m_op (Http.m_ctx s) = Http.p_op ->
    (1 <= g)%nat ->
    (1 <= fuel)%nat ->
    throws_after err (S (Http.sends s)) (Http.recvs s) Http.on_send
      (after_hook e fuel gas disp q (Http.send_loop e g s)).
Proof.
  intros gas g fuel disp q s err Hb Hne Hleft Hidle Hop Hg Hfuel.
  destruct g as [|g']; [lia|].
  cbn [Http.send_loop].
  assert (Hnz0 : (Http.m_sendleft s =? 0) = false)
    by (apply Z.eqb_neq; exact Hleft).
  rewrite Hnz0. cbv zeta.
  unfold send, send_bufs. cbn [Http.winsock_at WSASend].
  match goal with
  | |- context [Http.put (classify ?a ?fl ?c (os_overlapped_call ?p ?a ?w)) ?x] =>
      set (c0 := c); set (x0 := x);
      change a with (Http.io_call (Http.on_send_call e (Http.sends s)));
      change w with (Http.m_svc s)
  end.
  assert (X1 : Http.sends x0 = S (Http.sends s)) by reflexivity.
  assert (X2 : Http.recvs x0 = Http.recvs s) by reflexivity.
  assert (X3 : m_op (Http.m_ctx x0) = Http.p_op) by exact Hop.
  assert (X4 : Http.m_state x0 = Http.on_send) by reflexivity.
  clearbody x0 c0. rewrite Hidle.
  destruct (breaks_cases _ _ Hb) as [(Hnot & Hnp & Herr)|(Hnot & Hpend & Hres)].
  - rewrite (classify_refused _ _ _ _ _ Hnot Hnp). cbn [returned negb].
    rewrite (sent_throws _ err) by (try exact Hne; rewrite <- Herr; reflexivity).
    cbn [after_hook].
    eexists _, _. split; [reflexivity|].
    repeat split; assumption.
  - rewrite (classify_late _ _ _ _ _ Hnot Hpend). cbn [returned negb].
    unfold after_hook at 1.
    destruct fuel as [|fuel']; [lia|].
    rewrite (run_loop_hook e fuel' gas _ Http.p_ctx) by reflexivity.
    rewrite ctx_hook_unfold; [|reflexivity|exact X3].
    match goal with
    | |- context [Http.step e gas ?y] => set (y0 := y)
    end.
    assert (Y1 : Http.sends y0 = S (Http.sends s)) by exact X1.
    assert (Y2 : Http.recvs y0 = Http.recvs s) by exact X2.
    assert (Y3 : Http.m_state y0 = Http.on_send) by exact X4.
    assert (Y5 : m_error (base (Http.m_ctx y0)) = err).
    { subst y0.
      cbn [Http.m_ctx Http.set_m_ctx base Http.m_state Http.say Http.set_out
           Http.put Http.set_m_svc Http.set_conn Http.set_m_connect_ctx
           Http.sends].
      rewrite X4, X1. cbn [pred]. apply Hres. }
    clearbody y0.
    unfold Http.step. rewrite Y3. unfold Http.on_send_label.
    rewrite (sent_throws _ err) by assumption.
    cbn [after_hook].
    eexists _, _. split; [reflexivity|].
    repeat split; assumption.
Qed.

End SendFailure.

(** X13: a failed send ends the program, with its code.  When [step()]
    is resumed at [on_connect] with a successful connect recorded and
    nothing outstanding, the sends that follow take the byte counts [ns]
    without using up what is left to send, and the next send fails with
    a code [err] that is not zero, the exception with that code leaves
    the [try] block of [main], thrown at [case on_send:]; no receive has
    been made, whether the failing call was refused at once or its
    completion brought the failure. *)
Theorem failed_send_is_reported :
  forall e fuel gas disp q s ns err,
    Http.m_state s = Http.on_connect ->
    m_error (rc_base (Http.conn s)) = ERROR_SUCCESS ->
    Http.m_svc s = mkPort [] [] ->
    m_op (Http.m_ctx s) = Http.p_op ->
    serves (Http.on_send_call e) (Http.sends s) ns = true ->
    forallb (fun n => 0 <? n) ns = true ->
    sum ns
    < Http.to_int (Http.m_sendleft s - m_transferred (rc_base (Http.conn s))) ->
    breaks (Http.on_send_call e (Http.sends s + length ns)) = Some err ->
    err <> ERROR_SUCCESS ->
    (length ns + 1 <= gas)%nat ->
    (length ns + 1 <= fuel)%nat ->
    throws_after err (Http.sends s + length ns + 1)%nat (Http.recvs s)
      Http.on_send
      (after_hook e fuel gas disp q (Http.step e gas s)).
Proof.
  intros e fuel gas disp q s ns err Hst Herr Hidle Hop Hserves Hpos Hsum
         Hb Hne Hgas Hfuel.
  unfold Http.step. rewrite Hst.
  unfold Http.on_connect_label, Http.check, check_error.
  rewrite Herr. change (ERROR_SUCCESS =? ERROR_SUCCESS) with true.
  cbn [Http.obind]. cbv zeta. unfold transferred.
  change (Http.conn (Http.say
            (Http.Said_connected (m_transferred (rc_base (Http.conn s)))) s))
    with (Http.conn s).
  set (t0 := m_transferred (rc_base (Http.conn s))) in *.
  set (s0 := Http.advance t0 (Http.say (Http.Said_connected t0) s)).
  assert (A1 : Http.sends s0 = Http.sends s) by reflexivity.
  assert (A2 : Http.recvs s0 = Http.recvs s) by reflexivity.
  assert (A3 : Http.m_svc s0 = Http.m_svc s) by reflexivity.
  assert (A4 : m_op (Http.m_ctx s0) = m_op (Http.m_ctx s)) by reflexivity.
  assert (A5 : Http.m_sendleft s0 = Http.to_int (Http.m_sendleft s - t0))
    by reflexivity.
  clearbody s0.
  assert (Hrange : Http.to_int (Http.m_sendleft s - t0) < 2 ^ 31).
  { unfold Http.to_int.
    pose proof (Z.mod_pos_bound (Http.m_sendleft s - t0 + 2 ^ 31) (2 ^ 32)
                  ltac:(lia)). lia. }
  apply (send_prefix e gas
           (throws_after err (Http.sends s + length ns + 1)%nat (Http.recvs s)
              Http.on_send)
           1%nat ns gas fuel disp q s0
           (Http.to_int (Http.m_sendleft s - t0) - sum ns)).
  - rewrite A1. exact Hserves.
  - exact Hpos.
  - rewrite A5. lia.
  - lia.
  - lia.
  - congruence.
  - congruence.
  - lia.
  - lia.
  - lia.
  - intros g1 fuel1 disp1 q1 s1 F1 F2 F3 F4 F5 F6 F7.
    replace (Http.sends s + length ns + 1)%nat with (S (Http.sends s1))
      by (rewrite F1, A1; lia).
    replace (Http.recvs s) with (Http.recvs s1) by congruence.
    apply send_breaks; try assumption.
    + rewrite F1, A1. exact Hb.
    + rewrite F3. lia.
Qed.

Lemma failed_send_witness :
  throws_after 10054 2 0 Http.on_send
    (after_hook SampleHttp.bad_send 2 2 [] p_connect_ctx
       (Http.step SampleHttp.bad_send 2 SampleHttp.connected)).
Proof.
  apply (failed_send_is_reported SampleHttp.bad_send 2 2 [] p_connect_ctx
           SampleHttp.connected [20] 10054).
  - reflexivity.
  - reflexivity.
  - reflexivity.
  - reflexivity.
  - reflexivity.
  - reflexivity.
  - vm_compute. reflexivity.
  - reflexivity.
  - discriminate.
  - cbn [length]. lia.
  - cbn [length]. lia.
Defined.

(** X14: [step()] does not return while data is ready.  When every
    receive from the next one on finishes at once with a byte count that
    is not zero, the [do ... while] loop is never left: no number of
    iterations brings [step()] to a [return], so the loop of [main] does
    not get to run again. *)
Theorem step_keeps_the_thread_while_data_is_ready :
  forall e s,
    (forall j, (Http.recvs s <= j)%nat ->
               ready_with_data (Http.on_recv_call e j) = true) ->
    forall gas, Http.receive_loop e gas s = None.
Proof.
  intros e s Hready gas. revert s Hready.
  induction gas as [|g IH]; intros s Hready; [reflexivity|].
  pose proof (Hready (Http.recvs s) (Nat.le_refl _)) as H0.
  unfold ready_with_data in H0. apply andb_true_iff in H0.
  destruct H0 as [Hdone Hn].
  destruct (bytes_stored (Http.io_call (Http.on_recv_call e (Http.recvs s))))
    as [n|] eqn:Hst; [|discriminate].
  apply negb_true_iff in Hn.
  cbn [Http.receive_loop]. cbv zeta.
  unfold receive, receive_bufs. cbn [Http.winsock_at WSARecv].
  match goal with
  | |- context [Http.put (classify ?a ?fl ?c (os_overlapped_call ?p ?a ?w)) ?x] =>
      set (fl0 := fl); set (c0 := c); set (x0 := x); set (w0 := w);
      change a with (Http.io_call (Http.on_recv_call e (Http.recvs s)))
  end.
  assert (X2 : Http.recvs x0 = S (Http.recvs s)) by reflexivity.
  assert (C0 : c0 = store_bytes
                      (bytes_stored (Http.io_call
                         (Http.on_recv_call e (Http.recvs s))))
                      (init (Http.m_sock s) (base (Http.m_ctx s))))
    by reflexivity.
  clearbody x0 c0 fl0 w0.
  rewrite (classify_inline _ _ _ _ _ Hdone). cbn [returned negb].
  match goal with
  | |- Http.obind (Http.received ?y) _ = _ => set (sx := y)
  end.
  assert (E1 : m_error (base (Http.m_ctx sx)) = ERROR_SUCCESS) by reflexivity.
  assert (E2 : m_transferred (base (Http.m_ctx sx)) = n)
    by (subst sx; cbn; rewrite C0, Hst; reflexivity).
  assert (E3 : Http.recvs sx = S (Http.recvs s)) by exact X2.
  clearbody sx.
  rewrite (received_unfold e g n sx E1 E2). rewrite Hn.
  apply IH. intros j Hj. apply Hready.
  change (Http.recvs (Http.say (Http.Said_received n) sx))
    with (Http.recvs sx) in Hj. lia.
Qed.

Lemma ready_data_witness :
  Http.receive_loop SampleHttp.flood 1000 SampleHttp.connected = None.
Proof.
  apply (step_keeps_the_thread_while_data_is_ready SampleHttp.flood
           SampleHttp.connected).
  intros j _. reflexivity.
Defined.
